(** * TinySTM, write-back encounter-time-locking back end

    A shallow embedding of [stm_internal.h], [stm_wbetl.h] and [stm.c]
    (64-bit build, [DESIGN == WRITE_BACK_ETL], assertions compiled in)
    and the properties of the lock-word encoding, snapshot extension,
    transactional store and load, commit and rollback.

    Conventions of the embedding.
    - [stm_word_t] is a [Z] in [0, 2^64); wrap-around is written out
      with [wrap].
    - A pointer is the [Z] of its address, [NULL] is [0].  A pointer to a
      lock word [_tinystm.locks + i] is represented by its index [i].
    - One transaction descriptor runs against the shared engine state;
      other transactions are visible only through the lock words they
      own.  Atomic operations are sequentially consistent steps of this
      one thread; a wait for another thread is the outcome [Blocked].
    - Every store to shared memory (application words, lock words, the
      clock) is also appended to a history, so that the order and the
      number of stores can be stated. *)

From Stdlib Require Import ZArith Lia Bool List.
From stdpp Require Import base list.

Local Open Scope Z_scope.

(** ** Machine words *)

Module Word.

Definition WORD_BITS : Z := 64.
Definition modulus : Z := 2 ^ WORD_BITS.

(** Reduction of a mathematical integer to an [stm_word_t]. *)
Definition wrap (z : Z) : Z := z mod modulus.

(** [~(stm_word_t)0]. *)
Definition ones : Z := modulus - 1.

(** [~x] on an [stm_word_t]. *)
Definition not (x : Z) : Z := Z.lxor x ones.

Definition add (x y : Z) : Z := wrap (x + y).
Definition sub (x y : Z) : Z := wrap (x - y).
Definition shl (x n : Z) : Z := wrap (Z.shiftl x n).
Definition shr (x n : Z) : Z := Z.shiftr x n.

Definition in_range (x : Z) : Prop := 0 <= x < modulus.

End Word.

(** ** Lock words ([stm_internal.h], section LOCKS) *)

Definition OWNED_BITS : Z := 1.
Definition WRITE_MASK : Z := 1.
Definition OWNED_MASK : Z := WRITE_MASK.
Definition INCARNATION_BITS : Z := 3.
Definition INCARNATION_MAX : Z := Z.shiftl 1 INCARNATION_BITS - 1.
Definition INCARNATION_MASK : Z := Z.shiftl INCARNATION_MAX 1.
Definition LOCK_BITS : Z := OWNED_BITS + INCARNATION_BITS.
Definition MAX_THREADS : Z := 8192.
Definition VERSION_MAX : Z := Word.shr Word.ones LOCK_BITS - MAX_THREADS.

Definition LOCK_GET_OWNED (l : Z) : Z := Z.land l OWNED_MASK.
Definition LOCK_GET_WRITE (l : Z) : Z := Z.land l WRITE_MASK.
Definition LOCK_SET_ADDR_WRITE (a : Z) : Z := Z.lor a WRITE_MASK.
Definition LOCK_GET_ADDR (l : Z) : Z := Z.land l (Word.not OWNED_MASK).
Definition LOCK_GET_TIMESTAMP (l : Z) : Z := Word.shr l LOCK_BITS.
Definition LOCK_SET_TIMESTAMP (t : Z) : Z := Word.shl t LOCK_BITS.
Definition LOCK_GET_INCARNATION (l : Z) : Z :=
  Word.shr (Z.land l INCARNATION_MASK) OWNED_BITS.
Definition LOCK_SET_INCARNATION (i : Z) : Z := Word.shl i OWNED_BITS.
Definition LOCK_UPD_INCARNATION (l i : Z) : Z :=
  Z.lor (Z.land l (Word.not (Z.lor INCARNATION_MASK OWNED_MASK)))
        (LOCK_SET_INCARNATION i).

(** The lock array and the hash of an address. *)
Definition LOCK_ARRAY_LOG_SIZE : Z := 20.
Definition LOCK_SHIFT_EXTRA : Z := 2.
Definition LOCK_ARRAY_SIZE : Z := Z.shiftl 1 LOCK_ARRAY_LOG_SIZE.
Definition LOCK_MASK : Z := LOCK_ARRAY_SIZE - 1.
Definition LOCK_SHIFT : Z := 3 + LOCK_SHIFT_EXTRA.
Definition LOCK_IDX (a : Z) : Z := Z.land (Word.shr a LOCK_SHIFT) LOCK_MASK.
Definition GET_LOCK (a : Z) : Z := LOCK_IDX a.

(** ** Transaction status ([stm_internal.h], section TYPES) *)

Definition TX_IDLE : Z := 0.
Definition TX_ACTIVE : Z := 1.
Definition TX_COMMITTED : Z := Z.shiftl 1 1.
Definition TX_ABORTED : Z := Z.shiftl 2 1.
Definition TX_COMMITTING : Z := Z.lor (Z.shiftl 1 1) TX_ACTIVE.
Definition TX_ABORTING : Z := Z.lor (Z.shiftl 2 1) TX_ACTIVE.
Definition TX_KILLED : Z := Z.lor (Z.shiftl 3 1) TX_ACTIVE.
Definition TX_IRREVOCABLE : Z := Z.lor 8 TX_ACTIVE.

Definition IS_ACTIVE (s : Z) : bool := Z.land s 1 =? TX_ACTIVE.

(** ** What the build takes from headers that are not among the sources

    [stm.h] gives the abort-reason constants, [utils.h] the cache-line
    size and [xrealloc]; they are parameters of the development.
    [xrealloc p n] is the address of the block after resizing the block
    at [p] to [n] bytes. *)

Record platform : Type := {
  CACHELINE_SIZE : Z;
  xrealloc : Z -> Z -> Z;
  STM_PATH_INSTRUMENTED : Z;
  STM_ABORT_EXPLICIT : Z;
  STM_ABORT_NO_RETRY : Z;
  STM_ABORT_RW_CONFLICT : Z;
  STM_ABORT_WW_CONFLICT : Z;
  STM_ABORT_VAL_READ : Z;
  STM_ABORT_VAL_WRITE : Z;
  STM_ABORT_VALIDATE : Z;
  STM_ABORT_IRREVOCABLE : Z;
  STM_ABORT_EXTEND_WS : Z
}.

(** ** Read and write sets, descriptor, engine state *)

(** [r_entry_t]. *)
Record r_entry : Type := {
  r_version : Z;      (* version read *)
  r_lock : Z          (* lock covering the address read *)
}.

(** [r_set_t]: [rs_slots] is the array [entries] with all its [size]
    slots, of which the first [rs_nb_entries] are in use.  The address of
    the array is never stored or compared and is left out. *)
Record r_set_t : Type := {
  rs_slots : list r_entry;
  rs_nb_entries : nat;
  rs_size : nat
}.

(** [w_entry_t]. *)
Record w_entry : Type := {
  w_addr : Z;         (* address written *)
  w_value : Z;        (* new value *)
  w_mask : Z;         (* write mask *)
  w_version : Z;      (* version overwritten *)
  w_lock : Z;         (* lock covering the address *)
  w_next : Z          (* next entry covered by the same lock, or NULL *)
}.

(** [w_set_t]: [ws_entries] is the pointer [entries], [ws_slots] the
    content of the array it points to. *)
Record w_set_t : Type := {
  ws_entries : Z;
  ws_slots : list w_entry;
  ws_nb_entries : nat;
  ws_size : nat;
  ws_has_writes : nat
}.

(** The two attributes of [stm_tx_attr_t] that the core reads. *)
Record stm_tx_attr_t : Type := {
  read_only : bool;
  no_retry : bool
}.

(** [stm_tx_t].  [tx_irrevocable] is read by [stm_wbetl.h] but the
    descriptor of [stm_internal.h] does not declare it and nothing sets
    it; it is kept as a field so that the guards on it stay visible.  The
    [env] buffer is represented by the outcome [LongJmp]; [data] and
    [next] are not used by the functions embedded here. *)
Record stm_tx_t : Type := {
  tx_attr : stm_tx_attr_t;
  tx_status : Z;
  tx_start : Z;
  tx_end : Z;
  tx_r_set : r_set_t;
  tx_w_set : w_set_t;
  tx_nesting : Z;
  tx_irrevocable : Z
}.

(** [cb_entry_t]: a callback is identified by the addresses of its
    function and argument. *)
Record cb_entry : Type := {
  cb_f : Z;
  cb_arg : Z
}.

(** The part of [global_t] the core uses.  [g_irrevocable] is read by
    [stm_wbetl_commit] but not declared in [global_t]; as for
    [tx_irrevocable] it is kept as a field. *)
Record global_t : Type := {
  g_locks : Z -> Z;
  g_clock : Z;
  g_precommit_cb : list cb_entry;
  g_commit_cb : list cb_entry;
  g_abort_cb : list cb_entry;
  g_quiesce : Z;
  g_threads_nb : Z;
  g_irrevocable : Z
}.

(** Stores to shared memory and calls of module callbacks, as they
    happen. *)
Inductive event : Type :=
| EvStore (addr value : Z)           (* ATOMIC_STORE to an application word *)
| EvLockStore (lock value : Z)       (* ATOMIC_STORE / ATOMIC_STORE_REL to a lock *)
| EvLockCAS (lock old new : Z)       (* successful ATOMIC_CAS_FULL on a lock *)
| EvClockInc (old : Z)               (* FETCH_INC_CLOCK *)
| EvRollover                         (* rollover_clock *)
| EvCallback (f arg : Z).            (* a module callback is called *)

(** The state a transactional operation runs against: the engine, the
    application memory, the descriptor of the calling thread and the
    history (most recent event first). *)
Record state : Type := {
  st_g : global_t;
  st_mem : Z -> Z;
  st_tx : stm_tx_t;
  st_hist : list event
}.

(** *** Field updates *)

Definition upd (f : Z -> Z) (k v : Z) : Z -> Z :=
  fun x => if x =? k then v else f x.

Definition set_locks (f : Z -> Z) (g : global_t) : global_t :=
  {| g_locks := f; g_clock := g_clock g; g_precommit_cb := g_precommit_cb g;
     g_commit_cb := g_commit_cb g; g_abort_cb := g_abort_cb g;
     g_quiesce := g_quiesce g; g_threads_nb := g_threads_nb g;
     g_irrevocable := g_irrevocable g |}.

Definition set_clock (c : Z) (g : global_t) : global_t :=
  {| g_locks := g_locks g; g_clock := c; g_precommit_cb := g_precommit_cb g;
     g_commit_cb := g_commit_cb g; g_abort_cb := g_abort_cb g;
     g_quiesce := g_quiesce g; g_threads_nb := g_threads_nb g;
     g_irrevocable := g_irrevocable g |}.

Definition set_quiesce (q : Z) (g : global_t) : global_t :=
  {| g_locks := g_locks g; g_clock := g_clock g; g_precommit_cb := g_precommit_cb g;
     g_commit_cb := g_commit_cb g; g_abort_cb := g_abort_cb g;
     g_quiesce := q; g_threads_nb := g_threads_nb g;
     g_irrevocable := g_irrevocable g |}.

Definition set_threads_nb (n : Z) (g : global_t) : global_t :=
  {| g_locks := g_locks g; g_clock := g_clock g; g_precommit_cb := g_precommit_cb g;
     g_commit_cb := g_commit_cb g; g_abort_cb := g_abort_cb g;
     g_quiesce := g_quiesce g; g_threads_nb := n;
     g_irrevocable := g_irrevocable g |}.

Definition set_status (v : Z) (tx : stm_tx_t) : stm_tx_t :=
  {| tx_attr := tx_attr tx; tx_status := v; tx_start := tx_start tx;
     tx_end := tx_end tx; tx_r_set := tx_r_set tx; tx_w_set := tx_w_set tx;
     tx_nesting := tx_nesting tx; tx_irrevocable := tx_irrevocable tx |}.

Definition set_start (v : Z) (tx : stm_tx_t) : stm_tx_t :=
  {| tx_attr := tx_attr tx; tx_status := tx_status tx; tx_start := v;
     tx_end := tx_end tx; tx_r_set := tx_r_set tx; tx_w_set := tx_w_set tx;
     tx_nesting := tx_nesting tx; tx_irrevocable := tx_irrevocable tx |}.

Definition set_end (v : Z) (tx : stm_tx_t) : stm_tx_t :=
  {| tx_attr := tx_attr tx; tx_status := tx_status tx; tx_start := tx_start tx;
     tx_end := v; tx_r_set := tx_r_set tx; tx_w_set := tx_w_set tx;
     tx_nesting := tx_nesting tx; tx_irrevocable := tx_irrevocable tx |}.

Definition set_r_set (v : r_set_t) (tx : stm_tx_t) : stm_tx_t :=
  {| tx_attr := tx_attr tx; tx_status := tx_status tx; tx_start := tx_start tx;
     tx_end := tx_end tx; tx_r_set := v; tx_w_set := tx_w_set tx;
     tx_nesting := tx_nesting tx; tx_irrevocable := tx_irrevocable tx |}.

Definition set_w_set (v : w_set_t) (tx : stm_tx_t) : stm_tx_t :=
  {| tx_attr := tx_attr tx; tx_status := tx_status tx; tx_start := tx_start tx;
     tx_end := tx_end tx; tx_r_set := tx_r_set tx; tx_w_set := v;
     tx_nesting := tx_nesting tx; tx_irrevocable := tx_irrevocable tx |}.

Definition set_nesting (v : Z) (tx : stm_tx_t) : stm_tx_t :=
  {| tx_attr := tx_attr tx; tx_status := tx_status tx; tx_start := tx_start tx;
     tx_end := tx_end tx; tx_r_set := tx_r_set tx; tx_w_set := tx_w_set tx;
     tx_nesting := v; tx_irrevocable := tx_irrevocable tx |}.

Definition with_g (f : global_t -> global_t) (s : state) : state :=
  {| st_g := f (st_g s); st_mem := st_mem s; st_tx := st_tx s; st_hist := st_hist s |}.

Definition with_mem (f : (Z -> Z) -> Z -> Z) (s : state) : state :=
  {| st_g := st_g s; st_mem := f (st_mem s); st_tx := st_tx s; st_hist := st_hist s |}.

Definition with_tx (f : stm_tx_t -> stm_tx_t) (s : state) : state :=
  {| st_g := st_g s; st_mem := st_mem s; st_tx := f (st_tx s); st_hist := st_hist s |}.

Definition record (e : event) (s : state) : state :=
  {| st_g := st_g s; st_mem := st_mem s; st_tx := st_tx s; st_hist := e :: st_hist s |}.

(** ** Outcomes and the monad of operations *)

Inductive outcome (A : Type) : Type :=
| Ret (v : A) (s : state)            (* the function returns [v] *)
| LongJmp (reason : Z) (s : state)   (* LONGJMP(tx->env, reason): control leaves for the retry point *)
| AssertFail (s : state)             (* an assert() fails *)
| Blocked (s : state)                (* the thread waits for another thread *)
| Fault (s : state)                  (* access outside the read- or write-set array *)
| Diverge (s : state).               (* the iteration bound of the model is exhausted *)

Arguments Ret {A} v s.
Arguments LongJmp {A} reason s.
Arguments AssertFail {A} s.
Arguments Blocked {A} s.
Arguments Fault {A} s.
Arguments Diverge {A} s.

Definition M (A : Type) : Type := state -> outcome A.

Definition ret {A} (v : A) : M A := fun s => Ret v s.

Definition bind {A B} (m : M A) (k : A -> M B) : M B :=
  fun s =>
    match m s with
    | Ret v s' => k v s'
    | LongJmp r s' => LongJmp r s'
    | AssertFail s' => AssertFail s'
    | Blocked s' => Blocked s'
    | Fault s' => Fault s'
    | Diverge s' => Diverge s'
    end.

Declare Scope stm_scope.
Delimit Scope stm_scope with stm.
Notation "x <- m ;; k" := (bind m (fun x => k))
  (at level 100, m at next level, right associativity) : stm_scope.
Notation "m ;;; k" := (bind m (fun _ => k))
  (at level 100, right associativity) : stm_scope.
Local Open Scope stm_scope.

Definition gets {A} (f : state -> A) : M A := fun s => Ret (f s) s.
Definition modify (f : state -> state) : M unit := fun s => Ret tt (f s).
Definition assert (b : state -> bool) : M unit :=
  fun s => if b s then Ret tt s else AssertFail s.
Definition longjmp {A} (reason : Z) : M A := fun s => LongJmp reason s.
Definition block {A} : M A := fun s => Blocked s.
Definition fault {A} : M A := fun s => Fault s.
Definition diverge {A} : M A := fun s => Diverge s.

(** The state an outcome ends in. *)
Definition final {A} (o : outcome A) : state :=
  match o with
  | Ret _ s | LongJmp _ s | AssertFail s | Blocked s | Fault s | Diverge s => s
  end.

(** The value of a jump to the retry point. *)
Definition jump_of {A} (o : outcome A) : option Z :=
  match o with
  | LongJmp r _ => Some r
  | _ => None
  end.

(** ** Atomic operations ([atomic.h]) on the three kinds of shared words *)

Definition load_lock (lock : Z) : M Z := gets (fun s => g_locks (st_g s) lock).

Definition st_store_lock (lock v : Z) (s : state) : state :=
  record (EvLockStore lock v) (with_g (fun g => set_locks (upd (g_locks g) lock v) g) s).

Definition store_lock (lock v : Z) : M unit := modify (st_store_lock lock v).

(** [ATOMIC_CAS_FULL(lock, old, new)]: nonzero when the swap happened. *)
Definition cas_lock (lock old new : Z) : M Z :=
  fun s =>
    if g_locks (st_g s) lock =? old
    then Ret 1 (record (EvLockCAS lock old new)
                  (with_g (fun g => set_locks (upd (g_locks g) lock new) g) s))
    else Ret 0 s.

Definition load_mem (addr : Z) : M Z := gets (fun s => st_mem s addr).

Definition st_store_mem (addr v : Z) (s : state) : state :=
  record (EvStore addr v) (with_mem (fun m => upd m addr v) s).

Definition store_mem (addr v : Z) : M unit := modify (st_store_mem addr v).

Definition GET_CLOCK : M Z := gets (fun s => g_clock (st_g s)).

Definition FETCH_INC_CLOCK : M Z :=
  fun s =>
    let c := g_clock (st_g s) in
    Ret c (record (EvClockInc c) (with_g (set_clock (Word.add c 1)) s)).

Definition get_tx : M stm_tx_t := gets st_tx.
Definition put_tx (f : stm_tx_t -> stm_tx_t) : M unit := modify (with_tx f).

Section Engine.

Variable P : platform.

(** ** Pointers into the write-set array *)

(** [sizeof(w_entry_t)]: six words, padded to the cache line. *)
Definition sizeof_w_entry_t : Z := 8 * ((Z.max 48 (CACHELINE_SIZE P) + 7) / 8).

(** [&ws.entries[i]]. *)
Definition w_ptr (ws : w_set_t) (i : nat) : Z :=
  ws_entries ws + Z.of_nat i * sizeof_w_entry_t.

(** [tx->w_set.entries <= w && w < tx->w_set.entries + tx->w_set.nb_entries]. *)
Definition ws_contains (ws : w_set_t) (w : Z) : bool :=
  (ws_entries ws <=? w) && (w <? w_ptr ws (ws_nb_entries ws)).

(** The slot a pointer designates, when it is the address of a slot. *)
Definition w_index (ws : w_set_t) (w : Z) : option nat :=
  if (ws_entries ws <=? w) && ((w - ws_entries ws) mod sizeof_w_entry_t =? 0)
  then Some (Z.to_nat ((w - ws_entries ws) / sizeof_w_entry_t))
  else None.

Definition w_lookup (ws : w_set_t) (w : Z) : option w_entry :=
  match w_index ws w with
  | Some i => ws_slots ws !! i
  | None => None
  end.

Definition set_slots (l : list w_entry) (ws : w_set_t) : w_set_t :=
  {| ws_entries := ws_entries ws; ws_slots := l;
     ws_nb_entries := ws_nb_entries ws; ws_size := ws_size ws;
     ws_has_writes := ws_has_writes ws |}.

(** Reading [*w]. *)
Definition w_deref (w : Z) : M w_entry :=
  fun s =>
    match w_lookup (tx_w_set (st_tx s)) w with
    | Some e => Ret e s
    | None => Fault s
    end.

(** Assigning fields of [*w]. *)
Definition w_assign (w : Z) (f : w_entry -> w_entry) : M unit :=
  fun s =>
    let ws := tx_w_set (st_tx s) in
    match w_index ws w with
    | Some i =>
        match ws_slots ws !! i with
        | Some e => Ret tt (with_tx (set_w_set (set_slots (<[i := f e]> (ws_slots ws)) ws)) s)
        | None => Fault s
        end
    | None => Fault s
    end.

Definition set_w_value (v : Z) (e : w_entry) : w_entry :=
  {| w_addr := w_addr e; w_value := v; w_mask := w_mask e;
     w_version := w_version e; w_lock := w_lock e; w_next := w_next e |}.

Definition set_w_mask (v : Z) (e : w_entry) : w_entry :=
  {| w_addr := w_addr e; w_value := w_value e; w_mask := v;
     w_version := w_version e; w_lock := w_lock e; w_next := w_next e |}.

Definition set_w_next (v : Z) (e : w_entry) : w_entry :=
  {| w_addr := w_addr e; w_value := w_value e; w_mask := w_mask e;
     w_version := w_version e; w_lock := w_lock e; w_next := v |}.

(** Content of array slots that were never written. *)
Definition w_uninit : w_entry :=
  {| w_addr := 0; w_value := 0; w_mask := 0; w_version := 0; w_lock := 0; w_next := 0 |}.
Definition r_uninit : r_entry := {| r_version := 0; r_lock := 0 |}.

(** ** [stm_wbetl_validate] and [stm_wbetl_extend] *)

(** The loop [for (i = nb_entries; i > 0; i--, r++)]; [r] is the index
    of the entry [r] points to. *)
Fixpoint validate_loop (i r : nat) : M Z :=
  match i with
  | O => ret 1
  | S i' =>
      tx <- get_tx ;;
      match rs_slots (tx_r_set tx) !! r with
      | None => fault
      | Some e =>
          l <- load_lock (r_lock e) ;;
          if negb (LOCK_GET_OWNED l =? 0) then
            let w := LOCK_GET_ADDR l in
            if negb (ws_contains (tx_w_set tx) w) then ret 0
            else validate_loop i' (S r)
          else
            if negb (LOCK_GET_TIMESTAMP l =? r_version e) then ret 0
            else validate_loop i' (S r)
      end
  end.

Definition stm_wbetl_validate : M Z :=
  tx <- get_tx ;;
  validate_loop (rs_nb_entries (tx_r_set tx)) 0.

Definition stm_wbetl_extend : M Z :=
  now <- GET_CLOCK ;;
  ok <- stm_wbetl_validate ;;
  if negb (ok =? 0) then
    put_tx (set_end now) ;;;
    ret 1
  else ret 0.

(** ** [stm_wbetl_rollback] *)

Fixpoint rollback_loop (i w : nat) : M unit :=
  match i with
  | O => ret tt
  | S i' =>
      tx <- get_tx ;;
      match ws_slots (tx_w_set tx) !! w with
      | None => fault
      | Some e =>
          (if w_next e =? 0
           then store_lock (w_lock e) (LOCK_SET_TIMESTAMP (w_version e))
           else ret tt) ;;;
          rollback_loop i' (S w)
      end
  end.

Definition stm_wbetl_rollback : M unit :=
  assert (fun s => IS_ACTIVE (tx_status (st_tx s))) ;;;
  tx <- get_tx ;;
  let i := ws_nb_entries (tx_w_set tx) in
  if (0 <? i)%nat then rollback_loop i 0 else ret tt.

(** ** [stm_has_read]: index of the first entry for [lock], or [None]
    for [NULL] *)

Fixpoint has_read_loop (i r : nat) (lock : Z) : M (option nat) :=
  match i with
  | O => ret None
  | S i' =>
      tx <- get_tx ;;
      match rs_slots (tx_r_set tx) !! r with
      | None => fault
      | Some e =>
          if r_lock e =? lock then ret (Some r)
          else has_read_loop i' (S r) lock
      end
  end.

Definition stm_has_read (lock : Z) : M (option nat) :=
  tx <- get_tx ;;
  has_read_loop (rs_nb_entries (tx_r_set tx)) 0 lock.

(** ** [stm_allocate_rs_entries] and [stm_allocate_ws_entries] with
    [extend != 0] *)

Definition stm_allocate_rs_entries : M unit :=
  put_tx (fun tx =>
    let rs := tx_r_set tx in
    let size := (rs_size rs * 2)%nat in
    set_r_set {| rs_slots := resize size r_uninit (rs_slots rs);
                 rs_nb_entries := rs_nb_entries rs;
                 rs_size := size |} tx).

Definition ws_realloc (tx : stm_tx_t) : stm_tx_t :=
  let ws := tx_w_set tx in
  let size := (ws_size ws * 2)%nat in
  set_w_set {| ws_entries := xrealloc P (ws_entries ws) (Z.of_nat size * sizeof_w_entry_t);
               ws_slots := resize size w_uninit (ws_slots ws);
               ws_nb_entries := ws_nb_entries ws;
               ws_size := size;
               ws_has_writes := ws_has_writes ws |} tx.

Definition stm_allocate_ws_entries : M unit :=
  put_tx ws_realloc ;;;
  assert (fun s => Z.land (ws_entries (tx_w_set (st_tx s))) OWNED_MASK =? 0).

(** ** Quiescence and [int_stm_prepare] *)

Definition st_rollover (s : state) : state :=
  record EvRollover (with_g (fun g => set_locks (fun _ => 0) (set_clock 0 g)) s).

Definition rollover_clock : M unit := modify st_rollover.

(** [stm_quiesce_barrier(tx, rollover_clock, NULL)].  The body of
    [while (_tinystm.quiesce)] either runs the action and clears the
    flag, which ends the loop, or waits on the condition variable. *)
Definition stm_quiesce_barrier : M unit :=
  assert (fun s => negb (IS_ACTIVE (tx_status (st_tx s)))) ;;;
  modify (with_g (fun g => set_threads_nb (Word.sub (g_threads_nb g) 1) g)) ;;;
  modify (with_g (fun g => if g_quiesce g =? 0 then set_quiesce 1 g else g)) ;;;
  g <- gets st_g ;;
  (if g_quiesce g =? 0 then ret tt
   else if g_threads_nb g =? 0 then
     rollover_clock ;;;
     modify (with_g (set_quiesce 0))
   else block) ;;;
  modify (with_g (fun g => set_threads_nb (Word.add (g_threads_nb g) 1) g)).

(** [stm_check_quiesce]: the spin on the flag ends only when another
    thread clears it. *)
Definition stm_check_quiesce : M Z :=
  assert (fun s => IS_ACTIVE (tx_status (st_tx s))) ;;;
  g <- gets st_g ;;
  if g_quiesce g =? 2 then
    put_tx (set_status TX_IDLE) ;;;
    block
  else ret 0.

(** The label [start:] of [int_stm_prepare]. *)
Fixpoint prepare_start (fuel : nat) : M unit :=
  match fuel with
  | O => diverge
  | S fuel' =>
      now <- GET_CLOCK ;;
      put_tx (fun tx => set_start now (set_end now tx)) ;;;
      if VERSION_MAX <=? now then
        stm_quiesce_barrier ;;;
        prepare_start fuel'
      else ret tt
  end.

(** [int_stm_prepare].  The barrier returns only after the rollover,
    with the clock at 0, so [start:] is reached at most twice. *)
Definition int_stm_prepare : M unit :=
  put_tx (fun tx =>
    let ws := tx_w_set tx in
    let rs := tx_r_set tx in
    set_r_set {| rs_slots := rs_slots rs; rs_nb_entries := 0; rs_size := rs_size rs |}
      (set_w_set {| ws_entries := ws_entries ws; ws_slots := ws_slots ws;
                    ws_nb_entries := 0; ws_size := ws_size ws;
                    ws_has_writes := 0 |} tx)) ;;;
  prepare_start 2 ;;;
  put_tx (set_status TX_ACTIVE) ;;;
  stm_check_quiesce ;;;
  ret tt.

(** ** [stm_rollback] *)

Fixpoint run_callbacks (cbs : list cb_entry) : M unit :=
  match cbs with
  | [] => ret tt
  | cb :: cbs' =>
      modify (record (EvCallback (cb_f cb) (cb_arg cb))) ;;;
      run_callbacks cbs'
  end.

Definition stm_rollback (reason : Z) : M unit :=
  assert (fun s => IS_ACTIVE (tx_status (st_tx s))) ;;;
  stm_wbetl_rollback ;;;
  put_tx (set_status TX_ABORTED) ;;;
  (if reason =? STM_ABORT_EXTEND_WS P then stm_allocate_ws_entries else ret tt) ;;;
  put_tx (set_nesting 1) ;;;
  g <- gets st_g ;;
  run_callbacks (g_abort_cb g) ;;;
  tx <- get_tx ;;
  if no_retry (tx_attr tx)
     || (Z.land reason (STM_ABORT_NO_RETRY P) =? STM_ABORT_NO_RETRY P)
  then put_tx (set_nesting 0)
  else
    int_stm_prepare ;;;
    longjmp (Z.lor reason (STM_PATH_INSTRUMENTED P)).


(** [int_stm_aborted]. *)
Definition int_stm_aborted (tx : stm_tx_t) : bool := tx_status tx =? TX_ABORTED.

(** [int_stm_active]. *)
Definition int_stm_active (tx : stm_tx_t) : bool := IS_ACTIVE (tx_status tx).

(** ** [stm_wbetl_read_invisible] *)

(** The loop [while (1)] over the bucket that starts at [w]. *)
Fixpoint read_walk (fuel : nat) (addr w : Z) : M Z :=
  match fuel with
  | O => diverge
  | S fuel' =>
      e <- w_deref w ;;
      if addr =? w_addr e then
        (if w_mask e =? 0 then load_mem addr else ret (w_value e))
      else if w_next e =? 0 then load_mem addr
      else read_walk fuel' addr (w_next e)
  end.

(** The code after the lock was found free and the version is good:
    add to the read set (update transactions) and return the value. *)
Definition read_add_to_read_set (lock version value : Z) : M Z :=
  tx <- get_tx ;;
  (if negb (read_only (tx_attr tx)) then
     (if (rs_nb_entries (tx_r_set tx) =? rs_size (tx_r_set tx))%nat
      then stm_allocate_rs_entries else ret tt) ;;;
     fun s =>
       let rs := tx_r_set (st_tx s) in
       let r := rs_nb_entries rs in
       if (r <? length (rs_slots rs))%nat then
         Ret tt (with_tx (set_r_set
                   {| rs_slots := <[r := {| r_version := version; r_lock := lock |}]> (rs_slots rs);
                      rs_nb_entries := S r;
                      rs_size := rs_size rs |}) s)
       else Fault s
   else ret tt) ;;;
  ret value.

(** The label [restart_no_load:], entered with the lock word [l];
    [restart:] loads it first.  [fuel] bounds the number of times the
    labels are reached. *)
Fixpoint read_restart_no_load (fuel : nat) (addr l : Z) : M Z :=
  match fuel with
  | O => diverge
  | S fuel' =>
      let lock := GET_LOCK addr in
      tx <- get_tx ;;
      if negb (LOCK_GET_WRITE l =? 0) then
        let w := LOCK_GET_ADDR l in
        if ws_contains (tx_w_set tx) w then
          read_walk (S (length (ws_slots (tx_w_set tx)))) addr w
        else if negb (tx_irrevocable tx =? 0) then
          l' <- load_lock lock ;;
          read_restart_no_load fuel' addr l'
        else
          stm_rollback (STM_ABORT_RW_CONFLICT P) ;;;
          ret 0
      else
        value <- load_mem addr ;;
        l2 <- load_lock lock ;;
        if negb (l =? l2) then read_restart_no_load fuel' addr l2
        else if negb (tx_irrevocable tx =? 0) then ret value
        else
          let version := LOCK_GET_TIMESTAMP l in
          if version >? tx_end tx then
            if read_only (tx_attr tx) then
              stm_rollback (STM_ABORT_VAL_READ P) ;;;
              ret 0
            else
              ok <- stm_wbetl_extend ;;
              if ok =? 0 then
                stm_rollback (STM_ABORT_VAL_READ P) ;;;
                ret 0
              else
                l2 <- load_lock lock ;;
                if negb (l =? l2) then read_restart_no_load fuel' addr l2
                else read_add_to_read_set lock version value
          else read_add_to_read_set lock version value
  end.

Definition stm_wbetl_read_invisible (fuel : nat) (addr : Z) : M Z :=
  assert (fun s => IS_ACTIVE (tx_status (st_tx s))) ;;;
  l <- load_lock (GET_LOCK addr) ;;
  read_restart_no_load fuel addr l.

Definition stm_wbetl_read (fuel : nat) (addr : Z) : M Z :=
  stm_wbetl_read_invisible fuel addr.

(** [int_stm_load]. *)
Definition int_stm_load (fuel : nat) (addr : Z) : M Z :=
  stm_wbetl_read fuel addr.

(** ** [stm_wbetl_write] *)

(** How the loop [while (1)] over the bucket ends: at the entry for
    [addr], or at the last entry of the bucket. *)
Inductive walk_end : Type :=
| AtAddr (prev : Z)
| AtTail (prev : Z).

Fixpoint write_walk (fuel : nat) (addr prev : Z) : M walk_end :=
  match fuel with
  | O => diverge
  | S fuel' =>
      e <- w_deref prev ;;
      if addr =? w_addr e then ret (AtAddr prev)
      else if w_next e =? 0 then ret (AtTail prev)
      else write_walk fuel' addr (w_next e)
  end.

(** The update of the entry [prev] that already covers [addr]. *)
Definition write_merge (prev addr value mask : Z) : M Z :=
  value' <-
    (if negb (mask =? Word.ones) then
       e <- w_deref prev ;;
       (if w_mask e =? 0 then
          m <- load_mem addr ;;
          w_assign prev (set_w_value m)
        else ret tt) ;;;
       e <- w_deref prev ;;
       ret (Z.lor (Z.land (w_value e) (Word.not mask)) (Z.land value mask))
     else ret value) ;;
  w_assign prev (set_w_value value') ;;;
  w_assign prev (fun e => set_w_mask (Z.lor (w_mask e) mask) e) ;;;
  ret prev.

(** The label [do_write:] with [w = &tx->w_set.entries[nb_entries]]. *)
Definition do_write (prev addr value mask version lock : Z) : M Z :=
  tx <- get_tx ;;
  let nb := ws_nb_entries (tx_w_set tx) in
  let w := w_ptr (tx_w_set tx) nb in
  value' <-
    (if mask =? 0 then ret 0
     else if negb (mask =? Word.ones) then
       m <- load_mem addr ;;
       ret (Z.lor (Z.land m (Word.not mask)) (Z.land value mask))
     else ret value) ;;
  (fun s =>
     let ws := tx_w_set (st_tx s) in
     if (nb <? length (ws_slots ws))%nat then
       Ret tt (with_tx (set_w_set (set_slots
                 (<[nb := {| w_addr := addr; w_value := value'; w_mask := mask;
                             w_version := version; w_lock := lock; w_next := 0 |}]>
                    (ws_slots ws)) ws)) s)
     else Fault s) ;;;
  (if negb (prev =? 0) then w_assign prev (set_w_next w) else ret tt) ;;;
  put_tx (fun tx =>
    let ws := tx_w_set tx in
    set_w_set {| ws_entries := ws_entries ws; ws_slots := ws_slots ws;
                 ws_nb_entries := S (ws_nb_entries ws); ws_size := ws_size ws;
                 ws_has_writes := S (ws_has_writes ws) |} tx) ;;;
  ret w.

(** [if (nb_entries == size) stm_rollback(tx, STM_ABORT_EXTEND_WS)]. *)
Definition write_check_full : M unit :=
  tx <- get_tx ;;
  if (ws_nb_entries (tx_w_set tx) =? ws_size (tx_w_set tx))%nat
  then stm_rollback (STM_ABORT_EXTEND_WS P)
  else ret tt.

(** The function from the label [restart:]; [fuel] bounds the number
    of times the label is reached.  The result is the pointer to the
    write-set entry, or [NULL]. *)
Fixpoint stm_wbetl_write (fuel : nat) (addr value mask : Z) : M Z :=
  match fuel with
  | O => diverge
  | S fuel' =>
      let lock := GET_LOCK addr in
      l <- load_lock lock ;;
      tx <- get_tx ;;
      if negb (LOCK_GET_OWNED l =? 0) then
        let w := LOCK_GET_ADDR l in
        if ws_contains (tx_w_set tx) w then
          if mask =? 0 then ret w
          else
            r <- write_walk (S (length (ws_slots (tx_w_set tx)))) addr w ;;
            match r with
            | AtAddr prev => write_merge prev addr value mask
            | AtTail prev =>
                e <- w_deref prev ;;
                let version := w_version e in
                write_check_full ;;;
                do_write prev addr value mask version lock
            end
        else if negb (tx_irrevocable tx =? 0) then
          stm_wbetl_write fuel' addr value mask
        else
          stm_rollback (STM_ABORT_WW_CONFLICT P) ;;;
          ret 0
      else
        let version := LOCK_GET_TIMESTAMP l in
        let acquire_no_check : M Z :=
          write_check_full ;;;
          tx' <- get_tx ;;
          let w := w_ptr (tx_w_set tx') (ws_nb_entries (tx_w_set tx')) in
          ok <- cas_lock lock l (LOCK_SET_ADDR_WRITE w) ;;
          if ok =? 0 then stm_wbetl_write fuel' addr value mask
          else do_write 0 addr value mask version lock
        in
        if negb (tx_irrevocable tx =? 0) then acquire_no_check
        else if version >? tx_end tx then
          r <- stm_has_read lock ;;
          match r with
          | Some _ =>
              stm_rollback (STM_ABORT_VAL_WRITE P) ;;;
              ret 0
          | None => acquire_no_check
          end
        else acquire_no_check
  end.

(** [stm_write]. *)
Definition stm_write (fuel : nat) (addr value mask : Z) : M Z :=
  assert (fun s => IS_ACTIVE (tx_status (st_tx s))) ;;;
  stm_wbetl_write fuel addr value mask.

(** [int_stm_store] and [int_stm_store2]. *)
Definition int_stm_store (fuel : nat) (addr value : Z) : M unit :=
  stm_write fuel addr value Word.ones ;;;
  ret tt.

Definition int_stm_store2 (fuel : nat) (addr value mask : Z) : M unit :=
  stm_write fuel addr value mask ;;;
  ret tt.

(** ** [stm_wbetl_commit] and [int_stm_commit] *)

(** The loop after [release_locks:]. *)
Fixpoint commit_loop (t : Z) (i w : nat) : M unit :=
  match i with
  | O => ret tt
  | S i' =>
      tx <- get_tx ;;
      match ws_slots (tx_w_set tx) !! w with
      | None => fault
      | Some e =>
          (if negb (w_mask e =? 0) then store_mem (w_addr e) (w_value e) else ret tt) ;;;
          (if w_next e =? 0 then store_lock (w_lock e) (LOCK_SET_TIMESTAMP t) else ret tt) ;;;
          commit_loop t i' (S w)
      end
  end.

Definition release_locks (t : Z) : M Z :=
  tx <- get_tx ;;
  commit_loop t (ws_nb_entries (tx_w_set tx)) 0 ;;;
  ret 1.

Definition stm_wbetl_commit : M Z :=
  tx <- get_tx ;;
  g <- gets st_g ;;
  if (tx_irrevocable tx =? 0) && negb (g_irrevocable g =? 0) then
    stm_rollback (STM_ABORT_IRREVOCABLE P) ;;;
    ret 0
  else
    c <- FETCH_INC_CLOCK ;;
    let t := Word.add c 1 in
    if negb (tx_irrevocable tx =? 0) then release_locks t
    else
      if negb (tx_start tx =? Word.sub t 1) then
        ok <- stm_wbetl_validate ;;
        if ok =? 0 then
          stm_rollback (STM_ABORT_VALIDATE P) ;;;
          ret 0
        else release_locks t
      else release_locks t.

(** [unsigned int] arithmetic of the nesting counter. *)
Definition wrap32 (z : Z) : Z := z mod 2 ^ 32.

Definition int_stm_commit : M Z :=
  put_tx (fun tx => set_nesting (wrap32 (tx_nesting tx - 1)) tx) ;;;
  tx <- get_tx ;;
  if tx_nesting tx >? 0 then ret 1
  else
    g <- gets st_g ;;
    run_callbacks (g_precommit_cb g) ;;;
    assert (fun s => IS_ACTIVE (tx_status (st_tx s))) ;;;
    tx <- get_tx ;;
    (if (ws_nb_entries (tx_w_set tx) =? 0)%nat then ret tt
     else stm_wbetl_commit ;;; ret tt) ;;;
    put_tx (set_status TX_COMMITTED) ;;;
    g <- gets st_g ;;
    run_callbacks (g_commit_cb g) ;;;
    ret 1.

End Engine.

(** * Specification predicates *)

Section Predicates.

Variable P : platform.

(** The entries in use of the read set and of the write set. *)
Definition read_set (tx : stm_tx_t) : list r_entry :=
  take (rs_nb_entries (tx_r_set tx)) (rs_slots (tx_r_set tx)).

Definition write_set (tx : stm_tx_t) : list w_entry :=
  take (ws_nb_entries (tx_w_set tx)) (ws_slots (tx_w_set tx)).

(** A read-set entry [(lock, v)] is still valid: the lock word is owned
    and its decoded pointer lies within the write-set array of the
    transaction, or it is free and its timestamp is [v]. *)
Definition read_entry_valid (s : state) (e : r_entry) : Prop :=
  let l := g_locks (st_g s) (r_lock e) in
  (LOCK_GET_OWNED l <> 0 /\ ws_contains P (tx_w_set (st_tx s)) (LOCK_GET_ADDR l) = true)
  \/ (LOCK_GET_OWNED l = 0 /\ LOCK_GET_TIMESTAMP l = r_version e).

(** The same test as a boolean. *)
Definition read_entry_ok (s : state) (e : r_entry) : bool :=
  let l := g_locks (st_g s) (r_lock e) in
  if LOCK_GET_OWNED l =? 0 then LOCK_GET_TIMESTAMP l =? r_version e
  else ws_contains P (tx_w_set (st_tx s)) (LOCK_GET_ADDR l).

Definition read_set_valid (s : state) : Prop :=
  Forall (read_entry_valid s) (read_set (st_tx s)).

(** The arrays have the slots the counters speak of. *)
Definition rs_bounded (tx : stm_tx_t) : Prop :=
  (rs_nb_entries (tx_r_set tx) <= length (rs_slots (tx_r_set tx)))%nat.

Definition ws_bounded (tx : stm_tx_t) : Prop :=
  (ws_nb_entries (tx_w_set tx) <= length (ws_slots (tx_w_set tx)))%nat.

(** *** Stores of commit and rollback *)

(** The effect of a store event on the state. *)
Definition perform (s : state) (ev : event) : state :=
  match ev with
  | EvStore a v => st_store_mem a v s
  | EvLockStore l v => st_store_lock l v s
  | _ => s
  end.

(** What rollback stores for a write-set entry: the captured version,
    at the last entry of each bucket. *)
Definition rollback_stores (e : w_entry) : list event :=
  if w_next e =? 0
  then [EvLockStore (w_lock e) (LOCK_SET_TIMESTAMP (w_version e))]
  else [].

(** What commit with timestamp [t] stores for a write-set entry. *)
Definition commit_stores (t : Z) (e : w_entry) : list event :=
  (if negb (w_mask e =? 0) then [EvStore (w_addr e) (w_value e)] else [])
  ++ (if w_next e =? 0 then [EvLockStore (w_lock e) (LOCK_SET_TIMESTAMP t)] else []).

(** The word of lock [l] and of address [a] after a sequence of stores. *)
Fixpoint lock_after (evs : list event) (l : Z) (l0 : Z) : Z :=
  match evs with
  | [] => l0
  | EvLockStore l' v :: evs' => lock_after evs' l (if l =? l' then v else l0)
  | _ :: evs' => lock_after evs' l l0
  end.

Fixpoint mem_after (evs : list event) (a : Z) (v0 : Z) : Z :=
  match evs with
  | [] => v0
  | EvStore a' v :: evs' => mem_after evs' a (if a =? a' then v else v0)
  | _ :: evs' => mem_after evs' a v0
  end.


Definition is_mem_store (ev : event) : bool :=
  match ev with EvStore _ _ => true | _ => false end.

Definition is_acquire (ev : event) : bool :=
  match ev with EvLockCAS _ _ _ => true | _ => false end.


(** Entries without successor that carry the lock [l]. *)
Definition tail_of (l : Z) (e : w_entry) : bool := (w_next e =? 0) && (w_lock e =? l).

(** The word the lock [l] held when it was last acquired, from the
    history (most recent event first). *)
Fixpoint acquired_from (hist : list event) (l : Z) : option Z :=
  match hist with
  | [] => None
  | EvLockCAS l' old _ :: hist' => if l =? l' then Some old else acquired_from hist' l
  | _ :: hist' => acquired_from hist' l
  end.


(** The events after [s] in the history of [s'] all satisfy [Q]. *)
Definition history_since (Q : event -> Prop) (s s' : state) : Prop :=
  exists new, st_hist s' = new ++ st_hist s /\ Forall Q new.

(** The application memory is as it was, and no store to it happened. *)
Definition mem_kept (s s' : state) : Prop :=
  st_mem s' = st_mem s /\ history_since (fun ev => is_mem_store ev = false) s s'.

(** No lock was acquired: a lock that is owned in [s'] has the word it
    had in [s], and no compare-and-swap succeeded. *)
Definition no_acquire (s s' : state) : Prop :=
  (forall l, LOCK_GET_OWNED (g_locks (st_g s') l) <> 0 ->
             g_locks (st_g s') l = g_locks (st_g s) l)
  /\ history_since (fun ev => is_acquire ev = false) s s'.

(** The callbacks of a hook, called in order. *)
Definition callbacks_called (cbs : list cb_entry) (s : state) : state :=
  fold_left (fun s cb => record (EvCallback (cb_f cb) (cb_arg cb)) s) cbs s.

(** The state [stm_rollback] returns in when the transaction is not to
    be retried: the rollback stores are done, the status is [TX_ABORTED],
    the write-set array is doubled if that was the reason, the abort
    callbacks are called and [nesting] is 0. *)
Definition rolled_back (reason : Z) (s : state) : state :=
  let s1 := fold_left perform (flat_map rollback_stores (write_set (st_tx s))) s in
  let s2 := with_tx (set_status TX_ABORTED) s1 in
  let s3 := if reason =? STM_ABORT_EXTEND_WS P then with_tx (ws_realloc P) s2 else s2 in
  let s4 := with_tx (set_nesting 1) s3 in
  let s5 := callbacks_called (g_abort_cb (st_g s4)) s4 in
  with_tx (set_nesting 0) s5.

(** The descriptor after [int_stm_prepare] read the clock at [c]. *)
Definition prepared_tx (c : Z) (tx : stm_tx_t) : stm_tx_t :=
  let ws := tx_w_set tx in
  let rs := tx_r_set tx in
  set_status TX_ACTIVE
    (set_start c (set_end c
       (set_r_set {| rs_slots := rs_slots rs; rs_nb_entries := 0; rs_size := rs_size rs |}
          (set_w_set {| ws_entries := ws_entries ws; ws_slots := ws_slots ws;
                        ws_nb_entries := 0; ws_size := ws_size ws;
                        ws_has_writes := 0 |} tx)))).

(** The state [stm_rollback] jumps to the retry point with, when the
    clock is below [VERSION_MAX] and no quiescence is requested. *)
Definition retry_state (reason : Z) (s : state) : state :=
  let s1 := fold_left perform (flat_map rollback_stores (write_set (st_tx s))) s in
  let s2 := with_tx (set_status TX_ABORTED) s1 in
  let s3 := if reason =? STM_ABORT_EXTEND_WS P then with_tx (ws_realloc P) s2 else s2 in
  let s4 := with_tx (set_nesting 1) s3 in
  let s5 := callbacks_called (g_abort_cb (st_g s4)) s4 in
  with_tx (prepared_tx (g_clock (st_g s5))) s5.

(** The state in which a top-level [int_stm_commit] reaches the back
    end: [nesting] is decremented and the pre-commit callbacks are
    called. *)
Definition commit_entry (s : state) : state :=
  let s1 := with_tx (fun tx => set_nesting (wrap32 (tx_nesting tx - 1)) tx) s in
  callbacks_called (g_precommit_cb (st_g s1)) s1.

(** *** The write set and the locks it owns *)

(** The lock [l] is owned by the transaction: its word has the owned
    bit and a pointer into the entries in use of the write set. *)
Definition owned_by_tx (s : state) (l : Z) : Prop :=
  LOCK_GET_OWNED (g_locks (st_g s) l) <> 0 /\
  ws_contains P (tx_w_set (st_tx s)) (LOCK_GET_ADDR (g_locks (st_g s) l)) = true.

(** The invariant of the write set of an active transaction.  The array
    lies in the address space at an even, non-null address; [next] links
    lead forward to an entry in use with the same lock and version; the
    lock of every entry in use is owned by the transaction; a lock has at
    most one entry without successor; and an owner pointer into the array
    is the address of an entry in use for that very lock. *)
Record ws_wf (s : state) : Prop := {
  wf_length :
    length (ws_slots (tx_w_set (st_tx s))) = ws_size (tx_w_set (st_tx s));
  wf_nb :
    (ws_nb_entries (tx_w_set (st_tx s)) <= ws_size (tx_w_set (st_tx s)))%nat;
  wf_base_pos : 0 < ws_entries (tx_w_set (st_tx s));
  wf_base_even : Z.testbit (ws_entries (tx_w_set (st_tx s))) 0 = false;
  wf_base_top :
    w_ptr P (tx_w_set (st_tx s)) (ws_size (tx_w_set (st_tx s))) <= Word.modulus;
  wf_next : forall i e,
    (i < ws_nb_entries (tx_w_set (st_tx s)))%nat ->
    ws_slots (tx_w_set (st_tx s)) !! i = Some e ->
    w_next e = 0 \/
    exists j e',
      (i < j < ws_nb_entries (tx_w_set (st_tx s)))%nat /\
      w_next e = w_ptr P (tx_w_set (st_tx s)) j /\
      ws_slots (tx_w_set (st_tx s)) !! j = Some e' /\
      w_lock e' = w_lock e /\ w_version e' = w_version e;
  wf_locked : forall i e,
    (i < ws_nb_entries (tx_w_set (st_tx s)))%nat ->
    ws_slots (tx_w_set (st_tx s)) !! i = Some e ->
    owned_by_tx s (w_lock e);
  wf_tail : forall i j ei ej,
    (i < ws_nb_entries (tx_w_set (st_tx s)))%nat ->
    (j < ws_nb_entries (tx_w_set (st_tx s)))%nat ->
    ws_slots (tx_w_set (st_tx s)) !! i = Some ei ->
    ws_slots (tx_w_set (st_tx s)) !! j = Some ej ->
    w_next ei = 0 -> w_next ej = 0 -> w_lock ei = w_lock ej -> i = j;
  wf_owner : forall l,
    LOCK_GET_OWNED (g_locks (st_g s) l) <> 0 ->
    ws_entries (tx_w_set (st_tx s)) <= LOCK_GET_ADDR (g_locks (st_g s) l)
      < w_ptr P (tx_w_set (st_tx s)) (ws_size (tx_w_set (st_tx s))) ->
    exists h eh,
      (h < ws_nb_entries (tx_w_set (st_tx s)))%nat /\
      g_locks (st_g s) l = LOCK_SET_ADDR_WRITE (w_ptr P (tx_w_set (st_tx s)) h) /\
      ws_slots (tx_w_set (st_tx s)) !! h = Some eh /\
      w_lock eh = l
}.

(** *** Buckets *)

(** [reaches ws addr i k]: the walk along [next] from slot [i], past
    entries for other addresses than [addr], arrives at slot [k]. *)
Inductive reaches (ws : w_set_t) (addr : Z) : nat -> nat -> Prop :=
| reaches_here i : reaches ws addr i i
| reaches_step i j k e :
    ws_slots ws !! i = Some e ->
    w_addr e <> addr ->
    w_next e <> 0 ->
    w_next e = w_ptr P ws j ->
    (i < j)%nat ->
    reaches ws addr j k ->
    reaches ws addr i k.

(** Slot [j] holds [ej], the entry for [addr] in the bucket of the lock
    of [addr]: the first entry for [addr] on the walk from the entry the
    lock word points to. *)
Definition bucket_entry (s : state) (addr : Z) (j : nat) (ej : w_entry) : Prop :=
  exists h,
    LOCK_GET_ADDR (g_locks (st_g s) (GET_LOCK addr)) = w_ptr P (tx_w_set (st_tx s)) h /\
    reaches (tx_w_set (st_tx s)) addr h j /\
    ws_slots (tx_w_set (st_tx s)) !! j = Some ej /\
    w_addr ej = addr.

(** Slot [t] holds [et], the last entry of that bucket, and no entry of
    the bucket is for [addr]. *)
Definition bucket_tail (s : state) (addr : Z) (t : nat) (et : w_entry) : Prop :=
  exists h,
    LOCK_GET_ADDR (g_locks (st_g s) (GET_LOCK addr)) = w_ptr P (tx_w_set (st_tx s)) h /\
    reaches (tx_w_set (st_tx s)) addr h t /\
    ws_slots (tx_w_set (st_tx s)) !! t = Some et /\
    w_addr et <> addr /\ w_next et = 0.

(** *** The states a store leads to *)

(** [(old & ~mask) | (value & mask)]. *)
Definition merged_value (old value mask : Z) : Z :=
  Z.lor (Z.land old (Word.not mask)) (Z.land value mask).

(** The value a new entry gets, [m] being the word in memory. *)
Definition new_value (m value mask : Z) : Z :=
  if mask =? 0 then 0
  else if negb (mask =? Word.ones) then merged_value m value mask
  else value.

(** The value the entry [e] for the address gets by a store, [m] being
    the word in memory. *)
Definition updated_value (e : w_entry) (m value mask : Z) : Z :=
  if negb (mask =? Word.ones)
  then merged_value (if w_mask e =? 0 then m else w_value e) value mask
  else value.

Definition ws_append (e : w_entry) (ws : w_set_t) : w_set_t :=
  {| ws_entries := ws_entries ws;
     ws_slots := <[ws_nb_entries ws := e]> (ws_slots ws);
     ws_nb_entries := S (ws_nb_entries ws);
     ws_size := ws_size ws;
     ws_has_writes := S (ws_has_writes ws) |}.

(** After a store that found the entry [ej] for the address in slot [j]. *)
Definition merged (j : nat) (ej : w_entry) (addr value mask : Z) (s : state) : state :=
  let e' := set_w_mask (Z.lor (w_mask ej) mask)
              (set_w_value (updated_value ej (st_mem s addr) value mask) ej) in
  with_tx (fun tx => set_w_set (set_slots (<[j := e']> (ws_slots (tx_w_set tx)))
                                 (tx_w_set tx)) tx) s.

(** After a store that added an entry behind the last entry [et], in
    slot [t], of the bucket. *)
Definition appended (t : nat) (et : w_entry) (addr value mask : Z) (s : state) : state :=
  let ws := tx_w_set (st_tx s) in
  let nb := ws_nb_entries ws in
  let e := {| w_addr := addr; w_value := new_value (st_mem s addr) value mask;
              w_mask := mask; w_version := w_version et; w_lock := GET_LOCK addr;
              w_next := 0 |} in
  with_tx (fun tx =>
    set_w_set {| ws_entries := ws_entries ws;
                 ws_slots := <[t := set_w_next (w_ptr P ws nb) et]> (<[nb := e]> (ws_slots ws));
                 ws_nb_entries := S nb;
                 ws_size := ws_size ws;
                 ws_has_writes := S (ws_has_writes ws) |} tx) s.

(** After a store that acquired the free lock of the address. *)
Definition acquired (addr value mask : Z) (s : state) : state :=
  let lock := GET_LOCK addr in
  let l := g_locks (st_g s) lock in
  let ws := tx_w_set (st_tx s) in
  let w := w_ptr P ws (ws_nb_entries ws) in
  let e := {| w_addr := addr; w_value := new_value (st_mem s addr) value mask;
              w_mask := mask; w_version := LOCK_GET_TIMESTAMP l; w_lock := lock;
              w_next := 0 |} in
  with_tx (fun tx => set_w_set (ws_append e ws) tx)
    (record (EvLockCAS lock l (LOCK_SET_ADDR_WRITE w))
       (with_g (fun g => set_locks (upd (g_locks g) lock (LOCK_SET_ADDR_WRITE w)) g) s)).

(** Position, counted from [r], of the first read-set entry for [lock]. *)
Fixpoint find_lock (lock : Z) (rs : list r_entry) (r : nat) : option nat :=
  match rs with
  | [] => None
  | e :: rs' => if r_lock e =? lock then Some r else find_lock lock rs' (S r)
  end.

(** The version kept in every entry in use is the timestamp of the word
    its lock held when the transaction acquired it. *)
Definition versions_captured (s : state) : Prop :=
  forall i e,
    (i < ws_nb_entries (tx_w_set (st_tx s)))%nat ->
    ws_slots (tx_w_set (st_tx s)) !! i = Some e ->
    exists l, acquired_from (st_hist s) (w_lock e) = Some l /\
              LOCK_GET_OWNED l = 0 /\
              w_version e = LOCK_GET_TIMESTAMP l.

(** An operation keeps a relation between the state it starts in, the
    value it jumps to the retry point with (if it does) and the state it
    ends in, whatever its outcome. *)
Definition keeps {A} (R : state -> option Z -> state -> Prop) (m : M A) : Prop :=
  forall s, R s (jump_of (m s)) (final (m s)).

(** [m] does not revive a transaction: started in a state whose
    transaction is not active, it does not return with an active one. *)
Definition stays_inactive {A} (m : M A) : Prop :=
  forall s v s',
    IS_ACTIVE (tx_status (st_tx s)) = false ->
    m s = Ret v s' ->
    IS_ACTIVE (tx_status (st_tx s')) = false.

(** What a rollback with [reason] may do: no store to application
    memory, no lock acquired, and a jump only with the reason, marked
    [STM_PATH_INSTRUMENTED]. *)
Definition rollback_frame (reason : Z) (s : state) (j : option Z) (s' : state) : Prop :=
  mem_kept s s' /\ no_acquire s s' /\
  (j = None \/ j = Some (Z.lor reason (STM_PATH_INSTRUMENTED P))).

End Predicates.

(** * Sample engine *)

(** The constants of the [stm.h] this code was written against, a
    64-byte cache line and an [xrealloc] that resizes in place. *)
Definition sample_platform : platform :=
  {| CACHELINE_SIZE := 64;
     xrealloc := fun p _ => p;
     STM_PATH_INSTRUMENTED := 1;
     STM_ABORT_EXPLICIT := 32;
     STM_ABORT_NO_RETRY := 4128;
     STM_ABORT_RW_CONFLICT := 576;
     STM_ABORT_WW_CONFLICT := 1088;
     STM_ABORT_VAL_READ := 1344;
     STM_ABORT_VAL_WRITE := 1600;
     STM_ABORT_VALIDATE := 1856;
     STM_ABORT_IRREVOCABLE := 2368;
     STM_ABORT_EXTEND_WS := 3136 |}.

Definition sample_global (locks : Z -> Z) (clock : Z) : global_t :=
  {| g_locks := locks; g_clock := clock;
     g_precommit_cb := []; g_commit_cb := []; g_abort_cb := [];
     g_quiesce := 0; g_threads_nb := 1; g_irrevocable := 0 |}.

Definition sample_tx (retry : bool) (start end_ : Z)
    (rs : list r_entry) (ws : list w_entry) : stm_tx_t :=
  {| tx_attr := {| read_only := false; no_retry := negb retry |};
     tx_status := TX_ACTIVE; tx_start := start; tx_end := end_;
     tx_r_set := {| rs_slots := rs ++ replicate 2 (r_uninit);
                    rs_nb_entries := length rs;
                    rs_size := (length rs + 2)%nat |};
     tx_w_set := {| ws_entries := 4096;
                    ws_slots := ws ++ replicate 2 (w_uninit);
                    ws_nb_entries := length ws;
                    ws_size := (length ws + 2)%nat;
                    ws_has_writes := length ws |};
     tx_nesting := 1; tx_irrevocable := 0 |}.

Definition sample_state (locks : Z -> Z) (clock : Z) (tx : stm_tx_t)
    (hist : list event) : state :=
  {| st_g := sample_global locks clock; st_mem := fun _ => 0;
     st_tx := tx; st_hist := hist |}.

(** A transaction that wrote address 224 (lock 7, which it owns through
    its first write-set entry at 4096) and read lock 3 at version 5 and
    lock 7 at version 2; the clock is at 9. *)
Definition sample_locks : Z -> Z :=
  upd (upd (fun _ => 0) 3 (LOCK_SET_TIMESTAMP 5)) 7 (LOCK_SET_ADDR_WRITE 4096).

Definition sample_w0 : w_entry :=
  {| w_addr := 224; w_value := 9; w_mask := Word.ones; w_version := 2;
     w_lock := 7; w_next := 0 |}.

Definition sample_reads : list r_entry :=
  [ {| r_version := 5; r_lock := 3 |}; {| r_version := 2; r_lock := 7 |} ].

Definition sample_active (retry : bool) : state :=
  sample_state sample_locks 9 (sample_tx retry 4 6 sample_reads [sample_w0])
    [EvLockCAS 7 (LOCK_SET_TIMESTAMP 2) (LOCK_SET_ADDR_WRITE 4096)].

(** The same transaction with a read of lock 3 at version 4, which is
    stale: the lock is at version 5. *)
Definition sample_stale (retry : bool) : state :=
  sample_state sample_locks 9
    (sample_tx retry 4 6 [ {| r_version := 4; r_lock := 3 |} ] [sample_w0])
    [EvLockCAS 7 (LOCK_SET_TIMESTAMP 2) (LOCK_SET_ADDR_WRITE 4096)].

(** The same transaction with the snapshot ending at 4, behind lock 3
    (version 5), and the given read set. *)
Definition sample_behind (retry : bool) (reads : list r_entry) : state :=
  sample_state sample_locks 9 (sample_tx retry 4 4 reads [sample_w0])
    [EvLockCAS 7 (LOCK_SET_TIMESTAMP 2) (LOCK_SET_ADDR_WRITE 4096)].

(** A transaction with two entries in the bucket of lock 7: address 224
    was written, address 232 was reserved with mask 0; the word at 232 in
    memory is 43981. *)
Definition sample_two : state :=
  {| st_g := sample_global sample_locks 9;
     st_mem := fun a => if a =? 232 then 43981 else 0;
     st_tx := sample_tx true 4 6 sample_reads
                [ set_w_next 4160 sample_w0;
                  {| w_addr := 232; w_value := 0; w_mask := 0; w_version := 2;
                     w_lock := 7; w_next := 0 |} ];
     st_hist := [EvLockCAS 7 (LOCK_SET_TIMESTAMP 2) (LOCK_SET_ADDR_WRITE 4096)] |}.

(** * The rest of the interface *)

(** ** Barriers of the compiler interface ([stm_wbetl.h]) and
    [stm_has_written] *)

Section Barriers.

Variable P : platform.

(** [stm_has_written]: pointer to the first entry in use for [addr],
    or [NULL]. *)
Fixpoint has_written_loop (i w : nat) (addr : Z) : M Z :=
  match i with
  | O => ret 0
  | S i' =>
      tx <- get_tx ;;
      match ws_slots (tx_w_set tx) !! w with
      | None => fault
      | Some e =>
          if w_addr e =? addr then ret (w_ptr P (tx_w_set tx) w)
          else has_written_loop i' (S w) addr
      end
  end.

Definition stm_has_written (addr : Z) : M Z :=
  tx <- get_tx ;;
  has_written_loop (ws_nb_entries (tx_w_set tx)) 0 addr.

(** [stm_wbetl_RaR] and [int_stm_RaR]. *)
Definition stm_wbetl_RaR (fuel : nat) (addr : Z) : M Z :=
  stm_wbetl_read P fuel addr.

Definition int_stm_RaR (fuel : nat) (addr : Z) : M Z :=
  stm_wbetl_RaR fuel addr.

(** [stm_wbetl_RaW] and [int_stm_RaW]. *)
Definition stm_wbetl_RaW (addr : Z) : M Z :=
  l <- load_lock (GET_LOCK addr) ;;
  assert (fun _ => negb (LOCK_GET_WRITE l =? 0)) ;;;
  let w := LOCK_GET_ADDR l in
  assert (fun s => ws_contains P (tx_w_set (st_tx s)) w) ;;;
  e <- w_deref P w ;;
  ret (w_value e).

Definition int_stm_RaW (addr : Z) : M Z :=
  stm_wbetl_RaW addr.

(** [stm_wbetl_RfW] and [int_stm_RfW]. *)
Definition stm_wbetl_RfW (fuel : nat) (addr : Z) : M Z :=
  stm_wbetl_write P fuel addr 0 0 ;;;
  load_mem addr.

Definition int_stm_RfW (fuel : nat) (addr : Z) : M Z :=
  stm_wbetl_RfW fuel addr.

(** [stm_wbetl_WaR] and [int_stm_WaR]. *)
Definition stm_wbetl_WaR (fuel : nat) (addr value mask : Z) : M unit :=
  stm_wbetl_write P fuel addr value mask ;;;
  ret tt.

Definition int_stm_WaR (fuel : nat) (addr value mask : Z) : M unit :=
  stm_wbetl_WaR fuel addr value mask.

(** The loop [while (1)] of [stm_wbetl_WaW], from the entry [w]. *)
Fixpoint WaW_walk (fuel : nat) (addr value mask w : Z) : M unit :=
  match fuel with
  | O => diverge
  | S fuel' =>
      e <- w_deref P w ;;
      if addr =? w_addr e then
        value' <-
          (if negb (mask =? Word.ones) then
             e <- w_deref P w ;;
             (if w_mask e =? 0 then
                m <- load_mem addr ;;
                w_assign P w (set_w_value m)
              else ret tt) ;;;
             e <- w_deref P w ;;
             ret (Z.lor (Z.land (w_value e) (Word.not mask)) (Z.land value mask))
           else ret value) ;;
        w_assign P w (set_w_value value') ;;;
        w_assign P w (fun e => set_w_mask (Z.lor (w_mask e) mask) e)
      else
        assert (fun _ => negb (w_next e =? 0)) ;;;
        WaW_walk fuel' addr value mask (w_next e)
  end.

(** [stm_wbetl_WaW] and [int_stm_WaW]. *)
Definition stm_wbetl_WaW (addr value mask : Z) : M unit :=
  l <- load_lock (GET_LOCK addr) ;;
  assert (fun _ => negb (LOCK_GET_WRITE l =? 0)) ;;;
  let w := LOCK_GET_ADDR l in
  assert (fun s => ws_contains P (tx_w_set (st_tx s)) w) ;;;
  assert (fun _ => negb (mask =? 0)) ;;;
  tx <- get_tx ;;
  WaW_walk (S (length (ws_slots (tx_w_set tx)))) addr value mask w.

Definition int_stm_WaW (addr value mask : Z) : M unit :=
  stm_wbetl_WaW addr value mask.

End Barriers.

(** ** Starting a transaction, status predicates *)

(** The tables of [global_t] that [stm.c] fills for external modules
    and that the functions above do not read: the thread and start
    callbacks and the number of transaction-specific slots handed out.
    As for the other callback tables, a table is the list of its entries
    in use. *)
Record registry_t : Type := {
  g_nb_specific : nat;
  g_init_cb : list cb_entry;
  g_exit_cb : list cb_entry;
  g_start_cb : list cb_entry
}.

Definition MAX_CB : Z := 7.
Definition MAX_SPECIFIC : Z := 7.

(** What [int_stm_start] and [int_stm_get_env] return: [&tx->env] or
    [NULL]. *)
Inductive env_ref : Type :=
| env_NULL
| env_of_tx.

Definition set_attr (a : stm_tx_attr_t) (tx : stm_tx_t) : stm_tx_t :=
  {| tx_attr := a; tx_status := tx_status tx; tx_start := tx_start tx;
     tx_end := tx_end tx; tx_r_set := tx_r_set tx; tx_w_set := tx_w_set tx;
     tx_nesting := tx_nesting tx; tx_irrevocable := tx_irrevocable tx |}.

(** [int_stm_start]; [r] holds the start callbacks. *)
Definition int_stm_start (r : registry_t) (attr : stm_tx_attr_t) : M env_ref :=
  tx <- get_tx ;;
  put_tx (set_nesting (wrap32 (tx_nesting tx + 1))) ;;;
  if tx_nesting tx >? 0 then ret env_NULL
  else
    put_tx (set_attr attr) ;;;
    int_stm_prepare ;;;
    run_callbacks (g_start_cb r) ;;;
    ret env_of_tx.

(** [int_stm_killed], [int_stm_irrevocable], [int_stm_get_env]. *)
Definition int_stm_killed (tx : stm_tx_t) : bool := tx_status tx =? TX_KILLED.

Definition int_stm_irrevocable (tx : stm_tx_t) : Z := 0.

Definition int_stm_get_env (tx : stm_tx_t) : env_ref :=
  if tx_nesting tx =? 0 then env_of_tx else env_NULL.

(** [stm_get_clock] and [stm_inc_clock]. *)
Definition stm_get_clock : M Z := GET_CLOCK.

Definition stm_inc_clock : M unit :=
  FETCH_INC_CLOCK ;;;
  ret tt.

(** ** Module registration and transaction-specific data ([stm.c]) *)

Definition set_precommit_cb (l : list cb_entry) (g : global_t) : global_t :=
  {| g_locks := g_locks g; g_clock := g_clock g; g_precommit_cb := l;
     g_commit_cb := g_commit_cb g; g_abort_cb := g_abort_cb g;
     g_quiesce := g_quiesce g; g_threads_nb := g_threads_nb g;
     g_irrevocable := g_irrevocable g |}.

Definition set_commit_cb (l : list cb_entry) (g : global_t) : global_t :=
  {| g_locks := g_locks g; g_clock := g_clock g; g_precommit_cb := g_precommit_cb g;
     g_commit_cb := l; g_abort_cb := g_abort_cb g;
     g_quiesce := g_quiesce g; g_threads_nb := g_threads_nb g;
     g_irrevocable := g_irrevocable g |}.

Definition set_abort_cb (l : list cb_entry) (g : global_t) : global_t :=
  {| g_locks := g_locks g; g_clock := g_clock g; g_precommit_cb := g_precommit_cb g;
     g_commit_cb := g_commit_cb g; g_abort_cb := l;
     g_quiesce := g_quiesce g; g_threads_nb := g_threads_nb g;
     g_irrevocable := g_irrevocable g |}.

Definition set_init_cb (l : list cb_entry) (r : registry_t) : registry_t :=
  {| g_nb_specific := g_nb_specific r; g_init_cb := l;
     g_exit_cb := g_exit_cb r; g_start_cb := g_start_cb r |}.

Definition set_exit_cb (l : list cb_entry) (r : registry_t) : registry_t :=
  {| g_nb_specific := g_nb_specific r; g_init_cb := g_init_cb r;
     g_exit_cb := l; g_start_cb := g_start_cb r |}.

Definition set_start_cb (l : list cb_entry) (r : registry_t) : registry_t :=
  {| g_nb_specific := g_nb_specific r; g_init_cb := g_init_cb r;
     g_exit_cb := g_exit_cb r; g_start_cb := l |}.

Definition set_nb_specific (n : nat) (r : registry_t) : registry_t :=
  {| g_nb_specific := n; g_init_cb := g_init_cb r;
     g_exit_cb := g_exit_cb r; g_start_cb := g_start_cb r |}.

(** [f != NULL && nb >= MAX_CB] for one table. *)
Definition cb_full (f : Z) (table : list cb_entry) : bool :=
  negb (f =? 0) && (MAX_CB <=? Z.of_nat (length table)).

(** [if (f != NULL) { table[nb].f = f; table[nb++].arg = arg; }]. *)
Definition cb_add (f arg : Z) (table : list cb_entry) : list cb_entry :=
  if negb (f =? 0) then table ++ [ {| cb_f := f; cb_arg := arg |} ] else table.

(** [stm_register]: the result and the tables after the call. *)
Definition stm_register
    (on_thread_init on_thread_exit on_start on_precommit on_commit on_abort arg : Z)
    (r : registry_t) (g : global_t) : Z * (registry_t * global_t) :=
  if cb_full on_thread_init (g_init_cb r)
     || cb_full on_thread_exit (g_exit_cb r)
     || cb_full on_start (g_start_cb r)
     || cb_full on_precommit (g_precommit_cb g)
     || cb_full on_commit (g_commit_cb g)
     || cb_full on_abort (g_abort_cb g)
  then (0, (r, g))
  else
    let r := set_init_cb (cb_add on_thread_init arg (g_init_cb r)) r in
    let r := set_exit_cb (cb_add on_thread_exit arg (g_exit_cb r)) r in
    let r := set_start_cb (cb_add on_start arg (g_start_cb r)) r in
    let g := set_precommit_cb (cb_add on_precommit arg (g_precommit_cb g)) g in
    let g := set_commit_cb (cb_add on_commit arg (g_commit_cb g)) g in
    let g := set_abort_cb (cb_add on_abort arg (g_abort_cb g)) g in
    (1, (r, g)).

(** [stm_create_specific]. *)
Definition stm_create_specific (r : registry_t) : Z * registry_t :=
  if MAX_SPECIFIC <=? Z.of_nat (g_nb_specific r) then (-1, r)
  else (Z.of_nat (g_nb_specific r), set_nb_specific (S (g_nb_specific r)) r).

(** [int_stm_set_specific] and [int_stm_get_specific] on the array
    [tx->data]; [None] when the assertion on the key fails or the key is
    beyond the array. *)
Definition specific_key_ok (r : registry_t) (key : Z) : bool :=
  (0 <=? key) && (key <? Z.of_nat (g_nb_specific r)).

Definition int_stm_set_specific (r : registry_t) (key data : Z) (d : list Z)
    : option (list Z) :=
  if specific_key_ok r key && (Z.to_nat key <? length d)%nat
  then Some (<[Z.to_nat key := data]> d)
  else None.

Definition int_stm_get_specific (r : registry_t) (key : Z) (d : list Z) : option Z :=
  if specific_key_ok r key then d !! Z.to_nat key else None.

(** ** The read set after a load *)

(** The read-set array has its [size] slots, at least one, and the
    entries in use lie within it. *)
Definition rs_wf (tx : stm_tx_t) : Prop :=
  length (rs_slots (tx_r_set tx)) = rs_size (tx_r_set tx) /\
  (rs_nb_entries (tx_r_set tx) <= rs_size (tx_r_set tx))%nat /\
  (0 < rs_size (tx_r_set tx))%nat.

(** The descriptor after [if (nb_entries == size)
    stm_allocate_rs_entries(tx, 1)]. *)
Definition rs_grown (tx : stm_tx_t) : stm_tx_t :=
  let rs := tx_r_set tx in
  if (rs_nb_entries rs =? rs_size rs)%nat then
    let size := (rs_size rs * 2)%nat in
    set_r_set {| rs_slots := resize size r_uninit (rs_slots rs);
                 rs_nb_entries := rs_nb_entries rs;
                 rs_size := size |} tx
  else tx.

(** The state after a load added [(lock, version)] to the read set. *)
Definition read_added (lock version : Z) (s : state) : state :=
  let s1 := with_tx rs_grown s in
  let rs := tx_r_set (st_tx s1) in
  with_tx (set_r_set
    {| rs_slots := <[rs_nb_entries rs := {| r_version := version; r_lock := lock |}]>
                     (rs_slots rs);
       rs_nb_entries := S (rs_nb_entries rs);
       rs_size := rs_size rs |}) s1.

(** ** The state after a successful top-level commit *)

(** The pre-commit callbacks are called, the clock is advanced, the
    write set is published with the new timestamp, the status is set and
    the commit callbacks are called. *)
Definition committed (s : state) : state :=
  let s0 := commit_entry s in
  let c := g_clock (st_g s0) in
  let t := Word.add c 1 in
  let s1 := record (EvClockInc c) (with_g (set_clock t) s0) in
  let s2 := fold_left perform (flat_map (commit_stores t) (write_set (st_tx s1))) s1 in
  let s3 := with_tx (set_status TX_COMMITTED) s2 in
  callbacks_called (g_commit_cb (st_g s3)) s3.

(** ** The state after the barrier ran the roll-over *)

(** The calling thread left the count of running threads, raised the
    barrier flag if it was down, ran [rollover_clock], lowered the flag
    and joined the count again. *)
Definition barrier_passed (s : state) : state :=
  let s1 := with_g (fun g => set_threads_nb (Word.sub (g_threads_nb g) 1) g) s in
  let s2 := with_g (fun g => if g_quiesce g =? 0 then set_quiesce 1 g else g) s1 in
  let s3 := with_g (set_quiesce 0) (st_rollover s2) in
  with_g (fun g => set_threads_nb (Word.add (g_threads_nb g) 1) g) s3.

(** ** The rest of a transaction after a store

    [tx_continues P a s s']: from [s] the transaction goes on to [s'] by
    loads of any address and stores to addresses other than [a], each of
    which returns with the transaction still active. *)
Inductive tx_continues (P : platform) (a : Z) : state -> state -> Prop :=
| continues_here s : tx_continues P a s s
| continues_load s fuel b v s1 s2 :
    int_stm_load P fuel b s = Ret v s1 ->
    IS_ACTIVE (tx_status (st_tx s1)) = true ->
    tx_continues P a s1 s2 ->
    tx_continues P a s s2
| continues_store s fuel b value mask w s1 s2 :
    b <> a ->
    stm_write P fuel b value mask s = Ret w s1 ->
    IS_ACTIVE (tx_status (st_tx s1)) = true ->
    tx_continues P a s1 s2 ->
    tx_continues P a s s2.

(** ** More sample states *)

(** The transaction of [sample_active] over a memory that holds 77 at
    address 96 (lock 3, free at version 5) and 43981 at address 232. *)
Definition sample_mem : Z -> Z :=
  fun a => if a =? 96 then 77 else if a =? 232 then 43981 else 0.

Definition sample_loaded (retry : bool) (end_ : Z) (reads : list r_entry) : state :=
  {| st_g := sample_global sample_locks 9;
     st_mem := sample_mem;
     st_tx := sample_tx retry 4 end_ reads [sample_w0];
     st_hist := [EvLockCAS 7 (LOCK_SET_TIMESTAMP 2) (LOCK_SET_ADDR_WRITE 4096)] |}.

(** The same with lock 5 (address 160) owned by another transaction,
    through a write-set entry of its own at 65536. *)
Definition sample_foreign (retry : bool) : state :=
  {| st_g := sample_global (upd sample_locks 5 (LOCK_SET_ADDR_WRITE 65536)) 9;
     st_mem := sample_mem;
     st_tx := sample_tx retry 4 6 sample_reads [sample_w0];
     st_hist := [EvLockCAS 7 (LOCK_SET_TIMESTAMP 2) (LOCK_SET_ADDR_WRITE 4096)] |}.

(** An engine with module callbacks registered, all locks free (lock 3
    at version 5), and a transaction on it that has read lock 3 and
    written nothing. *)
Definition sample_hooks (clock : Z) : global_t :=
  {| g_locks := upd (fun _ => 0) 3 (LOCK_SET_TIMESTAMP 5); g_clock := clock;
     g_precommit_cb := [ {| cb_f := 100; cb_arg := 1 |} ];
     g_commit_cb := [ {| cb_f := 200; cb_arg := 1 |}; {| cb_f := 300; cb_arg := 2 |} ];
     g_abort_cb := [ {| cb_f := 400; cb_arg := 1 |} ];
     g_quiesce := 0; g_threads_nb := 1; g_irrevocable := 0 |}.

Definition sample_reader (retry : bool) : state :=
  {| st_g := sample_hooks 9; st_mem := sample_mem;
     st_tx := sample_tx retry 4 6 [ {| r_version := 5; r_lock := 3 |} ] [];
     st_hist := [] |}.

(** The transaction of [sample_active] with a write-set array of one
    slot, which is in use. *)
Definition sample_full (retry : bool) : state :=
  {| st_g := sample_global sample_locks 9;
     st_mem := sample_mem;
     st_tx :=
       {| tx_attr := {| read_only := false; no_retry := negb retry |};
          tx_status := TX_ACTIVE; tx_start := 4; tx_end := 6;
          tx_r_set := {| rs_slots := sample_reads; rs_nb_entries := 2; rs_size := 2 |};
          tx_w_set := {| ws_entries := 4096; ws_slots := [sample_w0];
                         ws_nb_entries := 1; ws_size := 1; ws_has_writes := 1 |};
          tx_nesting := 1; tx_irrevocable := 0 |};
     st_hist := [EvLockCAS 7 (LOCK_SET_TIMESTAMP 2) (LOCK_SET_ADDR_WRITE 4096)] |}.

(** An idle descriptor on an engine whose clock has reached
    [VERSION_MAX]. *)
Definition sample_late : state :=
  {| st_g := sample_hooks VERSION_MAX; st_mem := sample_mem;
     st_tx := set_nesting 0 (set_status TX_IDLE (sample_tx true 4 6 [] []));
     st_hist := [] |}.

(** The transaction of [sample_full] with the snapshot ending at 4,
    behind lock 3 (version 5), which it has not read. *)
Definition sample_crowded (retry : bool) : state :=
  {| st_g := sample_global sample_locks 9;
     st_mem := sample_mem;
     st_tx :=
       {| tx_attr := {| read_only := false; no_retry := negb retry |};
          tx_status := TX_ACTIVE; tx_start := 4; tx_end := 4;
          tx_r_set := {| rs_slots := [ {| r_version := 2; r_lock := 7 |}; r_uninit ];
                         rs_nb_entries := 1; rs_size := 2 |};
          tx_w_set := {| ws_entries := 4096; ws_slots := [sample_w0];
                         ws_nb_entries := 1; ws_size := 1; ws_has_writes := 1 |};
          tx_nesting := 1; tx_irrevocable := 0 |};
     st_hist := [EvLockCAS 7 (LOCK_SET_TIMESTAMP 2) (LOCK_SET_ADDR_WRITE 4096)] |}.

(** * Properties *)

(** ** Words *)

Module WordFacts.
Import Word.

Lemma modulus_eq : modulus = 18446744073709551616.
Proof. reflexivity. Qed.

Lemma wrap_range z : in_range (wrap z).
Proof. unfold in_range, wrap. apply Z.mod_pos_bound. reflexivity. Qed.

Lemma wrap_small z : in_range z -> wrap z = z.
Proof. unfold in_range, wrap. intros. apply Z.mod_small. assumption. Qed.

Lemma testbit_high x i : in_range x -> WORD_BITS <= i -> Z.testbit x i = false.
Proof.
  unfold in_range, modulus, WORD_BITS. intros Hx Hi.
  rewrite <- (Z.mod_small x (2 ^ 64)) by assumption.
  apply Z.mod_pow2_bits_high. lia.
Qed.

Lemma testbit_beyond n k i :
  0 <= k -> 0 <= n < 2 ^ k -> k <= i -> Z.testbit n i = false.
Proof.
  intros Hk Hn Hi.
  destruct (Z.eq_dec n 0) as [->|Hne]; [apply Z.bits_0|].
  apply Z.bits_above_log2; [lia|].
  assert (Z.log2 n < k) by (apply Z.log2_lt_pow2; lia). lia.
Qed.

Lemma ones_spec i : 0 <= i -> Z.testbit ones i = (i <? WORD_BITS).
Proof.
  intros Hi. unfold ones, modulus.
  change (2 ^ WORD_BITS - 1) with (Z.ones WORD_BITS).
  destruct (Z.ltb_spec i WORD_BITS).
  - apply Z.ones_spec_low. lia.
  - apply Z.ones_spec_high. unfold WORD_BITS in *. lia.
Qed.

Lemma not_spec x i :
  0 <= i -> Z.testbit (not x) i = xorb (Z.testbit x i) (i <? WORD_BITS).
Proof. intros Hi. unfold not. rewrite Z.lxor_spec, ones_spec by assumption. reflexivity. Qed.

Lemma in_range_bits x :
  0 <= x -> (forall i, WORD_BITS <= i -> Z.testbit x i = false) -> in_range x.
Proof.
  intros H0 Hhi. split; [assumption|].
  destruct (Z.eq_dec x 0) as [->|Hne]; [reflexivity|].
  assert (Hpos : 0 < x) by lia.
  apply Z.log2_lt_pow2; [assumption|].
  destruct (Z.lt_ge_cases (Z.log2 x) WORD_BITS) as [Hlt|Hge]; [assumption|].
  pose proof (Z.bit_log2 x Hpos) as Hb.
  rewrite Hhi in Hb by assumption. discriminate.
Qed.

Lemma land_range x y : in_range x -> 0 <= y -> in_range (Z.land x y).
Proof.
  intros Hx Hy. apply in_range_bits.
  - apply Z.land_nonneg. left. apply Hx.
  - intros i Hi. rewrite Z.land_spec, (testbit_high x i Hx Hi). reflexivity.
Qed.

Lemma lor_range x y : in_range x -> in_range y -> in_range (Z.lor x y).
Proof.
  intros Hx Hy. apply in_range_bits.
  - apply Z.lor_nonneg. split; [apply Hx | apply Hy].
  - intros i Hi.
    rewrite Z.lor_spec, (testbit_high x i Hx Hi), (testbit_high y i Hy Hi).
    reflexivity.
Qed.

Lemma shr_range x n : in_range x -> 0 <= n -> in_range (shr x n).
Proof.
  intros Hx Hn. unfold shr. apply in_range_bits.
  - apply Z.shiftr_nonneg. apply Hx.
  - intros i Hi. rewrite Z.shiftr_spec by (unfold WORD_BITS in *; lia).
    apply testbit_high; [assumption | lia].
Qed.

End WordFacts.

(** ** The lock-word encoding *)

Module LockFacts.
Import Word WordFacts.

Lemma version_bound : VERSION_MAX + MAX_THREADS = 2 ^ 60 - 1.
Proof. reflexivity. Qed.

(** [LOCK_SET_TIMESTAMP] always yields a word whose four low bits are
    clear. *)
Lemma set_timestamp_low_bits t i :
  0 <= i < LOCK_BITS -> Z.testbit (LOCK_SET_TIMESTAMP t) i = false.
Proof.
  unfold LOCK_BITS, OWNED_BITS, INCARNATION_BITS. intros Hi.
  unfold LOCK_SET_TIMESTAMP, shl, wrap, modulus, WORD_BITS, LOCK_BITS,
    OWNED_BITS, INCARNATION_BITS.
  rewrite Z.mod_pow2_bits_low by lia.
  rewrite Z.shiftl_spec by lia.
  apply Z.testbit_neg_r. lia.
Qed.

Lemma set_timestamp_range t : in_range (LOCK_SET_TIMESTAMP t).
Proof. apply wrap_range. Qed.

Lemma set_timestamp_free t : LOCK_GET_OWNED (LOCK_SET_TIMESTAMP t) = 0.
Proof.
  unfold LOCK_GET_OWNED, OWNED_MASK, WRITE_MASK.
  apply Z.bits_inj'. intros i Hi.
  rewrite Z.land_spec, Z.bits_0.
  destruct (Z.eq_dec i 0) as [->|Hne].
  - rewrite set_timestamp_low_bits by (cbv; split; congruence). reflexivity.
  - change 1 with (Z.ones 1). rewrite Z.ones_spec_high by lia.
    apply andb_false_r.
Qed.


Lemma get_set_timestamp t :
  0 <= t <= VERSION_MAX + MAX_THREADS ->
  LOCK_GET_TIMESTAMP (LOCK_SET_TIMESTAMP t) = t.
Proof.
  rewrite version_bound. intros Ht.
  unfold LOCK_GET_TIMESTAMP, LOCK_SET_TIMESTAMP, shl, shr.
  rewrite wrap_small.
  - rewrite Z.shiftr_shiftl_l by (cbv; congruence).
    rewrite Z.sub_diag. apply Z.shiftl_0_r.
  - unfold in_range. rewrite Z.shiftl_mul_pow2 by (cbv; congruence).
    rewrite modulus_eq. change (2 ^ LOCK_BITS) with 16.
    change (2 ^ 60) with 1152921504606846976 in Ht. lia.
Qed.

Lemma set_addr_write_owned a : LOCK_GET_OWNED (LOCK_SET_ADDR_WRITE a) = 1.
Proof.
  unfold LOCK_GET_OWNED, LOCK_SET_ADDR_WRITE, OWNED_MASK, WRITE_MASK.
  rewrite Z.land_lor_distr_l. change (Z.land 1 1) with 1.
  apply Z.bits_inj'. intros i Hi.
  rewrite Z.lor_spec, Z.land_spec.
  destruct (Z.testbit 1 i); [apply orb_true_r | rewrite andb_false_r; reflexivity].
Qed.

(** Masking the owned bit off recovers an even address. *)
Lemma get_addr_set_addr_write a :
  in_range a -> Z.testbit a 0 = false ->
  LOCK_GET_ADDR (LOCK_SET_ADDR_WRITE a) = a.
Proof.
  intros Ha Heven.
  unfold LOCK_GET_ADDR, LOCK_SET_ADDR_WRITE, OWNED_MASK, WRITE_MASK.
  apply Z.bits_inj'. intros i Hi.
  rewrite Z.land_spec, Z.lor_spec, not_spec by assumption.
  destruct (Z.eq_dec i 0) as [->|Hne].
  - rewrite Heven. reflexivity.
  - replace (Z.testbit 1 i) with false.
    + rewrite orb_false_r. simpl.
      destruct (Z.ltb_spec i WORD_BITS); [apply andb_true_r|].
      rewrite (testbit_high a i Ha) by assumption. reflexivity.
    + symmetry. apply (testbit_beyond 1 1); lia.
Qed.

Lemma aligned_even a : a mod 16 = 0 -> Z.testbit a 0 = false.
Proof.
  intros Ha. rewrite Z.bit0_odd.
  rewrite (Z.div_mod a 16) by lia. rewrite Ha, Z.add_0_r.
  replace (16 * (a / 16)) with (2 * (8 * (a / 16))) by lia.
  apply Z.odd_even.
Qed.

End LockFacts.

(** C9.  The lock-word encoding round-trips.  For a representable version
    [t] (up to [VERSION_MAX + MAX_THREADS], the largest value the clock
    can take) the free encoding [LOCK_SET_TIMESTAMP t] has the owned bit
    clear and [LOCK_GET_TIMESTAMP] decodes it back to [t]; for the
    address [a] of a write-set entry aligned to 16 bytes the owned
    encoding [LOCK_SET_ADDR_WRITE a] has the owned bit set and
    [LOCK_GET_ADDR] recovers exactly [a]. *)
Theorem lock_word_roundtrip (t a : Z) :
  0 <= t <= VERSION_MAX + MAX_THREADS ->
  Word.in_range a ->
  a mod 16 = 0 ->
  Z.testbit (LOCK_SET_TIMESTAMP t) 0 = false /\
  LOCK_GET_OWNED (LOCK_SET_TIMESTAMP t) = 0 /\
  LOCK_GET_TIMESTAMP (LOCK_SET_TIMESTAMP t) = t /\
  Z.testbit (LOCK_SET_ADDR_WRITE a) 0 = true /\
  LOCK_GET_OWNED (LOCK_SET_ADDR_WRITE a) = 1 /\
  LOCK_GET_ADDR (LOCK_SET_ADDR_WRITE a) = a.
Proof.
  intros Ht Ha Hal. repeat split.
  - apply LockFacts.set_timestamp_low_bits. cbv. split; congruence.
  - apply LockFacts.set_timestamp_free.
  - apply LockFacts.get_set_timestamp. assumption.
  - unfold LOCK_SET_ADDR_WRITE, WRITE_MASK. rewrite Z.lor_spec.
    apply orb_true_r.
  - apply LockFacts.set_addr_write_owned.
  - apply LockFacts.get_addr_set_addr_write; [assumption|].
    apply LockFacts.aligned_even. assumption.
Qed.

Lemma lock_word_roundtrip_witness :
  Z.testbit (LOCK_SET_TIMESTAMP 1152921504606846975) 0 = false /\
  LOCK_GET_OWNED (LOCK_SET_TIMESTAMP 1152921504606846975) = 0 /\
  LOCK_GET_TIMESTAMP (LOCK_SET_TIMESTAMP 1152921504606846975) = 1152921504606846975 /\
  Z.testbit (LOCK_SET_ADDR_WRITE 4096) 0 = true /\
  LOCK_GET_OWNED (LOCK_SET_ADDR_WRITE 4096) = 1 /\
  LOCK_GET_ADDR (LOCK_SET_ADDR_WRITE 4096) = 4096.
Proof.
  apply (lock_word_roundtrip 1152921504606846975 4096).
  - vm_compute. split; discriminate.
  - vm_compute. split; [discriminate | reflexivity].
  - reflexivity.
Defined.


(** ** Snapshot extension *)

Section Extension.

Variable P : platform.

Lemma read_entry_ok_spec s e :
  read_entry_ok P s e = true <-> read_entry_valid P s e.
Proof.
  unfold read_entry_ok, read_entry_valid.
  destruct (Z.eqb_spec (LOCK_GET_OWNED (g_locks (st_g s) (r_lock e))) 0) as [H0|H0].
  - rewrite Z.eqb_eq. split.
    + intros Hv. right. split; assumption.
    + intros [[Hn _]|[_ Hv]]; [contradiction | assumption].
  - split.
    + intros Hc. left. split; assumption.
    + intros [[_ Hc]|[Hz _]]; [assumption | contradiction].
Qed.

Lemma read_set_valid_forallb s :
  read_set_valid P s <-> forallb (read_entry_ok P s) (read_set (st_tx s)) = true.
Proof.
  unfold read_set_valid. rewrite forallb_forall, Forall_forall.
  split; intros H x Hx.
  - apply read_entry_ok_spec, H. apply list_elem_of_In. assumption.
  - apply read_entry_ok_spec, H. apply list_elem_of_In. assumption.
Qed.

(** The validation loop leaves the state as it is and computes the
    conjunction of the tests of the entries it visits. *)
Lemma validate_loop_eq i : forall r s,
  (r + i <= length (rs_slots (tx_r_set (st_tx s))))%nat ->
  validate_loop P i r s =
  Ret (if forallb (read_entry_ok P s) (take i (drop r (rs_slots (tx_r_set (st_tx s)))))
       then 1 else 0) s.
Proof.
  induction i as [|i IH]; intros r s Hlen.
  - reflexivity.
  - destruct (lookup_lt_is_Some_2 (rs_slots (tx_r_set (st_tx s))) r) as [e He]; [lia|].
    rewrite (drop_S _ _ _ He). cbn [take forallb validate_loop].
    unfold bind at 1. unfold get_tx, gets. rewrite He.
    unfold bind at 1. unfold load_lock, gets.
    unfold read_entry_ok at 1.
    destruct (LOCK_GET_OWNED (g_locks (st_g s) (r_lock e)) =? 0); cbn [negb].
    + destruct (LOCK_GET_TIMESTAMP (g_locks (st_g s) (r_lock e)) =? r_version e);
        cbn [negb andb]; [apply IH; lia | reflexivity].
    + destruct (ws_contains P (tx_w_set (st_tx s))
                  (LOCK_GET_ADDR (g_locks (st_g s) (r_lock e))));
        cbn [negb andb]; [apply IH; lia | reflexivity].
Qed.

Lemma stm_wbetl_validate_eq s :
  rs_bounded (st_tx s) ->
  stm_wbetl_validate P s =
  Ret (if forallb (read_entry_ok P s) (read_set (st_tx s)) then 1 else 0) s.
Proof.
  intros Hb. unfold stm_wbetl_validate, bind, get_tx, gets.
  rewrite validate_loop_eq by (unfold rs_bounded in Hb; lia).
  reflexivity.
Qed.

Lemma stm_wbetl_extend_eq s :
  rs_bounded (st_tx s) ->
  stm_wbetl_extend P s =
  if forallb (read_entry_ok P s) (read_set (st_tx s))
  then Ret 1 (with_tx (set_end (g_clock (st_g s))) s)
  else Ret 0 s.
Proof.
  intros Hb. unfold stm_wbetl_extend, bind, GET_CLOCK, gets.
  rewrite stm_wbetl_validate_eq by assumption.
  destruct (forallb _ _); reflexivity.
Qed.

End Extension.

(** C2.  Snapshot extension succeeds exactly when every entry of the
    read set is valid (its lock is owned with a pointer inside the
    write-set array of the transaction, or free with the version that
    was read).  On success it returns 1 and [end] is the clock value read
    on entry; otherwise it returns 0 and the state, [end] included, is
    unchanged. *)
Theorem extend_iff_read_set_valid (P : platform) (s : state) :
  rs_bounded (st_tx s) ->
  (read_set_valid P s <->
   stm_wbetl_extend P s = Ret 1 (with_tx (set_end (g_clock (st_g s))) s)) /\
  (~ read_set_valid P s <-> stm_wbetl_extend P s = Ret 0 s) /\
  tx_end (st_tx (with_tx (set_end (g_clock (st_g s))) s)) = g_clock (st_g s).
Proof.
  intros Hb. rewrite read_set_valid_forallb.
  rewrite (stm_wbetl_extend_eq P s Hb).
  destruct (forallb _ _); repeat split; try congruence; try reflexivity.
  all: intros H; try discriminate H; exfalso; apply H; reflexivity.
Qed.

Lemma extend_iff_read_set_valid_witness :
  rs_bounded (st_tx (sample_active true)) /\
  read_set_valid sample_platform (sample_active true) /\
  stm_wbetl_extend sample_platform (sample_active true) =
  Ret 1 (with_tx (set_end 9) (sample_active true)).
Proof.
  assert (Hb : rs_bounded (st_tx (sample_active true))).
  { unfold rs_bounded. simpl. lia. }
  assert (Hv : read_set_valid sample_platform (sample_active true)).
  { unfold read_set_valid. simpl.
    constructor; [right; vm_compute; split; congruence|].
    constructor; [left; vm_compute; split; congruence|].
    constructor. }
  split; [exact Hb | split; [exact Hv|]].
  apply (proj1 (proj1 (extend_iff_read_set_valid sample_platform (sample_active true) Hb)) Hv).
Defined.


(** ** What rollback can and cannot touch

    [stm_rollback], with everything it calls, changes the shared state
    only by storing free lock words [LOCK_SET_TIMESTAMP v], by the clock
    rollover, by the quiescence counters and by calling callbacks.  Any
    relation that tolerates these steps is kept by it. *)

Section Frame.

Variable P : platform.
Variable R : state -> option Z -> state -> Prop.

Hypothesis R_refl : forall s, R s None s.
Hypothesis R_trans : forall s1 s2 j s3, R s1 None s2 -> R s2 j s3 -> R s1 j s3.
Hypothesis R_tx : forall s f, R s None (with_tx f s).
Hypothesis R_threads : forall s n, R s None (with_g (set_threads_nb n) s).
Hypothesis R_quiesce : forall s q, R s None (with_g (set_quiesce q) s).
Hypothesis R_release : forall s l v, R s None (st_store_lock l (LOCK_SET_TIMESTAMP v) s).
Hypothesis R_rollover : forall s, R s None (st_rollover s).
Hypothesis R_callback : forall s f a, R s None (record (EvCallback f a) s).

Lemma keeps_ret {A} (v : A) : keeps R (ret v).
Proof. intros s. apply R_refl. Qed.

Lemma keeps_bind {A B} (m : M A) (k : A -> M B) :
  keeps R m -> (forall a, keeps R (k a)) -> keeps R (bind m k).
Proof.
  intros Hm Hk s. unfold bind. specialize (Hm s).
  destruct (m s) as [v s'| | | | |]; cbn [final jump_of] in *; try assumption.
  eapply R_trans; [exact Hm | apply Hk].
Qed.

Lemma keeps_gets {A} (f : state -> A) : keeps R (gets f).
Proof. intros s. apply R_refl. Qed.

Lemma keeps_assert b : keeps R (assert b).
Proof. intros s. unfold assert. destruct (b s); apply R_refl. Qed.

Lemma keeps_block {A} : keeps R (@block A).
Proof. intros s. apply R_refl. Qed.

Lemma keeps_fault {A} : keeps R (@fault A).
Proof. intros s. apply R_refl. Qed.

Lemma keeps_diverge {A} : keeps R (@diverge A).
Proof. intros s. apply R_refl. Qed.

Lemma keeps_longjmp {A} r : (forall s, R s (Some r) s) -> keeps R (@longjmp A r).
Proof. intros Hr s. apply Hr. Qed.

Lemma keeps_put_tx f : keeps R (put_tx f).
Proof. intros s. apply R_tx. Qed.

Lemma keeps_if {A} (b : bool) (m1 m2 : M A) :
  keeps R m1 -> keeps R m2 -> keeps R (if b then m1 else m2).
Proof. destruct b; auto. Qed.

Lemma keeps_rollback_loop i : forall w, keeps R (rollback_loop i w).
Proof.
  induction i as [|i IH]; intros w; cbn [rollback_loop].
  - apply keeps_ret.
  - apply keeps_bind; [apply keeps_gets|]. intros tx.
    destruct (ws_slots (tx_w_set tx) !! w) as [e|]; [|apply keeps_fault].
    apply keeps_bind; [|intros _; apply IH].
    apply keeps_if; [|apply keeps_ret].
    intros s. apply R_release.
Qed.

Lemma keeps_stm_wbetl_rollback : keeps R stm_wbetl_rollback.
Proof.
  unfold stm_wbetl_rollback.
  apply keeps_bind; [apply keeps_assert|]. intros _.
  apply keeps_bind; [apply keeps_gets|]. intros tx.
  apply keeps_if; [apply keeps_rollback_loop | apply keeps_ret].
Qed.

Lemma keeps_run_callbacks cbs : keeps R (run_callbacks cbs).
Proof.
  induction cbs as [|cb cbs IH]; cbn [run_callbacks].
  - apply keeps_ret.
  - apply keeps_bind; [|intros _; exact IH].
    intros s. apply R_callback.
Qed.

Lemma keeps_stm_allocate_ws_entries : keeps R (stm_allocate_ws_entries P).
Proof.
  unfold stm_allocate_ws_entries.
  apply keeps_bind; [apply keeps_put_tx | intros _; apply keeps_assert].
Qed.

Lemma keeps_stm_quiesce_barrier : keeps R stm_quiesce_barrier.
Proof.
  unfold stm_quiesce_barrier.
  apply keeps_bind; [apply keeps_assert|]. intros _.
  apply keeps_bind; [intros s; apply R_threads|]. intros _.
  apply keeps_bind.
  { intros s. unfold modify. cbn [final jump_of]. unfold with_g.
    destruct (g_quiesce (st_g s) =? 0).
    - apply (R_quiesce s 1).
    - destruct s; apply R_refl. }
  intros _. apply keeps_bind; [apply keeps_gets|]. intros g.
  apply keeps_bind; [|intros _; intros s; apply R_threads].
  repeat apply keeps_if; try apply keeps_ret; try apply keeps_block.
  apply keeps_bind; [intros s; apply R_rollover|].
  intros _ s. apply R_quiesce.
Qed.

Lemma keeps_stm_check_quiesce : keeps R stm_check_quiesce.
Proof.
  unfold stm_check_quiesce.
  apply keeps_bind; [apply keeps_assert|]. intros _.
  apply keeps_bind; [apply keeps_gets|]. intros g.
  apply keeps_if; [|apply keeps_ret].
  apply keeps_bind; [apply keeps_put_tx | intros _; apply keeps_block].
Qed.

Lemma keeps_prepare_start fuel : keeps R (prepare_start fuel).
Proof.
  induction fuel as [|fuel IH]; cbn [prepare_start]; [apply keeps_diverge|].
  apply keeps_bind; [apply keeps_gets|]. intros now.
  apply keeps_bind; [apply keeps_put_tx|]. intros _.
  apply keeps_if; [|apply keeps_ret].
  apply keeps_bind; [apply keeps_stm_quiesce_barrier | intros _; exact IH].
Qed.

Lemma keeps_int_stm_prepare : keeps R int_stm_prepare.
Proof.
  unfold int_stm_prepare.
  apply keeps_bind; [apply keeps_put_tx|]. intros _.
  apply keeps_bind; [apply keeps_prepare_start|]. intros _.
  apply keeps_bind; [apply keeps_put_tx|]. intros _.
  apply keeps_bind; [apply keeps_stm_check_quiesce | intros _; apply keeps_ret].
Qed.

Lemma keeps_stm_rollback reason :
  (forall s, R s (Some (Z.lor reason (STM_PATH_INSTRUMENTED P))) s) ->
  keeps R (stm_rollback P reason).
Proof.
  intros Hjump. unfold stm_rollback.
  apply keeps_bind; [apply keeps_assert|]. intros _.
  apply keeps_bind; [apply keeps_stm_wbetl_rollback|]. intros _.
  apply keeps_bind; [apply keeps_put_tx|]. intros _.
  apply keeps_bind.
  { apply keeps_if; [apply keeps_stm_allocate_ws_entries | apply keeps_ret]. }
  intros _. apply keeps_bind; [apply keeps_put_tx|]. intros _.
  apply keeps_bind; [apply keeps_gets|]. intros g.
  apply keeps_bind; [apply keeps_run_callbacks|]. intros _.
  apply keeps_bind; [apply keeps_gets|]. intros tx.
  apply keeps_if; [apply keeps_put_tx|].
  apply keeps_bind; [apply keeps_int_stm_prepare|].
  intros _. apply keeps_longjmp. exact Hjump.
Qed.

End Frame.


(** ** Sequences of stores *)

Section Stores.

Variable P : platform.

Lemma perform_tx s ev : st_tx (perform s ev) = st_tx s.
Proof. destruct ev; reflexivity. Qed.

Lemma fold_perform_tx evs : forall s, st_tx (fold_left perform evs s) = st_tx s.
Proof.
  induction evs as [|ev evs IH]; intros s; cbn [fold_left]; [reflexivity|].
  rewrite IH. apply perform_tx.
Qed.

Lemma fold_perform_locks evs l : forall s,
  g_locks (st_g (fold_left perform evs s)) l = lock_after evs l (g_locks (st_g s) l).
Proof.
  induction evs as [|ev evs IH]; intros s; cbn [fold_left lock_after]; [reflexivity|].
  rewrite IH. destruct ev; reflexivity.
Qed.

Lemma fold_perform_mem evs a : forall s,
  st_mem (fold_left perform evs s) a = mem_after evs a (st_mem s a).
Proof.
  induction evs as [|ev evs IH]; intros s; cbn [fold_left mem_after]; [reflexivity|].
  rewrite IH. destruct ev; try reflexivity.
Qed.

Lemma fold_perform_global evs : forall s,
  let g := st_g s in
  let g' := st_g (fold_left perform evs s) in
  g_clock g' = g_clock g /\ g_quiesce g' = g_quiesce g /\
  g_threads_nb g' = g_threads_nb g /\ g_irrevocable g' = g_irrevocable g /\
  g_precommit_cb g' = g_precommit_cb g /\ g_commit_cb g' = g_commit_cb g /\
  g_abort_cb g' = g_abort_cb g.
Proof.
  induction evs as [|ev evs IH]; intros s; cbn [fold_left]; [repeat split|].
  cbn zeta in *. destruct (IH (perform s ev)) as (H1 & H2 & H3 & H4 & H5 & H6 & H7).
  rewrite H1, H2, H3, H4, H5, H6, H7. destruct ev; repeat split.
Qed.


Lemma fold_perform_mem_kept evs : forall s,
  existsb is_mem_store evs = false ->
  st_mem (fold_left perform evs s) = st_mem s.
Proof.
  induction evs as [|ev evs IH]; intros s Hno; cbn [fold_left]; [reflexivity|].
  cbn [existsb] in Hno. apply orb_false_iff in Hno as [Hev Hno].
  rewrite IH by assumption.
  destruct ev; try discriminate Hev; reflexivity.
Qed.

Lemma rollback_stores_no_mem es :
  existsb is_mem_store (flat_map rollback_stores es) = false.
Proof.
  induction es as [|e es IH]; [reflexivity|].
  cbn [flat_map]. rewrite existsb_app, IH, orb_false_r.
  unfold rollback_stores. destruct (w_next e =? 0); reflexivity.
Qed.



(** The loop of [stm_wbetl_rollback] performs the rollback stores of the
    entries it visits, in order. *)
Lemma rollback_loop_eq i : forall w s,
  (w + i <= length (ws_slots (tx_w_set (st_tx s))))%nat ->
  rollback_loop i w s =
  Ret tt (fold_left perform
            (flat_map rollback_stores (take i (drop w (ws_slots (tx_w_set (st_tx s)))))) s).
Proof.
  induction i as [|i IH]; intros w s Hlen; [reflexivity|].
  destruct (lookup_lt_is_Some_2 (ws_slots (tx_w_set (st_tx s))) w) as [e He]; [lia|].
  rewrite (drop_S _ _ _ He). cbn [take flat_map rollback_loop].
  rewrite fold_left_app.
  unfold bind at 1. unfold get_tx, gets. rewrite He.
  unfold bind.
  assert (Hstep :
    (if w_next e =? 0
     then store_lock (w_lock e) (LOCK_SET_TIMESTAMP (w_version e))
     else ret tt) s = Ret tt (fold_left perform (rollback_stores e) s)).
  { unfold rollback_stores. destruct (w_next e =? 0); reflexivity. }
  rewrite Hstep.
  rewrite IH by (rewrite fold_perform_tx; lia).
  rewrite fold_perform_tx. reflexivity.
Qed.

(** The loop of [stm_wbetl_commit] performs the commit stores of the
    entries it visits, in order. *)
Lemma commit_loop_eq t i : forall w s,
  (w + i <= length (ws_slots (tx_w_set (st_tx s))))%nat ->
  commit_loop t i w s =
  Ret tt (fold_left perform
            (flat_map (commit_stores t) (take i (drop w (ws_slots (tx_w_set (st_tx s)))))) s).
Proof.
  induction i as [|i IH]; intros w s Hlen; [reflexivity|].
  destruct (lookup_lt_is_Some_2 (ws_slots (tx_w_set (st_tx s))) w) as [e He]; [lia|].
  rewrite (drop_S _ _ _ He). cbn [take flat_map commit_loop].
  rewrite fold_left_app.
  unfold bind at 1. unfold get_tx, gets. rewrite He.
  set (rest := flat_map (commit_stores t) _).
  unfold commit_stores.
  destruct (w_mask e =? 0), (w_next e =? 0);
    cbn [negb app fold_left perform];
    unfold bind, store_mem, store_lock, modify, ret;
    (rewrite IH by (cbn; lia)); reflexivity.
Qed.

Lemma stm_wbetl_rollback_eq s :
  IS_ACTIVE (tx_status (st_tx s)) = true ->
  ws_bounded (st_tx s) ->
  stm_wbetl_rollback s =
  Ret tt (fold_left perform (flat_map rollback_stores (write_set (st_tx s))) s).
Proof.
  intros Hact Hb. unfold stm_wbetl_rollback, bind, assert, get_tx, gets.
  rewrite Hact. unfold write_set.
  destruct (ws_nb_entries (tx_w_set (st_tx s))) as [|n] eqn:Hn.
  - reflexivity.
  - cbn [Nat.ltb Nat.leb]. unfold ws_bounded in Hb. rewrite Hn in Hb.
    rewrite rollback_loop_eq by (cbn; lia). reflexivity.
Qed.

Lemma release_locks_eq t s :
  ws_bounded (st_tx s) ->
  release_locks t s =
  Ret 1 (fold_left perform (flat_map (commit_stores t) (write_set (st_tx s))) s).
Proof.
  intros Hb. unfold release_locks, bind, get_tx, gets.
  rewrite commit_loop_eq by (unfold ws_bounded in Hb; cbn; lia).
  reflexivity.
Qed.

End Stores.

(** ** Pointers to write-set entries *)

Section Pointers.

Variable P : platform.

Lemma sizeof_w_entry_t_bound : 48 <= sizeof_w_entry_t P.
Proof.
  unfold sizeof_w_entry_t.
  assert (6 <= (Z.max 48 (CACHELINE_SIZE P) + 7) / 8).
  { apply Z.div_le_lower_bound; lia. }
  lia.
Qed.

Lemma sizeof_w_entry_t_even : Z.testbit (sizeof_w_entry_t P) 0 = false.
Proof.
  unfold sizeof_w_entry_t. rewrite Z.bit0_odd.
  replace (8 * ((Z.max 48 (CACHELINE_SIZE P) + 7) / 8))
    with (2 * (4 * ((Z.max 48 (CACHELINE_SIZE P) + 7) / 8))) by lia.
  apply Z.odd_even.
Qed.

Lemma w_ptr_mono ws i j : (i <= j)%nat -> w_ptr P ws i <= w_ptr P ws j.
Proof. pose proof sizeof_w_entry_t_bound. unfold w_ptr. nia. Qed.

Lemma w_ptr_lt ws i j : (i < j)%nat <-> w_ptr P ws i < w_ptr P ws j.
Proof. pose proof sizeof_w_entry_t_bound. unfold w_ptr. split; nia. Qed.

Lemma w_ptr_inj ws i j : w_ptr P ws i = w_ptr P ws j -> i = j.
Proof. pose proof sizeof_w_entry_t_bound. unfold w_ptr. nia. Qed.

Lemma w_ptr_base ws i : ws_entries ws <= w_ptr P ws i.
Proof. pose proof sizeof_w_entry_t_bound. unfold w_ptr. nia. Qed.

Lemma w_index_ptr ws i : w_index P ws (w_ptr P ws i) = Some i.
Proof.
  pose proof sizeof_w_entry_t_bound as Hsz.
  unfold w_index, w_ptr.
  replace (ws_entries ws + Z.of_nat i * sizeof_w_entry_t P - ws_entries ws)
    with (Z.of_nat i * sizeof_w_entry_t P) by lia.
  rewrite Z.mod_mul, Z.div_mul by lia.
  replace (ws_entries ws <=? ws_entries ws + Z.of_nat i * sizeof_w_entry_t P) with true
    by (symmetry; apply Z.leb_le; nia).
  cbn. rewrite Nat2Z.id. reflexivity.
Qed.

Lemma w_lookup_ptr ws i : w_lookup P ws (w_ptr P ws i) = ws_slots ws !! i.
Proof. unfold w_lookup. rewrite w_index_ptr. reflexivity. Qed.

Lemma ws_contains_ptr ws i :
  ws_contains P ws (w_ptr P ws i) = (i <? ws_nb_entries ws)%nat.
Proof.
  unfold ws_contains.
  replace (ws_entries ws <=? w_ptr P ws i) with true
    by (symmetry; apply Z.leb_le, w_ptr_base).
  cbn [andb].
  destruct (Nat.ltb_spec i (ws_nb_entries ws)) as [Hlt|Hge].
  - apply Z.ltb_lt, w_ptr_lt. assumption.
  - apply Z.ltb_ge, w_ptr_mono. assumption.
Qed.

Lemma ws_contains_range ws w :
  ws_contains P ws w = true <->
  ws_entries ws <= w < w_ptr P ws (ws_nb_entries ws).
Proof.
  unfold ws_contains. rewrite andb_true_iff, Z.leb_le, Z.ltb_lt. reflexivity.
Qed.

(** Bit 0 of a sum with an even summand. *)
Lemma testbit0_add_even a b :
  Z.testbit b 0 = false -> Z.testbit (a + b) 0 = Z.testbit a 0.
Proof.
  rewrite !Z.bit0_odd. intros Hb. rewrite Z.odd_add, Hb. apply xorb_false_r.
Qed.

Lemma testbit0_mul_even a b :
  Z.testbit b 0 = false -> Z.testbit (a * b) 0 = false.
Proof.
  rewrite !Z.bit0_odd. intros Hb. rewrite Z.odd_mul, Hb. apply andb_false_r.
Qed.

Lemma w_ptr_even ws i :
  Z.testbit (ws_entries ws) 0 = false -> Z.testbit (w_ptr P ws i) 0 = false.
Proof.
  intros Hb. unfold w_ptr.
  rewrite testbit0_add_even; [assumption|].
  apply testbit0_mul_even, sizeof_w_entry_t_even.
Qed.

(** The owner pointer of an entry of a well-placed array survives the
    encoding in a lock word. *)
Lemma get_addr_w_ptr ws i :
  0 < ws_entries ws ->
  Z.testbit (ws_entries ws) 0 = false ->
  w_ptr P ws i < Word.modulus ->
  LOCK_GET_ADDR (LOCK_SET_ADDR_WRITE (w_ptr P ws i)) = w_ptr P ws i.
Proof.
  intros Hpos Heven Htop.
  apply LockFacts.get_addr_set_addr_write.
  - split; [pose proof (w_ptr_base ws i); lia | assumption].
  - apply w_ptr_even. assumption.
Qed.

End Pointers.

(** ** Rollback *)

Section Rollback.

Variable P : platform.

Lemma history_since_refl Q s : history_since Q s s.
Proof. exists []. split; [reflexivity | constructor]. Qed.

Lemma history_since_trans Q s1 s2 s3 :
  history_since Q s1 s2 -> history_since Q s2 s3 -> history_since Q s1 s3.
Proof.
  intros (n1 & H1 & F1) (n2 & H2 & F2). exists (n2 ++ n1). split.
  - rewrite H2, H1. apply app_assoc.
  - apply Forall_app. split; assumption.
Qed.

Lemma history_since_record (Q : event -> Prop) s s' ev :
  st_hist s' = ev :: st_hist s -> Q ev -> history_since Q s s'.
Proof.
  intros Hh Hq. exists [ev]. split; [exact Hh | constructor; [exact Hq | constructor]].
Qed.

Lemma history_since_same (Q : event -> Prop) s s' :
  st_hist s' = st_hist s -> history_since Q s s'.
Proof. intros Hh. exists []. split; [exact Hh | constructor]. Qed.

Lemma mem_kept_refl s : mem_kept s s.
Proof. split; [reflexivity | apply history_since_refl]. Qed.

Lemma mem_kept_trans s1 s2 s3 : mem_kept s1 s2 -> mem_kept s2 s3 -> mem_kept s1 s3.
Proof.
  intros [M1 H1] [M2 H2]. split; [congruence|].
  eapply history_since_trans; eassumption.
Qed.

Lemma no_acquire_refl s : no_acquire s s.
Proof. split; [reflexivity | apply history_since_refl]. Qed.

Lemma no_acquire_trans s1 s2 s3 : no_acquire s1 s2 -> no_acquire s2 s3 -> no_acquire s1 s3.
Proof.
  intros [M1 H1] [M2 H2]. split.
  - intros l Ho. rewrite (M2 l Ho). apply M1. rewrite <- (M2 l Ho). exact Ho.
  - eapply history_since_trans; eassumption.
Qed.

(** A step that leaves locks and memory alone and records nothing. *)
Lemma silent_step s s' :
  st_mem s' = st_mem s -> g_locks (st_g s') = g_locks (st_g s) ->
  st_hist s' = st_hist s ->
  mem_kept s s' /\ no_acquire s s'.
Proof.
  intros Hm Hl Hh. split; split; try assumption.
  - apply history_since_same. exact Hh.
  - intros l _. rewrite Hl. reflexivity.
  - apply history_since_same. exact Hh.
Qed.

(** Rollback never stores to application memory and never acquires a
    lock; if it jumps, it jumps with its reason. *)
Lemma stm_rollback_frame reason s :
  rollback_frame P reason s (jump_of (stm_rollback P reason s))
    (final (stm_rollback P reason s)).
Proof.
  apply (keeps_stm_rollback P (rollback_frame P reason)); unfold rollback_frame.
  - intros s0. split; [apply mem_kept_refl|]. split; [apply no_acquire_refl | left; reflexivity].
  - intros s1 s2 j s3 (M1 & A1 & _) (M2 & A2 & J2).
    split; [eapply mem_kept_trans; eassumption|].
    split; [eapply no_acquire_trans; eassumption | exact J2].
  - intros s0 f. destruct (silent_step s0 (with_tx f s0)) as [Hm Ha]; try reflexivity.
    split; [exact Hm | split; [exact Ha | left; reflexivity]].
  - intros s0 n.
    destruct (silent_step s0 (with_g (set_threads_nb n) s0)) as [Hm Ha]; try reflexivity.
    split; [exact Hm | split; [exact Ha | left; reflexivity]].
  - intros s0 q.
    destruct (silent_step s0 (with_g (set_quiesce q) s0)) as [Hm Ha]; try reflexivity.
    split; [exact Hm | split; [exact Ha | left; reflexivity]].
  - intros s0 l v. split; [|split; [|left; reflexivity]].
    + split; [reflexivity | eapply history_since_record; reflexivity].
    + split; [|eapply history_since_record; reflexivity].
      intros l'. cbn. unfold upd. destruct (l' =? l); [|reflexivity].
      rewrite LockFacts.set_timestamp_free. intros Hc. contradiction.
  - intros s0. split; [|split; [|left; reflexivity]].
    + split; [reflexivity | eapply history_since_record; reflexivity].
    + split; [|eapply history_since_record; reflexivity].
      intros l'. cbn. intros Hc. exfalso. apply Hc. reflexivity.
  - intros s0 f a. split; [|split; [|left; reflexivity]].
    + split; [reflexivity | eapply history_since_record; reflexivity].
    + split; [reflexivity | eapply history_since_record; reflexivity].
  - intros s0. split; [apply mem_kept_refl|]. split; [apply no_acquire_refl | right; reflexivity].
Qed.

(** *** The locks after the rollback stores *)

Lemma lock_after_app evs1 evs2 l l0 :
  lock_after (evs1 ++ evs2) l l0 = lock_after evs2 l (lock_after evs1 l l0).
Proof.
  revert l0. induction evs1 as [|ev evs1 IH]; intros l0; [reflexivity|].
  destruct ev; cbn [app lock_after]; apply IH.
Qed.

Lemma mem_after_app evs1 evs2 a v0 :
  mem_after (evs1 ++ evs2) a v0 = mem_after evs2 a (mem_after evs1 a v0).
Proof.
  revert v0. induction evs1 as [|ev evs1 IH]; intros v0; [reflexivity|].
  destruct ev; cbn [app mem_after]; apply IH.
Qed.

Lemma lock_after_rollback es l v : forall l0,
  (forall e, e ∈ es -> tail_of l e = true -> w_version e = v) ->
  lock_after (flat_map rollback_stores es) l l0 =
  if existsb (tail_of l) es then LOCK_SET_TIMESTAMP v else l0.
Proof.
  induction es as [|e es IH]; intros l0 Hv; [reflexivity|].
  cbn [flat_map existsb]. rewrite lock_after_app.
  rewrite IH by (intros e' He'; apply Hv; right; exact He').
  pose proof (Hv e ltac:(left) ) as Hve.
  unfold rollback_stores, tail_of in *.
  destruct (w_next e =? 0); cbn [andb orb lock_after].
  - rewrite (Z.eqb_sym l (w_lock e)).
    destruct (w_lock e =? l); cbn [orb].
    + rewrite Hve by reflexivity. destruct (existsb _ es); reflexivity.
    + reflexivity.
  - reflexivity.
Qed.

Lemma lock_after_commit t es l : forall l0,
  lock_after (flat_map (commit_stores t) es) l l0 =
  if existsb (tail_of l) es then LOCK_SET_TIMESTAMP t else l0.
Proof.
  induction es as [|e es IH]; intros l0; [reflexivity|].
  cbn [flat_map existsb]. rewrite lock_after_app, IH.
  unfold commit_stores, tail_of.
  destruct (w_mask e =? 0), (w_next e =? 0); cbn [negb app andb orb lock_after];
    try reflexivity;
    rewrite (Z.eqb_sym l (w_lock e));
    destruct (w_lock e =? l); cbn [orb]; try reflexivity;
    destruct (existsb _ es); reflexivity.
Qed.

End Rollback.


(** ** Consequences of the write-set invariant *)

Section Invariant.

Variable P : platform.

Lemma bind_ret {A B} (m : M A) (k : A -> M B) s v s' :
  m s = Ret v s' -> bind m k s = k v s'.
Proof. intros H. unfold bind. rewrite H. reflexivity. Qed.

Lemma elem_of_write_set tx e :
  e ∈ write_set tx <->
  exists i, (i < ws_nb_entries (tx_w_set tx))%nat /\ ws_slots (tx_w_set tx) !! i = Some e.
Proof.
  unfold write_set. rewrite list_elem_of_lookup. split.
  - intros [i Hi]. apply lookup_take_Some in Hi as [Hl Hn]. eauto.
  - intros (i & Hn & Hl). exists i. apply lookup_take_Some. auto.
Qed.

Lemma wf_bounded s : ws_wf P s -> ws_bounded (st_tx s).
Proof. intros W. unfold ws_bounded. rewrite (wf_length P s W). apply (wf_nb P s W). Qed.

(** Every entry in use leads to the last entry of its bucket. *)
Lemma wf_reaches_tail s :
  ws_wf P s ->
  forall n i e,
    (ws_nb_entries (tx_w_set (st_tx s)) - i <= n)%nat ->
    (i < ws_nb_entries (tx_w_set (st_tx s)))%nat ->
    ws_slots (tx_w_set (st_tx s)) !! i = Some e ->
    exists t et,
      (i <= t < ws_nb_entries (tx_w_set (st_tx s)))%nat /\
      ws_slots (tx_w_set (st_tx s)) !! t = Some et /\
      w_next et = 0 /\ w_lock et = w_lock e /\ w_version et = w_version e.
Proof.
  intros W. induction n as [|n IH]; intros i e Hn Hi He; [lia|].
  destruct (wf_next P s W i e Hi He) as [H0|(j & e' & Hj & Hnx & He' & Hl & Hv)].
  - exists i, e. repeat split; auto; lia.
  - destruct (IH j e') as (t & et & Ht & Het & Ht0 & Htl & Htv); [lia | lia | exact He' |].
    exists t, et. repeat split; auto; try lia; congruence.
Qed.

(** A lock owned by the transaction has exactly one last entry. *)
Lemma wf_owned_tail s l :
  ws_wf P s -> owned_by_tx P s l ->
  exists t et,
    (t < ws_nb_entries (tx_w_set (st_tx s)))%nat /\
    ws_slots (tx_w_set (st_tx s)) !! t = Some et /\
    tail_of l et = true /\
    forall e, e ∈ write_set (st_tx s) -> tail_of l e = true -> e = et.
Proof.
  intros W [Ho Hc].
  apply ws_contains_range in Hc.
  destruct (wf_owner P s W l Ho) as (h & eh & Hh & Hw & Heh & Hl).
  { pose proof (w_ptr_mono P (tx_w_set (st_tx s)) _ _ (wf_nb P s W)). lia. }
  destruct (wf_reaches_tail s W _ h eh (Nat.le_refl _) Hh Heh)
    as (t & et & Ht & Het & Ht0 & Htl & Htv).
  exists t, et. split; [lia|]. split; [exact Het|]. split.
  - unfold tail_of. rewrite Ht0, Htl, Hl, !Z.eqb_refl. reflexivity.
  - intros e He Htail. apply elem_of_write_set in He as (j & Hj & Hej).
    unfold tail_of in Htail. apply andb_true_iff in Htail as [Hn0 Hlk].
    apply Z.eqb_eq in Hn0, Hlk.
    assert (j = t).
    { apply (wf_tail P s W j t e et); auto; try lia; congruence. }
    subst j. congruence.
Qed.

Lemma existsb_tail_of_true l es et :
  et ∈ es -> tail_of l et = true -> existsb (tail_of l) es = true.
Proof.
  intros Hin Ht. apply existsb_exists. exists et. split; [|exact Ht].
  apply list_elem_of_In. exact Hin.
Qed.

(** A lock that is not owned by the transaction has no entry in use. *)
Lemma wf_not_owned_no_tail s l :
  ws_wf P s -> ~ owned_by_tx P s l ->
  existsb (tail_of l) (write_set (st_tx s)) = false.
Proof.
  intros W Hno. destruct (existsb _ _) eqn:Hex; [|reflexivity].
  exfalso. apply Hno.
  apply existsb_exists in Hex as (e & He & Ht).
  apply list_elem_of_In, elem_of_write_set in He as (i & Hi & Hei).
  unfold tail_of in Ht. apply andb_true_iff in Ht as [_ Hl]. apply Z.eqb_eq in Hl.
  rewrite <- Hl. apply (wf_locked P s W i e Hi Hei).
Qed.


End Invariant.


Section RollbackLocks.

Variable P : platform.


(** The locks after [stm_wbetl_rollback]. *)
Lemma rollback_locks s :
  ws_wf P s ->
  let s' := fold_left perform (flat_map rollback_stores (write_set (st_tx s))) s in
  (forall l, owned_by_tx P s l ->
     exists et, et ∈ write_set (st_tx s) /\ tail_of l et = true /\
       g_locks (st_g s') l = LOCK_SET_TIMESTAMP (w_version et)) /\
  (forall l, ~ owned_by_tx P s l -> g_locks (st_g s') l = g_locks (st_g s) l).
Proof.
  intros W s'. split.
  - intros l Ho.
    destruct (wf_owned_tail P s l W Ho) as (t & et & Ht & Het & Htail & Huniq).
    assert (Hin : et ∈ write_set (st_tx s)) by (apply elem_of_write_set; eauto).
    exists et. split; [exact Hin|]. split; [exact Htail|].
    unfold s'. rewrite fold_perform_locks.
    rewrite (lock_after_rollback _ l (w_version et)).
    + rewrite (existsb_tail_of_true l _ et Hin Htail). reflexivity.
    + intros e He Hte. rewrite (Huniq e He Hte). reflexivity.
  - intros l Hno. unfold s'. rewrite fold_perform_locks.
    rewrite (lock_after_rollback _ l 0).
    + rewrite (wf_not_owned_no_tail P s l W Hno). reflexivity.
    + intros e He Hte.
      pose proof (wf_not_owned_no_tail P s l W Hno) as Hex.
      rewrite (existsb_tail_of_true l _ e He Hte) in Hex. discriminate.
Qed.

End RollbackLocks.


Lemma sample_active_wf retry : ws_wf sample_platform (sample_active retry).
Proof.
  constructor.
  - reflexivity.
  - cbn. lia.
  - reflexivity.
  - reflexivity.
  - vm_compute. discriminate.
  - intros [|i] e Hi He; cbn in Hi; [|lia].
    cbn in He. injection He as <-. left. reflexivity.
  - intros [|i] e Hi He; cbn in Hi; [|lia].
    cbn in He. injection He as <-. split; vm_compute; congruence.
  - intros i j ei ej Hi Hj. cbn in Hi, Hj. lia.
  - intros l Ho Hr. exists 0%nat, sample_w0.
    assert (Hl : g_locks (st_g (sample_active retry)) l =
                 if l =? 7 then LOCK_SET_ADDR_WRITE 4096
                 else if l =? 3 then LOCK_SET_TIMESTAMP 5 else 0) by reflexivity.
    rewrite Hl in Ho |- *. clear Hr Hl.
    destruct (Z.eqb_spec l 7) as [H7|H7].
    + subst l. repeat split. cbn. lia.
    + destruct (l =? 3); exfalso; apply Ho; reflexivity.
Qed.

Lemma sample_active_captured retry : versions_captured (sample_active retry).
Proof.
  intros [|i] e Hi He; cbn in Hi; [|lia].
  cbn in He. injection He as <-.
  exists (LOCK_SET_TIMESTAMP 2). repeat split.
Qed.

Lemma sample_active_owns retry : owned_by_tx sample_platform (sample_active retry) 7.
Proof. split; vm_compute; congruence. Qed.



Section NoRetry.

Variable P : platform.

Lemma run_callbacks_eq cbs : forall s,
  run_callbacks cbs s = Ret tt (callbacks_called cbs s).
Proof.
  induction cbs as [|cb cbs IH]; intros s; [reflexivity|].
  cbn [run_callbacks callbacks_called fold_left].
  unfold bind, modify. apply IH.
Qed.

Lemma callbacks_called_frame cbs : forall s,
  st_tx (callbacks_called cbs s) = st_tx s /\
  st_g (callbacks_called cbs s) = st_g s /\
  st_mem (callbacks_called cbs s) = st_mem s.
Proof.
  induction cbs as [|cb cbs IH]; intros s; [repeat split|].
  cbn [callbacks_called fold_left].
  destruct (IH (record (EvCallback (cb_f cb) (cb_arg cb)) s)) as (H1 & H2 & H3).
  unfold callbacks_called in *. rewrite H1, H2, H3. repeat split.
Qed.

(** Without retry, [stm_rollback] returns to its caller. *)
Lemma stm_rollback_no_retry_eq reason s :
  IS_ACTIVE (tx_status (st_tx s)) = true ->
  ws_bounded (st_tx s) ->
  no_retry (tx_attr (st_tx s)) = true
    \/ Z.land reason (STM_ABORT_NO_RETRY P) = STM_ABORT_NO_RETRY P ->
  (reason = STM_ABORT_EXTEND_WS P ->
   Z.land (ws_entries (tx_w_set (ws_realloc P (st_tx s)))) OWNED_MASK = 0) ->
  stm_rollback P reason s = Ret tt (rolled_back P reason s).
Proof.
  intros Hact Hb Hno Heven.
  unfold stm_rollback.
  rewrite (bind_ret _ _ s tt s) by (unfold assert; rewrite Hact; reflexivity).
  rewrite (bind_ret _ _ _ _ _ (stm_wbetl_rollback_eq s Hact Hb)).
  set (s1 := fold_left perform _ s).
  assert (Htx1 : st_tx s1 = st_tx s) by apply fold_perform_tx.
  rewrite (bind_ret _ _ s1 tt (with_tx (set_status TX_ABORTED) s1)) by reflexivity.
  set (s2 := with_tx (set_status TX_ABORTED) s1).
  set (s3 := if reason =? STM_ABORT_EXTEND_WS P then with_tx (ws_realloc P) s2 else s2).
  assert (Hs3 : (if reason =? STM_ABORT_EXTEND_WS P
                 then stm_allocate_ws_entries P else ret tt) s2 = Ret tt s3).
  { unfold s3. destruct (Z.eqb_spec reason (STM_ABORT_EXTEND_WS P)) as [He|He]; [|reflexivity].
    unfold stm_allocate_ws_entries, bind, put_tx, modify, assert.
    specialize (Heven He).
    replace (ws_entries (tx_w_set (st_tx (with_tx (ws_realloc P) s2))))
      with (ws_entries (tx_w_set (ws_realloc P (st_tx s)))).
    - rewrite Heven. reflexivity.
    - unfold s2. cbn. rewrite Htx1. reflexivity. }
  rewrite (bind_ret _ _ _ _ _ Hs3).
  rewrite (bind_ret _ _ s3 tt (with_tx (set_nesting 1) s3)) by reflexivity.
  set (s4 := with_tx (set_nesting 1) s3).
  rewrite (bind_ret _ _ s4 (st_g s4) s4) by reflexivity.
  rewrite (bind_ret _ _ _ _ _ (run_callbacks_eq _ s4)).
  set (s5 := callbacks_called (g_abort_cb (st_g s4)) s4).
  rewrite (bind_ret _ _ s5 (st_tx s5) s5) by reflexivity.
  assert (Hattr : tx_attr (st_tx s5) = tx_attr (st_tx s)).
  { unfold s5. rewrite (proj1 (callbacks_called_frame _ s4)).
    unfold s4, s3. destruct (reason =? STM_ABORT_EXTEND_WS P); cbn; rewrite Htx1; reflexivity. }
  rewrite Hattr.
  replace (no_retry (tx_attr (st_tx s))
           || (Z.land reason (STM_ABORT_NO_RETRY P) =? STM_ABORT_NO_RETRY P)) with true.
  - reflexivity.
  - symmetry. apply orb_true_iff. destruct Hno as [Hn|Hn]; [left; exact Hn|].
    right. apply Z.eqb_eq. exact Hn.
Qed.

End NoRetry.

Section NoRetryState.

Variable P : platform.

Lemma callbacks_called_hist cbs : forall s,
  st_hist (callbacks_called cbs s) =
  rev (map (fun cb => EvCallback (cb_f cb) (cb_arg cb)) cbs) ++ st_hist s.
Proof.
  induction cbs as [|cb cbs IH]; intros s; [reflexivity|].
  cbn [callbacks_called fold_left map rev].
  unfold callbacks_called in IH. rewrite IH. rewrite <- app_assoc. reflexivity.
Qed.

Lemma rolled_back_tx reason s :
  st_tx (rolled_back P reason s) =
  set_nesting 0 (set_nesting 1
    ((if reason =? STM_ABORT_EXTEND_WS P then ws_realloc P else fun tx => tx)
       (set_status TX_ABORTED (st_tx s)))).
Proof.
  unfold rolled_back. cbn [with_tx st_tx].
  rewrite (proj1 (callbacks_called_frame _ _)).
  destruct (reason =? STM_ABORT_EXTEND_WS P); cbn [with_tx st_tx];
    rewrite fold_perform_tx; reflexivity.
Qed.

Lemma rolled_back_g reason s :
  st_g (rolled_back P reason s) =
  st_g (fold_left perform (flat_map rollback_stores (write_set (st_tx s))) s).
Proof.
  unfold rolled_back. cbn [with_tx st_g].
  rewrite (proj1 (proj2 (callbacks_called_frame _ _))).
  destruct (reason =? STM_ABORT_EXTEND_WS P); reflexivity.
Qed.


End NoRetryState.




(** ** Commit *)

Section Commit.

Variable P : platform.

Lemma final_bind_ret {A B} (m : M A) (v : B) s :
  final (bind m (fun _ => ret v) s) = final (m s) /\
  jump_of (bind m (fun _ => ret v) s) = jump_of (m s).
Proof. unfold bind. destruct (m s); split; reflexivity. Qed.

Lemma bind_ret_value {A B} (m : M A) (v : B) s w s' :
  bind m (fun _ => ret v) s = Ret w s' -> w = v.
Proof.
  unfold bind. destruct (m s); intros H; try discriminate H.
  injection H as -> _. reflexivity.
Qed.

(** The three ways through [stm_wbetl_commit] once the clock is
    incremented. *)
Lemma stm_wbetl_commit_eq s :
  tx_irrevocable (st_tx s) = 0 ->
  g_irrevocable (st_g s) = 0 ->
  rs_bounded (st_tx s) ->
  let c := g_clock (st_g s) in
  let t := Word.add c 1 in
  let s1 := record (EvClockInc c) (with_g (set_clock t) s) in
  stm_wbetl_commit P s =
  if tx_start (st_tx s) =? Word.sub t 1 then release_locks t s1
  else if forallb (read_entry_ok P s) (read_set (st_tx s)) then release_locks t s1
  else (stm_rollback P (STM_ABORT_VALIDATE P) ;;; ret 0) s1.
Proof.
  intros Hirr Hgirr Hb c t s1.
  unfold stm_wbetl_commit.
  rewrite (bind_ret _ _ s (st_tx s) s) by reflexivity.
  rewrite (bind_ret _ _ s (st_g s) s) by reflexivity.
  rewrite Hirr, Hgirr. cbn [Z.eqb negb andb].
  rewrite (bind_ret _ _ s c s1) by reflexivity.
  fold t. destruct (tx_start (st_tx s) =? Word.sub t 1); cbn [negb]; [reflexivity|].
  rewrite (bind_ret _ _ s1 _ s1 (stm_wbetl_validate_eq P s1 Hb)).
  change (read_set (st_tx s1)) with (read_set (st_tx s)).
  replace (forallb (read_entry_ok P s1) (read_set (st_tx s)))
    with (forallb (read_entry_ok P s) (read_set (st_tx s))) by reflexivity.
  destruct (forallb _ _); reflexivity.
Qed.









End Commit.

Section CommitCases.

Variable P : platform.

(** The back-end commit once the clock is incremented. *)
Lemma stm_wbetl_commit_cases s :
  tx_irrevocable (st_tx s) = 0 ->
  g_irrevocable (st_g s) = 0 ->
  rs_bounded (st_tx s) ->
  let c := g_clock (st_g s) in
  let t := Word.add c 1 in
  let s1 := record (EvClockInc c) (with_g (set_clock t) s) in
  (tx_start (st_tx s) = Word.sub t 1 ->
   stm_wbetl_commit P s = release_locks t s1) /\
  (tx_start (st_tx s) <> Word.sub t 1 -> read_set_valid P s ->
   stm_wbetl_commit P s = release_locks t s1) /\
  (tx_start (st_tx s) <> Word.sub t 1 -> ~ read_set_valid P s ->
   stm_wbetl_commit P s = (stm_rollback P (STM_ABORT_VALIDATE P) ;;; ret 0) s1 /\
   (forall v s', stm_wbetl_commit P s = Ret v s' -> v = 0) /\
   rollback_frame P (STM_ABORT_VALIDATE P) s
     (jump_of (stm_wbetl_commit P s)) (final (stm_wbetl_commit P s))).
Proof.
  intros Hirr Hgirr Hb c t s1.
  pose proof (stm_wbetl_commit_eq P s Hirr Hgirr Hb) as Heq.
  cbv zeta in Heq. fold c t s1 in Heq. rewrite Heq.
  split; [|split].
  - intros Hs. apply Z.eqb_eq in Hs. rewrite Hs. reflexivity.
  - intros Hs Hv. apply Z.eqb_neq in Hs. rewrite Hs.
    apply read_set_valid_forallb in Hv. rewrite Hv. reflexivity.
  - intros Hs Hv. apply Z.eqb_neq in Hs. rewrite Hs.
    destruct (forallb _ _) eqn:Hf.
    { exfalso. apply Hv. apply read_set_valid_forallb. exact Hf. }
    split; [reflexivity|]. split; [intros v s'; apply bind_ret_value|].
    destruct (final_bind_ret (stm_rollback P (STM_ABORT_VALIDATE P)) 0 s1) as [-> ->].
    destruct (stm_rollback_frame P (STM_ABORT_VALIDATE P) s1) as (Hm & Ha & Hj).
    assert (Hm1 : mem_kept s s1).
    { split; [reflexivity | eapply history_since_record; reflexivity]. }
    assert (Ha1 : no_acquire s s1).
    { split; [reflexivity | eapply history_since_record; reflexivity]. }
    split; [eapply mem_kept_trans; eassumption|].
    split; [eapply no_acquire_trans; eassumption | exact Hj].
Qed.

Lemma commit_entry_frame s :
  st_g (commit_entry s) = st_g s /\
  st_mem (commit_entry s) = st_mem s /\
  st_tx (commit_entry s) = set_nesting (wrap32 (tx_nesting (st_tx s) - 1)) (st_tx s).
Proof.
  unfold commit_entry. cbv zeta.
  destruct (callbacks_called_frame
              (g_precommit_cb (st_g (with_tx (fun tx => set_nesting (wrap32 (tx_nesting tx - 1)) tx) s)))
              (with_tx (fun tx => set_nesting (wrap32 (tx_nesting tx - 1)) tx) s))
    as (H1 & H2 & H3).
  rewrite H1, H2, H3. repeat split.
Qed.

(** A top-level commit of an update transaction runs the back-end
    commit, whose result it does not look at. *)
Lemma int_stm_commit_top_level s :
  tx_nesting (st_tx s) = 1 ->
  IS_ACTIVE (tx_status (st_tx s)) = true ->
  ws_nb_entries (tx_w_set (st_tx s)) <> 0%nat ->
  int_stm_commit P s =
  ((stm_wbetl_commit P ;;; ret tt) ;;;
   put_tx (set_status TX_COMMITTED) ;;;
   (g <- gets st_g ;; run_callbacks (g_commit_cb g) ;;; ret 1)) (commit_entry s).
Proof.
  intros Hn Hact Hnb. unfold int_stm_commit.
  erewrite bind_ret by reflexivity.
  erewrite bind_ret by reflexivity.
  cbn [with_tx st_tx set_nesting tx_nesting]. rewrite Hn. cbn [Z.sub Z.add Z.opp Z.gtb Z.compare].
  change (wrap32 (1 - 1) >? 0) with false. cbv iota.
  erewrite bind_ret by reflexivity.
  erewrite bind_ret by apply run_callbacks_eq.
  fold (commit_entry s).
  destruct (commit_entry_frame s) as (Hg & _ & Htx).
  erewrite bind_ret.
  2:{ unfold assert. rewrite Htx. cbn [set_nesting tx_status]. rewrite Hact. reflexivity. }
  erewrite bind_ret by reflexivity.
  rewrite Htx. cbn [set_nesting tx_w_set].
  apply Nat.eqb_neq in Hnb. rewrite Hnb. reflexivity.
Qed.

End CommitCases.

Lemma sample_stale_invalid retry :
  ~ read_set_valid sample_platform (commit_entry (sample_stale retry)).
Proof.
  intros Hv. apply read_set_valid_forallb in Hv. vm_compute in Hv. discriminate Hv.
Qed.




(** ** Transactional store *)

Section Store.

Variable P : platform.

Lemma w_deref_ptr s i e :
  ws_slots (tx_w_set (st_tx s)) !! i = Some e ->
  w_deref P (w_ptr P (tx_w_set (st_tx s)) i) s = Ret e s.
Proof. intros He. unfold w_deref. rewrite w_lookup_ptr, He. reflexivity. Qed.

Lemma w_assign_ptr s i e f :
  ws_slots (tx_w_set (st_tx s)) !! i = Some e ->
  w_assign P (w_ptr P (tx_w_set (st_tx s)) i) f s =
  Ret tt (with_tx (set_w_set (set_slots (<[i := f e]> (ws_slots (tx_w_set (st_tx s))))
                                (tx_w_set (st_tx s)))) s).
Proof. intros He. unfold w_assign. rewrite w_index_ptr, He. reflexivity. Qed.

Lemma reaches_le ws addr i k : reaches P ws addr i k -> (i <= k)%nat.
Proof. induction 1; lia. Qed.

(** The walk of [stm_wbetl_write] stops at the entry for the address. *)
Lemma write_walk_found s addr i k :
  reaches P (tx_w_set (st_tx s)) addr i k ->
  forall fuel ek,
    (k - i < fuel)%nat ->
    ws_slots (tx_w_set (st_tx s)) !! k = Some ek ->
    w_addr ek = addr ->
    write_walk P fuel addr (w_ptr P (tx_w_set (st_tx s)) i) s =
    Ret (AtAddr (w_ptr P (tx_w_set (st_tx s)) k)) s.
Proof.
  induction 1 as [i|i j k e He Ha Hn0 Hn Hij Hr IH]; intros fuel ek Hf Hek Hak.
  - destruct fuel as [|fuel]; [lia|]. cbn [write_walk].
    rewrite (bind_ret _ _ _ _ _ (w_deref_ptr s i ek Hek)).
    rewrite Hak, Z.eqb_refl. reflexivity.
  - pose proof (reaches_le _ _ _ _ Hr).
    destruct fuel as [|fuel]; [lia|]. cbn [write_walk].
    rewrite (bind_ret _ _ _ _ _ (w_deref_ptr s i e He)).
    replace (addr =? w_addr e) with false by (symmetry; apply Z.eqb_neq; congruence).
    replace (w_next e =? 0) with false by (symmetry; apply Z.eqb_neq; exact Hn0).
    rewrite Hn. apply (IH fuel ek); [lia | exact Hek | exact Hak].
Qed.

(** The walk stops at the last entry when the bucket has no entry for
    the address. *)
Lemma write_walk_tail s addr i k :
  reaches P (tx_w_set (st_tx s)) addr i k ->
  forall fuel ek,
    (k - i < fuel)%nat ->
    ws_slots (tx_w_set (st_tx s)) !! k = Some ek ->
    w_addr ek <> addr -> w_next ek = 0 ->
    write_walk P fuel addr (w_ptr P (tx_w_set (st_tx s)) i) s =
    Ret (AtTail (w_ptr P (tx_w_set (st_tx s)) k)) s.
Proof.
  induction 1 as [i|i j k e He Ha Hn0 Hn Hij Hr IH]; intros fuel ek Hf Hek Hak Hnk.
  - destruct fuel as [|fuel]; [lia|]. cbn [write_walk].
    rewrite (bind_ret _ _ _ _ _ (w_deref_ptr s i ek Hek)).
    replace (addr =? w_addr ek) with false by (symmetry; apply Z.eqb_neq; congruence).
    rewrite Hnk. reflexivity.
  - pose proof (reaches_le _ _ _ _ Hr).
    destruct fuel as [|fuel]; [lia|]. cbn [write_walk].
    rewrite (bind_ret _ _ _ _ _ (w_deref_ptr s i e He)).
    replace (addr =? w_addr e) with false by (symmetry; apply Z.eqb_neq; congruence).
    replace (w_next e =? 0) with false by (symmetry; apply Z.eqb_neq; exact Hn0).
    rewrite Hn. apply (IH fuel ek); [lia | exact Hek | exact Hak | exact Hnk].
Qed.

(** The walk of [stm_wbetl_read_invisible] yields the value of the entry
    for the address, or the word in memory when its mask is 0. *)
Lemma read_walk_found s addr i k :
  reaches P (tx_w_set (st_tx s)) addr i k ->
  forall fuel ek,
    (k - i < fuel)%nat ->
    ws_slots (tx_w_set (st_tx s)) !! k = Some ek ->
    w_addr ek = addr ->
    read_walk P fuel addr (w_ptr P (tx_w_set (st_tx s)) i) s =
    Ret (if w_mask ek =? 0 then st_mem s addr else w_value ek) s.
Proof.
  induction 1 as [i|i j k e He Ha Hn0 Hn Hij Hr IH]; intros fuel ek Hf Hek Hak.
  - destruct fuel as [|fuel]; [lia|]. cbn [read_walk].
    rewrite (bind_ret _ _ _ _ _ (w_deref_ptr s i ek Hek)).
    rewrite Hak, Z.eqb_refl. destruct (w_mask ek =? 0); reflexivity.
  - pose proof (reaches_le _ _ _ _ Hr).
    destruct fuel as [|fuel]; [lia|]. cbn [read_walk].
    rewrite (bind_ret _ _ _ _ _ (w_deref_ptr s i e He)).
    replace (addr =? w_addr e) with false by (symmetry; apply Z.eqb_neq; congruence).
    replace (w_next e =? 0) with false by (symmetry; apply Z.eqb_neq; exact Hn0).
    rewrite Hn. apply (IH fuel ek); [lia | exact Hek | exact Hak].
Qed.

(** [stm_has_read]. *)
Lemma has_read_loop_eq lock i : forall r s,
  (r + i <= length (rs_slots (tx_r_set (st_tx s))))%nat ->
  has_read_loop i r lock s =
  Ret (find_lock lock (take i (drop r (rs_slots (tx_r_set (st_tx s))))) r) s.
Proof.
  induction i as [|i IH]; intros r s Hlen; [reflexivity|].
  destruct (lookup_lt_is_Some_2 (rs_slots (tx_r_set (st_tx s))) r) as [e He]; [lia|].
  rewrite (drop_S _ _ _ He). cbn [take find_lock has_read_loop].
  rewrite (bind_ret _ _ s (st_tx s) s) by reflexivity. rewrite He.
  destruct (r_lock e =? lock); [reflexivity|]. apply IH. lia.
Qed.

Lemma stm_has_read_eq lock s :
  rs_bounded (st_tx s) ->
  stm_has_read lock s = Ret (find_lock lock (read_set (st_tx s)) 0) s.
Proof.
  intros Hb. unfold stm_has_read.
  rewrite (bind_ret _ _ s (st_tx s) s) by reflexivity.
  apply has_read_loop_eq. unfold rs_bounded in Hb. lia.
Qed.

Lemma find_lock_none lock rs : forall r,
  find_lock lock rs r = None <-> Forall (fun e => r_lock e <> lock) rs.
Proof.
  induction rs as [|e rs IH]; intros r; cbn [find_lock].
  - split; [constructor | reflexivity].
  - destruct (Z.eqb_spec (r_lock e) lock) as [He|He].
    + split; [discriminate|]. intros H. inversion H; subst. contradiction.
    + rewrite IH. split; [intros H; constructor; assumption|].
      intros H. inversion H; subst. assumption.
Qed.

Lemma find_lock_some lock rs r :
  (exists e, e ∈ rs /\ r_lock e = lock) -> exists i, find_lock lock rs r = Some i.
Proof.
  intros (e & Hin & He).
  destruct (find_lock lock rs r) as [i|] eqn:Hf; [eauto|].
  apply find_lock_none in Hf. rewrite Forall_forall in Hf.
  exfalso. apply (Hf e Hin He).
Qed.

Lemma write_check_full_room s :
  ws_nb_entries (tx_w_set (st_tx s)) <> ws_size (tx_w_set (st_tx s)) ->
  write_check_full P s = Ret tt s.
Proof.
  intros Hne. unfold write_check_full.
  rewrite (bind_ret _ _ s (st_tx s) s) by reflexivity.
  apply Nat.eqb_neq in Hne. rewrite Hne. reflexivity.
Qed.

Lemma new_value_eq addr value mask s :
  (if mask =? 0 then ret 0
   else if negb (mask =? Word.ones) then
     m <- load_mem addr ;;
     ret (Z.lor (Z.land m (Word.not mask)) (Z.land value mask))
   else ret value) s = Ret (new_value (st_mem s addr) value mask) s.
Proof.
  unfold new_value. destruct (mask =? 0); [reflexivity|].
  destruct (mask =? Word.ones); reflexivity.
Qed.

End Store.

Section StoreCases.

Variable P : platform.

(** The lock is owned by the transaction and the mask is 0. *)
Lemma write_owned_mask0 fuel addr value s :
  owned_by_tx P s (GET_LOCK addr) ->
  stm_wbetl_write P (S fuel) addr value 0 s =
  Ret (LOCK_GET_ADDR (g_locks (st_g s) (GET_LOCK addr))) s.
Proof.
  intros [Ho Hc]. cbn [stm_wbetl_write].
  rewrite (bind_ret _ _ s (g_locks (st_g s) (GET_LOCK addr)) s) by reflexivity.
  rewrite (bind_ret _ _ s (st_tx s) s) by reflexivity.
  apply Z.eqb_neq in Ho. rewrite Ho, Hc. reflexivity.
Qed.

(** The lock is owned by another transaction. *)
Lemma write_foreign fuel addr value mask s :
  LOCK_GET_OWNED (g_locks (st_g s) (GET_LOCK addr)) <> 0 ->
  ws_contains P (tx_w_set (st_tx s)) (LOCK_GET_ADDR (g_locks (st_g s) (GET_LOCK addr))) = false ->
  tx_irrevocable (st_tx s) = 0 ->
  stm_wbetl_write P (S fuel) addr value mask s =
  (stm_rollback P (STM_ABORT_WW_CONFLICT P) ;;; ret 0) s.
Proof.
  intros Ho Hc Hirr. cbn [stm_wbetl_write].
  rewrite (bind_ret _ _ s (g_locks (st_g s) (GET_LOCK addr)) s) by reflexivity.
  rewrite (bind_ret _ _ s (st_tx s) s) by reflexivity.
  apply Z.eqb_neq in Ho. rewrite Ho, Hc, Hirr. reflexivity.
Qed.

(** The lock is free, its version is beyond the snapshot and the lock
    was read before. *)
Lemma write_val_write fuel addr value mask s i :
  LOCK_GET_OWNED (g_locks (st_g s) (GET_LOCK addr)) = 0 ->
  tx_irrevocable (st_tx s) = 0 ->
  rs_bounded (st_tx s) ->
  LOCK_GET_TIMESTAMP (g_locks (st_g s) (GET_LOCK addr)) > tx_end (st_tx s) ->
  find_lock (GET_LOCK addr) (read_set (st_tx s)) 0 = Some i ->
  stm_wbetl_write P (S fuel) addr value mask s =
  (stm_rollback P (STM_ABORT_VAL_WRITE P) ;;; ret 0) s.
Proof.
  intros Ho Hirr Hb Hv Hf. cbn [stm_wbetl_write].
  rewrite (bind_ret _ _ s (g_locks (st_g s) (GET_LOCK addr)) s) by reflexivity.
  rewrite (bind_ret _ _ s (st_tx s) s) by reflexivity.
  rewrite Ho, Hirr. cbn [Z.eqb negb].
  apply Z.gtb_gt in Hv. rewrite Hv.
  rewrite (bind_ret _ _ _ _ _ (stm_has_read_eq _ s Hb)). rewrite Hf. reflexivity.
Qed.

(** The code from [acquire_no_check:] when the write set has room. *)
Lemma acquire_no_check_eq fuel addr value mask s :
  (ws_nb_entries (tx_w_set (st_tx s)) < length (ws_slots (tx_w_set (st_tx s))))%nat ->
  ws_nb_entries (tx_w_set (st_tx s)) <> ws_size (tx_w_set (st_tx s)) ->
  (write_check_full P ;;;
   tx' <- get_tx ;;
   let w := w_ptr P (tx_w_set tx') (ws_nb_entries (tx_w_set tx')) in
   ok <- cas_lock (GET_LOCK addr) (g_locks (st_g s) (GET_LOCK addr)) (LOCK_SET_ADDR_WRITE w) ;;
   if ok =? 0 then stm_wbetl_write P fuel addr value mask
   else do_write P 0 addr value mask
          (LOCK_GET_TIMESTAMP (g_locks (st_g s) (GET_LOCK addr))) (GET_LOCK addr)) s =
  Ret (w_ptr P (tx_w_set (st_tx s)) (ws_nb_entries (tx_w_set (st_tx s))))
      (acquired P addr value mask s).
Proof.
  intros Hlen Hroom.
  rewrite (bind_ret _ _ _ _ _ (write_check_full_room P s Hroom)).
  rewrite (bind_ret _ _ s (st_tx s) s) by reflexivity.
  cbv zeta.
  set (w := w_ptr P (tx_w_set (st_tx s)) (ws_nb_entries (tx_w_set (st_tx s)))).
  set (l := g_locks (st_g s) (GET_LOCK addr)).
  set (s1 := record (EvLockCAS (GET_LOCK addr) l (LOCK_SET_ADDR_WRITE w))
               (with_g (fun g => set_locks (upd (g_locks g) (GET_LOCK addr)
                                              (LOCK_SET_ADDR_WRITE w)) g) s)).
  rewrite (bind_ret _ _ s 1 s1)
    by (unfold cas_lock; fold l; rewrite Z.eqb_refl; reflexivity).
  cbn [Z.eqb]. unfold do_write.
  rewrite (bind_ret _ _ s1 (st_tx s1) s1) by reflexivity.
  rewrite (bind_ret _ _ _ _ _ (new_value_eq addr value mask s1)).
  apply Nat.ltb_lt in Hlen.
  unfold bind at 1. change (tx_w_set (st_tx s1)) with (tx_w_set (st_tx s)).
  rewrite Hlen. cbn [Z.eqb negb].
  reflexivity.
Qed.

(** The lock is free and the store may take it. *)
Lemma write_acquire fuel addr value mask s :
  LOCK_GET_OWNED (g_locks (st_g s) (GET_LOCK addr)) = 0 ->
  tx_irrevocable (st_tx s) = 0 ->
  rs_bounded (st_tx s) ->
  (LOCK_GET_TIMESTAMP (g_locks (st_g s) (GET_LOCK addr)) > tx_end (st_tx s) ->
   find_lock (GET_LOCK addr) (read_set (st_tx s)) 0 = None) ->
  (ws_nb_entries (tx_w_set (st_tx s)) < length (ws_slots (tx_w_set (st_tx s))))%nat ->
  ws_nb_entries (tx_w_set (st_tx s)) <> ws_size (tx_w_set (st_tx s)) ->
  stm_wbetl_write P (S fuel) addr value mask s =
  Ret (w_ptr P (tx_w_set (st_tx s)) (ws_nb_entries (tx_w_set (st_tx s))))
      (acquired P addr value mask s).
Proof.
  intros Ho Hirr Hb Hv Hlen Hroom. cbn [stm_wbetl_write].
  rewrite (bind_ret _ _ s (g_locks (st_g s) (GET_LOCK addr)) s) by reflexivity.
  rewrite (bind_ret _ _ s (st_tx s) s) by reflexivity.
  rewrite Ho, Hirr. cbn [Z.eqb negb].
  pose proof (acquire_no_check_eq fuel addr value mask s Hlen Hroom) as Hacq.
  cbv zeta in Hacq.
  destruct (Z.gtb_spec (LOCK_GET_TIMESTAMP (g_locks (st_g s) (GET_LOCK addr)))
              (tx_end (st_tx s))) as [Hgt|Hle].
  - rewrite (bind_ret _ _ _ _ _ (stm_has_read_eq _ s Hb)).
    rewrite Hv by lia. exact Hacq.
  - exact Hacq.
Qed.

End StoreCases.

(** C10.  A store with mask 0 to an address whose lock the transaction
    already owns returns at once the pointer held in the lock word, which
    lies among the entries in use: the state, with the write set, the
    locks and the history, is the one it started in.  Nothing is assumed
    about the bucket, which need not have an entry for the address.  The
    same holds of [stm_write] and [int_stm_store2] in an active
    transaction. *)
Theorem write_mask0_on_owned_lock
    (P : platform) (fuel : nat) (addr value : Z) (s : state) :
  owned_by_tx P s (GET_LOCK addr) ->
  let w := LOCK_GET_ADDR (g_locks (st_g s) (GET_LOCK addr)) in
  stm_wbetl_write P (S fuel) addr value 0 s = Ret w s /\
  ws_contains P (tx_w_set (st_tx s)) w = true /\
  (IS_ACTIVE (tx_status (st_tx s)) = true ->
   stm_write P (S fuel) addr value 0 s = Ret w s /\
   int_stm_store2 P (S fuel) addr value 0 s = Ret tt s).
Proof.
  intros Ho w.
  assert (Hw : stm_wbetl_write P (S fuel) addr value 0 s = Ret w s).
  { destruct Ho as [Hown Hin]. cbn [stm_wbetl_write].
    rewrite (bind_ret _ _ s (g_locks (st_g s) (GET_LOCK addr)) s) by reflexivity.
    rewrite (bind_ret _ _ s (st_tx s) s) by reflexivity.
    apply Z.eqb_neq in Hown. rewrite Hown, Hin. reflexivity. }
  split; [exact Hw|]. split; [exact (proj2 Ho)|].
  intros Ha.
  assert (Hs : stm_write P (S fuel) addr value 0 s = Ret w s).
  { unfold stm_write.
    rewrite (bind_ret _ _ s tt s) by (unfold assert; rewrite Ha; reflexivity).
    exact Hw. }
  split; [exact Hs|].
  unfold int_stm_store2. rewrite (bind_ret _ _ s w s Hs). reflexivity.
Qed.

(** Address 232 shares lock 7 with address 224, the only address
    written. *)
Lemma write_mask0_on_owned_lock_witness :
  stm_wbetl_write sample_platform 1 232 5 0 (sample_active true) =
  Ret 4096 (sample_active true) /\
  int_stm_store2 sample_platform 1 232 5 0 (sample_active true) =
  Ret tt (sample_active true) /\
  Forall (fun e => w_addr e <> 232) (write_set (st_tx (sample_active true))).
Proof.
  pose proof (write_mask0_on_owned_lock sample_platform 0 232 5
                (sample_active true) (sample_active_owns true)) as [Hw [_ Hs]].
  split; [exact Hw|]. split.
  - apply Hs. reflexivity.
  - repeat constructor. discriminate.
Defined.


Section StoreOwned.

Variable P : platform.

Lemma w_deref_at s ws0 i e :
  ws_entries ws0 = ws_entries (tx_w_set (st_tx s)) ->
  ws_slots (tx_w_set (st_tx s)) !! i = Some e ->
  w_deref P (w_ptr P ws0 i) s = Ret e s.
Proof.
  intros Hb He. replace (w_ptr P ws0 i) with (w_ptr P (tx_w_set (st_tx s)) i)
    by (unfold w_ptr; rewrite Hb; reflexivity).
  apply w_deref_ptr. exact He.
Qed.

Lemma w_assign_at s ws0 i e f :
  ws_entries ws0 = ws_entries (tx_w_set (st_tx s)) ->
  ws_slots (tx_w_set (st_tx s)) !! i = Some e ->
  w_assign P (w_ptr P ws0 i) f s =
  Ret tt (with_tx (set_w_set (set_slots (<[i := f e]> (ws_slots (tx_w_set (st_tx s))))
                                (tx_w_set (st_tx s)))) s).
Proof.
  intros Hb He. replace (w_ptr P ws0 i) with (w_ptr P (tx_w_set (st_tx s)) i)
    by (unfold w_ptr; rewrite Hb; reflexivity).
  apply w_assign_ptr. exact He.
Qed.

(** The in-place update of the entry in slot [j]. *)
Lemma write_merge_eq s j ej addr value mask :
  ws_slots (tx_w_set (st_tx s)) !! j = Some ej ->
  write_merge P (w_ptr P (tx_w_set (st_tx s)) j) addr value mask s =
  Ret (w_ptr P (tx_w_set (st_tx s)) j) (merged j ej addr value mask s).
Proof.
  intros Hj. pose proof (lookup_lt_Some _ _ _ Hj) as Hlt.
  set (ws := tx_w_set (st_tx s)) in *.
  unfold write_merge, merged, updated_value.
  destruct (mask =? Word.ones); cbn [negb].
  - rewrite (bind_ret _ _ s value s) by reflexivity.
    erewrite bind_ret by (apply (w_assign_at s ws j ej); [reflexivity | exact Hj]).
    erewrite bind_ret.
    2:{ apply (w_assign_at _ ws j (set_w_value value ej)); [reflexivity|].
        cbn. apply list_lookup_insert_eq. exact Hlt. }
    unfold ret. f_equal. unfold with_tx, set_w_set, set_slots. cbn.
    rewrite list_insert_insert_eq. reflexivity.
  - destruct (w_mask ej =? 0) eqn:Hm0.
    + erewrite bind_ret.
      2:{ erewrite bind_ret by (apply (w_deref_at s ws j ej); [reflexivity | exact Hj]).
          rewrite Hm0.
          erewrite bind_ret.
          2:{ erewrite bind_ret by (unfold load_mem, gets; reflexivity).
              apply (w_assign_at s ws j ej); [reflexivity | exact Hj]. }
          erewrite bind_ret.
          2:{ apply (w_deref_at _ ws j (set_w_value (st_mem s addr) ej)); [reflexivity|].
              cbn. apply list_lookup_insert_eq. exact Hlt. }
          reflexivity. }
      erewrite bind_ret.
      2:{ apply (w_assign_at _ ws j (set_w_value (st_mem s addr) ej)); [reflexivity|].
          cbn. apply list_lookup_insert_eq. exact Hlt. }
      erewrite bind_ret.
      2:{ apply (w_assign_at _ ws j); [reflexivity|].
          cbn. apply list_lookup_insert_eq. rewrite length_insert. exact Hlt. }
      unfold ret. f_equal. unfold with_tx, set_w_set, set_slots, merged_value. cbn.
      rewrite !list_insert_insert_eq. reflexivity.
    + erewrite bind_ret.
      2:{ erewrite bind_ret by (apply (w_deref_at s ws j ej); [reflexivity | exact Hj]).
          rewrite Hm0.
          erewrite bind_ret by reflexivity.
          erewrite bind_ret by (apply (w_deref_at s ws j ej); [reflexivity | exact Hj]).
          reflexivity. }
      erewrite bind_ret by (apply (w_assign_at s ws j ej); [reflexivity | exact Hj]).
      erewrite bind_ret.
      2:{ apply (w_assign_at _ ws j); [reflexivity|].
          cbn. apply list_lookup_insert_eq. exact Hlt. }
      unfold ret. f_equal. unfold with_tx, set_w_set, set_slots, merged_value. cbn.
      rewrite !list_insert_insert_eq. reflexivity.
Qed.

End StoreOwned.

Section StoreOwnedCases.

Variable P : platform.

(** The lock is owned by the transaction and its bucket has an entry
    for the address. *)
Lemma write_owned_found fuel addr value mask s j ej :
  owned_by_tx P s (GET_LOCK addr) ->
  bucket_entry P s addr j ej ->
  mask <> 0 ->
  stm_wbetl_write P (S fuel) addr value mask s =
  Ret (w_ptr P (tx_w_set (st_tx s)) j) (merged j ej addr value mask s).
Proof.
  intros [Ho Hc] (h & Hh & Hr & Hj & Ha) Hm. cbn [stm_wbetl_write].
  rewrite (bind_ret _ _ s (g_locks (st_g s) (GET_LOCK addr)) s) by reflexivity.
  rewrite (bind_ret _ _ s (st_tx s) s) by reflexivity.
  apply Z.eqb_neq in Ho, Hm. rewrite Ho, Hc, Hm. cbn [negb].
  rewrite Hh.
  erewrite bind_ret.
  2:{ apply (write_walk_found P s addr h j Hr _ ej); [|exact Hj | exact Ha].
      pose proof (lookup_lt_Some _ _ _ Hj). lia. }
  apply write_merge_eq. exact Hj.
Qed.

(** The lock is owned by the transaction, its bucket has no entry for
    the address and the write set has room. *)
Lemma write_owned_append fuel addr value mask s t et :
  owned_by_tx P s (GET_LOCK addr) ->
  bucket_tail P s addr t et ->
  mask <> 0 ->
  0 < ws_entries (tx_w_set (st_tx s)) ->
  (t < ws_nb_entries (tx_w_set (st_tx s)))%nat ->
  (ws_nb_entries (tx_w_set (st_tx s)) < length (ws_slots (tx_w_set (st_tx s))))%nat ->
  ws_nb_entries (tx_w_set (st_tx s)) <> ws_size (tx_w_set (st_tx s)) ->
  stm_wbetl_write P (S fuel) addr value mask s =
  Ret (w_ptr P (tx_w_set (st_tx s)) (ws_nb_entries (tx_w_set (st_tx s))))
      (appended P t et addr value mask s).
Proof.
  intros [Ho Hc] (h & Hh & Hr & Ht & Ha & Hn) Hm Hpos Htnb Hlen Hroom.
  cbn [stm_wbetl_write].
  rewrite (bind_ret _ _ s (g_locks (st_g s) (GET_LOCK addr)) s) by reflexivity.
  rewrite (bind_ret _ _ s (st_tx s) s) by reflexivity.
  apply Z.eqb_neq in Ho, Hm. rewrite Ho, Hc, Hm. cbn [negb].
  rewrite Hh.
  erewrite bind_ret.
  2:{ apply (write_walk_tail P s addr h t Hr _ et); [|exact Ht | exact Ha | exact Hn].
      pose proof (lookup_lt_Some _ _ _ Ht). lia. }
  cbv beta iota.
  rewrite (bind_ret _ _ _ _ _ (w_deref_ptr P s t et Ht)).
  rewrite (bind_ret _ _ _ _ _ (write_check_full_room P s Hroom)).
  unfold do_write.
  rewrite (bind_ret _ _ s (st_tx s) s) by reflexivity.
  rewrite (bind_ret _ _ _ _ _ (new_value_eq addr value mask s)).
  apply Nat.ltb_lt in Hlen as Hlenb.
  unfold bind at 1. cbv beta. rewrite Hlenb.
  assert (Hprev : (w_ptr P (tx_w_set (st_tx s)) t =? 0) = false).
  { apply Z.eqb_neq. pose proof (w_ptr_base P (tx_w_set (st_tx s)) t). lia. }
  rewrite Hprev. cbn [negb].
  erewrite bind_ret.
  2:{ apply (w_assign_at P _ (tx_w_set (st_tx s)) t et); [reflexivity|].
      cbn. rewrite list_lookup_insert_ne by lia. exact Ht. }
  reflexivity.
Qed.

(** A write-set invariant gives every entry in use the end of its walk:
    the entry for the address or the last entry of the bucket. *)
Lemma wf_walk s addr :
  ws_wf P s ->
  forall n i e,
    (ws_nb_entries (tx_w_set (st_tx s)) - i <= n)%nat ->
    (i < ws_nb_entries (tx_w_set (st_tx s)))%nat ->
    ws_slots (tx_w_set (st_tx s)) !! i = Some e ->
    exists k ek,
      reaches P (tx_w_set (st_tx s)) addr i k /\
      (k < ws_nb_entries (tx_w_set (st_tx s)))%nat /\
      ws_slots (tx_w_set (st_tx s)) !! k = Some ek /\
      w_lock ek = w_lock e /\ w_version ek = w_version e /\
      (w_addr ek = addr \/ (w_addr ek <> addr /\ w_next ek = 0)).
Proof.
  intros W. induction n as [|n IH]; intros i e Hn Hi He; [lia|].
  destruct (Z.eq_dec (w_addr e) addr) as [Ha|Ha].
  { exists i, e. repeat split; auto. constructor. }
  destruct (Z.eq_dec (w_next e) 0) as [H0|H0].
  { exists i, e. repeat split; auto. constructor. }
  destruct (wf_next P s W i e Hi He) as [Hc|(j & e' & Hj & Hnx & He' & Hl & Hv)];
    [contradiction|].
  destruct (IH j e') as (k & ek & Hr & Hk & Hek & Hkl & Hkv & Hend); [lia | lia | exact He'|].
  exists k, ek. split.
  - eapply reaches_step; eauto. lia.
  - repeat split; auto; congruence.
Qed.

(** The head of the bucket of an owned lock. *)
Lemma wf_head s l :
  ws_wf P s -> owned_by_tx P s l ->
  exists h eh,
    (h < ws_nb_entries (tx_w_set (st_tx s)))%nat /\
    g_locks (st_g s) l = LOCK_SET_ADDR_WRITE (w_ptr P (tx_w_set (st_tx s)) h) /\
    LOCK_GET_ADDR (g_locks (st_g s) l) = w_ptr P (tx_w_set (st_tx s)) h /\
    ws_slots (tx_w_set (st_tx s)) !! h = Some eh /\
    w_lock eh = l.
Proof.
  intros W [Ho Hc]. apply ws_contains_range in Hc.
  pose proof (w_ptr_mono P (tx_w_set (st_tx s)) _ _ (wf_nb P s W)) as Hmono.
  destruct (wf_owner P s W l Ho) as (h & eh & Hh & Hw & Heh & Hl); [lia|].
  exists h, eh. repeat split; auto.
  rewrite Hw. apply get_addr_w_ptr.
  - apply (wf_base_pos P s W).
  - apply (wf_base_even P s W).
  - pose proof (wf_base_top P s W).
    assert (w_ptr P (tx_w_set (st_tx s)) h < w_ptr P (tx_w_set (st_tx s))
                                               (ws_nb_entries (tx_w_set (st_tx s))))
      by (apply w_ptr_lt; exact Hh).
    lia.
Qed.

(** Under the invariant the bucket of an owned lock has an entry for
    the address or ends in a last entry. *)
Lemma wf_bucket s addr :
  ws_wf P s -> owned_by_tx P s (GET_LOCK addr) ->
  (exists j ej, (j < ws_nb_entries (tx_w_set (st_tx s)))%nat /\ bucket_entry P s addr j ej)
  \/ (exists t et, (t < ws_nb_entries (tx_w_set (st_tx s)))%nat /\
                   bucket_tail P s addr t et /\ w_lock et = GET_LOCK addr).
Proof.
  intros W Ho.
  destruct (wf_head s _ W Ho) as (h & eh & Hh & _ & Hga & Heh & Hl).
  destruct (wf_walk s addr W _ h eh (Nat.le_refl _) Hh Heh)
    as (k & ek & Hr & Hk & Hek & Hkl & _ & [Ha|[Ha Hn]]).
  - left. exists k, ek. split; [exact Hk|]. exists h. auto.
  - right. exists k, ek. split; [exact Hk|]. split; [|congruence].
    exists h. auto.
Qed.

End StoreOwnedCases.


Section MergeFacts.

Lemma merged_value_full old value :
  Word.in_range value -> merged_value old value Word.ones = value.
Proof.
  intros Hv. unfold merged_value.
  replace (Word.not Word.ones) with 0 by reflexivity.
  rewrite Z.land_0_r, Z.lor_0_l.
  change Word.ones with (Z.ones 64). rewrite Z.land_ones by lia.
  apply Z.mod_small. exact Hv.
Qed.

(** The bits selected by the mask are those of the value stored, the
    others those of the old value. *)
Lemma merged_value_bits old value mask i :
  0 <= i < Word.WORD_BITS ->
  Z.testbit (merged_value old value mask) i =
  if Z.testbit mask i then Z.testbit value i else Z.testbit old i.
Proof.
  intros Hi. unfold merged_value.
  rewrite Z.lor_spec, !Z.land_spec, WordFacts.not_spec by lia.
  replace (i <? Word.WORD_BITS) with true by (symmetry; apply Z.ltb_lt; lia).
  destruct (Z.testbit mask i), (Z.testbit value i), (Z.testbit old i); reflexivity.
Qed.

Lemma merged_value_masked old value mask :
  Word.in_range mask ->
  Z.land (merged_value old value mask) mask = Z.land value mask.
Proof.
  intros Hm. apply Z.bits_inj'. intros i Hi.
  rewrite !Z.land_spec.
  destruct (Z.lt_ge_cases i Word.WORD_BITS) as [Hlt|Hge].
  - rewrite merged_value_bits by lia.
    destruct (Z.testbit mask i); [reflexivity | rewrite !andb_false_r; reflexivity].
  - rewrite (WordFacts.testbit_high mask i Hm Hge), !andb_false_r. reflexivity.
Qed.

Lemma updated_value_masked e m value mask :
  Word.in_range mask -> Word.in_range value ->
  Z.land (updated_value e m value mask) mask = Z.land value mask.
Proof.
  intros Hm Hv. unfold updated_value.
  destruct (mask =? Word.ones); cbn [negb]; [reflexivity|].
  apply merged_value_masked. exact Hm.
Qed.

Lemma new_value_masked m value mask :
  Word.in_range mask -> mask <> 0 ->
  Z.land (new_value m value mask) mask = Z.land value mask.
Proof.
  intros Hm H0. unfold new_value.
  apply Z.eqb_neq in H0. rewrite H0.
  destruct (mask =? Word.ones); cbn [negb]; [reflexivity|].
  apply merged_value_masked. exact Hm.
Qed.

Lemma updated_value_formula e m value mask :
  Word.in_range value ->
  updated_value e m value mask =
  merged_value (if w_mask e =? 0 then m else w_value e) value mask.
Proof.
  intros Hv. unfold updated_value.
  destruct (Z.eqb_spec mask Word.ones) as [->|Hne]; cbn [negb]; [|reflexivity].
  symmetry. apply merged_value_full. exact Hv.
Qed.

End MergeFacts.

(** C6.  A store with a mask other than 0 to an address that already
    has an entry in the bucket of its lock, which the transaction owns,
    updates that entry in place and returns it.  The value of the entry
    becomes [(old & ~mask) | (value & mask)], where [old] is the value of
    the entry, or the word in memory when the mask of the entry was 0;
    the mask of the entry becomes its bitwise or with [mask].  The other
    fields of the entry, the other slots, the number of entries, the
    locks, the memory and the history are unchanged. *)
Theorem write_merges_in_place
    (P : platform) (fuel : nat) (addr value mask : Z) (s : state)
    (j : nat) (ej : w_entry) :
  owned_by_tx P s (GET_LOCK addr) ->
  bucket_entry P s addr j ej ->
  mask <> 0 ->
  Word.in_range value ->
  let old := if w_mask ej =? 0 then st_mem s addr else w_value ej in
  exists s',
    stm_wbetl_write P (S fuel) addr value mask s =
      Ret (w_ptr P (tx_w_set (st_tx s)) j) s' /\
    ws_slots (tx_w_set (st_tx s')) !! j =
      Some {| w_addr := w_addr ej;
              w_value := Z.lor (Z.land old (Word.not mask)) (Z.land value mask);
              w_mask := Z.lor (w_mask ej) mask;
              w_version := w_version ej; w_lock := w_lock ej; w_next := w_next ej |} /\
    (forall i, i <> j ->
       ws_slots (tx_w_set (st_tx s')) !! i = ws_slots (tx_w_set (st_tx s)) !! i) /\
    ws_nb_entries (tx_w_set (st_tx s')) = ws_nb_entries (tx_w_set (st_tx s)) /\
    ws_entries (tx_w_set (st_tx s')) = ws_entries (tx_w_set (st_tx s)) /\
    st_g s' = st_g s /\ st_mem s' = st_mem s /\ st_hist s' = st_hist s.
Proof.
  intros Ho Hb Hm Hv old.
  exists (merged j ej addr value mask s).
  split; [apply write_owned_found; assumption|].
  destruct Hb as (h & _ & _ & Hj & _).
  pose proof (lookup_lt_Some _ _ _ Hj) as Hlt.
  split.
  { cbn. rewrite list_lookup_insert_eq by exact Hlt.
    rewrite (updated_value_formula ej (st_mem s addr) value mask Hv). reflexivity. }
  split.
  { intros i Hi. cbn. apply list_lookup_insert_ne. congruence. }
  repeat split.
Qed.

Lemma sample_two_bucket_entry :
  bucket_entry sample_platform sample_two 232 1
    {| w_addr := 232; w_value := 0; w_mask := 0; w_version := 2; w_lock := 7; w_next := 0 |}.
Proof.
  exists 0%nat. split; [reflexivity|]. split; [|split; reflexivity].
  eapply (reaches_step sample_platform _ 232 0 1 1 (set_w_next 4160 sample_w0)).
  - reflexivity.
  - discriminate.
  - discriminate.
  - reflexivity.
  - lia.
  - constructor.
Qed.

Lemma write_merges_in_place_witness :
  exists s',
    stm_wbetl_write sample_platform 1 232 17 255 sample_two = Ret 4160 s' /\
    ws_slots (tx_w_set (st_tx s')) !! 1%nat =
      Some {| w_addr := 232; w_value := 43793; w_mask := 255; w_version := 2;
              w_lock := 7; w_next := 0 |}.
Proof.
  destruct (write_merges_in_place sample_platform 0 232 17 255 sample_two 1 _
              ltac:(split; vm_compute; congruence) sample_two_bucket_entry)
    as (s' & Heq & Hslot & _).
  - discriminate.
  - vm_compute. split; [discriminate | reflexivity].
  - exists s'. split; [exact Heq | exact Hslot].
Defined.

(** ** Transactional load of an address the transaction wrote *)

Section ReadOwn.

Variable P : platform.

(** A load of an address whose lock the transaction owns, with an entry
    in the bucket, returns from the write set and leaves the state as it
    is. *)
Lemma read_own fuel addr s j ej :
  IS_ACTIVE (tx_status (st_tx s)) = true ->
  owned_by_tx P s (GET_LOCK addr) ->
  bucket_entry P s addr j ej ->
  stm_wbetl_read_invisible P (S fuel) addr s =
  Ret (if w_mask ej =? 0 then st_mem s addr else w_value ej) s.
Proof.
  intros Hact [Ho Hc] (h & Hh & Hr & Hj & Ha).
  unfold stm_wbetl_read_invisible.
  rewrite (bind_ret _ _ s tt s) by (unfold assert; rewrite Hact; reflexivity).
  rewrite (bind_ret _ _ s (g_locks (st_g s) (GET_LOCK addr)) s) by reflexivity.
  cbn [read_restart_no_load].
  rewrite (bind_ret _ _ s (st_tx s) s) by reflexivity.
  change (LOCK_GET_WRITE (g_locks (st_g s) (GET_LOCK addr)))
    with (LOCK_GET_OWNED (g_locks (st_g s) (GET_LOCK addr))).
  apply Z.eqb_neq in Ho. rewrite Ho, Hc. cbn [negb].
  rewrite Hh. apply (read_walk_found P s addr h j Hr _ ej); [|exact Hj | exact Ha].
  pose proof (lookup_lt_Some _ _ _ Hj). lia.
Qed.

(** A walk is not affected by changes to slots it does not pass. *)
Lemma reaches_ext ws ws' addr i k :
  reaches P ws addr i k ->
  ws_entries ws' = ws_entries ws ->
  (forall x, (i <= x < k)%nat -> ws_slots ws' !! x = ws_slots ws !! x) ->
  reaches P ws' addr i k.
Proof.
  intros Hr Hb. induction Hr as [i|i j k e He Ha Hn0 Hn Hij Hr IH]; intros Hsame.
  - constructor.
  - pose proof (reaches_le _ _ _ _ _ Hr).
    apply (reaches_step P ws' addr i j k e); auto.
    + rewrite Hsame by lia. exact He.
    + rewrite Hn. unfold w_ptr. rewrite Hb. reflexivity.
    + apply IH. intros x Hx. apply Hsame. lia.
Qed.

Lemma reaches_trans ws addr i j k :
  reaches P ws addr i j -> reaches P ws addr j k -> reaches P ws addr i k.
Proof.
  induction 1 as [i|i j' j e He Ha Hn0 Hn Hij Hr IH]; intros Hjk; [exact Hjk|].
  eapply reaches_step; eauto.
Qed.

Lemma lor_mask_nonzero a mask : mask <> 0 -> Z.lor a mask <> 0.
Proof. intros Hm Hz. apply Z.lor_eq_0_iff in Hz as [_ Hz]. contradiction. Qed.

Lemma new_value_full m value : new_value m value Word.ones = value.
Proof. reflexivity. Qed.

(** The three states a successful store leads to. *)
Lemma acquired_bucket_entry addr value mask s :
  ws_wf P s ->
  (ws_nb_entries (tx_w_set (st_tx s)) < ws_size (tx_w_set (st_tx s)))%nat ->
  mask <> 0 -> Word.in_range mask ->
  exists j ej,
    w_ptr P (tx_w_set (st_tx s)) (ws_nb_entries (tx_w_set (st_tx s))) =
      w_ptr P (tx_w_set (st_tx (acquired P addr value mask s))) j /\
    owned_by_tx P (acquired P addr value mask s) (GET_LOCK addr) /\
    bucket_entry P (acquired P addr value mask s) addr j ej /\
    w_mask ej <> 0 /\
    Z.land (w_value ej) mask = Z.land value mask /\
    (mask = Word.ones -> w_value ej = value) /\
    tx_status (st_tx (acquired P addr value mask s)) = tx_status (st_tx s).
Proof.
  intros W Hroom Hm Hmr.
  set (ws := tx_w_set (st_tx s)). set (nb := ws_nb_entries ws).
  assert (Hga : LOCK_GET_ADDR (LOCK_SET_ADDR_WRITE (w_ptr P ws nb)) = w_ptr P ws nb).
  { apply get_addr_w_ptr.
    - apply (wf_base_pos P s W).
    - apply (wf_base_even P s W).
    - pose proof (wf_base_top P s W).
      assert (w_ptr P ws nb < w_ptr P ws (ws_size ws)) by (apply w_ptr_lt; exact Hroom).
      fold ws in H. lia. }
  assert (Hl : g_locks (st_g (acquired P addr value mask s)) (GET_LOCK addr) =
               LOCK_SET_ADDR_WRITE (w_ptr P ws nb)).
  { cbn. unfold upd. rewrite Z.eqb_refl. reflexivity. }
  assert (Hslot : ws_slots (tx_w_set (st_tx (acquired P addr value mask s))) !! nb =
                  Some {| w_addr := addr; w_value := new_value (st_mem s addr) value mask;
                          w_mask := mask;
                          w_version := LOCK_GET_TIMESTAMP (g_locks (st_g s) (GET_LOCK addr));
                          w_lock := GET_LOCK addr; w_next := 0 |}).
  { cbn. apply list_lookup_insert_eq. rewrite (wf_length P s W). exact Hroom. }
  eexists nb, _. split; [reflexivity|]. split.
  { split.
    - rewrite Hl, LockFacts.set_addr_write_owned. discriminate.
    - rewrite Hl, Hga.
      change (w_ptr P ws nb)
        with (w_ptr P (tx_w_set (st_tx (acquired P addr value mask s))) nb).
      rewrite ws_contains_ptr. apply Nat.ltb_lt. unfold nb, ws. cbn. lia. }
  split.
  { exists nb. rewrite Hl, Hga. split; [reflexivity|].
    split; [constructor|]. split; [exact Hslot | reflexivity]. }
  cbn [w_mask w_value].
  split; [exact Hm|]. split; [apply new_value_masked; assumption|].
  split; [intros ->; reflexivity | reflexivity].
Qed.

Lemma merged_bucket_entry addr value mask s j ej :
  owned_by_tx P s (GET_LOCK addr) ->
  bucket_entry P s addr j ej ->
  mask <> 0 -> Word.in_range mask -> Word.in_range value ->
  exists j' ej',
    w_ptr P (tx_w_set (st_tx s)) j =
      w_ptr P (tx_w_set (st_tx (merged j ej addr value mask s))) j' /\
    owned_by_tx P (merged j ej addr value mask s) (GET_LOCK addr) /\
    bucket_entry P (merged j ej addr value mask s) addr j' ej' /\
    w_mask ej' <> 0 /\
    Z.land (w_value ej') mask = Z.land value mask /\
    (mask = Word.ones -> w_value ej' = value) /\
    tx_status (st_tx (merged j ej addr value mask s)) = tx_status (st_tx s).
Proof.
  intros Ho (h & Hh & Hr & Hj & Ha) Hm Hmr Hvr.
  pose proof (lookup_lt_Some _ _ _ Hj) as Hlt.
  eexists j, _. split; [reflexivity|]. split; [exact Ho|]. split.
  { exists h. split; [exact Hh|]. split.
    - apply (reaches_ext _ _ _ _ _ Hr); [reflexivity|].
      intros x Hx. cbn. apply list_lookup_insert_ne. lia.
    - split; [cbn; apply list_lookup_insert_eq; exact Hlt | exact Ha]. }
  cbn [w_mask w_value set_w_mask set_w_value].
  split; [apply lor_mask_nonzero; exact Hm|].
  split; [apply updated_value_masked; assumption|].
  split; [|reflexivity].
  intros ->. reflexivity.
Qed.

Lemma appended_bucket_entry addr value mask s t et :
  ws_wf P s ->
  owned_by_tx P s (GET_LOCK addr) ->
  bucket_tail P s addr t et ->
  (t < ws_nb_entries (tx_w_set (st_tx s)))%nat ->
  (ws_nb_entries (tx_w_set (st_tx s)) < ws_size (tx_w_set (st_tx s)))%nat ->
  mask <> 0 -> Word.in_range mask ->
  exists j ej,
    w_ptr P (tx_w_set (st_tx s)) (ws_nb_entries (tx_w_set (st_tx s))) =
      w_ptr P (tx_w_set (st_tx (appended P t et addr value mask s))) j /\
    owned_by_tx P (appended P t et addr value mask s) (GET_LOCK addr) /\
    bucket_entry P (appended P t et addr value mask s) addr j ej /\
    w_mask ej <> 0 /\
    Z.land (w_value ej) mask = Z.land value mask /\
    (mask = Word.ones -> w_value ej = value) /\
    tx_status (st_tx (appended P t et addr value mask s)) = tx_status (st_tx s).
Proof.
  intros W [Ho Hc] (h & Hh & Hr & Ht & Ha & Hn) Htnb Hroom Hm Hmr.
  set (ws := tx_w_set (st_tx s)) in *. set (nb := ws_nb_entries ws) in *.
  pose proof (wf_length P s W) as Hlen. fold ws in Hlen.
  pose proof (reaches_le _ _ _ _ _ Hr) as Hht.
  assert (Hslot : ws_slots (tx_w_set (st_tx (appended P t et addr value mask s))) !! nb =
                  Some {| w_addr := addr; w_value := new_value (st_mem s addr) value mask;
                          w_mask := mask; w_version := w_version et;
                          w_lock := GET_LOCK addr; w_next := 0 |}).
  { cbn. rewrite list_lookup_insert_ne by (fold ws nb; lia).
    apply list_lookup_insert_eq. fold ws nb. lia. }
  eexists nb, _. split; [reflexivity|]. split.
  { split; [exact Ho|].
    apply ws_contains_range. apply ws_contains_range in Hc. cbn.
    fold ws nb in Hc |- *.
    assert (w_ptr P ws nb <= w_ptr P ws (S nb)) by (apply w_ptr_mono; lia).
    unfold w_ptr in *. cbn in *. lia. }
  split.
  { exists h. split; [exact Hh|]. split; [|split; [exact Hslot | reflexivity]].
    apply (reaches_trans _ _ _ t).
    - apply (reaches_ext _ _ _ _ _ Hr); [reflexivity|].
      intros x Hx. cbn. fold ws nb.
      rewrite !list_lookup_insert_ne by lia. reflexivity.
    - apply (reaches_step P _ addr t nb nb (set_w_next (w_ptr P ws nb) et)).
      + cbn. fold ws nb. apply list_lookup_insert_eq.
        rewrite length_insert. lia.
      + exact Ha.
      + cbn. pose proof (w_ptr_base P ws nb). pose proof (wf_base_pos P s W).
        fold ws in H0. lia.
      + reflexivity.
      + exact Htnb.
      + constructor. }
  cbn [w_mask w_value].
  split; [exact Hm|]. split; [apply new_value_masked; assumption|].
  split; [intros ->; reflexivity | reflexivity].
Qed.

(** After a store that returned an entry, the bucket of the lock of the
    address has an entry for the address, with a mask other than 0 and
    the stored bits in its value; the transaction owns the lock. *)
Lemma write_gives_bucket_entry fuel addr value mask s w s' :
  ws_wf P s ->
  tx_irrevocable (st_tx s) = 0 ->
  rs_bounded (st_tx s) ->
  (ws_nb_entries (tx_w_set (st_tx s)) < ws_size (tx_w_set (st_tx s)))%nat ->
  mask <> 0 -> Word.in_range mask -> Word.in_range value ->
  stm_wbetl_write P (S fuel) addr value mask s = Ret w s' ->
  w <> 0 ->
  exists j ej,
    w = w_ptr P (tx_w_set (st_tx s')) j /\
    owned_by_tx P s' (GET_LOCK addr) /\
    bucket_entry P s' addr j ej /\
    w_mask ej <> 0 /\
    Z.land (w_value ej) mask = Z.land value mask /\
    (mask = Word.ones -> w_value ej = value) /\
    tx_status (st_tx s') = tx_status (st_tx s).
Proof.
  intros W Hirr Hb Hroom Hm Hmr Hvr Hw Hw0.
  pose proof (wf_length P s W) as Hlen.
  pose proof (wf_base_pos P s W) as Hpos.
  destruct (Z.eq_dec (LOCK_GET_OWNED (g_locks (st_g s) (GET_LOCK addr))) 0) as [Hfree|Hown].
  - (* the lock is free *)
    destruct (find_lock (GET_LOCK addr) (read_set (st_tx s)) 0) as [i|] eqn:Hf.
    + destruct (Z.gtb_spec (LOCK_GET_TIMESTAMP (g_locks (st_g s) (GET_LOCK addr)))
                  (tx_end (st_tx s))) as [Hgt|Hle].
      * rewrite (write_val_write P fuel addr value mask s i Hfree Hirr Hb) in Hw;
          [|lia | exact Hf].
        apply bind_ret_value in Hw. contradiction.
      * rewrite (write_acquire P fuel addr value mask s Hfree Hirr Hb) in Hw;
          [| intros; lia | lia | lia].
        injection Hw as <- <-. apply acquired_bucket_entry; assumption.
    + rewrite (write_acquire P fuel addr value mask s Hfree Hirr Hb) in Hw;
        [| intros; exact Hf | lia | lia].
      injection Hw as <- <-. apply acquired_bucket_entry; assumption.
  - (* the lock is owned *)
    destruct (ws_contains P (tx_w_set (st_tx s))
                (LOCK_GET_ADDR (g_locks (st_g s) (GET_LOCK addr)))) eqn:Hc.
    + assert (Ho : owned_by_tx P s (GET_LOCK addr)) by (split; assumption).
      destruct (wf_bucket P s addr W Ho)
        as [(j & ej & Hj & Hbe)|(t & et & Ht & Hbt & Htl)].
      * rewrite (write_owned_found P fuel addr value mask s j ej Ho Hbe Hm) in Hw.
        injection Hw as <- <-. apply merged_bucket_entry; assumption.
      * rewrite (write_owned_append P fuel addr value mask s t et Ho Hbt Hm Hpos Ht) in Hw;
          [| lia | lia].
        injection Hw as <- <-. apply appended_bucket_entry; assumption.
    + rewrite (write_foreign P fuel addr value mask s Hown Hc Hirr) in Hw.
      apply bind_ret_value in Hw. contradiction.
Qed.

End ReadOwn.


(** ** The write-set invariant is kept by a store *)

Section InvariantStore.

Variable P : platform.

Lemma ws_contains_grow ws ws' w :
  ws_entries ws' = ws_entries ws ->
  (ws_nb_entries ws <= ws_nb_entries ws')%nat ->
  ws_contains P ws w = true -> ws_contains P ws' w = true.
Proof.
  intros Hb Hn Hc. apply ws_contains_range in Hc. apply ws_contains_range.
  pose proof (w_ptr_mono P ws _ _ Hn) as Hm.
  unfold w_ptr in *. rewrite Hb. lia.
Qed.

(** An entry in use has a lock that is not free. *)
Lemma wf_entry_lock_owned s i e :
  ws_wf P s ->
  (i < ws_nb_entries (tx_w_set (st_tx s)))%nat ->
  ws_slots (tx_w_set (st_tx s)) !! i = Some e ->
  LOCK_GET_OWNED (g_locks (st_g s) (w_lock e)) <> 0.
Proof. intros W Hi He. apply (wf_locked P s W i e Hi He). Qed.

(** Taking a free lock keeps the invariant. *)
Lemma wf_acquired addr value mask s :
  ws_wf P s ->
  LOCK_GET_OWNED (g_locks (st_g s) (GET_LOCK addr)) = 0 ->
  (ws_nb_entries (tx_w_set (st_tx s)) < ws_size (tx_w_set (st_tx s)))%nat ->
  ws_wf P (acquired P addr value mask s).
Proof.
  intros W Hfree Hroom.
  set (ws := tx_w_set (st_tx s)) in *. set (nb := ws_nb_entries ws) in *.
  set (lock := GET_LOCK addr) in *.
  set (e := {| w_addr := addr; w_value := new_value (st_mem s addr) value mask;
               w_mask := mask; w_version := LOCK_GET_TIMESTAMP (g_locks (st_g s) lock);
               w_lock := lock; w_next := 0 |}).
  pose proof (wf_length P s W) as Hlen. fold ws in Hlen.
  assert (Hws : tx_w_set (st_tx (acquired P addr value mask s)) = ws_append e ws)
    by reflexivity.
  assert (Hlocks : g_locks (st_g (acquired P addr value mask s)) =
                   upd (g_locks (st_g s)) lock (LOCK_SET_ADDR_WRITE (w_ptr P ws nb)))
    by reflexivity.
  assert (Hptr : forall i, w_ptr P (ws_append e ws) i = w_ptr P ws i) by reflexivity.
  assert (Hga : LOCK_GET_ADDR (LOCK_SET_ADDR_WRITE (w_ptr P ws nb)) = w_ptr P ws nb).
  { apply get_addr_w_ptr.
    - apply (wf_base_pos P s W).
    - apply (wf_base_even P s W).
    - pose proof (wf_base_top P s W) as Htop. fold ws in Htop.
      assert (w_ptr P ws nb < w_ptr P ws (ws_size ws)) by (apply w_ptr_lt; exact Hroom).
      lia. }
  assert (Hold : forall i, (i < nb)%nat ->
                 ws_slots (ws_append e ws) !! i = ws_slots ws !! i).
  { intros i Hi. cbn. apply list_lookup_insert_ne. fold nb. lia. }
  assert (Hnew : ws_slots (ws_append e ws) !! nb = Some e).
  { cbn. apply list_lookup_insert_eq. fold nb. lia. }
  assert (Hother : forall i e0, (i < nb)%nat -> ws_slots ws !! i = Some e0 ->
                   w_lock e0 <> lock).
  { intros i e0 Hi He0 Heq.
    apply (wf_entry_lock_owned s i e0 W Hi He0). rewrite Heq. exact Hfree. }
  constructor; rewrite ?Hws, ?Hlocks.
  - cbn. rewrite length_insert. exact Hlen.
  - cbn. fold ws nb. lia.
  - apply (wf_base_pos P s W).
  - apply (wf_base_even P s W).
  - apply (wf_base_top P s W).
  - intros i e0 Hi He0. cbn [ws_append ws_nb_entries] in Hi. fold nb in Hi.
    destruct (Nat.eq_dec i nb) as [->|Hne].
    + rewrite Hnew in He0. injection He0 as <-. left. reflexivity.
    + rewrite Hold in He0 by lia.
      destruct (wf_next P s W i e0 ltac:(fold ws nb; lia) He0)
        as [H0|(j & e' & Hj & Hn & He' & Hl & Hv)]; [left; exact H0|].
      right. exists j, e'. fold ws nb in Hj.
      split; [cbn; fold nb; lia|]. split; [rewrite Hptr; exact Hn|].
      split; [rewrite Hold by lia; exact He'|]. split; assumption.
  - intros i e0 Hi He0. cbn [ws_append ws_nb_entries] in Hi. fold nb in Hi.
    unfold owned_by_tx. rewrite Hws, Hlocks.
    destruct (Nat.eq_dec i nb) as [->|Hne].
    + rewrite Hnew in He0. injection He0 as <-. cbn [w_lock e].
      unfold upd. rewrite Z.eqb_refl. split.
      * rewrite LockFacts.set_addr_write_owned. discriminate.
      * rewrite Hga, <- (Hptr nb), ws_contains_ptr. apply Nat.ltb_lt. cbn. fold nb. lia.
    + rewrite Hold in He0 by lia.
      pose proof (Hother i e0 ltac:(lia) He0) as Hl.
      unfold upd. apply Z.eqb_neq in Hl. rewrite Hl.
      destruct (wf_locked P s W i e0 ltac:(fold ws nb; lia) He0) as [Ho Hc].
      split; [exact Ho|].
      apply (ws_contains_grow ws); [reflexivity | cbn; lia | exact Hc].
  - intros i j ei ej Hi Hj Hei Hej Hni Hnj Hl.
    cbn [ws_append ws_nb_entries] in Hi, Hj. fold nb in Hi, Hj.
    destruct (Nat.eq_dec i nb) as [->|Hine], (Nat.eq_dec j nb) as [->|Hjne];
      try reflexivity.
    + rewrite Hnew in Hei. injection Hei as <-. rewrite Hold in Hej by lia.
      exfalso. apply (Hother j ej ltac:(lia) Hej). symmetry. exact Hl.
    + rewrite Hnew in Hej. injection Hej as <-. rewrite Hold in Hei by lia.
      exfalso. apply (Hother i ei ltac:(lia) Hei). exact Hl.
    + rewrite Hold in Hei, Hej by lia.
      apply (wf_tail P s W i j ei ej); auto; fold ws nb; lia.
  - intros l Ho Hr. unfold upd in *.
    destruct (Z.eqb_spec l lock) as [Heq|Hl].
    + rewrite Heq. exists nb, e. split; [cbn; fold nb; lia|].
      split; [rewrite Hptr; reflexivity|]. split; [exact Hnew | reflexivity].
    + destruct (wf_owner P s W l Ho Hr) as (h & eh & Hh & Hw & Heh & Hlk).
      fold ws nb in Hh.
      exists h, eh. split; [cbn; fold nb; lia|].
      split; [rewrite Hptr; exact Hw|]. split; [rewrite Hold by lia; exact Heh | exact Hlk].
Qed.

(** Updating the value and the mask of an entry keeps the invariant. *)
Lemma wf_merged addr value mask s j ej :
  ws_wf P s ->
  ws_slots (tx_w_set (st_tx s)) !! j = Some ej ->
  ws_wf P (merged j ej addr value mask s).
Proof.
  intros W Hj.
  set (ws := tx_w_set (st_tx s)) in *.
  set (e' := set_w_mask (Z.lor (w_mask ej) mask)
               (set_w_value (updated_value ej (st_mem s addr) value mask) ej)).
  assert (Hws : tx_w_set (st_tx (merged j ej addr value mask s)) =
                set_slots (<[j := e']> (ws_slots ws)) ws) by reflexivity.
  assert (Hg : st_g (merged j ej addr value mask s) = st_g s) by reflexivity.
  assert (Hptr : forall i, w_ptr P (set_slots (<[j := e']> (ws_slots ws)) ws) i = w_ptr P ws i)
    by reflexivity.
  (* every slot of the new array has the links of the old slot *)
  assert (Hnew : forall i e, (<[j := e']> (ws_slots ws)) !! i = Some e ->
            exists e0, ws_slots ws !! i = Some e0 /\ w_next e = w_next e0 /\
                       w_lock e = w_lock e0 /\ w_version e = w_version e0).
  { intros i e He. destruct (Nat.eq_dec i j) as [->|Hne].
    - rewrite list_lookup_insert_eq in He by (apply (lookup_lt_Some _ _ _ Hj)).
      injection He as <-. exists ej. repeat split. exact Hj.
    - rewrite list_lookup_insert_ne in He by congruence. exists e. repeat split. exact He. }
  assert (Hold : forall i e0, ws_slots ws !! i = Some e0 ->
            exists e, (<[j := e']> (ws_slots ws)) !! i = Some e /\ w_next e = w_next e0 /\
                      w_lock e = w_lock e0 /\ w_version e = w_version e0).
  { intros i e0 He0. destruct (Nat.eq_dec i j) as [->|Hne].
    - exists e'. rewrite list_lookup_insert_eq by (apply (lookup_lt_Some _ _ _ Hj)).
      rewrite Hj in He0. injection He0 as <-. repeat split.
    - exists e0. rewrite list_lookup_insert_ne by congruence. repeat split. exact He0. }
  constructor; unfold owned_by_tx; rewrite ?Hws, ?Hg; cbn [set_slots ws_slots ws_nb_entries ws_size ws_entries].
  - rewrite length_insert. apply (wf_length P s W).
  - apply (wf_nb P s W).
  - apply (wf_base_pos P s W).
  - apply (wf_base_even P s W).
  - apply (wf_base_top P s W).
  - intros i e Hi He. destruct (Hnew i e He) as (e0 & He0 & Hn & Hl & Hv).
    destruct (wf_next P s W i e0 Hi He0) as [H0|(k & ek & Hk & Hnk & Hek & Hlk & Hvk)].
    + left. congruence.
    + right. destruct (Hold k ek Hek) as (ek' & Hek' & Hn' & Hl' & Hv').
      exists k, ek'. split; [exact Hk|]. split; [rewrite Hptr, Hn; exact Hnk|].
      split; [exact Hek'|]. split; congruence.
  - intros i e Hi He. destruct (Hnew i e He) as (e0 & He0 & Hn & Hl & Hv).
    rewrite Hl. apply (wf_locked P s W i e0 Hi He0).
  - intros i k ei ek Hi Hk Hei Hek Hni Hnk Hl.
    destruct (Hnew i ei Hei) as (ei0 & Hei0 & Hn1 & Hl1 & _).
    destruct (Hnew k ek Hek) as (ek0 & Hek0 & Hn2 & Hl2 & _).
    apply (wf_tail P s W i k ei0 ek0); auto; congruence.
  - intros l Ho Hr. destruct (wf_owner P s W l Ho Hr) as (h & eh & Hh & Hw & Heh & Hlk).
    destruct (Hold h eh Heh) as (eh' & Heh' & _ & Hl' & _).
    exists h, eh'. split; [exact Hh|]. split; [rewrite Hptr; exact Hw|].
    split; [exact Heh' | congruence].
Qed.

(** Adding an entry behind the last entry of a bucket keeps the
    invariant. *)
Lemma wf_appended addr value mask s t et :
  ws_wf P s ->
  owned_by_tx P s (GET_LOCK addr) ->
  ws_slots (tx_w_set (st_tx s)) !! t = Some et ->
  w_next et = 0 ->
  w_lock et = GET_LOCK addr ->
  (t < ws_nb_entries (tx_w_set (st_tx s)))%nat ->
  (ws_nb_entries (tx_w_set (st_tx s)) < ws_size (tx_w_set (st_tx s)))%nat ->
  ws_wf P (appended P t et addr value mask s).
Proof.
  intros W Ho Ht Ht0 Htl Htnb Hroom.
  pose proof (wf_next P s W) as Wnext.
  pose proof (wf_locked P s W) as Wlocked.
  pose proof (wf_tail P s W) as Wtail.
  pose proof (wf_owner P s W) as Wowner.
  pose proof (wf_base_even P s W) as Weven.
  pose proof (wf_base_top P s W) as Wtop.
  pose proof (wf_length P s W) as Hlen.
  pose proof (wf_base_pos P s W) as Hpos.
  unfold owned_by_tx in Wlocked, Ho.
  set (ws := tx_w_set (st_tx s)) in *. set (nb := ws_nb_entries ws) in *.
  set (lock := GET_LOCK addr) in *.
  set (e := {| w_addr := addr; w_value := new_value (st_mem s addr) value mask;
               w_mask := mask; w_version := w_version et; w_lock := lock; w_next := 0 |}).
  set (et' := set_w_next (w_ptr P ws nb) et).
  set (ws' := {| ws_entries := ws_entries ws;
                 ws_slots := <[t := et']> (<[nb := e]> (ws_slots ws));
                 ws_nb_entries := S nb; ws_size := ws_size ws;
                 ws_has_writes := S (ws_has_writes ws) |}).
  assert (Hws : tx_w_set (st_tx (appended P t et addr value mask s)) = ws') by reflexivity.
  assert (Hg : st_g (appended P t et addr value mask s) = st_g s) by reflexivity.
  assert (Hptr : forall i, w_ptr P ws' i = w_ptr P ws i) by reflexivity.
  assert (Hat_nb : ws_slots ws' !! nb = Some e).
  { cbn. rewrite list_lookup_insert_ne by lia. apply list_lookup_insert_eq. lia. }
  assert (Hat_t : ws_slots ws' !! t = Some et').
  { cbn. apply list_lookup_insert_eq. rewrite length_insert. lia. }
  assert (Hat : forall i, i <> t -> i <> nb -> ws_slots ws' !! i = ws_slots ws !! i).
  { intros i H1 H2. cbn. rewrite !list_lookup_insert_ne by congruence. reflexivity. }
  assert (Hptr_nb : w_ptr P ws nb <> 0) by (pose proof (w_ptr_base P ws nb); lia).
  (* every slot in use of the new array, traced back *)
  assert (Hnew : forall i e1, (i < S nb)%nat -> ws_slots ws' !! i = Some e1 ->
            (i = nb /\ e1 = e) \/
            (i = t /\ e1 = et') \/
            (i <> t /\ (i < nb)%nat /\ ws_slots ws !! i = Some e1)).
  { intros i e1 Hi He1. destruct (Nat.eq_dec i nb) as [->|Hn].
    - left. rewrite Hat_nb in He1. injection He1 as <-. auto.
    - destruct (Nat.eq_dec i t) as [->|Hnt].
      + right. left. rewrite Hat_t in He1. injection He1 as <-. auto.
      + right. right. rewrite Hat in He1 by assumption. split; [exact Hnt|]. split; [lia|exact He1]. }
  (* every slot in use of the old array has a slot with its lock and version *)
  assert (Hold : forall i e0, (i < nb)%nat -> ws_slots ws !! i = Some e0 ->
            exists e1, ws_slots ws' !! i = Some e1 /\
                       w_lock e1 = w_lock e0 /\ w_version e1 = w_version e0).
  { intros i e0 Hi He0. destruct (Nat.eq_dec i t) as [->|Hnt].
    - exists et'. split; [exact Hat_t|]. rewrite Ht in He0. injection He0 as <-. split; reflexivity.
    - exists e0. split; [rewrite Hat by lia; exact He0 | split; reflexivity]. }
  assert (Hcont : forall w, ws_contains P ws w = true -> ws_contains P ws' w = true).
  { intros w. apply ws_contains_grow; [reflexivity | cbn; lia]. }
  constructor; unfold owned_by_tx; rewrite ?Hws, ?Hg.
  - cbn. rewrite !length_insert. exact Hlen.
  - cbn. lia.
  - exact Hpos.
  - exact Weven.
  - exact Wtop.
  - intros i e1 Hi He1.
    destruct (Hnew i e1 Hi He1) as [[-> ->]|[[-> ->]|(Hnt & Hlt & He0)]].
    + left. reflexivity.
    + right. exists nb, e. split; [cbn; lia|]. split; [reflexivity|].
      split; [exact Hat_nb|]. split; [cbn; symmetry; exact Htl | reflexivity].
    + destruct (Wnext i e1 Hlt He0) as [H0|(k & ek & Hk & Hnk & Hek & Hlk & Hvk)];
        [left; exact H0|].
      right. destruct (Hold k ek ltac:(lia) Hek) as (ek' & Hek' & Hl' & Hv').
      exists k, ek'. split; [cbn; lia|]. split; [rewrite Hptr; exact Hnk|].
      split; [exact Hek'|]. split; congruence.
  - intros i e1 Hi He1.
    destruct (Hnew i e1 Hi He1) as [[-> ->]|[[-> ->]|(Hnt & Hlt & He0)]].
    + cbn [w_lock e]. destruct Ho as [Ho1 Ho2]. split; [exact Ho1 | apply Hcont, Ho2].
    + cbn [w_lock et' set_w_next]. rewrite Htl.
      destruct Ho as [Ho1 Ho2]. split; [exact Ho1 | apply Hcont, Ho2].
    + destruct (Wlocked i e1 Hlt He0) as [Ho1 Ho2].
      split; [exact Ho1 | apply Hcont, Ho2].
  - intros i k ei ek Hi Hk Hei Hek Hni Hnk Hl.
    destruct (Hnew i ei Hi Hei) as [[-> ->]|[[-> ->]|(Hnti & Hlti & Hei0)]];
    destruct (Hnew k ek Hk Hek) as [[-> ->]|[[-> ->]|(Hntk & Hltk & Hek0)]];
      try reflexivity;
      try (cbn in Hni; contradiction);
      try (cbn in Hnk; contradiction).
    + exfalso. apply Hntk.
      apply (Wtail k t ek et); auto. cbn in Hl. congruence.
    + exfalso. apply Hnti.
      apply (Wtail i t ei et); auto. cbn in Hl. congruence.
    + apply (Wtail i k ei ek); auto.
  - intros l Hol Hr. destruct (Wowner l Hol Hr) as (h & eh & Hh & Hw & Heh & Hlk).
    destruct (Hold h eh Hh Heh) as (eh' & Heh' & Hl' & _).
    exists h, eh'. split; [cbn; lia|]. split; [rewrite Hptr; exact Hw|].
    split; [exact Heh' | congruence].
Qed.

(** The three kinds of store keep the captured versions. *)
Lemma captured_merged addr value mask s j ej :
  versions_captured s ->
  ws_slots (tx_w_set (st_tx s)) !! j = Some ej ->
  versions_captured (merged j ej addr value mask s).
Proof.
  intros Hcap Hj i e Hi He. cbn in Hi, He.
  destruct (Nat.eq_dec i j) as [->|Hne].
  - rewrite list_lookup_insert_eq in He by (apply (lookup_lt_Some _ _ _ Hj)).
    injection He as <-. apply (Hcap j ej Hi Hj).
  - rewrite list_lookup_insert_ne in He by congruence. apply (Hcap i e Hi He).
Qed.

Lemma captured_appended addr value mask s t et :
  versions_captured s ->
  ws_slots (tx_w_set (st_tx s)) !! t = Some et ->
  w_lock et = GET_LOCK addr ->
  (t < ws_nb_entries (tx_w_set (st_tx s)))%nat ->
  (ws_nb_entries (tx_w_set (st_tx s)) < length (ws_slots (tx_w_set (st_tx s))))%nat ->
  versions_captured (appended P t et addr value mask s).
Proof.
  intros Hcap Ht Htl Htnb Hlen i e Hi He. cbn in Hi, He.
  change (st_hist (appended P t et addr value mask s)) with (st_hist s).
  destruct (Nat.eq_dec i t) as [->|Hnt].
  - rewrite list_lookup_insert_eq in He by (rewrite length_insert; lia).
    injection He as <-. apply (Hcap t et Htnb Ht).
  - rewrite list_lookup_insert_ne in He by congruence.
    destruct (Nat.eq_dec i (ws_nb_entries (tx_w_set (st_tx s)))) as [->|Hn].
    + rewrite list_lookup_insert_eq in He by lia. injection He as <-.
      cbn [w_lock w_version]. rewrite <- Htl. apply (Hcap t et Htnb Ht).
    + rewrite list_lookup_insert_ne in He by congruence.
      apply (Hcap i e); [lia | exact He].
Qed.

Lemma captured_acquired addr value mask s :
  ws_wf P s ->
  versions_captured s ->
  LOCK_GET_OWNED (g_locks (st_g s) (GET_LOCK addr)) = 0 ->
  (ws_nb_entries (tx_w_set (st_tx s)) < length (ws_slots (tx_w_set (st_tx s))))%nat ->
  versions_captured (acquired P addr value mask s).
Proof.
  intros W Hcap Hfree Hlen i e Hi He. cbn in Hi, He.
  cbn [acquired with_tx record st_hist acquired_from].
  destruct (Nat.eq_dec i (ws_nb_entries (tx_w_set (st_tx s)))) as [->|Hn].
  - rewrite list_lookup_insert_eq in He by lia. injection He as <-.
    cbn [w_lock w_version]. rewrite Z.eqb_refl.
    exists (g_locks (st_g s) (GET_LOCK addr)). auto.
  - rewrite list_lookup_insert_ne in He by congruence.
    assert (Hl : w_lock e <> GET_LOCK addr).
    { intros Heq. apply (wf_entry_lock_owned s i e W ltac:(lia) He).
      rewrite Heq. exact Hfree. }
    apply Z.eqb_neq in Hl. rewrite Hl. apply (Hcap i e); [lia | exact He].
Qed.

End InvariantStore.

Section InvariantLife.

Variable P : platform.

(** The invariant holds when a transaction starts: the write set is
    empty and no lock word points into its array. *)
Lemma wf_empty s :
  ws_nb_entries (tx_w_set (st_tx s)) = 0%nat ->
  length (ws_slots (tx_w_set (st_tx s))) = ws_size (tx_w_set (st_tx s)) ->
  0 < ws_entries (tx_w_set (st_tx s)) ->
  Z.testbit (ws_entries (tx_w_set (st_tx s))) 0 = false ->
  w_ptr P (tx_w_set (st_tx s)) (ws_size (tx_w_set (st_tx s))) <= Word.modulus ->
  (forall l, LOCK_GET_OWNED (g_locks (st_g s) l) <> 0 ->
     ~ (ws_entries (tx_w_set (st_tx s)) <= LOCK_GET_ADDR (g_locks (st_g s) l)
        < w_ptr P (tx_w_set (st_tx s)) (ws_size (tx_w_set (st_tx s))))) ->
  ws_wf P s /\ versions_captured s.
Proof.
  intros Hnb Hlen Hpos Heven Htop Hnone. split.
  - constructor; auto; rewrite ?Hnb; try (intros; lia).
    intros l Ho Hr. exfalso. apply (Hnone l Ho Hr).
  - intros i e Hi. rewrite Hnb in Hi. lia.
Qed.

(** A store that returns an entry keeps the invariant of the write set
    and the captured versions. *)
Lemma write_keeps_invariant fuel addr value mask s w s' :
  ws_wf P s ->
  versions_captured s ->
  tx_irrevocable (st_tx s) = 0 ->
  rs_bounded (st_tx s) ->
  (ws_nb_entries (tx_w_set (st_tx s)) < ws_size (tx_w_set (st_tx s)))%nat ->
  stm_wbetl_write P (S fuel) addr value mask s = Ret w s' ->
  w <> 0 ->
  ws_wf P s' /\ versions_captured s'.
Proof.
  intros W Hcap Hirr Hb Hroom Hw Hw0.
  pose proof (wf_length P s W) as Hlen.
  pose proof (wf_base_pos P s W) as Hpos.
  destruct (Z.eq_dec (LOCK_GET_OWNED (g_locks (st_g s) (GET_LOCK addr))) 0) as [Hfree|Hown].
  - assert (Hacq : stm_wbetl_write P (S fuel) addr value mask s =
                   Ret (w_ptr P (tx_w_set (st_tx s)) (ws_nb_entries (tx_w_set (st_tx s))))
                       (acquired P addr value mask s) \/
                   stm_wbetl_write P (S fuel) addr value mask s =
                   (stm_rollback P (STM_ABORT_VAL_WRITE P) ;;; ret 0) s).
    { destruct (find_lock (GET_LOCK addr) (read_set (st_tx s)) 0) as [i|] eqn:Hf.
      - destruct (Z.gtb_spec (LOCK_GET_TIMESTAMP (g_locks (st_g s) (GET_LOCK addr)))
                    (tx_end (st_tx s))) as [Hgt|Hle].
        + right. apply (write_val_write P fuel addr value mask s i); auto. lia.
        + left. apply write_acquire; auto; try lia; intros; lia.
      - left. apply write_acquire; auto; lia. }
    destruct Hacq as [Hacq|Hacq]; rewrite Hacq in Hw.
    + injection Hw as <- <-. split.
      * apply wf_acquired; assumption.
      * apply captured_acquired; auto. lia.
    + apply bind_ret_value in Hw. contradiction.
  - destruct (ws_contains P (tx_w_set (st_tx s))
                (LOCK_GET_ADDR (g_locks (st_g s) (GET_LOCK addr)))) eqn:Hc.
    + assert (Ho : owned_by_tx P s (GET_LOCK addr)) by (split; assumption).
      destruct (Z.eq_dec mask 0) as [->|Hm].
      { rewrite (write_owned_mask0 P fuel addr value s Ho) in Hw.
        injection Hw as <- <-. split; assumption. }
      destruct (wf_bucket P s addr W Ho)
        as [(j & ej & Hj & Hbe)|(t & et & Ht & Hbt & Htl)].
      * rewrite (write_owned_found P fuel addr value mask s j ej Ho Hbe Hm) in Hw.
        injection Hw as <- <-. destruct Hbe as (h & _ & _ & Hej & _). split.
        -- apply wf_merged; assumption.
        -- apply captured_merged; assumption.
      * rewrite (write_owned_append P fuel addr value mask s t et Ho Hbt Hm Hpos Ht) in Hw;
          [| lia | lia].
        injection Hw as <- <-. destruct Hbt as (h & _ & _ & Het & _ & Hn0). split.
        -- apply wf_appended; assumption.
        -- apply captured_appended; auto. lia.
    + rewrite (write_foreign P fuel addr value mask s Hown Hc Hirr) in Hw.
      apply bind_ret_value in Hw. contradiction.
Qed.

End InvariantLife.


(** ** Rollback and retry *)

Section Retry.

Variable P : platform.

(** [int_stm_prepare] away from clock rollover and quiescence. *)
Lemma int_stm_prepare_eq s :
  g_clock (st_g s) < VERSION_MAX ->
  g_quiesce (st_g s) <> 2 ->
  int_stm_prepare s = Ret tt (with_tx (prepared_tx (g_clock (st_g s))) s).
Proof.
  intros Hc Hq. unfold int_stm_prepare.
  erewrite bind_ret by reflexivity.
  erewrite bind_ret.
  2:{ cbn [prepare_start]. erewrite bind_ret by reflexivity.
      erewrite bind_ret by reflexivity.
      cbn [with_tx st_g].
      replace (VERSION_MAX <=? g_clock (st_g s)) with false
        by (symmetry; apply Z.leb_gt; exact Hc).
      reflexivity. }
  erewrite bind_ret by reflexivity.
  erewrite bind_ret.
  2:{ unfold stm_check_quiesce. erewrite bind_ret by reflexivity.
      erewrite bind_ret by reflexivity.
      cbn [with_tx st_g]. apply Z.eqb_neq in Hq. rewrite Hq. reflexivity. }
  reflexivity.
Qed.

(** With retry, [stm_rollback] jumps to the retry point with its reason
    and a prepared descriptor. *)
Lemma stm_rollback_retry_eq reason s :
  IS_ACTIVE (tx_status (st_tx s)) = true ->
  ws_bounded (st_tx s) ->
  no_retry (tx_attr (st_tx s)) = false ->
  Z.land reason (STM_ABORT_NO_RETRY P) <> STM_ABORT_NO_RETRY P ->
  (reason = STM_ABORT_EXTEND_WS P ->
   Z.land (ws_entries (tx_w_set (ws_realloc P (st_tx s)))) OWNED_MASK = 0) ->
  g_clock (st_g s) < VERSION_MAX ->
  g_quiesce (st_g s) <> 2 ->
  stm_rollback P reason s =
  LongJmp (Z.lor reason (STM_PATH_INSTRUMENTED P)) (retry_state P reason s).
Proof.
  intros Hact Hb Hno Hbit Heven Hclock Hq.
  unfold stm_rollback.
  rewrite (bind_ret _ _ s tt s) by (unfold assert; rewrite Hact; reflexivity).
  rewrite (bind_ret _ _ _ _ _ (stm_wbetl_rollback_eq s Hact Hb)).
  set (s1 := fold_left perform _ s).
  assert (Htx1 : st_tx s1 = st_tx s) by apply fold_perform_tx.
  pose proof (fold_perform_global (flat_map rollback_stores (write_set (st_tx s))) s)
    as (Hg1 & Hg2 & _). fold s1 in Hg1, Hg2.
  rewrite (bind_ret _ _ s1 tt (with_tx (set_status TX_ABORTED) s1)) by reflexivity.
  set (s2 := with_tx (set_status TX_ABORTED) s1).
  set (s3 := if reason =? STM_ABORT_EXTEND_WS P then with_tx (ws_realloc P) s2 else s2).
  assert (Hs3 : (if reason =? STM_ABORT_EXTEND_WS P
                 then stm_allocate_ws_entries P else ret tt) s2 = Ret tt s3).
  { unfold s3. destruct (Z.eqb_spec reason (STM_ABORT_EXTEND_WS P)) as [He|He]; [|reflexivity].
    unfold stm_allocate_ws_entries, bind, put_tx, modify, assert.
    specialize (Heven He).
    replace (ws_entries (tx_w_set (st_tx (with_tx (ws_realloc P) s2))))
      with (ws_entries (tx_w_set (ws_realloc P (st_tx s)))).
    - rewrite Heven. reflexivity.
    - unfold s2. cbn. rewrite Htx1. reflexivity. }
  rewrite (bind_ret _ _ _ _ _ Hs3).
  rewrite (bind_ret _ _ s3 tt (with_tx (set_nesting 1) s3)) by reflexivity.
  set (s4 := with_tx (set_nesting 1) s3).
  rewrite (bind_ret _ _ s4 (st_g s4) s4) by reflexivity.
  rewrite (bind_ret _ _ _ _ _ (run_callbacks_eq _ s4)).
  set (s5 := callbacks_called (g_abort_cb (st_g s4)) s4).
  rewrite (bind_ret _ _ s5 (st_tx s5) s5) by reflexivity.
  assert (Hattr : tx_attr (st_tx s5) = tx_attr (st_tx s)).
  { unfold s5. rewrite (proj1 (callbacks_called_frame _ s4)).
    unfold s4, s3. destruct (reason =? STM_ABORT_EXTEND_WS P); cbn; rewrite Htx1; reflexivity. }
  assert (Hg5 : st_g s5 = st_g s1).
  { unfold s5. rewrite (proj1 (proj2 (callbacks_called_frame _ s4))).
    unfold s4, s3. destruct (reason =? STM_ABORT_EXTEND_WS P); reflexivity. }
  rewrite Hattr, Hno. apply Z.eqb_neq in Hbit. rewrite Hbit. cbn [orb].
  rewrite (bind_ret _ _ _ _ _ (int_stm_prepare_eq s5
             ltac:(rewrite Hg5, Hg1; exact Hclock) ltac:(rewrite Hg5, Hg2; exact Hq))).
  reflexivity.
Qed.

(** The state a retry starts in satisfies the invariant of the write
    set again. *)
Lemma retry_state_wf reason s :
  ws_wf P s ->
  reason <> STM_ABORT_EXTEND_WS P ->
  ws_wf P (retry_state P reason s) /\ versions_captured (retry_state P reason s).
Proof.
  intros W Hr. apply Z.eqb_neq in Hr.
  assert (Htx : st_tx (retry_state P reason s) =
                prepared_tx (g_clock (st_g s)) (set_nesting 1 (set_status TX_ABORTED (st_tx s)))).
  { unfold retry_state. rewrite Hr. cbn [with_tx st_tx st_g].
    rewrite !(proj1 (callbacks_called_frame _ _)).
    rewrite !(proj1 (proj2 (callbacks_called_frame _ _))).
    cbn [with_tx st_tx st_g].
    rewrite fold_perform_tx.
    rewrite (proj1 (fold_perform_global _ s)). reflexivity. }
  assert (Hg : st_g (retry_state P reason s) =
               st_g (fold_left perform (flat_map rollback_stores (write_set (st_tx s))) s)).
  { unfold retry_state. rewrite Hr. cbn [with_tx st_tx st_g].
    rewrite !(proj1 (proj2 (callbacks_called_frame _ _))). reflexivity. }
  destruct (rollback_locks P s W) as [Hown Hother].
  apply wf_empty; rewrite ?Htx, ?Hg; cbn [prepared_tx set_status set_start set_end set_r_set
    set_w_set set_nesting tx_w_set ws_nb_entries ws_slots ws_size ws_entries].
  - reflexivity.
  - apply (wf_length P s W).
  - apply (wf_base_pos P s W).
  - apply (wf_base_even P s W).
  - apply (wf_base_top P s W).
  - intros l Ho Hrange.
    assert (Hdec : owned_by_tx P s l \/ ~ owned_by_tx P s l).
    { unfold owned_by_tx.
      destruct (Z.eq_dec (LOCK_GET_OWNED (g_locks (st_g s) l)) 0) as [H0|H0];
        [right; intros [Hc _]; contradiction|].
      destruct (ws_contains P (tx_w_set (st_tx s)) (LOCK_GET_ADDR (g_locks (st_g s) l)));
        [left; split; auto | right; intros [_ Hc]; discriminate]. }
    destruct Hdec as [Hmine|Hnot].
    + destruct (Hown l Hmine) as (et & _ & _ & Hl).
      rewrite Hl, LockFacts.set_timestamp_free in Ho. contradiction.
    + rewrite (Hother l Hnot) in Ho, Hrange. apply Hnot.
      destruct (wf_owner P s W l Ho Hrange) as (h & eh & Hh & Hw & Heh & Hlk).
      split; [exact Ho|]. rewrite Hw.
      rewrite get_addr_w_ptr.
      * rewrite ws_contains_ptr. apply Nat.ltb_lt. exact Hh.
      * apply (wf_base_pos P s W).
      * apply (wf_base_even P s W).
      * pose proof (wf_base_top P s W). pose proof (wf_nb P s W).
        assert (w_ptr P (tx_w_set (st_tx s)) h <
                w_ptr P (tx_w_set (st_tx s)) (ws_size (tx_w_set (st_tx s))))
          by (apply w_ptr_lt; lia).
        lia.
Qed.

End Retry.

(** ** The commit façade after a failed validation *)

Section CommitFacade.

Variable P : platform.

(** [int_stm_commit] does not look at the result of [stm_wbetl_commit]:
    when the transaction is not to be retried and validation fails, the
    rollback returns, and the façade goes on to set the status to
    [TX_COMMITTED] and to return 1, with the memory untouched. *)
Lemma int_stm_commit_after_failed_validation s0 :
  tx_nesting (st_tx s0) = 1 ->
  IS_ACTIVE (tx_status (st_tx s0)) = true ->
  ws_nb_entries (tx_w_set (st_tx s0)) <> 0%nat ->
  tx_irrevocable (st_tx s0) = 0 ->
  g_irrevocable (st_g s0) = 0 ->
  rs_bounded (st_tx s0) ->
  ws_bounded (st_tx s0) ->
  no_retry (tx_attr (st_tx s0)) = true ->
  STM_ABORT_VALIDATE P <> STM_ABORT_EXTEND_WS P ->
  tx_start (st_tx s0) <> g_clock (st_g s0) ->
  Word.in_range (g_clock (st_g s0)) ->
  ~ read_set_valid P (commit_entry s0) ->
  exists s',
    int_stm_commit P s0 = Ret 1 s' /\
    tx_status (st_tx s') = TX_COMMITTED /\
    int_stm_aborted (st_tx s') = false /\
    st_mem s' = st_mem s0.
Proof.
  intros Hn Hact Hnb Hirr Hgirr Hb Hwb Hno Hne Hstart Hcr Hinv.
  destruct (commit_entry_frame s0) as (Hg & Hmem & Htx).
  set (s := commit_entry s0) in *.
  set (c := g_clock (st_g s)).
  set (t := Word.add c 1).
  set (s1 := record (EvClockInc c) (with_g (set_clock t) s)).
  assert (Hc : c = g_clock (st_g s0)) by (unfold c; rewrite Hg; reflexivity).
  assert (Hsub : Word.sub t 1 = c).
  { unfold t, Word.sub, Word.add, Word.wrap.
    rewrite Zminus_mod_idemp_l. replace (c + 1 - 1) with c by lia.
    apply Z.mod_small. rewrite Hc. exact Hcr. }
  destruct (stm_wbetl_commit_cases P s) as (_ & _ & Hfail).
  { rewrite Htx. exact Hirr. }
  { rewrite Hg. exact Hgirr. }
  { unfold rs_bounded. rewrite Htx. exact Hb. }
  destruct Hfail as (Heq & _ & _).
  { fold c t. rewrite Hsub, Htx, Hc. exact Hstart. }
  { exact Hinv. }
  fold c t s1 in Heq.
  assert (Hroll : stm_rollback P (STM_ABORT_VALIDATE P) s1 =
                  Ret tt (rolled_back P (STM_ABORT_VALIDATE P) s1)).
  { apply stm_rollback_no_retry_eq.
    - change (st_tx s1) with (st_tx s). rewrite Htx. exact Hact.
    - change (st_tx s1) with (st_tx s). unfold ws_bounded. rewrite Htx. exact Hwb.
    - left. change (st_tx s1) with (st_tx s). rewrite Htx. exact Hno.
    - intros Heq'. contradiction. }
  rewrite (int_stm_commit_top_level P s0 Hn Hact Hnb). fold s.
  erewrite bind_ret.
  2:{ erewrite bind_ret; [reflexivity|].
      rewrite Heq. erewrite bind_ret by exact Hroll. reflexivity. }
  erewrite bind_ret by reflexivity.
  erewrite bind_ret by reflexivity.
  erewrite bind_ret by apply run_callbacks_eq.
  eexists. split; [reflexivity|].
  set (s4 := with_tx (set_status TX_COMMITTED) (rolled_back P (STM_ABORT_VALIDATE P) s1)).
  destruct (callbacks_called_frame (g_commit_cb (st_g s4)) s4) as (H1 & _ & H3).
  rewrite H1, H3. split; [reflexivity|]. split; [reflexivity|].
  unfold s4. cbn [with_tx st_mem].
  unfold rolled_back. cbn [with_tx st_mem].
  rewrite (proj2 (proj2 (callbacks_called_frame _ _))).
  apply Z.eqb_neq in Hne. rewrite Hne. cbn [with_tx st_mem].
  rewrite fold_perform_mem_kept by apply rollback_stores_no_mem.
  exact Hmem.
Qed.

End CommitFacade.

(** * Further properties of the code *)

(** ** What loads and stores never do *)

Section FrameOps.

Variable P : platform.
Variable R : state -> option Z -> state -> Prop.

Hypothesis R_refl : forall s, R s None s.
Hypothesis R_trans : forall s1 s2 j s3, R s1 None s2 -> R s2 j s3 -> R s1 j s3.
Hypothesis R_tx : forall s f, R s None (with_tx f s).
Hypothesis R_rollback : forall reason, keeps R (stm_rollback P reason).

Lemma keeps_w_deref w : keeps R (w_deref P w).
Proof.
  intros s. unfold w_deref. destruct (w_lookup P (tx_w_set (st_tx s)) w); apply R_refl.
Qed.

Lemma keeps_w_assign w f : keeps R (w_assign P w f).
Proof.
  intros s. unfold w_assign.
  destruct (w_index P (tx_w_set (st_tx s)) w) as [i|]; [|apply R_refl].
  destruct (ws_slots (tx_w_set (st_tx s)) !! i); [apply R_tx | apply R_refl].
Qed.

Lemma keeps_read_walk fuel : forall addr w, keeps R (read_walk P fuel addr w).
Proof.
  induction fuel as [|fuel IH]; intros addr w; cbn [read_walk].
  - apply keeps_diverge. exact R_refl.
  - apply keeps_bind; [exact R_trans | apply keeps_w_deref |]. intros e.
    repeat apply keeps_if; try apply keeps_gets; try apply keeps_ret;
      try exact R_refl. apply IH.
Qed.

Lemma keeps_validate_loop i : forall r, keeps R (validate_loop P i r).
Proof.
  induction i as [|i IH]; intros r; cbn [validate_loop].
  - apply keeps_ret. exact R_refl.
  - apply keeps_bind; [exact R_trans | apply keeps_gets; exact R_refl |]. intros tx.
    destruct (rs_slots (tx_r_set tx) !! r); [|apply keeps_fault; exact R_refl].
    apply keeps_bind; [exact R_trans | apply keeps_gets; exact R_refl |]. intros l.
    repeat apply keeps_if; try apply keeps_ret; try exact R_refl; apply IH.
Qed.

Lemma keeps_stm_wbetl_extend : keeps R (stm_wbetl_extend P).
Proof.
  unfold stm_wbetl_extend, stm_wbetl_validate.
  apply keeps_bind; [exact R_trans | apply keeps_gets; exact R_refl |]. intros now.
  apply keeps_bind; [exact R_trans | |].
  - apply keeps_bind; [exact R_trans | apply keeps_gets; exact R_refl |]. intros tx.
    apply keeps_validate_loop.
  - intros ok. apply keeps_if; [|apply keeps_ret; exact R_refl].
    apply keeps_bind; [exact R_trans | apply keeps_put_tx; exact R_tx |].
    intros _. apply keeps_ret. exact R_refl.
Qed.

Lemma keeps_read_add_to_read_set lock version value :
  keeps R (read_add_to_read_set lock version value).
Proof.
  unfold read_add_to_read_set.
  apply keeps_bind; [exact R_trans | apply keeps_gets; exact R_refl |]. intros tx.
  apply keeps_bind; [exact R_trans | | intros _; apply keeps_ret; exact R_refl].
  apply keeps_if; [|apply keeps_ret; exact R_refl].
  apply keeps_bind; [exact R_trans | |].
  - apply keeps_if; [|apply keeps_ret; exact R_refl].
    unfold stm_allocate_rs_entries. apply keeps_put_tx. exact R_tx.
  - intros _ s. destruct (_ <? _)%nat; [apply R_tx | apply R_refl].
Qed.

Lemma keeps_read_restart_no_load fuel : forall addr l,
  keeps R (read_restart_no_load P fuel addr l).
Proof.
  induction fuel as [|fuel IH]; intros addr l; cbn [read_restart_no_load].
  - apply keeps_diverge. exact R_refl.
  - apply keeps_bind; [exact R_trans | apply keeps_gets; exact R_refl |]. intros tx.
    apply keeps_if.
    + apply keeps_if; [apply keeps_read_walk|].
      apply keeps_if.
      * apply keeps_bind; [exact R_trans | apply keeps_gets; exact R_refl |].
        intros l'. apply IH.
      * apply keeps_bind; [exact R_trans | apply R_rollback |].
        intros _. apply keeps_ret. exact R_refl.
    + apply keeps_bind; [exact R_trans | apply keeps_gets; exact R_refl |]. intros value.
      apply keeps_bind; [exact R_trans | apply keeps_gets; exact R_refl |]. intros l2.
      apply keeps_if; [apply IH|].
      apply keeps_if; [apply keeps_ret; exact R_refl|].
      apply keeps_if; [|apply keeps_read_add_to_read_set].
      apply keeps_if.
      * apply keeps_bind; [exact R_trans | apply R_rollback |].
        intros _. apply keeps_ret. exact R_refl.
      * apply keeps_bind; [exact R_trans | apply keeps_stm_wbetl_extend |]. intros ok.
        apply keeps_if.
        -- apply keeps_bind; [exact R_trans | apply R_rollback |].
           intros _. apply keeps_ret. exact R_refl.
        -- apply keeps_bind; [exact R_trans | apply keeps_gets; exact R_refl |].
           intros l3. apply keeps_if; [apply IH | apply keeps_read_add_to_read_set].
Qed.

Lemma keeps_int_stm_load fuel addr : keeps R (int_stm_load P fuel addr).
Proof.
  unfold int_stm_load, stm_wbetl_read, stm_wbetl_read_invisible.
  apply keeps_bind; [exact R_trans | apply keeps_assert; exact R_refl |]. intros _.
  apply keeps_bind; [exact R_trans | apply keeps_gets; exact R_refl |]. intros l.
  apply keeps_read_restart_no_load.
Qed.

End FrameOps.

Section FrameStore.

Variable P : platform.
Variable R : state -> option Z -> state -> Prop.

Hypothesis R_refl : forall s, R s None s.
Hypothesis R_trans : forall s1 s2 j s3, R s1 None s2 -> R s2 j s3 -> R s1 j s3.
Hypothesis R_tx : forall s f, R s None (with_tx f s).
Hypothesis R_rollback : forall reason, keeps R (stm_rollback P reason).
Hypothesis R_cas : forall s l old new,
  R s None (record (EvLockCAS l old new)
              (with_g (fun g => set_locks (upd (g_locks g) l new) g) s)).

Lemma keeps_cas_lock lock old new : keeps R (cas_lock lock old new).
Proof.
  intros s. unfold cas_lock. destruct (_ =? _); [apply R_cas | apply R_refl].
Qed.

Lemma keeps_write_walk fuel : forall addr prev, keeps R (write_walk P fuel addr prev).
Proof.
  induction fuel as [|fuel IH]; intros addr prev; cbn [write_walk].
  - apply keeps_diverge. exact R_refl.
  - apply keeps_bind; [exact R_trans | apply keeps_w_deref; assumption |]. intros e.
    repeat apply keeps_if; try apply keeps_ret; try exact R_refl. apply IH.
Qed.

Lemma keeps_write_merge prev addr value mask :
  keeps R (write_merge P prev addr value mask).
Proof.
  unfold write_merge.
  apply keeps_bind; [exact R_trans | |].
  - apply keeps_if; [|apply keeps_ret; exact R_refl].
    apply keeps_bind; [exact R_trans | apply keeps_w_deref; assumption |]. intros e.
    apply keeps_bind; [exact R_trans | |].
    + apply keeps_if; [|apply keeps_ret; exact R_refl].
      apply keeps_bind; [exact R_trans | apply keeps_gets; exact R_refl |].
      intros m. apply keeps_w_assign; assumption.
    + intros _.
      apply keeps_bind; [exact R_trans | apply keeps_w_deref; assumption |].
      intros e'. apply keeps_ret. exact R_refl.
  - intros value'.
    apply keeps_bind; [exact R_trans | apply keeps_w_assign; assumption |]. intros _.
    apply keeps_bind; [exact R_trans | apply keeps_w_assign; assumption |]. intros _.
    apply keeps_ret. exact R_refl.
Qed.

Lemma keeps_do_write prev addr value mask version lock :
  keeps R (do_write P prev addr value mask version lock).
Proof.
  unfold do_write.
  apply keeps_bind; [exact R_trans | apply keeps_gets; exact R_refl |]. intros tx.
  apply keeps_bind; [exact R_trans | |].
  - apply keeps_if; [apply keeps_ret; exact R_refl|].
    apply keeps_if; [|apply keeps_ret; exact R_refl].
    apply keeps_bind; [exact R_trans | apply keeps_gets; exact R_refl |].
    intros m. apply keeps_ret. exact R_refl.
  - intros value'.
    apply keeps_bind; [exact R_trans | |].
    + intros s. destruct (_ <? _)%nat; [apply R_tx | apply R_refl].
    + intros _.
      apply keeps_bind; [exact R_trans | |].
      * apply keeps_if; [apply keeps_w_assign; assumption | apply keeps_ret; exact R_refl].
      * intros _.
        apply keeps_bind; [exact R_trans | apply keeps_put_tx; exact R_tx |].
        intros _. apply keeps_ret. exact R_refl.
Qed.

Lemma keeps_write_check_full : keeps R (write_check_full P).
Proof.
  unfold write_check_full.
  apply keeps_bind; [exact R_trans | apply keeps_gets; exact R_refl |]. intros tx.
  apply keeps_if; [apply R_rollback | apply keeps_ret; exact R_refl].
Qed.

Lemma keeps_has_read_loop lock i : forall r, keeps R (has_read_loop i r lock).
Proof.
  induction i as [|i IH]; intros r; cbn [has_read_loop].
  - apply keeps_ret. exact R_refl.
  - apply keeps_bind; [exact R_trans | apply keeps_gets; exact R_refl |]. intros tx.
    destruct (rs_slots (tx_r_set tx) !! r); [|apply keeps_fault; exact R_refl].
    apply keeps_if; [apply keeps_ret; exact R_refl | apply IH].
Qed.

Lemma keeps_stm_wbetl_write fuel : forall addr value mask,
  keeps R (stm_wbetl_write P fuel addr value mask).
Proof.
  induction fuel as [|fuel IH]; intros addr value mask; cbn [stm_wbetl_write].
  - apply keeps_diverge. exact R_refl.
  - apply keeps_bind; [exact R_trans | apply keeps_gets; exact R_refl |]. intros l.
    apply keeps_bind; [exact R_trans | apply keeps_gets; exact R_refl |]. intros tx.
    assert (Hacq : keeps R
      (write_check_full P ;;;
       tx' <- get_tx ;;
       ok <- cas_lock (GET_LOCK addr) l
               (LOCK_SET_ADDR_WRITE (w_ptr P (tx_w_set tx') (ws_nb_entries (tx_w_set tx')))) ;;
       if ok =? 0 then stm_wbetl_write P fuel addr value mask
       else do_write P 0 addr value mask (LOCK_GET_TIMESTAMP l) (GET_LOCK addr))).
    { apply keeps_bind; [exact R_trans | apply keeps_write_check_full |]. intros _.
      apply keeps_bind; [exact R_trans | apply keeps_gets; exact R_refl |]. intros tx'.
      apply keeps_bind; [exact R_trans | apply keeps_cas_lock |]. intros ok.
      apply keeps_if; [apply IH | apply keeps_do_write]. }
    apply keeps_if.
    + apply keeps_if.
      * apply keeps_if; [apply keeps_ret; exact R_refl|].
        apply keeps_bind; [exact R_trans | apply keeps_write_walk |]. intros [prev|prev].
        -- apply keeps_write_merge.
        -- apply keeps_bind; [exact R_trans | apply keeps_w_deref; assumption |]. intros e.
           apply keeps_bind; [exact R_trans | apply keeps_write_check_full |]. intros _.
           apply keeps_do_write.
      * apply keeps_if; [apply IH|].
        apply keeps_bind; [exact R_trans | apply R_rollback |].
        intros _. apply keeps_ret. exact R_refl.
    + apply keeps_if; [exact Hacq|].
      apply keeps_if; [|exact Hacq].
      apply keeps_bind; [exact R_trans | |].
      * unfold stm_has_read.
        apply keeps_bind; [exact R_trans | apply keeps_gets; exact R_refl |].
        intros tx'. apply keeps_has_read_loop.
      * intros [i|]; [|exact Hacq].
        apply keeps_bind; [exact R_trans | apply R_rollback |].
        intros _. apply keeps_ret. exact R_refl.
Qed.

End FrameStore.

Section FrameInstances.

Variable P : platform.

Lemma quiet_refl s : mem_kept s s /\ no_acquire s s.
Proof. split; [apply mem_kept_refl | apply no_acquire_refl]. Qed.

Lemma quiet_trans s1 s2 s3 :
  mem_kept s1 s2 /\ no_acquire s1 s2 ->
  mem_kept s2 s3 /\ no_acquire s2 s3 ->
  mem_kept s1 s3 /\ no_acquire s1 s3.
Proof.
  intros [M1 A1] [M2 A2].
  split; [eapply mem_kept_trans | eapply no_acquire_trans]; eassumption.
Qed.

Lemma quiet_rollback reason s :
  mem_kept s (final (stm_rollback P reason s)) /\
  no_acquire s (final (stm_rollback P reason s)).
Proof.
  destruct (stm_rollback_frame P reason s) as (Hm & Ha & _). split; assumption.
Qed.

Lemma cas_mem_kept s l old new :
  mem_kept s (record (EvLockCAS l old new)
                (with_g (fun g => set_locks (upd (g_locks g) l new) g) s)).
Proof.
  split; [reflexivity | eapply history_since_record; reflexivity].
Qed.

End FrameInstances.

(** X1.  A transactional load is invisible, whatever its outcome (a
    value, a rollback that returns or jumps to the retry point, a wait, a
    failed assertion): it performs no store to application memory, no
    compare-and-swap on a lock succeeds, and every lock that is owned
    afterwards holds the word it held before. *)
Theorem load_is_invisible (P : platform) (fuel : nat) (addr : Z) (s : state) :
  mem_kept s (final (int_stm_load P fuel addr s)) /\
  no_acquire s (final (int_stm_load P fuel addr s)).
Proof.
  apply (keeps_int_stm_load P (fun s0 _ s1 => mem_kept s0 s1 /\ no_acquire s0 s1)).
  - apply quiet_refl.
  - intros s1 s2 _ s3. apply quiet_trans.
  - intros s0 f. apply silent_step; reflexivity.
  - intros reason s0. apply quiet_rollback.
Qed.

(** X2.  A transactional store is buffered, whatever its outcome: neither
    [stm_write] nor [int_stm_store] nor [int_stm_store2] changes a word of
    application memory or performs a store to it; the value reaches
    memory only in the commit. *)
Theorem store_is_buffered (P : platform) (fuel : nat) (addr value mask : Z) (s : state) :
  mem_kept s (final (stm_write P fuel addr value mask s)) /\
  mem_kept s (final (int_stm_store P fuel addr value s)) /\
  mem_kept s (final (int_stm_store2 P fuel addr value mask s)).
Proof.
  assert (Hw : forall v m, keeps (fun s0 (_ : option Z) s1 => mem_kept s0 s1)
                             (stm_write P fuel addr v m)).
  { intros v m. unfold stm_write.
    apply keeps_bind; [intros s1 s2 _ s3; apply mem_kept_trans | |].
    - apply keeps_assert. apply mem_kept_refl.
    - intros _. apply keeps_stm_wbetl_write.
      + apply mem_kept_refl.
      + intros s1 s2 _ s3. apply mem_kept_trans.
      + intros s0 f. apply (silent_step s0 (with_tx f s0)); reflexivity.
      + intros reason s0. apply (quiet_rollback P reason s0).
      + intros s0 l old new. apply cas_mem_kept. }
  split; [apply Hw|].
  unfold int_stm_store, int_stm_store2.
  split.
  - destruct (final_bind_ret (stm_write P fuel addr value Word.ones) tt s) as [-> _].
    apply Hw.
  - destruct (final_bind_ret (stm_write P fuel addr value mask) tt s) as [-> _].
    apply Hw.
Qed.

(** ** Loads *)

Section Loads.

Variable P : platform.

Lemma rs_wf_bounded tx : rs_wf tx -> rs_bounded tx.
Proof. intros (Hl & Hn & _). unfold rs_bounded. lia. Qed.

Lemma rs_grown_room tx :
  rs_wf tx ->
  (rs_nb_entries (tx_r_set (rs_grown tx)) < length (rs_slots (tx_r_set (rs_grown tx))))%nat /\
  rs_nb_entries (tx_r_set (rs_grown tx)) = rs_nb_entries (tx_r_set tx) /\
  length (rs_slots (tx_r_set (rs_grown tx))) = rs_size (tx_r_set (rs_grown tx)) /\
  take (rs_nb_entries (tx_r_set tx)) (rs_slots (tx_r_set (rs_grown tx))) = read_set tx /\
  rs_size (tx_r_set (rs_grown tx)) =
    (if (rs_nb_entries (tx_r_set tx) =? rs_size (tx_r_set tx))%nat
     then rs_size (tx_r_set tx) * 2 else rs_size (tx_r_set tx))%nat.
Proof.
  intros (Hl & Hn & Hp). unfold rs_grown, read_set.
  destruct (Nat.eqb_spec (rs_nb_entries (tx_r_set tx)) (rs_size (tx_r_set tx))) as [He|Hne].
  - cbn. rewrite length_resize. repeat split; try lia.
    rewrite He, <- Hl. rewrite take_resize_le by lia.
    rewrite resize_all. symmetry. apply take_ge. lia.
  - repeat split; lia.
Qed.

Lemma read_add_to_read_set_eq lock version value s :
  read_only (tx_attr (st_tx s)) = false ->
  rs_wf (st_tx s) ->
  read_add_to_read_set lock version value s = Ret value (read_added lock version s).
Proof.
  intros Hro W. destruct (rs_grown_room _ W) as (Hroom & _).
  unfold read_add_to_read_set.
  rewrite (bind_ret _ _ s (st_tx s) s) by reflexivity.
  rewrite Hro. cbn [negb].
  unfold read_added.
  assert (Hg : (if (rs_nb_entries (tx_r_set (st_tx s)) =? rs_size (tx_r_set (st_tx s)))%nat
                then stm_allocate_rs_entries else ret tt) s = Ret tt (with_tx rs_grown s)).
  { unfold rs_grown, stm_allocate_rs_entries, put_tx, modify, ret, with_tx. cbv beta zeta.
    destruct (rs_nb_entries (tx_r_set (st_tx s)) =? rs_size (tx_r_set (st_tx s)))%nat;
      [reflexivity|]. destruct s; reflexivity. }
  unfold bind at 1. unfold bind at 1. rewrite Hg. cbv beta iota.
  apply Nat.ltb_lt in Hroom. cbn [st_tx with_tx] in Hroom |- *. rewrite Hroom.
  reflexivity.
Qed.

Lemma read_added_read_set lock version s :
  rs_wf (st_tx s) ->
  read_set (st_tx (read_added lock version s)) =
  read_set (st_tx s) ++ [ {| r_version := version; r_lock := lock |} ].
Proof.
  intros W. destruct (rs_grown_room _ W) as (Hroom & Hnb & _ & Htake & _).
  unfold read_added, read_set at 1. cbn [st_tx with_tx tx_r_set set_r_set rs_nb_entries rs_slots].
  rewrite Hnb.
  rewrite (take_S_r _ _ {| r_version := version; r_lock := lock |}).
  - rewrite take_insert_ge by lia. rewrite Htake. reflexivity.
  - apply list_lookup_insert_eq. lia.
Qed.

Lemma read_added_frame lock version s :
  let s' := read_added lock version s in
  st_g s' = st_g s /\ st_mem s' = st_mem s /\ st_hist s' = st_hist s /\
  tx_w_set (st_tx s') = tx_w_set (st_tx s) /\
  tx_start (st_tx s') = tx_start (st_tx s) /\
  tx_end (st_tx s') = tx_end (st_tx s) /\
  tx_status (st_tx s') = tx_status (st_tx s) /\
  tx_nesting (st_tx s') = tx_nesting (st_tx s) /\
  tx_attr (st_tx s') = tx_attr (st_tx s).
Proof.
  unfold read_added, rs_grown. cbn.
  destruct (_ =? _)%nat; cbn; repeat split; reflexivity.
Qed.

Lemma read_added_wf lock version s :
  rs_wf (st_tx s) -> rs_wf (st_tx (read_added lock version s)).
Proof.
  intros W. destruct (rs_grown_room _ W) as (Hroom & Hnb & Hlen & _ & _).
  unfold read_added. cbn [st_tx with_tx tx_r_set set_r_set rs_nb_entries rs_slots rs_size].
  unfold rs_wf. cbn [tx_r_set set_r_set rs_nb_entries rs_slots rs_size].
  rewrite length_insert. cbn [st_tx with_tx] in *. repeat split; lia.
Qed.

End Loads.

Section LoadCases.

Variable P : platform.

(** The load when the lock of the address is free. *)
Lemma read_free_eq fuel addr s :
  IS_ACTIVE (tx_status (st_tx s)) = true ->
  LOCK_GET_WRITE (g_locks (st_g s) (GET_LOCK addr)) = 0 ->
  tx_irrevocable (st_tx s) = 0 ->
  stm_wbetl_read_invisible P (S fuel) addr s =
  let lock := GET_LOCK addr in
  let l := g_locks (st_g s) lock in
  let version := LOCK_GET_TIMESTAMP l in
  if version >? tx_end (st_tx s) then
    if read_only (tx_attr (st_tx s)) then
      (stm_rollback P (STM_ABORT_VAL_READ P) ;;; ret 0) s
    else
      (ok <- stm_wbetl_extend P ;;
       if ok =? 0 then stm_rollback P (STM_ABORT_VAL_READ P) ;;; ret 0
       else
         l2 <- load_lock lock ;;
         if negb (l =? l2) then read_restart_no_load P fuel addr l2
         else read_add_to_read_set lock version (st_mem s addr)) s
  else read_add_to_read_set lock version (st_mem s addr) s.
Proof.
  intros Hact Hfree Hirr. unfold stm_wbetl_read_invisible.
  rewrite (bind_ret _ _ s tt s) by (unfold assert; rewrite Hact; reflexivity).
  rewrite (bind_ret _ _ s (g_locks (st_g s) (GET_LOCK addr)) s) by reflexivity.
  cbn [read_restart_no_load].
  rewrite (bind_ret _ _ s (st_tx s) s) by reflexivity.
  rewrite Hfree. cbn [Z.eqb negb].
  rewrite (bind_ret _ _ s (st_mem s addr) s) by reflexivity.
  rewrite (bind_ret _ _ s (g_locks (st_g s) (GET_LOCK addr)) s) by reflexivity.
  rewrite Z.eqb_refl, Hirr. cbn [Z.eqb negb]. cbv zeta.
  destruct (_ >? _); [|reflexivity].
  destruct (read_only _); reflexivity.
Qed.

(** The load when the lock is owned by another transaction. *)
Lemma read_foreign_eq fuel addr s :
  IS_ACTIVE (tx_status (st_tx s)) = true ->
  LOCK_GET_WRITE (g_locks (st_g s) (GET_LOCK addr)) <> 0 ->
  ws_contains P (tx_w_set (st_tx s)) (LOCK_GET_ADDR (g_locks (st_g s) (GET_LOCK addr))) = false ->
  tx_irrevocable (st_tx s) = 0 ->
  stm_wbetl_read_invisible P (S fuel) addr s =
  (stm_rollback P (STM_ABORT_RW_CONFLICT P) ;;; ret 0) s.
Proof.
  intros Hact Ho Hc Hirr. unfold stm_wbetl_read_invisible.
  rewrite (bind_ret _ _ s tt s) by (unfold assert; rewrite Hact; reflexivity).
  rewrite (bind_ret _ _ s (g_locks (st_g s) (GET_LOCK addr)) s) by reflexivity.
  cbn [read_restart_no_load].
  rewrite (bind_ret _ _ s (st_tx s) s) by reflexivity.
  apply Z.eqb_neq in Ho. rewrite Ho, Hc, Hirr. reflexivity.
Qed.

End LoadCases.

(** X3.  A load of an address whose lock is free at a version within the
    snapshot returns the word in memory.  In a read-only transaction it
    leaves the state as it is.  In an update transaction it appends
    exactly one entry, the lock with that version, to the read set,
    doubling the array first when it is full, and changes nothing else:
    locks, clock, memory, write set, snapshot bounds and history are as
    before. *)
Theorem load_within_snapshot (P : platform) (fuel : nat) (addr : Z) (s : state) :
  let lock := GET_LOCK addr in
  let l := g_locks (st_g s) lock in
  let rs := tx_r_set (st_tx s) in
  IS_ACTIVE (tx_status (st_tx s)) = true ->
  LOCK_GET_WRITE l = 0 ->
  tx_irrevocable (st_tx s) = 0 ->
  LOCK_GET_TIMESTAMP l <= tx_end (st_tx s) ->
  rs_wf (st_tx s) ->
  exists s',
    int_stm_load P (S fuel) addr s = Ret (st_mem s addr) s' /\
    (read_only (tx_attr (st_tx s)) = true -> s' = s) /\
    (read_only (tx_attr (st_tx s)) = false ->
       read_set (st_tx s') =
         read_set (st_tx s) ++ [ {| r_version := LOCK_GET_TIMESTAMP l; r_lock := lock |} ] /\
       rs_size (tx_r_set (st_tx s')) =
         (if (rs_nb_entries rs =? rs_size rs)%nat then rs_size rs * 2 else rs_size rs)%nat /\
       rs_wf (st_tx s') /\
       st_g s' = st_g s /\ st_mem s' = st_mem s /\ st_hist s' = st_hist s /\
       tx_w_set (st_tx s') = tx_w_set (st_tx s) /\
       tx_start (st_tx s') = tx_start (st_tx s) /\
       tx_end (st_tx s') = tx_end (st_tx s) /\
       tx_status (st_tx s') = tx_status (st_tx s) /\
       tx_nesting (st_tx s') = tx_nesting (st_tx s)).
Proof.
  intros lock l rs Hact Hfree Hirr Hver W.
  unfold int_stm_load, stm_wbetl_read.
  rewrite (read_free_eq P fuel addr s Hact Hfree Hirr). cbv zeta.
  fold lock. fold l.
  replace (LOCK_GET_TIMESTAMP l >? tx_end (st_tx s)) with false
    by (symmetry; rewrite Z.gtb_ltb; apply Z.ltb_ge; exact Hver).
  destruct (read_only (tx_attr (st_tx s))) eqn:Hro.
  - exists s. split; [|split; [reflexivity | discriminate]].
    unfold read_add_to_read_set.
    rewrite (bind_ret _ _ s (st_tx s) s) by reflexivity.
    rewrite Hro. reflexivity.
  - exists (read_added lock (LOCK_GET_TIMESTAMP l) s).
    split; [apply read_add_to_read_set_eq; assumption|].
    split; [discriminate|]. intros _.
    split; [apply read_added_read_set; exact W|].
    split.
    { destruct (rs_grown_room _ W) as (_ & _ & _ & _ & Hsz). exact Hsz. }
    split; [apply read_added_wf; exact W|].
    destruct (read_added_frame lock (LOCK_GET_TIMESTAMP l) s)
      as (Hg & Hm & Hh & Hws & Hst & Hen & Hstat & Hnest & _).
    repeat split; assumption.
Qed.

Lemma load_within_snapshot_witness :
  exists s',
    int_stm_load sample_platform 1 96 (sample_loaded true 6 sample_reads) = Ret 77 s' /\
    read_set (st_tx s') = sample_reads ++ [ {| r_version := 5; r_lock := 3 |} ].
Proof.
  destruct (load_within_snapshot sample_platform 0 96 (sample_loaded true 6 sample_reads))
    as (s' & Hload & _ & Hupd).
  - reflexivity.
  - reflexivity.
  - reflexivity.
  - vm_compute. discriminate.
  - repeat split; cbn; lia.
  - exists s'. split; [exact Hload|].
    destruct (Hupd eq_refl) as (Hrs & _). exact Hrs.
Defined.

(** ** When a rollback returns *)

Ltac bind_inv H E :=
  unfold bind at 1 in H;
  match type of H with
  | match ?o with _ => _ end = _ => destruct o eqn:E; try discriminate H
  end;
  cbv beta in H.

Section RollbackReturns.

Variable P : platform.

Lemma stm_wbetl_rollback_tx s : st_tx (final (stm_wbetl_rollback s)) = st_tx s.
Proof.
  apply (keeps_stm_wbetl_rollback (fun s0 (_ : option Z) s1 => st_tx s1 = st_tx s0)).
  - reflexivity.
  - intros s1 s2 _ s3 H1 H2. congruence.
  - reflexivity.
Qed.

Lemma stm_rollback_ret reason s v s' :
  stm_rollback P reason s = Ret v s' ->
  tx_status (st_tx s') = TX_ABORTED /\
  tx_nesting (st_tx s') = 0 /\
  tx_attr (st_tx s') = tx_attr (st_tx s) /\
  (no_retry (tx_attr (st_tx s)) = true
   \/ Z.land reason (STM_ABORT_NO_RETRY P) = STM_ABORT_NO_RETRY P).
Proof.
  unfold stm_rollback. intros H.
  bind_inv H Ea.
  assert (s0 = s) as ->.
  { unfold assert in Ea. destruct (IS_ACTIVE _); inversion Ea; reflexivity. }
  bind_inv H Er.
  pose proof (stm_wbetl_rollback_tx s) as Htx1. rewrite Er in Htx1. cbn [final] in Htx1.
  rename s0 into s1.
  rewrite (bind_ret _ _ s1 tt (with_tx (set_status TX_ABORTED) s1)) in H by reflexivity.
  set (s2 := with_tx (set_status TX_ABORTED) s1) in H.
  bind_inv H Eal.
  assert (Hs3 : tx_status (st_tx s0) = TX_ABORTED /\ tx_attr (st_tx s0) = tx_attr (st_tx s)).
  { destruct (reason =? STM_ABORT_EXTEND_WS P).
    - unfold stm_allocate_ws_entries, bind, put_tx, modify, assert in Eal.
      destruct (_ =? 0) in Eal; inversion Eal; subst s0.
      cbn. rewrite Htx1. split; reflexivity.
    - inversion Eal; subst s0. cbn. rewrite Htx1. split; reflexivity. }
  rename s0 into s3.
  rewrite (bind_ret _ _ s3 tt (with_tx (set_nesting 1) s3)) in H by reflexivity.
  set (s4 := with_tx (set_nesting 1) s3) in H.
  rewrite (bind_ret _ _ s4 (st_g s4) s4) in H by reflexivity.
  rewrite (bind_ret _ _ _ _ _ (run_callbacks_eq _ s4)) in H.
  set (s5 := callbacks_called (g_abort_cb (st_g s4)) s4) in H.
  rewrite (bind_ret _ _ s5 (st_tx s5) s5) in H by reflexivity.
  assert (Htx5 : st_tx s5 = set_nesting 1 (st_tx s3)).
  { unfold s5. rewrite (proj1 (callbacks_called_frame _ s4)). reflexivity. }
  destruct Hs3 as [Hstat Hattr].
  assert (Hattr5 : tx_attr (st_tx s5) = tx_attr (st_tx s)).
  { rewrite Htx5. exact Hattr. }
  rewrite Hattr5 in H.
  destruct (no_retry (tx_attr (st_tx s))
            || (Z.land reason (STM_ABORT_NO_RETRY P) =? STM_ABORT_NO_RETRY P)) eqn:Hno.
  - inversion H; subst s'. cbn [st_tx with_tx].
    rewrite Htx5. cbn. repeat split; try assumption.
    apply orb_true_iff in Hno. destruct Hno as [Hno|Hno]; [left; exact Hno|].
    right. apply Z.eqb_eq. exact Hno.
  - bind_inv H Ep.
Qed.

End RollbackReturns.

(** X4.  [stm_rollback] returns to its caller only when the transaction
    is not to be retried: if it returns, [attr.no_retry] is set or the
    reason carries [STM_ABORT_NO_RETRY], and the transaction is aborted
    ([TX_ABORTED], not active, [nesting] 0).  With retry enabled it never
    returns. *)
Theorem rollback_returns_only_without_retry
    (P : platform) (reason : Z) (s s' : state) :
  stm_rollback P reason s = Ret tt s' ->
  (no_retry (tx_attr (st_tx s)) = true
   \/ Z.land reason (STM_ABORT_NO_RETRY P) = STM_ABORT_NO_RETRY P) /\
  tx_status (st_tx s') = TX_ABORTED /\
  int_stm_aborted (st_tx s') = true /\
  int_stm_active (st_tx s') = false /\
  tx_nesting (st_tx s') = 0.
Proof.
  intros H. destruct (stm_rollback_ret P reason s tt s' H) as (Hst & Hn & _ & Hno).
  unfold int_stm_aborted, int_stm_active. rewrite Hst.
  repeat split; try assumption; reflexivity.
Qed.

Lemma rollback_returns_only_without_retry_witness :
  no_retry (tx_attr (st_tx (sample_active false))) = true /\
  tx_nesting (st_tx (rolled_back sample_platform 1856 (sample_active false))) = 0.
Proof.
  destruct (rollback_returns_only_without_retry sample_platform 1856
              (sample_active false)
              (rolled_back sample_platform 1856 (sample_active false)))
    as ([Hno|Hno] & _ & _ & _ & Hn).
  - reflexivity.
  - split; [exact Hno | exact Hn].
  - split; [reflexivity | exact Hn].
Defined.

Section Conflicts.

Variable P : platform.

(** What is known of an operation that is a rollback followed by
    [return 0]. *)
Lemma rollback_then_zero reason (m : M Z) s :
  m s = (stm_rollback P reason ;;; ret 0) s ->
  (forall v s', m s = Ret v s' -> v = 0 /\ int_stm_aborted (st_tx s') = true) /\
  (jump_of (m s) = None
   \/ jump_of (m s) = Some (Z.lor reason (STM_PATH_INSTRUMENTED P))).
Proof.
  intros ->. split.
  - intros v s' H. unfold bind in H.
    destruct (stm_rollback P reason s) as [[] s1| | | | |] eqn:Er; try discriminate H.
    inversion H; subst. split; [reflexivity|].
    destruct (stm_rollback_ret P reason s tt s' Er) as (Hst & _).
    unfold int_stm_aborted. rewrite Hst. reflexivity.
  - destruct (final_bind_ret (stm_rollback P reason) 0 s) as [_ ->].
    destruct (stm_rollback_frame P reason s) as (_ & _ & Hj). exact Hj.
Qed.

End Conflicts.

(** X5.  Conflicts are detected at encounter time and resolved by
    aborting the caller.  When the lock of the address is owned and its
    pointer does not lie in the write set of the transaction, a load is a
    rollback with reason [STM_ABORT_RW_CONFLICT] and a store one with
    [STM_ABORT_WW_CONFLICT], each followed by [return 0]: if the
    operation returns, it returns 0 (or [NULL]) with the transaction
    aborted, and if it jumps to the retry point, it jumps with its reason
    marked [STM_PATH_INSTRUMENTED]. *)
Theorem conflict_aborts
    (P : platform) (fuel : nat) (addr value mask : Z) (s : state) :
  let l := g_locks (st_g s) (GET_LOCK addr) in
  let ld := int_stm_load P (S fuel) addr s in
  let st := stm_write P (S fuel) addr value mask s in
  IS_ACTIVE (tx_status (st_tx s)) = true ->
  LOCK_GET_OWNED l <> 0 ->
  ws_contains P (tx_w_set (st_tx s)) (LOCK_GET_ADDR l) = false ->
  tx_irrevocable (st_tx s) = 0 ->
  ld = (stm_rollback P (STM_ABORT_RW_CONFLICT P) ;;; ret 0) s /\
  st = (stm_rollback P (STM_ABORT_WW_CONFLICT P) ;;; ret 0) s /\
  (forall v s', ld = Ret v s' -> v = 0 /\ int_stm_aborted (st_tx s') = true) /\
  (forall w s', st = Ret w s' -> w = 0 /\ int_stm_aborted (st_tx s') = true) /\
  (jump_of ld = None
   \/ jump_of ld = Some (Z.lor (STM_ABORT_RW_CONFLICT P) (STM_PATH_INSTRUMENTED P))) /\
  (jump_of st = None
   \/ jump_of st = Some (Z.lor (STM_ABORT_WW_CONFLICT P) (STM_PATH_INSTRUMENTED P))).
Proof.
  intros l ld st Hact Ho Hc Hirr.
  assert (Hld : ld = (stm_rollback P (STM_ABORT_RW_CONFLICT P) ;;; ret 0) s).
  { exact (read_foreign_eq P fuel addr s Hact Ho Hc Hirr). }
  assert (Hst : st = (stm_rollback P (STM_ABORT_WW_CONFLICT P) ;;; ret 0) s).
  { unfold st, stm_write.
    rewrite (bind_ret _ _ s tt s) by (unfold assert; rewrite Hact; reflexivity).
    apply write_foreign; assumption. }
  destruct (rollback_then_zero P _ (int_stm_load P (S fuel) addr) s Hld) as [L1 L2].
  destruct (rollback_then_zero P _ (stm_write P (S fuel) addr value mask) s Hst) as [S1 S2].
  split; [exact Hld|]. split; [exact Hst|]. split; [exact L1|]. split; [exact S1|].
  split; [exact L2 | exact S2].
Qed.

Lemma conflict_aborts_witness :
  int_stm_load sample_platform 1 160 (sample_foreign true) =
    LongJmp 577 (retry_state sample_platform 576 (sample_foreign true)) /\
  stm_write sample_platform 1 160 5 Word.ones (sample_foreign false) =
    Ret 0 (rolled_back sample_platform 1088 (sample_foreign false)).
Proof.
  destruct (conflict_aborts sample_platform 0 160 5 Word.ones (sample_foreign true))
    as (Hl & _); [reflexivity | vm_compute; discriminate | reflexivity | reflexivity |].
  destruct (conflict_aborts sample_platform 0 160 5 Word.ones (sample_foreign false))
    as (_ & Hs & _); [reflexivity | vm_compute; discriminate | reflexivity | reflexivity |].
  split.
  - rewrite Hl. reflexivity.
  - rewrite Hs. reflexivity.
Defined.

Section LoadOwn.

Variable P : platform.

(** The walk of the load over a bucket that has no entry for the
    address ends at the last entry and takes the word from memory. *)
Lemma read_walk_tail s addr i k :
  reaches P (tx_w_set (st_tx s)) addr i k ->
  forall fuel ek,
    (k - i < fuel)%nat ->
    ws_slots (tx_w_set (st_tx s)) !! k = Some ek ->
    w_addr ek <> addr -> w_next ek = 0 ->
    read_walk P fuel addr (w_ptr P (tx_w_set (st_tx s)) i) s = Ret (st_mem s addr) s.
Proof.
  induction 1 as [i|i j k e He Ha Hn0 Hn Hij Hr IH]; intros fuel ek Hf Hek Hak Hnk.
  - destruct fuel as [|fuel]; [lia|]. cbn [read_walk].
    rewrite (bind_ret _ _ _ _ _ (w_deref_ptr P s i ek Hek)).
    replace (addr =? w_addr ek) with false by (symmetry; apply Z.eqb_neq; congruence).
    rewrite Hnk. reflexivity.
  - pose proof (reaches_le _ _ _ _ _ Hr).
    destruct fuel as [|fuel]; [lia|]. cbn [read_walk].
    rewrite (bind_ret _ _ _ _ _ (w_deref_ptr P s i e He)).
    replace (addr =? w_addr e) with false by (symmetry; apply Z.eqb_neq; congruence).
    replace (w_next e =? 0) with false by (symmetry; apply Z.eqb_neq; exact Hn0).
    rewrite Hn. apply (IH fuel ek); [lia | exact Hek | exact Hak | exact Hnk].
Qed.

Lemma read_own_tail fuel addr s t et :
  IS_ACTIVE (tx_status (st_tx s)) = true ->
  owned_by_tx P s (GET_LOCK addr) ->
  bucket_tail P s addr t et ->
  stm_wbetl_read_invisible P (S fuel) addr s = Ret (st_mem s addr) s.
Proof.
  intros Hact [Ho Hc] (h & Hh & Hr & Ht & Ha & Hn).
  unfold stm_wbetl_read_invisible.
  rewrite (bind_ret _ _ s tt s) by (unfold assert; rewrite Hact; reflexivity).
  rewrite (bind_ret _ _ s (g_locks (st_g s) (GET_LOCK addr)) s) by reflexivity.
  cbn [read_restart_no_load].
  rewrite (bind_ret _ _ s (st_tx s) s) by reflexivity.
  change (LOCK_GET_WRITE (g_locks (st_g s) (GET_LOCK addr)))
    with (LOCK_GET_OWNED (g_locks (st_g s) (GET_LOCK addr))).
  apply Z.eqb_neq in Ho. rewrite Ho, Hc. cbn [negb].
  rewrite Hh. apply (read_walk_tail s addr h t Hr _ et); [|exact Ht | exact Ha | exact Hn].
  pose proof (lookup_lt_Some _ _ _ Ht). lia.
Qed.

End LoadOwn.

(** X6.  A load of any address whose lock the transaction owns returns,
    leaves the state as it is (nothing enters the read set) and never
    faults: the value is that of the entry for the address in the bucket
    of the lock when there is one with a nonzero mask, and the word in
    memory when that entry has mask 0 or the bucket has no entry for the
    address. *)
Theorem load_under_own_lock (P : platform) (fuel : nat) (addr : Z) (s : state) :
  IS_ACTIVE (tx_status (st_tx s)) = true ->
  ws_wf P s ->
  owned_by_tx P s (GET_LOCK addr) ->
  exists v,
    int_stm_load P (S fuel) addr s = Ret v s /\
    (forall j ej, bucket_entry P s addr j ej ->
       v = if w_mask ej =? 0 then st_mem s addr else w_value ej) /\
    (forall t et, bucket_tail P s addr t et -> v = st_mem s addr).
Proof.
  intros Hact W Ho. unfold int_stm_load, stm_wbetl_read.
  assert (Hval : forall v,
    stm_wbetl_read_invisible P (S fuel) addr s = Ret v s ->
    (forall j ej, bucket_entry P s addr j ej ->
       v = if w_mask ej =? 0 then st_mem s addr else w_value ej) /\
    (forall t et, bucket_tail P s addr t et -> v = st_mem s addr)).
  { intros v Hv. split.
    - intros j ej Hb. rewrite (read_own P fuel addr s j ej Hact Ho Hb) in Hv.
      inversion Hv. reflexivity.
    - intros t et Hb. rewrite (read_own_tail P fuel addr s t et Hact Ho Hb) in Hv.
      inversion Hv. reflexivity. }
  destruct (wf_bucket P s addr W Ho) as [(j & ej & _ & Hb)|(t & et & _ & Hb & _)].
  - eexists. split; [apply (read_own P fuel addr s j ej Hact Ho Hb)|].
    apply Hval. apply (read_own P fuel addr s j ej Hact Ho Hb).
  - eexists. split; [apply (read_own_tail P fuel addr s t et Hact Ho Hb)|].
    apply Hval. apply (read_own_tail P fuel addr s t et Hact Ho Hb).
Qed.

Section InvariantExt.

Variable P : platform.

(** The write-set invariant speaks of the write set and the lock words
    only. *)
Lemma ws_wf_ext s s' :
  tx_w_set (st_tx s') = tx_w_set (st_tx s) ->
  g_locks (st_g s') = g_locks (st_g s) ->
  ws_wf P s -> ws_wf P s'.
Proof.
  intros Hw Hl W. destruct W as [W1 W2 W3 W4 W5 W6 W7 W8 W9].
  constructor; unfold owned_by_tx in *; rewrite ?Hw, ?Hl; assumption.
Qed.

Lemma versions_captured_ext s s' :
  tx_w_set (st_tx s') = tx_w_set (st_tx s) ->
  st_hist s' = st_hist s ->
  versions_captured s -> versions_captured s'.
Proof.
  intros Hw Hh V. unfold versions_captured in *. rewrite Hw, Hh. exact V.
Qed.

Lemma owned_by_tx_ext s s' l :
  tx_w_set (st_tx s') = tx_w_set (st_tx s) ->
  g_locks (st_g s') = g_locks (st_g s) ->
  owned_by_tx P s l -> owned_by_tx P s' l.
Proof. intros Hw Hl. unfold owned_by_tx. rewrite Hw, Hl. tauto. Qed.

End InvariantExt.

Lemma sample_loaded_wf retry e reads :
  ws_wf sample_platform (sample_loaded retry e reads).
Proof.
  apply (ws_wf_ext sample_platform (sample_active retry)); try reflexivity.
  apply sample_active_wf.
Qed.

Lemma load_under_own_lock_witness :
  int_stm_load sample_platform 1 232 (sample_loaded true 6 sample_reads) =
  Ret 43981 (sample_loaded true 6 sample_reads).
Proof.
  destruct (load_under_own_lock sample_platform 0 232 (sample_loaded true 6 sample_reads))
    as (v & Hl & _ & Ht).
  - reflexivity.
  - apply sample_loaded_wf.
  - split; [vm_compute; discriminate | reflexivity].
  - rewrite Hl. rewrite (Ht 0%nat sample_w0); [reflexivity|].
    exists 0%nat. split; [reflexivity|]. split; [constructor|].
    split; [reflexivity|]. split; [vm_compute; discriminate | reflexivity].
Defined.

(** X7.  A load that finds the lock of its address free at a version
    beyond the end of the snapshot: a read-only transaction is rolled
    back with reason [STM_ABORT_VAL_READ] without any attempt to extend;
    so is an update transaction whose read set is no longer valid; an
    update transaction whose read set is valid has its snapshot extended
    to the current clock, and the load returns the word in memory and
    appends the lock with its version to the read set. *)
Theorem load_beyond_snapshot (P : platform) (fuel : nat) (addr : Z) (s : state) :
  let lock := GET_LOCK addr in
  let l := g_locks (st_g s) lock in
  let ld := int_stm_load P (S fuel) addr s in
  IS_ACTIVE (tx_status (st_tx s)) = true ->
  LOCK_GET_WRITE l = 0 ->
  tx_irrevocable (st_tx s) = 0 ->
  LOCK_GET_TIMESTAMP l > tx_end (st_tx s) ->
  rs_wf (st_tx s) ->
  (read_only (tx_attr (st_tx s)) = true \/ ~ read_set_valid P s ->
   ld = (stm_rollback P (STM_ABORT_VAL_READ P) ;;; ret 0) s /\
   (forall v s', ld = Ret v s' -> v = 0 /\ int_stm_aborted (st_tx s') = true) /\
   (jump_of ld = None
    \/ jump_of ld = Some (Z.lor (STM_ABORT_VAL_READ P) (STM_PATH_INSTRUMENTED P)))) /\
  (read_only (tx_attr (st_tx s)) = false -> read_set_valid P s ->
   exists s',
     ld = Ret (st_mem s addr) s' /\
     tx_end (st_tx s') = g_clock (st_g s) /\
     read_set (st_tx s') =
       read_set (st_tx s) ++ [ {| r_version := LOCK_GET_TIMESTAMP l; r_lock := lock |} ] /\
     rs_wf (st_tx s') /\
     st_g s' = st_g s /\ st_mem s' = st_mem s /\ st_hist s' = st_hist s /\
     tx_w_set (st_tx s') = tx_w_set (st_tx s) /\
     tx_start (st_tx s') = tx_start (st_tx s) /\
     tx_status (st_tx s') = tx_status (st_tx s)).
Proof.
  intros lock l ld Hact Hfree Hirr Hver W.
  assert (Hld : ld =
    if read_only (tx_attr (st_tx s)) then
      (stm_rollback P (STM_ABORT_VAL_READ P) ;;; ret 0) s
    else
      (ok <- stm_wbetl_extend P ;;
       if ok =? 0 then stm_rollback P (STM_ABORT_VAL_READ P) ;;; ret 0
       else
         l2 <- load_lock lock ;;
         if negb (l =? l2) then read_restart_no_load P fuel addr l2
         else read_add_to_read_set lock (LOCK_GET_TIMESTAMP l) (st_mem s addr)) s).
  { unfold ld, int_stm_load, stm_wbetl_read.
    rewrite (read_free_eq P fuel addr s Hact Hfree Hirr). cbv zeta.
    fold lock. fold l. apply Z.gtb_gt in Hver. rewrite Hver. reflexivity. }
  pose proof (stm_wbetl_extend_eq P s (rs_wf_bounded _ W)) as Hext.
  pose proof (read_set_valid_forallb P s) as Hvalid.
  split.
  - intros Hcase.
    assert (Hr : ld = (stm_rollback P (STM_ABORT_VAL_READ P) ;;; ret 0) s).
    { rewrite Hld. destruct (read_only (tx_attr (st_tx s))) eqn:Hro; [reflexivity|].
      destruct Hcase as [Hc|Hc]; [discriminate|].
      destruct (forallb (read_entry_ok P s) (read_set (st_tx s))) eqn:Hf.
      - exfalso. apply Hc. apply Hvalid. reflexivity.
      - rewrite (bind_ret _ _ _ _ _ Hext). reflexivity. }
    split; [exact Hr|].
    exact (rollback_then_zero P _ (int_stm_load P (S fuel) addr) s Hr).
  - intros Hro Hv. apply Hvalid in Hv. rewrite Hv in Hext.
    set (s1 := with_tx (set_end (g_clock (st_g s))) s) in *.
    exists (read_added lock (LOCK_GET_TIMESTAMP l) s1).
    assert (W1 : rs_wf (st_tx s1)) by exact W.
    split.
    { rewrite Hld, Hro. rewrite (bind_ret _ _ _ _ _ Hext). cbn [Z.eqb].
      rewrite (bind_ret _ _ s1 l s1) by reflexivity.
      rewrite Z.eqb_refl. cbn [negb].
      apply (read_add_to_read_set_eq lock (LOCK_GET_TIMESTAMP l) (st_mem s addr) s1);
        assumption. }
    destruct (read_added_frame lock (LOCK_GET_TIMESTAMP l) s1)
      as (Hg & Hm & Hh & Hws & Hst & Hen & Hstat & _).
    split; [exact Hen|].
    split; [exact (read_added_read_set lock (LOCK_GET_TIMESTAMP l) s1 W1)|].
    split; [apply read_added_wf; exact W1|].
    repeat split; assumption.
Qed.

Lemma load_beyond_snapshot_witness :
  (exists s',
     int_stm_load sample_platform 1 96 (sample_loaded true 4 sample_reads) = Ret 77 s' /\
     tx_end (st_tx s') = 9) /\
  int_stm_load sample_platform 1 96
    (sample_loaded false 4 [ {| r_version := 4; r_lock := 3 |} ]) =
  (stm_rollback sample_platform 1344 ;;; ret 0)
    (sample_loaded false 4 [ {| r_version := 4; r_lock := 3 |} ]).
Proof.
  split.
  - destruct (load_beyond_snapshot sample_platform 0 96 (sample_loaded true 4 sample_reads))
      as (_ & Hext); [reflexivity | reflexivity | reflexivity | reflexivity
                     | repeat split; cbn; lia |].
    destruct Hext as (s' & Hl & He & _).
    + reflexivity.
    + apply (read_set_valid_forallb sample_platform). reflexivity.
    + exists s'. split; [exact Hl | exact He].
  - destruct (load_beyond_snapshot sample_platform 0 96
                (sample_loaded false 4 [ {| r_version := 4; r_lock := 3 |} ]))
      as (Hrb & _); [reflexivity | reflexivity | reflexivity | reflexivity
                    | repeat split; cbn; lia |].
    destruct Hrb as (Hr & _); [|exact Hr].
    right. intros Hv. apply (read_set_valid_forallb sample_platform) in Hv. discriminate Hv.
Defined.

(** ** Commit and start *)

(** X8.  A commit at a nesting level other than 1 only steps the
    nesting counter down and returns 1: no callback is called, nothing
    is validated or published, and the status is not touched, whether or
    not the transaction is active.  For a nested commit the counter goes
    from [n] to [n - 1]; a commit at level 0 wraps the unsigned counter
    to [2^32 - 1]. *)
Theorem commit_nested (P : platform) (s : state) :
  tx_nesting (st_tx s) <> 1 ->
  0 <= tx_nesting (st_tx s) < 2 ^ 32 ->
  let n' := if tx_nesting (st_tx s) =? 0 then 2 ^ 32 - 1 else tx_nesting (st_tx s) - 1 in
  int_stm_commit P s = Ret 1 (with_tx (set_nesting n') s).
Proof.
  intros Hn Hr n'. unfold int_stm_commit.
  rewrite (bind_ret _ _ s tt
             (with_tx (fun tx => set_nesting (wrap32 (tx_nesting tx - 1)) tx) s))
    by reflexivity.
  set (s1 := with_tx (fun tx => set_nesting (wrap32 (tx_nesting tx - 1)) tx) s).
  rewrite (bind_ret _ _ s1 (st_tx s1) s1) by reflexivity.
  unfold s1. cbn [st_tx with_tx tx_nesting set_nesting].
  assert (Hw : wrap32 (tx_nesting (st_tx s) - 1) = n').
  { unfold n', wrap32. destruct (Z.eqb_spec (tx_nesting (st_tx s)) 0) as [->|Hz].
    - reflexivity.
    - apply Z.mod_small. lia. }
  rewrite Hw.
  replace (n' >? 0) with true;
    [unfold ret, with_tx; cbv beta; rewrite Hw; reflexivity|].
  symmetry. apply Z.gtb_gt. unfold n'.
  destruct (Z.eqb_spec (tx_nesting (st_tx s)) 0); lia.
Qed.

Lemma commit_nested_witness :
  int_stm_commit sample_platform (with_tx (set_nesting 2) (sample_active true)) =
  Ret 1 (sample_active true).
Proof.
  rewrite (commit_nested sample_platform (with_tx (set_nesting 2) (sample_active true)));
    [reflexivity | cbn; lia | cbn; lia].
Defined.

(** X9.  The top-level commit of a transaction with an empty write set
    does not touch the shared state: the clock is not advanced, no lock
    and no word of memory is written, and nothing is validated.  It calls
    the pre-commit and then the commit callbacks, sets the status to
    [TX_COMMITTED] (neither active nor aborted) with [nesting] 0, and
    returns 1. *)
Theorem commit_without_writes (P : platform) (s : state) :
  tx_nesting (st_tx s) = 1 ->
  IS_ACTIVE (tx_status (st_tx s)) = true ->
  ws_nb_entries (tx_w_set (st_tx s)) = 0%nat ->
  exists s',
    int_stm_commit P s = Ret 1 s' /\
    st_g s' = st_g s /\
    st_mem s' = st_mem s /\
    st_hist s' =
      rev (map (fun cb => EvCallback (cb_f cb) (cb_arg cb)) (g_commit_cb (st_g s)))
      ++ rev (map (fun cb => EvCallback (cb_f cb) (cb_arg cb)) (g_precommit_cb (st_g s)))
      ++ st_hist s /\
    st_tx s' = set_status TX_COMMITTED (set_nesting 0 (st_tx s)) /\
    int_stm_active (st_tx s') = false /\
    int_stm_aborted (st_tx s') = false.
Proof.
  intros Hn Hact Hnb. unfold int_stm_commit.
  rewrite (bind_ret _ _ s tt
             (with_tx (fun tx => set_nesting (wrap32 (tx_nesting tx - 1)) tx) s))
    by reflexivity.
  set (s1 := with_tx (fun tx => set_nesting (wrap32 (tx_nesting tx - 1)) tx) s).
  rewrite (bind_ret _ _ s1 (st_tx s1) s1) by reflexivity.
  assert (Hn1 : tx_nesting (st_tx s1) = 0) by (unfold s1; cbn; rewrite Hn; reflexivity).
  rewrite Hn1. cbn [Z.gtb Z.compare].
  rewrite (bind_ret _ _ s1 (st_g s1) s1) by reflexivity.
  rewrite (bind_ret _ _ _ _ _ (run_callbacks_eq _ s1)).
  set (s2 := callbacks_called (g_precommit_cb (st_g s1)) s1).
  destruct (callbacks_called_frame (g_precommit_cb (st_g s1)) s1) as (Htx2 & Hg2 & Hm2).
  fold s2 in Htx2, Hg2, Hm2.
  rewrite (bind_ret _ _ s2 tt s2)
    by (unfold assert; rewrite Htx2; unfold s1; cbn; rewrite Hact; reflexivity).
  rewrite (bind_ret _ _ s2 (st_tx s2) s2) by reflexivity.
  replace (ws_nb_entries (tx_w_set (st_tx s2)) =? 0)%nat with true
    by (rewrite Htx2; unfold s1; cbn; rewrite Hnb; reflexivity).
  rewrite (bind_ret _ _ s2 tt s2) by reflexivity.
  rewrite (bind_ret _ _ s2 tt (with_tx (set_status TX_COMMITTED) s2)) by reflexivity.
  set (s3 := with_tx (set_status TX_COMMITTED) s2).
  rewrite (bind_ret _ _ s3 (st_g s3) s3) by reflexivity.
  rewrite (bind_ret _ _ _ _ _ (run_callbacks_eq _ s3)).
  set (s4 := callbacks_called (g_commit_cb (st_g s3)) s3).
  destruct (callbacks_called_frame (g_commit_cb (st_g s3)) s3) as (Htx4 & Hg4 & Hm4).
  fold s4 in Htx4, Hg4, Hm4.
  exists s4. split; [reflexivity|].
  assert (Hg : st_g s4 = st_g s) by (rewrite Hg4; unfold s3; cbn; rewrite Hg2; reflexivity).
  assert (Htx : st_tx s4 = set_status TX_COMMITTED (set_nesting 0 (st_tx s))).
  { rewrite Htx4. unfold s3. cbn [st_tx with_tx]. rewrite Htx2. unfold s1. cbn.
    rewrite Hn. reflexivity. }
  split; [exact Hg|].
  split; [rewrite Hm4; unfold s3; cbn; rewrite Hm2; reflexivity|].
  split.
  { unfold s4. rewrite callbacks_called_hist. unfold s3 at 2. cbn [st_hist with_tx].
    unfold s2. rewrite callbacks_called_hist.
    replace (g_commit_cb (st_g s3)) with (g_commit_cb (st_g s))
      by (unfold s3; cbn; rewrite Hg2; reflexivity).
    reflexivity. }
  split; [exact Htx|].
  rewrite Htx. split; reflexivity.
Qed.

Lemma commit_without_writes_witness :
  exists s',
    int_stm_commit sample_platform (sample_reader true) = Ret 1 s' /\
    g_clock (st_g s') = 9 /\
    st_hist s' = [EvCallback 300 2; EvCallback 200 1; EvCallback 100 1].
Proof.
  destruct (commit_without_writes sample_platform (sample_reader true))
    as (s' & Hc & Hg & _ & Hh & _); [reflexivity | reflexivity | reflexivity |].
  exists s'. split; [exact Hc|]. split; [rewrite Hg; reflexivity | exact Hh].
Defined.

Section CommitSucceeds.

Variable P : platform.

Lemma commit_entry_valid s :
  read_set_valid P s -> read_set_valid P (commit_entry s).
Proof.
  destruct (commit_entry_frame s) as (Hg & _ & Htx).
  unfold read_set_valid, read_entry_valid, read_set. rewrite Hg, Htx. cbn. tauto.
Qed.

Lemma int_stm_commit_valid_eq s :
  tx_nesting (st_tx s) = 1 ->
  IS_ACTIVE (tx_status (st_tx s)) = true ->
  ws_nb_entries (tx_w_set (st_tx s)) <> 0%nat ->
  tx_irrevocable (st_tx s) = 0 ->
  g_irrevocable (st_g s) = 0 ->
  rs_bounded (st_tx s) ->
  ws_bounded (st_tx s) ->
  tx_start (st_tx s) = g_clock (st_g s) \/ read_set_valid P s ->
  Word.in_range (g_clock (st_g s)) ->
  int_stm_commit P s = Ret 1 (committed s).
Proof.
  intros Hn Hact Hnb Hirr Hgirr Hrb Hwb Hok Hclk.
  rewrite (int_stm_commit_top_level P s Hn Hact Hnb).
  destruct (commit_entry_frame s) as (Hg0 & Hm0 & Htx0).
  set (s0 := commit_entry s) in *.
  assert (Hc : stm_wbetl_commit P s0 =
               release_locks (Word.add (g_clock (st_g s0)) 1)
                 (record (EvClockInc (g_clock (st_g s0)))
                    (with_g (set_clock (Word.add (g_clock (st_g s0)) 1)) s0))).
  { destruct (stm_wbetl_commit_cases P s0) as (C1 & C2 & _).
    - rewrite Htx0. exact Hirr.
    - rewrite Hg0. exact Hgirr.
    - unfold rs_bounded. rewrite Htx0. exact Hrb.
    - destruct (Z.eq_dec (tx_start (st_tx s0))
                  (Word.sub (Word.add (g_clock (st_g s0)) 1) 1)) as [He|Hne].
      + apply C1. exact He.
      + apply C2; [exact Hne|]. destruct Hok as [Hs|Hv].
        * exfalso. apply Hne. rewrite Htx0, Hg0. cbn [tx_start set_nesting]. rewrite Hs.
          unfold Word.sub, Word.add, Word.wrap.
          rewrite Zminus_mod_idemp_l.
          replace (g_clock (st_g s) + 1 - 1) with (g_clock (st_g s)) by lia.
          symmetry. apply Z.mod_small. exact Hclk.
        * apply commit_entry_valid. exact Hv. }
  set (t := Word.add (g_clock (st_g s0)) 1) in *.
  set (s1 := record (EvClockInc (g_clock (st_g s0))) (with_g (set_clock t) s0)) in *.
  assert (Hrel : release_locks t s1 =
    Ret 1 (fold_left perform (flat_map (commit_stores t) (write_set (st_tx s1))) s1)).
  { apply release_locks_eq. unfold ws_bounded, s1. cbn [st_tx record with_g].
    rewrite Htx0. exact Hwb. }
  rewrite Hrel in Hc.
  set (s2 := fold_left perform _ s1) in *.
  unfold bind at 1. unfold bind at 1. rewrite Hc. cbv beta iota. unfold ret at 1.
  rewrite (bind_ret _ _ s2 tt (with_tx (set_status TX_COMMITTED) s2)) by reflexivity.
  set (s3 := with_tx (set_status TX_COMMITTED) s2).
  rewrite (bind_ret _ _ s3 (st_g s3) s3) by reflexivity.
  rewrite (bind_ret _ _ _ _ _ (run_callbacks_eq _ s3)).
  reflexivity.
Qed.

End CommitSucceeds.

Section Committed.

Variable P : platform.

Lemma committed_fields s :
  let t := Word.add (g_clock (st_g s)) 1 in
  let evs := flat_map (commit_stores t) (write_set (st_tx s)) in
  g_clock (st_g (committed s)) = t /\
  (forall l, g_locks (st_g (committed s)) l = lock_after evs l (g_locks (st_g s) l)) /\
  (forall a, st_mem (committed s) a = mem_after evs a (st_mem s a)) /\
  st_tx (committed s) = set_status TX_COMMITTED (set_nesting (wrap32 (tx_nesting (st_tx s) - 1))
                                                  (st_tx s)).
Proof.
  intros t evs. unfold committed.
  destruct (commit_entry_frame s) as (Hg0 & Hm0 & Htx0).
  set (s0 := commit_entry s) in *.
  rewrite Hg0. fold t.
  set (s1 := record (EvClockInc (g_clock (st_g s))) (with_g (set_clock t) s0)).
  assert (Hws : write_set (st_tx s1) = write_set (st_tx s)).
  { unfold s1. cbn [st_tx record with_g]. rewrite Htx0. reflexivity. }
  rewrite Hws. fold evs.
  set (s2 := fold_left perform evs s1).
  set (s3 := with_tx (set_status TX_COMMITTED) s2).
  destruct (callbacks_called_frame (g_commit_cb (st_g s3)) s3) as (Htx4 & Hg4 & Hm4).
  rewrite Htx4, Hg4, Hm4.
  unfold s3. cbn [st_g st_mem st_tx with_tx].
  split; [|split; [|split]].
  - destruct (fold_perform_global evs s1) as (Hc & _). unfold s2. rewrite Hc. reflexivity.
  - intros l. unfold s2. rewrite fold_perform_locks. unfold s1. cbn. rewrite Hg0. reflexivity.
  - intros a. unfold s2. rewrite fold_perform_mem. unfold s1. cbn. rewrite Hm0. reflexivity.
  - unfold s2. rewrite fold_perform_tx. unfold s1. cbn [st_tx record with_g].
    rewrite Htx0. reflexivity.
Qed.

Lemma committed_locks s :
  ws_wf P s ->
  let t := Word.add (g_clock (st_g s)) 1 in
  (forall l, owned_by_tx P s l -> g_locks (st_g (committed s)) l = LOCK_SET_TIMESTAMP t) /\
  (forall l, ~ owned_by_tx P s l -> g_locks (st_g (committed s)) l = g_locks (st_g s) l).
Proof.
  intros W t. destruct (committed_fields s) as (_ & Hl & _). fold t in Hl.
  split.
  - intros l Ho. rewrite Hl, lock_after_commit.
    destruct (wf_owned_tail P s l W Ho) as (i & et & Hi & Het & Htail & _).
    rewrite (existsb_tail_of_true l _ et); [| apply elem_of_write_set; eauto | exact Htail].
    reflexivity.
  - intros l Hno. rewrite Hl, lock_after_commit.
    rewrite (wf_not_owned_no_tail P s l W Hno). reflexivity.
Qed.

End Committed.



Section StoreCommit.

Variable P : platform.

(** Acquiring a free lock keeps the read set valid: an entry for the
    lock is now covered by the write set of the transaction. *)
Lemma acquired_valid addr value mask s :
  ws_wf P s ->
  (ws_nb_entries (tx_w_set (st_tx s)) < ws_size (tx_w_set (st_tx s)))%nat ->
  read_set_valid P s ->
  read_set_valid P (acquired P addr value mask s).
Proof.
  intros W Hroom Hv.
  set (ws := tx_w_set (st_tx s)) in *. set (nb := ws_nb_entries ws) in *.
  assert (Hga : LOCK_GET_ADDR (LOCK_SET_ADDR_WRITE (w_ptr P ws nb)) = w_ptr P ws nb).
  { apply get_addr_w_ptr.
    - apply (wf_base_pos P s W).
    - apply (wf_base_even P s W).
    - pose proof (wf_base_top P s W) as Htop. fold ws in Htop.
      assert (w_ptr P ws nb < w_ptr P ws (ws_size ws)) by (apply w_ptr_lt; exact Hroom).
      lia. }
  unfold read_set_valid in *.
  change (read_set (st_tx (acquired P addr value mask s))) with (read_set (st_tx s)).
  eapply Forall_impl; [exact Hv|]. intros e He.
  unfold read_entry_valid in *.
  change (g_locks (st_g (acquired P addr value mask s)) (r_lock e))
    with (upd (g_locks (st_g s)) (GET_LOCK addr) (LOCK_SET_ADDR_WRITE (w_ptr P ws nb))
            (r_lock e)).
  unfold upd. destruct (r_lock e =? GET_LOCK addr).
  - left. split; [rewrite LockFacts.set_addr_write_owned; discriminate|].
    rewrite Hga.
    change (w_ptr P ws nb)
      with (w_ptr P (tx_w_set (st_tx (acquired P addr value mask s))) nb).
    rewrite ws_contains_ptr. apply Nat.ltb_lt. unfold nb, ws. cbn. lia.
  - destruct He as [[Ho Hc]|Hfree]; [left | right; exact Hfree].
    split; [exact Ho|].
    apply (ws_contains_grow P ws); [reflexivity | cbn; fold ws; lia | exact Hc].
Qed.

End StoreCommit.

(** X11.  Store and commit compose.  For a top-level transaction that
    has not written yet and whose read set is valid, a store to an
    address whose lock is free (and was not read, if its version is
    beyond the snapshot) followed by the commit returns 1; the word at
    the address is then the stored value merged by the mask into the word
    that was there, every other word of memory is unchanged, the lock of
    the address is free at version clock + 1, every other lock is
    unchanged, and the clock has advanced by one. *)
Theorem store_then_commit
    (P : platform) (fuel : nat) (addr value mask : Z) (s : state) :
  let lock := GET_LOCK addr in
  let l := g_locks (st_g s) lock in
  let t := Word.add (g_clock (st_g s)) 1 in
  tx_nesting (st_tx s) = 1 ->
  IS_ACTIVE (tx_status (st_tx s)) = true ->
  tx_irrevocable (st_tx s) = 0 ->
  g_irrevocable (st_g s) = 0 ->
  ws_wf P s ->
  ws_nb_entries (tx_w_set (st_tx s)) = 0%nat ->
  (0 < ws_size (tx_w_set (st_tx s)))%nat ->
  rs_bounded (st_tx s) ->
  read_set_valid P s ->
  LOCK_GET_OWNED l = 0 ->
  (LOCK_GET_TIMESTAMP l > tx_end (st_tx s) ->
   Forall (fun e => r_lock e <> lock) (read_set (st_tx s))) ->
  mask <> 0 ->
  Word.in_range mask ->
  Word.in_range (g_clock (st_g s)) ->
  exists s',
    (int_stm_store2 P (S fuel) addr value mask ;;; int_stm_commit P) s = Ret 1 s' /\
    st_mem s' addr = new_value (st_mem s addr) value mask /\
    (mask = Word.ones -> st_mem s' addr = value) /\
    (forall a, a <> addr -> st_mem s' a = st_mem s a) /\
    g_locks (st_g s') lock = LOCK_SET_TIMESTAMP t /\
    (forall l', l' <> lock -> g_locks (st_g s') l' = g_locks (st_g s) l') /\
    g_clock (st_g s') = t /\
    tx_status (st_tx s') = TX_COMMITTED.
Proof.
  intros lock l t Hn Hact Hirr Hgirr W Hnb Hsize Hrb Hv Hfree Hnr Hm Hmr Hclk.
  pose proof (wf_length P s W) as Hlen.
  assert (Hroom : (ws_nb_entries (tx_w_set (st_tx s)) < ws_size (tx_w_set (st_tx s)))%nat)
    by lia.
  set (s1 := acquired P addr value mask s).
  assert (Hw : stm_write P (S fuel) addr value mask s =
               Ret (w_ptr P (tx_w_set (st_tx s)) (ws_nb_entries (tx_w_set (st_tx s)))) s1).
  { unfold stm_write.
    rewrite (bind_ret _ _ s tt s) by (unfold assert; rewrite Hact; reflexivity).
    apply write_acquire; try assumption; try lia.
    intros Hgt. apply find_lock_none. apply Hnr. exact Hgt. }
  assert (Hs : (int_stm_store2 P (S fuel) addr value mask ;;; int_stm_commit P) s =
               int_stm_commit P s1).
  { unfold int_stm_store2. unfold bind at 1. unfold bind at 1. rewrite Hw. reflexivity. }
  destruct (acquired_bucket_entry P addr value mask s W Hroom Hm Hmr)
    as (j & ej & _ & Hown1 & _).
  fold s1 in Hown1.
  assert (W1 : ws_wf P s1) by (apply wf_acquired; assumption).
  assert (Hc : int_stm_commit P s1 = Ret 1 (committed s1)).
  { apply (int_stm_commit_valid_eq P); try assumption.
    - unfold s1. cbn. discriminate.
    - apply (wf_bounded P). exact W1.
    - right. apply acquired_valid; assumption. }
  destruct (committed_fields s1) as (Hclk' & _ & Hmem & Htx').
  destruct (committed_locks P s1 W1) as (Hown & Hother).
  set (s' := committed s1) in *.
  assert (Hstat : tx_status (st_tx s') = TX_COMMITTED) by (rewrite Htx'; reflexivity).
  change (g_clock (st_g s1)) with (g_clock (st_g s)) in *. fold t in Hclk', Hown, Hmem.
  assert (Hws1 : write_set (st_tx s1) =
    [ {| w_addr := addr; w_value := new_value (st_mem s addr) value mask;
         w_mask := mask; w_version := LOCK_GET_TIMESTAMP l; w_lock := lock;
         w_next := 0 |} ]).
  { unfold write_set, s1. cbn [acquired st_tx with_tx record with_g tx_w_set set_w_set
                               ws_append ws_nb_entries ws_slots].
    rewrite Hnb. destruct (ws_slots (tx_w_set (st_tx s))) as [|e0 rest] eqn:Hsl.
    - cbn in Hlen. lia.
    - reflexivity. }
  assert (Hma : forall a, st_mem s' a =
             if a =? addr then new_value (st_mem s addr) value mask else st_mem s a).
  { intros a. rewrite Hmem, Hws1. cbn [flat_map]. unfold commit_stores.
    cbn [w_mask w_next w_addr w_value w_lock].
    replace (mask =? 0) with false by (symmetry; apply Z.eqb_neq; exact Hm).
    cbn [negb Z.eqb app mem_after].
    change (st_mem s1 a) with (st_mem s a).
    destruct (Z.eqb_spec a addr) as [->|]; reflexivity. }
  exists s'. split; [rewrite Hs; exact Hc|].
  split; [rewrite Hma, Z.eqb_refl; reflexivity|].
  split; [intros ->; rewrite Hma, Z.eqb_refl; apply new_value_full|].
  split.
  { intros a Ha. rewrite Hma.
    replace (a =? addr) with false by (symmetry; apply Z.eqb_neq; exact Ha).
    reflexivity. }
  split; [apply Hown; exact Hown1|].
  split; [|split; [exact Hclk' | exact Hstat]].
  intros l' Hl'. rewrite Hother.
  + unfold s1. cbn. unfold upd.
    replace (l' =? GET_LOCK addr) with false by (symmetry; apply Z.eqb_neq; exact Hl').
    reflexivity.
  + intros [Ho Hcont].
    assert (Hw1 : g_locks (st_g s1) l' = g_locks (st_g s) l').
    { unfold s1. cbn. unfold upd.
      replace (l' =? GET_LOCK addr) with false by (symmetry; apply Z.eqb_neq; exact Hl').
      reflexivity. }
    rewrite Hw1 in Ho, Hcont.
    apply ws_contains_range in Hcont.
    destruct (wf_owner P s W l' Ho) as (h & eh & Hh & _).
    * destruct Hcont as [Hlo Hhi].
      change (ws_entries (tx_w_set (st_tx s1)))
        with (ws_entries (tx_w_set (st_tx s))) in Hlo.
      change (w_ptr P (tx_w_set (st_tx s1)) (ws_nb_entries (tx_w_set (st_tx s1))))
        with (w_ptr P (tx_w_set (st_tx s)) (S (ws_nb_entries (tx_w_set (st_tx s))))) in Hhi.
      split; [exact Hlo|].
      eapply Z.lt_le_trans; [exact Hhi|].
      apply w_ptr_mono. lia.
    * lia.
Qed.

Lemma sample_reader_wf retry : ws_wf sample_platform (sample_reader retry).
Proof.
  apply (wf_empty sample_platform); try reflexivity.
  - cbn. rewrite WordFacts.modulus_eq. vm_compute. discriminate.
  - intros l Ho. exfalso. apply Ho. cbn. unfold upd.
    destruct (l =? 3); reflexivity.
Qed.

Lemma store_then_commit_witness :
  exists s',
    (int_stm_store2 sample_platform 1 96 5 Word.ones ;;; int_stm_commit sample_platform)
      (sample_reader true) = Ret 1 s' /\
    st_mem s' 96 = 5 /\
    g_locks (st_g s') 3 = LOCK_SET_TIMESTAMP 10.
Proof.
  destruct (store_then_commit sample_platform 0 96 5 Word.ones (sample_reader true))
    as (s' & Hc & _ & Hm & _ & Hl & _).
  - reflexivity.
  - reflexivity.
  - reflexivity.
  - reflexivity.
  - apply sample_reader_wf.
  - reflexivity.
  - cbn. lia.
  - unfold rs_bounded. cbn. lia.
  - apply (read_set_valid_forallb sample_platform). reflexivity.
  - reflexivity.
  - intros Hgt. vm_compute in Hgt. discriminate Hgt.
  - discriminate.
  - unfold Word.in_range, Word.ones. rewrite WordFacts.modulus_eq. lia.
  - unfold Word.in_range. rewrite WordFacts.modulus_eq. cbn. lia.
  - exists s'. split; [exact Hc|]. split; [apply Hm; reflexivity | exact Hl].
Defined.

(** ** Store and abort *)

Section StoreAbort.

Variable P : platform.

Lemma owned_dec s l : owned_by_tx P s l \/ ~ owned_by_tx P s l.
Proof.
  unfold owned_by_tx.
  destruct (Z.eq_dec (LOCK_GET_OWNED (g_locks (st_g s) l)) 0) as [H0|H0];
    [right; intros [Hc _]; contradiction|].
  destruct (ws_contains P (tx_w_set (st_tx s)) (LOCK_GET_ADDR (g_locks (st_g s) l)));
    [left; split; auto | right; intros [_ Hc]; discriminate].
Qed.



End StoreAbort.



(** ** A full write set *)

Section FullWriteSet.

Variable P : platform.

Lemma write_check_full_full s :
  ws_nb_entries (tx_w_set (st_tx s)) = ws_size (tx_w_set (st_tx s)) ->
  write_check_full P s = stm_rollback P (STM_ABORT_EXTEND_WS P) s.
Proof.
  intros Hfull. unfold write_check_full.
  rewrite (bind_ret _ _ s (st_tx s) s) by reflexivity.
  rewrite Hfull, Nat.eqb_refl. reflexivity.
Qed.

(** A store that needs a new entry reaches the test for a full write
    set in the state it started in. *)
Lemma write_needs_entry fuel addr value mask s :
  tx_irrevocable (st_tx s) = 0 ->
  rs_bounded (st_tx s) ->
  (LOCK_GET_OWNED (g_locks (st_g s) (GET_LOCK addr)) = 0 /\
   (LOCK_GET_TIMESTAMP (g_locks (st_g s) (GET_LOCK addr)) > tx_end (st_tx s) ->
    Forall (fun e => r_lock e <> GET_LOCK addr) (read_set (st_tx s))))
  \/ (owned_by_tx P s (GET_LOCK addr) /\ mask <> 0 /\
      exists t et, bucket_tail P s addr t et) ->
  exists k : unit -> M Z,
    stm_wbetl_write P (S fuel) addr value mask s = bind (write_check_full P) k s.
Proof.
  intros Hirr Hrb [[Hfree Hnr]|[[Ho Hc] [Hm (t & et & h & Hh & Hr & Ht & Ha & Hn)]]].
  - eexists. cbn [stm_wbetl_write].
    rewrite (bind_ret _ _ s (g_locks (st_g s) (GET_LOCK addr)) s) by reflexivity.
    rewrite (bind_ret _ _ s (st_tx s) s) by reflexivity.
    rewrite Hfree, Hirr. cbn [Z.eqb negb].
    destruct (Z.gtb_spec (LOCK_GET_TIMESTAMP (g_locks (st_g s) (GET_LOCK addr)))
                (tx_end (st_tx s))) as [Hgt|Hle].
    + rewrite (bind_ret _ _ _ _ _ (stm_has_read_eq _ s Hrb)).
      replace (find_lock (GET_LOCK addr) (read_set (st_tx s)) 0) with (@None nat)
        by (symmetry; apply find_lock_none; apply Hnr; lia).
      reflexivity.
    + reflexivity.
  - eexists. cbn [stm_wbetl_write].
    rewrite (bind_ret _ _ s (g_locks (st_g s) (GET_LOCK addr)) s) by reflexivity.
    rewrite (bind_ret _ _ s (st_tx s) s) by reflexivity.
    apply Z.eqb_neq in Ho, Hm. rewrite Ho, Hc, Hm. cbn [negb].
    rewrite Hh.
    erewrite bind_ret.
    2:{ apply (write_walk_tail P s addr h t Hr _ et); [|exact Ht | exact Ha | exact Hn].
        pose proof (lookup_lt_Some _ _ _ Ht). lia. }
    cbv beta iota.
    rewrite (bind_ret _ _ _ _ _ (w_deref_ptr P s t et Ht)).
    reflexivity.
Qed.

End FullWriteSet.


Lemma sample_full_wf retry : ws_wf sample_platform (sample_full retry).
Proof.
  constructor.
  - reflexivity.
  - cbn. lia.
  - reflexivity.
  - reflexivity.
  - vm_compute. discriminate.
  - intros [|i] e Hi He; cbn in Hi; [|lia].
    cbn in He. injection He as <-. left. reflexivity.
  - intros [|i] e Hi He; cbn in Hi; [|lia].
    cbn in He. injection He as <-. split; vm_compute; congruence.
  - intros i j ei ej Hi Hj. cbn in Hi, Hj. lia.
  - intros l Ho Hr. exists 0%nat, sample_w0.
    assert (Hl : g_locks (st_g (sample_full retry)) l =
                 if l =? 7 then LOCK_SET_ADDR_WRITE 4096
                 else if l =? 3 then LOCK_SET_TIMESTAMP 5 else 0) by reflexivity.
    rewrite Hl in Ho |- *. clear Hr Hl.
    destruct (Z.eqb_spec l 7) as [H7|H7].
    + subst l. repeat split. cbn. lia.
    + destruct (l =? 3); exfalso; apply Ho; reflexivity.
Qed.


Section FullNoRetry.

Variable P : platform.

(** The store on a free lock that may be taken, up to the test for a
    full write set. *)
Lemma write_free_eq fuel addr value mask s :
  LOCK_GET_OWNED (g_locks (st_g s) (GET_LOCK addr)) = 0 ->
  tx_irrevocable (st_tx s) = 0 ->
  rs_bounded (st_tx s) ->
  (LOCK_GET_TIMESTAMP (g_locks (st_g s) (GET_LOCK addr)) > tx_end (st_tx s) ->
   Forall (fun e => r_lock e <> GET_LOCK addr) (read_set (st_tx s))) ->
  stm_wbetl_write P (S fuel) addr value mask s =
  (write_check_full P ;;;
   tx' <- get_tx ;;
   let w := w_ptr P (tx_w_set tx') (ws_nb_entries (tx_w_set tx')) in
   ok <- cas_lock (GET_LOCK addr) (g_locks (st_g s) (GET_LOCK addr)) (LOCK_SET_ADDR_WRITE w) ;;
   if ok =? 0 then stm_wbetl_write P fuel addr value mask
   else do_write P 0 addr value mask
          (LOCK_GET_TIMESTAMP (g_locks (st_g s) (GET_LOCK addr))) (GET_LOCK addr)) s.
Proof.
  intros Hfree Hirr Hrb Hnr. cbn [stm_wbetl_write].
  rewrite (bind_ret _ _ s (g_locks (st_g s) (GET_LOCK addr)) s) by reflexivity.
  rewrite (bind_ret _ _ s (st_tx s) s) by reflexivity.
  rewrite Hfree, Hirr. cbn [Z.eqb negb].
  destruct (Z.gtb_spec (LOCK_GET_TIMESTAMP (g_locks (st_g s) (GET_LOCK addr)))
              (tx_end (st_tx s))) as [Hgt|Hle]; [|reflexivity].
  rewrite (bind_ret _ _ _ _ _ (stm_has_read_eq _ s Hrb)).
  replace (find_lock (GET_LOCK addr) (read_set (st_tx s)) 0) with (@None nat)
    by (symmetry; apply find_lock_none; apply Hnr; lia).
  reflexivity.
Qed.

End FullNoRetry.

(** X14.  In a transaction that is not retried ([attr.no_retry]), a
    store that finds the write set full and the lock of its address free
    rolls the transaction back, which returns, and then goes on: it takes
    the lock by compare-and-swap for the aborted transaction and returns
    the new entry, in the doubled array.  On return the transaction is
    [TX_ABORTED] at nesting 0 and the lock of the address is owned by
    it. *)
Theorem store_into_full_write_set_without_retry
    (P : platform) (fuel : nat) (addr value mask : Z) (s : state) :
  let ws := tx_w_set (st_tx s) in
  let lock := GET_LOCK addr in
  let l := g_locks (st_g s) lock in
  let base := xrealloc P (ws_entries ws) (Z.of_nat (ws_size ws * 2) * sizeof_w_entry_t P) in
  let w := base + Z.of_nat (ws_size ws) * sizeof_w_entry_t P in
  IS_ACTIVE (tx_status (st_tx s)) = true ->
  tx_irrevocable (st_tx s) = 0 ->
  ws_wf P s ->
  rs_bounded (st_tx s) ->
  ws_nb_entries ws = ws_size ws ->
  (0 < ws_size ws)%nat ->
  LOCK_GET_OWNED l = 0 ->
  (LOCK_GET_TIMESTAMP l > tx_end (st_tx s) ->
   Forall (fun e => r_lock e <> lock) (read_set (st_tx s))) ->
  no_retry (tx_attr (st_tx s)) = true ->
  Z.land base OWNED_MASK = 0 ->
  exists s',
    stm_write P (S fuel) addr value mask s = Ret w s' /\
    tx_status (st_tx s') = TX_ABORTED /\
    int_stm_aborted (st_tx s') = true /\
    int_stm_active (st_tx s') = false /\
    tx_nesting (st_tx s') = 0 /\
    g_locks (st_g s') lock = LOCK_SET_ADDR_WRITE w /\
    LOCK_GET_OWNED (g_locks (st_g s') lock) <> 0 /\
    ws_nb_entries (tx_w_set (st_tx s')) = S (ws_size ws) /\
    ws_size (tx_w_set (st_tx s')) = (ws_size ws * 2)%nat /\
    (exists older, st_hist s' = EvLockCAS lock l (LOCK_SET_ADDR_WRITE w) :: older).
Proof.
  intros ws lock l base w Hact Hirr W Hrb Hfull Hpos Hfree Hnr Hno Halign.
  pose proof (wf_length P s W) as Hlen. fold ws in Hlen.
  set (sr := rolled_back P (STM_ABORT_EXTEND_WS P) s).
  assert (Hroll : stm_rollback P (STM_ABORT_EXTEND_WS P) s = Ret tt sr).
  { apply stm_rollback_no_retry_eq; try assumption.
    - apply (wf_bounded P). exact W.
    - left. exact Hno.
    - intros _. exact Halign. }
  assert (Htxr : st_tx sr =
            set_nesting 0 (set_nesting 1 (ws_realloc P (set_status TX_ABORTED (st_tx s))))).
  { unfold sr. rewrite rolled_back_tx, Z.eqb_refl. reflexivity. }
  assert (Hlk : g_locks (st_g sr) lock = l).
  { unfold sr. rewrite rolled_back_g.
    destruct (rollback_locks P s W) as [_ Hother]. apply Hother.
    intros [Ho _]. contradiction. }
  assert (Hnbr : ws_nb_entries (tx_w_set (st_tx sr)) = ws_size ws).
  { rewrite Htxr. cbn. exact Hfull. }
  assert (Hszr : ws_size (tx_w_set (st_tx sr)) = (ws_size ws * 2)%nat).
  { rewrite Htxr. reflexivity. }
  assert (Hlenr : length (ws_slots (tx_w_set (st_tx sr))) = (ws_size ws * 2)%nat).
  { rewrite Htxr. cbn. apply length_resize. }
  assert (Hwr : w_ptr P (tx_w_set (st_tx sr)) (ws_nb_entries (tx_w_set (st_tx sr))) = w).
  { rewrite Hnbr. rewrite Htxr. reflexivity. }
  pose proof (acquire_no_check_eq P fuel addr value mask sr) as Hacq.
  rewrite (bind_ret _ _ _ _ _ (write_check_full_room P sr ltac:(lia))) in Hacq.
  specialize (Hacq ltac:(lia) ltac:(lia)).
  fold lock in Hacq. rewrite Hlk, Hwr in Hacq.
  exists (acquired P addr value mask sr).
  split.
  { unfold stm_write.
    rewrite (bind_ret _ _ s tt s) by (unfold assert; rewrite Hact; reflexivity).
    rewrite (write_free_eq P fuel addr value mask s Hfree Hirr Hrb Hnr).
    unfold bind at 1. rewrite (write_check_full_full P s Hfull), Hroll.
    exact Hacq. }
  assert (Htxa : st_tx (acquired P addr value mask sr) =
                 set_w_set (ws_append
                   {| w_addr := addr;
                      w_value := new_value (st_mem sr addr) value mask;
                      w_mask := mask;
                      w_version := LOCK_GET_TIMESTAMP (g_locks (st_g sr) lock);
                      w_lock := lock; w_next := 0 |}
                   (tx_w_set (st_tx sr))) (st_tx sr)) by reflexivity.
  unfold int_stm_aborted, int_stm_active.
  rewrite Htxa.
  cbn [set_w_set tx_status tx_nesting tx_w_set ws_append ws_nb_entries ws_size].
  rewrite Hnbr, Hszr, Htxr.
  cbn [set_nesting set_status tx_status tx_nesting].
  assert (Hla : g_locks (st_g (acquired P addr value mask sr)) lock = LOCK_SET_ADDR_WRITE w).
  { cbn. unfold upd. fold lock. rewrite Z.eqb_refl.
    rewrite <- Hwr. reflexivity. }
  rewrite Hla, LockFacts.set_addr_write_owned.
  repeat (split; [reflexivity|]).
  split; [discriminate|].
  repeat (split; [reflexivity|]).
  exists (st_hist sr). cbn [acquired st_hist with_tx record]. fold lock.
  rewrite Hlk, Hwr. reflexivity.
Qed.

Lemma store_into_full_write_set_without_retry_witness :
  exists s',
    stm_write sample_platform 1 96 5 Word.ones (sample_full false) = Ret 4160 s' /\
    int_stm_aborted (st_tx s') = true /\
    g_locks (st_g s') 3 = 4161.
Proof.
  destruct (store_into_full_write_set_without_retry sample_platform 0 96 5 Word.ones
              (sample_full false))
    as (s' & Hw & _ & Hab & _ & _ & Hl & _).
  - reflexivity.
  - reflexivity.
  - apply sample_full_wf.
  - unfold rs_bounded. cbn. lia.
  - reflexivity.
  - cbn. lia.
  - reflexivity.
  - intros Hgt. vm_compute in Hgt. discriminate Hgt.
  - reflexivity.
  - reflexivity.
  - exists s'. split; [exact Hw|]. split; [exact Hab | exact Hl].
Defined.

(** ** Preparing a transaction: snapshot and clock roll-over *)

Section Rollover.

Lemma raised_flag g :
  (g_quiesce (if g_quiesce g =? 0 then set_quiesce 1 g else g) =? 0) = false.
Proof.
  destruct (g_quiesce g =? 0) eqn:Hq; [reflexivity | exact Hq].
Qed.

Lemma raised_flag_threads g :
  g_threads_nb (if g_quiesce g =? 0 then set_quiesce 1 g else g) = g_threads_nb g.
Proof. destruct (g_quiesce g =? 0); reflexivity. Qed.

Lemma raised_flag_clock g :
  g_clock (if g_quiesce g =? 0 then set_quiesce 1 g else g) = g_clock g.
Proof. destruct (g_quiesce g =? 0); reflexivity. Qed.

(** The barrier when the calling thread is the only one registered. *)
Lemma stm_quiesce_barrier_alone s :
  IS_ACTIVE (tx_status (st_tx s)) = false ->
  g_threads_nb (st_g s) = 1 ->
  stm_quiesce_barrier s = Ret tt (barrier_passed s).
Proof.
  intros Hidle Hone. unfold stm_quiesce_barrier, barrier_passed.
  rewrite (bind_ret _ _ s tt s) by (unfold assert; rewrite Hidle; reflexivity).
  set (s1 := with_g (fun g => set_threads_nb (Word.sub (g_threads_nb g) 1) g) s).
  rewrite (bind_ret _ _ s tt s1) by reflexivity.
  set (s2 := with_g (fun g => if g_quiesce g =? 0 then set_quiesce 1 g else g) s1).
  rewrite (bind_ret _ _ s1 tt s2) by reflexivity.
  rewrite (bind_ret _ _ s2 (st_g s2) s2) by reflexivity.
  assert (Hq2 : (g_quiesce (st_g s2) =? 0) = false) by apply raised_flag.
  assert (Hn2 : (g_threads_nb (st_g s2) =? 0) = true).
  { unfold s2. cbn [with_g st_g]. rewrite raised_flag_threads.
    unfold s1. cbn. rewrite Hone. reflexivity. }
  rewrite Hq2, Hn2.
  rewrite (bind_ret _ _ s2 tt (with_g (set_quiesce 0) (st_rollover s2))) by reflexivity.
  reflexivity.
Qed.

(** The barrier when other threads are registered: the caller waits. *)
Lemma stm_quiesce_barrier_wait s :
  IS_ACTIVE (tx_status (st_tx s)) = false ->
  1 < g_threads_nb (st_g s) < Word.modulus ->
  stm_quiesce_barrier s =
  Blocked (with_g (fun g => if g_quiesce g =? 0 then set_quiesce 1 g else g)
             (with_g (fun g => set_threads_nb (Word.sub (g_threads_nb g) 1) g) s)).
Proof.
  intros Hidle Hmany. unfold stm_quiesce_barrier.
  rewrite (bind_ret _ _ s tt s) by (unfold assert; rewrite Hidle; reflexivity).
  set (s1 := with_g (fun g => set_threads_nb (Word.sub (g_threads_nb g) 1) g) s).
  rewrite (bind_ret _ _ s tt s1) by reflexivity.
  set (s2 := with_g (fun g => if g_quiesce g =? 0 then set_quiesce 1 g else g) s1).
  rewrite (bind_ret _ _ s1 tt s2) by reflexivity.
  rewrite (bind_ret _ _ s2 (st_g s2) s2) by reflexivity.
  assert (Hq2 : (g_quiesce (st_g s2) =? 0) = false) by apply raised_flag.
  assert (Hn2 : (g_threads_nb (st_g s2) =? 0) = false).
  { unfold s2. cbn [with_g st_g]. rewrite raised_flag_threads.
    unfold s1. cbn. apply Z.eqb_neq. unfold Word.sub, Word.wrap.
    rewrite Z.mod_small by lia. lia. }
  rewrite Hq2, Hn2. reflexivity.
Qed.

Lemma barrier_passed_fields s :
  g_threads_nb (st_g s) = 1 ->
  g_clock (st_g (barrier_passed s)) = 0 /\
  (forall l, g_locks (st_g (barrier_passed s)) l = 0) /\
  g_quiesce (st_g (barrier_passed s)) = 0 /\
  g_threads_nb (st_g (barrier_passed s)) = 1 /\
  st_mem (barrier_passed s) = st_mem s /\
  st_tx (barrier_passed s) = st_tx s /\
  st_hist (barrier_passed s) = EvRollover :: st_hist s.
Proof.
  intros Hone. unfold barrier_passed. cbn.
  destruct (g_quiesce (st_g s) =? 0); cbn; rewrite Hone; repeat split; reflexivity.
Qed.

End Rollover.

(** X15.  When the clock has reached [VERSION_MAX], preparing a
    transaction (at start or at retry) goes through the quiescence
    barrier.  If the calling thread is the only one registered, the
    roll-over runs: the clock and every lock word are reset to 0, and the
    transaction becomes active with an empty read and write set and the
    snapshot [start = end = 0]; the barrier flag and the thread count
    are back at 0 and 1 and memory is untouched.  If other threads are
    registered, the caller waits for them with the clock as it was. *)
Theorem prepare_rolls_clock_over (s : state) :
  VERSION_MAX <= g_clock (st_g s) ->
  IS_ACTIVE (tx_status (st_tx s)) = false ->
  (g_threads_nb (st_g s) = 1 ->
   exists s',
     int_stm_prepare s = Ret tt s' /\
     g_clock (st_g s') = 0 /\
     (forall l, g_locks (st_g s') l = 0) /\
     g_quiesce (st_g s') = 0 /\
     g_threads_nb (st_g s') = 1 /\
     st_mem s' = st_mem s /\
     st_hist s' = EvRollover :: st_hist s /\
     tx_status (st_tx s') = TX_ACTIVE /\
     tx_start (st_tx s') = 0 /\
     tx_end (st_tx s') = 0 /\
     ws_nb_entries (tx_w_set (st_tx s')) = 0%nat /\
     rs_nb_entries (tx_r_set (st_tx s')) = 0%nat) /\
  (1 < g_threads_nb (st_g s) < Word.modulus ->
   exists s',
     int_stm_prepare s = Blocked s' /\
     g_clock (st_g s') = g_clock (st_g s) /\
     g_locks (st_g s') = g_locks (st_g s) /\
     g_quiesce (st_g s') <> 0).
Proof.
  intros Hmax Hidle. unfold int_stm_prepare.
  set (sa := with_tx (fun tx =>
    set_r_set {| rs_slots := rs_slots (tx_r_set tx); rs_nb_entries := 0;
                 rs_size := rs_size (tx_r_set tx) |}
      (set_w_set {| ws_entries := ws_entries (tx_w_set tx);
                    ws_slots := ws_slots (tx_w_set tx);
                    ws_nb_entries := 0; ws_size := ws_size (tx_w_set tx);
                    ws_has_writes := 0 |} tx)) s).
  rewrite (bind_ret _ _ s tt sa) by reflexivity.
  set (sb := with_tx (fun tx => set_start (g_clock (st_g sa)) (set_end (g_clock (st_g sa)) tx))
               sa).
  assert (Hstart : prepare_start 2 sa = (stm_quiesce_barrier ;;; prepare_start 1) sb).
  { cbn [prepare_start].
    rewrite (bind_ret _ _ sa (g_clock (st_g sa)) sa) by reflexivity.
    rewrite (bind_ret _ _ sa tt sb) by reflexivity.
    change (g_clock (st_g sa)) with (g_clock (st_g s)).
    apply Z.leb_le in Hmax. rewrite Hmax. reflexivity. }
  assert (Hidle_b : IS_ACTIVE (tx_status (st_tx sb)) = false) by exact Hidle.
  split.
  - intros Hone.
    assert (Hone_b : g_threads_nb (st_g sb) = 1) by exact Hone.
    destruct (barrier_passed_fields sb Hone_b) as (Hc & Hl & Hq & Hn & Hm & Htx & Hh).
    set (sp := barrier_passed sb) in *.
    set (sc := with_tx (fun tx => set_start (g_clock (st_g sp)) (set_end (g_clock (st_g sp)) tx))
                 sp).
    assert (Hps : prepare_start 2 sa = Ret tt sc).
    { rewrite Hstart. rewrite (bind_ret _ _ _ _ _ (stm_quiesce_barrier_alone sb Hidle_b Hone_b)).
      fold sp. cbn [prepare_start].
      rewrite (bind_ret _ _ sp (g_clock (st_g sp)) sp) by reflexivity.
      rewrite (bind_ret _ _ sp tt sc) by reflexivity.
      rewrite Hc. reflexivity. }
    rewrite (bind_ret _ _ _ _ _ Hps).
    set (sd := with_tx (set_status TX_ACTIVE) sc).
    rewrite (bind_ret _ _ sc tt sd) by reflexivity.
    assert (Hcq : stm_check_quiesce sd = Ret 0 sd).
    { unfold stm_check_quiesce.
      rewrite (bind_ret _ _ sd tt sd) by reflexivity.
      rewrite (bind_ret _ _ sd (st_g sd) sd) by reflexivity.
      change (g_quiesce (st_g sd)) with (g_quiesce (st_g sp)). rewrite Hq. reflexivity. }
    rewrite (bind_ret _ _ _ _ _ Hcq).
    exists sd. split; [reflexivity|].
    change (st_g sd) with (st_g sp). change (st_mem sd) with (st_mem sp).
    change (st_hist sd) with (st_hist sp).
    split; [exact Hc|]. split; [exact Hl|]. split; [exact Hq|]. split; [exact Hn|].
    split; [exact Hm|]. split; [exact Hh|].
    unfold sd, sc. cbn [st_tx with_tx tx_status tx_start tx_end tx_w_set tx_r_set
                        set_status set_start set_end].
    rewrite Htx, Hc. repeat split; reflexivity.
  - intros Hmany.
    assert (Hmany_b : 1 < g_threads_nb (st_g sb) < Word.modulus) by exact Hmany.
    eexists. split.
    + unfold bind at 1. rewrite Hstart. unfold bind at 1.
      rewrite (stm_quiesce_barrier_wait sb Hidle_b Hmany_b). reflexivity.
    + cbn [with_g st_g]. rewrite raised_flag_clock.
      split; [reflexivity|]. split.
      * destruct (g_quiesce _ =? 0); reflexivity.
      * pose proof (raised_flag (set_threads_nb (Word.sub (g_threads_nb (st_g sb)) 1) (st_g sb)))
          as Hq.
        apply Z.eqb_neq in Hq. exact Hq.
Qed.

Lemma prepare_rolls_clock_over_witness :
  exists s',
    int_stm_prepare sample_late = Ret tt s' /\
    g_clock (st_g s') = 0 /\
    g_locks (st_g s') 3 = 0 /\
    tx_start (st_tx s') = 0.
Proof.
  destruct (prepare_rolls_clock_over sample_late) as (Halone & _).
  - cbn. lia.
  - reflexivity.
  - destruct Halone as (s' & Hp & Hc & Hl & _ & _ & _ & _ & _ & Hs & _); [reflexivity|].
    exists s'. split; [exact Hp|]. split; [exact Hc|]. split; [apply Hl | exact Hs].
Defined.

(** ** Starting a transaction *)

(** X16.  A start at nesting level 0, with the clock below
    [VERSION_MAX] and no quiescence requested, begins a transaction: it
    returns the jump buffer, takes the attributes given, empties the read
    and write sets, sets [start = end] to the current clock, makes the
    transaction active at nesting 1 and calls the start callbacks in
    registration order; the shared state is not touched.  From then on
    [int_stm_get_env] answers [NULL].  If, besides, no lock word points
    into the write-set array, the write-set invariant holds in the state
    reached. *)
Theorem start_top_level
    (P : platform) (r : registry_t) (attr : stm_tx_attr_t) (s : state) :
  tx_nesting (st_tx s) = 0 ->
  g_clock (st_g s) < VERSION_MAX ->
  g_quiesce (st_g s) <> 2 ->
  exists s',
    int_stm_start r attr s = Ret env_of_tx s' /\
    st_tx s' = prepared_tx (g_clock (st_g s)) (set_attr attr (set_nesting 1 (st_tx s))) /\
    tx_attr (st_tx s') = attr /\
    tx_start (st_tx s') = g_clock (st_g s) /\
    tx_end (st_tx s') = g_clock (st_g s) /\
    int_stm_active (st_tx s') = true /\
    int_stm_get_env (st_tx s') = env_NULL /\
    read_set (st_tx s') = [] /\
    write_set (st_tx s') = [] /\
    st_g s' = st_g s /\
    st_mem s' = st_mem s /\
    st_hist s' =
      rev (map (fun cb => EvCallback (cb_f cb) (cb_arg cb)) (g_start_cb r)) ++ st_hist s /\
    (length (ws_slots (tx_w_set (st_tx s))) = ws_size (tx_w_set (st_tx s)) ->
     0 < ws_entries (tx_w_set (st_tx s)) ->
     Z.testbit (ws_entries (tx_w_set (st_tx s))) 0 = false ->
     w_ptr P (tx_w_set (st_tx s)) (ws_size (tx_w_set (st_tx s))) <= Word.modulus ->
     (forall l, LOCK_GET_OWNED (g_locks (st_g s) l) <> 0 ->
        ~ (ws_entries (tx_w_set (st_tx s)) <= LOCK_GET_ADDR (g_locks (st_g s) l)
           < w_ptr P (tx_w_set (st_tx s)) (ws_size (tx_w_set (st_tx s))))) ->
     ws_wf P s' /\ versions_captured s' /\ read_set_valid P s').
Proof.
  intros Hn Hclk Hq. unfold int_stm_start.
  rewrite (bind_ret _ _ s (st_tx s) s) by reflexivity.
  set (s1 := with_tx (set_nesting (wrap32 (tx_nesting (st_tx s) + 1))) s).
  rewrite (bind_ret _ _ s tt s1) by reflexivity.
  rewrite Hn. cbn [Z.gtb Z.compare].
  set (s2 := with_tx (set_attr attr) s1).
  rewrite (bind_ret _ _ s1 tt s2) by reflexivity.
  rewrite (bind_ret _ _ _ _ _ (int_stm_prepare_eq s2 Hclk Hq)).
  set (s3 := with_tx (prepared_tx (g_clock (st_g s2))) s2).
  rewrite (bind_ret _ _ _ _ _ (run_callbacks_eq _ s3)).
  set (s4 := callbacks_called (g_start_cb r) s3).
  destruct (callbacks_called_frame (g_start_cb r) s3) as (Htx & Hg & Hm). fold s4 in Htx, Hg, Hm.
  assert (Htx4 : st_tx s4 =
            prepared_tx (g_clock (st_g s)) (set_attr attr (set_nesting 1 (st_tx s)))).
  { rewrite Htx. unfold s3, s2, s1. cbn [st_tx with_tx st_g]. rewrite Hn. reflexivity. }
  exists s4. split; [reflexivity|].
  split; [exact Htx4|].
  rewrite Htx4, Hg, Hm.
  repeat (split; [reflexivity|]).
  split; [unfold s4; rewrite callbacks_called_hist; reflexivity|].
  intros Hlen Hpos Heven Htop Hfree.
  assert (Hwf : ws_wf P s4 /\ versions_captured s4).
  { apply wf_empty; rewrite ?Htx4, ?Hg; assumption || reflexivity. }
  split; [apply Hwf|]. split; [apply Hwf|].
  unfold read_set_valid, read_set. rewrite Htx4. constructor.
Qed.

Lemma start_top_level_witness :
  exists s',
    int_stm_start {| g_nb_specific := 0; g_init_cb := []; g_exit_cb := [];
                     g_start_cb := [ {| cb_f := 500; cb_arg := 1 |};
                                     {| cb_f := 600; cb_arg := 2 |} ] |}
      {| read_only := false; no_retry := true |}
      (with_g (set_clock 9) sample_late) = Ret env_of_tx s' /\
    tx_start (st_tx s') = 9 /\
    st_hist s' = [EvCallback 600 2; EvCallback 500 1].
Proof.
  destruct (start_top_level sample_platform
              {| g_nb_specific := 0; g_init_cb := []; g_exit_cb := [];
                 g_start_cb := [ {| cb_f := 500; cb_arg := 1 |};
                                 {| cb_f := 600; cb_arg := 2 |} ] |}
              {| read_only := false; no_retry := true |}
              (with_g (set_clock 9) sample_late))
    as (s' & Hs & _ & _ & Hst & _ & _ & _ & _ & _ & _ & _ & Hh & _).
  - reflexivity.
  - reflexivity.
  - discriminate.
  - exists s'. split; [exact Hs|]. split; [exact Hst | exact Hh].
Defined.

(** X17.  Flat nesting.  A start inside a transaction (nesting level at
    least 1) only steps the nesting counter up and returns [NULL]: the
    attributes passed are ignored, no snapshot is taken and no callback
    is called.  Followed by a commit, which steps the counter down again
    and returns 1, it leaves the state exactly as it was. *)
Theorem start_nested_then_commit
    (P : platform) (r : registry_t) (attr : stm_tx_attr_t) (s : state) :
  0 < tx_nesting (st_tx s) ->
  tx_nesting (st_tx s) + 1 < 2 ^ 32 ->
  int_stm_start r attr s =
    Ret env_NULL (with_tx (set_nesting (tx_nesting (st_tx s) + 1)) s) /\
  (int_stm_start r attr ;;; int_stm_commit P) s = Ret 1 s.
Proof.
  intros Hpos Hmax.
  assert (Hs : int_stm_start r attr s =
               Ret env_NULL (with_tx (set_nesting (tx_nesting (st_tx s) + 1)) s)).
  { unfold int_stm_start.
    rewrite (bind_ret _ _ s (st_tx s) s) by reflexivity.
    rewrite (bind_ret _ _ s tt (with_tx (set_nesting (wrap32 (tx_nesting (st_tx s) + 1))) s))
      by reflexivity.
    replace (tx_nesting (st_tx s) >? 0) with true by (symmetry; apply Z.gtb_gt; lia).
    unfold wrap32. rewrite Z.mod_small by lia. reflexivity. }
  split; [exact Hs|].
  rewrite (bind_ret _ _ _ _ _ Hs).
  set (s1 := with_tx (set_nesting (tx_nesting (st_tx s) + 1)) s).
  unfold int_stm_commit.
  set (s2 := with_tx (fun tx => set_nesting (wrap32 (tx_nesting tx - 1)) tx) s1).
  rewrite (bind_ret _ _ s1 tt s2) by reflexivity.
  rewrite (bind_ret _ _ s2 (st_tx s2) s2) by reflexivity.
  assert (Hn2 : tx_nesting (st_tx s2) = tx_nesting (st_tx s)).
  { unfold s2, s1. cbn. unfold wrap32.
    replace (tx_nesting (st_tx s) + 1 - 1) with (tx_nesting (st_tx s)) by lia.
    apply Z.mod_small. lia. }
  rewrite Hn2.
  replace (tx_nesting (st_tx s) >? 0) with true by (symmetry; apply Z.gtb_gt; lia).
  unfold ret. f_equal.
  unfold s2, s1. destruct s as [g m tx h]. unfold with_tx. cbn [st_g st_mem st_tx st_hist].
  f_equal. cbn [set_nesting tx_nesting]. unfold wrap32.
  replace (tx_nesting tx + 1 - 1) with (tx_nesting tx) by lia.
  cbn in Hpos, Hmax. rewrite Z.mod_small by lia. destruct tx. reflexivity.
Qed.

Lemma start_nested_then_commit_witness :
  (int_stm_start {| g_nb_specific := 0; g_init_cb := []; g_exit_cb := []; g_start_cb := [] |}
     {| read_only := true; no_retry := true |} ;;;
   int_stm_commit sample_platform) (sample_active true) = Ret 1 (sample_active true).
Proof.
  destruct (start_nested_then_commit sample_platform
              {| g_nb_specific := 0; g_init_cb := []; g_exit_cb := []; g_start_cb := [] |}
              {| read_only := true; no_retry := true |} (sample_active true))
    as (_ & H); [reflexivity | reflexivity | exact H].
Defined.

(** ** Module registration and transaction-specific data *)

Section Registry.

Lemma cb_full_spec f table :
  cb_full f table = true <-> f <> 0 /\ MAX_CB <= Z.of_nat (length table).
Proof.
  unfold cb_full. rewrite andb_true_iff, negb_true_iff, Z.eqb_neq, Z.leb_le. tauto.
Qed.

Lemma cb_add_length f arg table :
  cb_full f table = false ->
  Z.of_nat (length table) <= MAX_CB ->
  Z.of_nat (length (cb_add f arg table)) <= MAX_CB.
Proof.
  unfold cb_full, cb_add, MAX_CB. intros Hf Hlen.
  destruct (f =? 0); cbn [negb andb] in *; [exact Hlen|].
  apply Z.leb_gt in Hf. rewrite length_app. cbn [length]. lia.
Qed.

Lemma cb_add_spec f arg table :
  cb_add f arg table =
  if f =? 0 then table else table ++ [ {| cb_f := f; cb_arg := arg |} ].
Proof. unfold cb_add. destruct (f =? 0); reflexivity. Qed.

End Registry.

(** X18.  [stm_register] is all or nothing.  It returns 0 exactly when
    the table of one of the hooks asked for (function not [NULL]) already
    holds [MAX_CB] entries, and then no table changes, not even those
    with room.  Otherwise it returns 1 and appends the function with the
    argument at the end of the table of every hook asked for, so that it
    is called after the callbacks registered before; the other tables and
    the rest of the engine are unchanged.  No table ever grows beyond
    [MAX_CB]. *)
Theorem register_all_or_nothing
    (on_thread_init on_thread_exit on_start on_precommit on_commit on_abort arg : Z)
    (r : registry_t) (g : global_t) :
  let res := stm_register on_thread_init on_thread_exit on_start
               on_precommit on_commit on_abort arg r g in
  let r' := fst (snd res) in
  let g' := snd (snd res) in
  let add f table := if f =? 0 then table else table ++ [ {| cb_f := f; cb_arg := arg |} ] in
  let full f table := f <> 0 /\ MAX_CB <= Z.of_nat (length table) in
  let some_full :=
    full on_thread_init (g_init_cb r) \/ full on_thread_exit (g_exit_cb r) \/
    full on_start (g_start_cb r) \/ full on_precommit (g_precommit_cb g) \/
    full on_commit (g_commit_cb g) \/ full on_abort (g_abort_cb g) in
  (some_full -> res = (0, (r, g))) /\
  (~ some_full ->
   fst res = 1 /\
   g_init_cb r' = add on_thread_init (g_init_cb r) /\
   g_exit_cb r' = add on_thread_exit (g_exit_cb r) /\
   g_start_cb r' = add on_start (g_start_cb r) /\
   g_precommit_cb g' = add on_precommit (g_precommit_cb g) /\
   g_commit_cb g' = add on_commit (g_commit_cb g) /\
   g_abort_cb g' = add on_abort (g_abort_cb g)) /\
  g_nb_specific r' = g_nb_specific r /\
  g_locks g' = g_locks g /\ g_clock g' = g_clock g /\
  g_quiesce g' = g_quiesce g /\ g_threads_nb g' = g_threads_nb g /\
  (Forall (fun table => Z.of_nat (length table) <= MAX_CB)
     [g_init_cb r; g_exit_cb r; g_start_cb r;
      g_precommit_cb g; g_commit_cb g; g_abort_cb g] ->
   Forall (fun table => Z.of_nat (length table) <= MAX_CB)
     [g_init_cb r'; g_exit_cb r'; g_start_cb r';
      g_precommit_cb g'; g_commit_cb g'; g_abort_cb g']).
Proof.
  intros res r' g' add full some_full.
  subst r' g' res. unfold stm_register.
  destruct (cb_full on_thread_init (g_init_cb r)) eqn:F1.
  { cbn [orb fst snd]. split; [reflexivity|]. split.
    - intros Hn. exfalso. apply Hn. left. apply cb_full_spec. exact F1.
    - repeat (split; [reflexivity|]). intros Hcap. exact Hcap. }
  destruct (cb_full on_thread_exit (g_exit_cb r)) eqn:F2.
  { cbn [orb fst snd]. split; [reflexivity|]. split.
    - intros Hn. exfalso. apply Hn. right. left. apply cb_full_spec. exact F2.
    - repeat (split; [reflexivity|]). intros Hcap. exact Hcap. }
  destruct (cb_full on_start (g_start_cb r)) eqn:F3.
  { cbn [orb fst snd]. split; [reflexivity|]. split.
    - intros Hn. exfalso. apply Hn. right. right. left. apply cb_full_spec. exact F3.
    - repeat (split; [reflexivity|]). intros Hcap. exact Hcap. }
  destruct (cb_full on_precommit (g_precommit_cb g)) eqn:F4.
  { cbn [orb fst snd]. split; [reflexivity|]. split.
    - intros Hn. exfalso. apply Hn. do 3 right. left. apply cb_full_spec. exact F4.
    - repeat (split; [reflexivity|]). intros Hcap. exact Hcap. }
  destruct (cb_full on_commit (g_commit_cb g)) eqn:F5.
  { cbn [orb fst snd]. split; [reflexivity|]. split.
    - intros Hn. exfalso. apply Hn. do 4 right. left. apply cb_full_spec. exact F5.
    - repeat (split; [reflexivity|]). intros Hcap. exact Hcap. }
  destruct (cb_full on_abort (g_abort_cb g)) eqn:F6.
  { cbn [orb fst snd]. split; [reflexivity|]. split.
    - intros Hn. exfalso. apply Hn. do 5 right. apply cb_full_spec. exact F6.
    - repeat (split; [reflexivity|]). intros Hcap. exact Hcap. }
  cbn [orb fst snd].
  split.
  { intros Hf. exfalso. unfold some_full, full in Hf.
    rewrite <- !cb_full_spec in Hf. rewrite F1, F2, F3, F4, F5, F6 in Hf.
    intuition discriminate. }
  split.
  { intros _. split; [reflexivity|]. unfold add.
    cbn [set_init_cb set_exit_cb set_start_cb set_precommit_cb set_commit_cb set_abort_cb
         g_init_cb g_exit_cb g_start_cb g_precommit_cb g_commit_cb g_abort_cb].
    rewrite !cb_add_spec. repeat split; reflexivity. }
  repeat (split; [reflexivity|]).
  intros Hcap.
  cbn [set_init_cb set_exit_cb set_start_cb set_precommit_cb set_commit_cb set_abort_cb
       g_init_cb g_exit_cb g_start_cb g_precommit_cb g_commit_cb g_abort_cb].
  inversion Hcap as [|? ? C1 Hc1]; subst. inversion Hc1 as [|? ? C2 Hc2]; subst.
  inversion Hc2 as [|? ? C3 Hc3]; subst. inversion Hc3 as [|? ? C4 Hc4]; subst.
  inversion Hc4 as [|? ? C5 Hc5]; subst. inversion Hc5 as [|? ? C6 _]; subst.
  repeat constructor; apply cb_add_length; assumption.
Qed.

(** X19.  Transaction-specific slots.  [stm_create_specific] hands out
    the keys 0, 1, ... in turn and never more than [MAX_SPECIFIC] of
    them: when all are taken it returns -1 and changes nothing.  A key it
    returns was not accepted by [int_stm_set_specific] before the call
    (the assertion on the key fails) and is accepted afterwards; the data
    stored under it is what [int_stm_get_specific] returns, and the data
    under every other key is unaffected. *)
Theorem specific_slots (r : registry_t) (d : list Z) (data : Z) :
  (g_nb_specific r <= Z.to_nat MAX_SPECIFIC)%nat ->
  length d = Z.to_nat MAX_SPECIFIC ->
  let key := fst (stm_create_specific r) in
  let r' := snd (stm_create_specific r) in
  (g_nb_specific r' <= Z.to_nat MAX_SPECIFIC)%nat /\
  (g_nb_specific r = Z.to_nat MAX_SPECIFIC -> key = -1 /\ r' = r) /\
  ((g_nb_specific r < Z.to_nat MAX_SPECIFIC)%nat ->
   key = Z.of_nat (g_nb_specific r) /\
   g_nb_specific r' = S (g_nb_specific r) /\
   int_stm_set_specific r key data d = None /\
   int_stm_get_specific r key d = None /\
   exists d',
     int_stm_set_specific r' key data d = Some d' /\
     length d' = length d /\
     int_stm_get_specific r' key d' = Some data /\
     (forall k, k <> key ->
        int_stm_get_specific r' k d' = int_stm_get_specific r' k d)).
Proof.
  intros Hcap Hlen key r'. subst key r'. unfold stm_create_specific.
  change (Z.to_nat MAX_SPECIFIC) with 7%nat in *. change MAX_SPECIFIC with 7.
  destruct (Z.leb_spec 7 (Z.of_nat (g_nb_specific r))) as [Hfull|Hroom];
    cbn [fst snd set_nb_specific g_nb_specific].
  - split; [exact Hcap|]. split; [intros _; split; reflexivity | intros Hlt; lia].
  - split; [lia|]. split; [intros He; lia|]. intros _.
    split; [reflexivity|]. split; [reflexivity|].
    assert (Hbad : specific_key_ok r (Z.of_nat (g_nb_specific r)) = false).
    { unfold specific_key_ok. rewrite Z.ltb_irrefl. apply andb_false_r. }
    assert (Hok : specific_key_ok (set_nb_specific (S (g_nb_specific r)) r)
                    (Z.of_nat (g_nb_specific r)) = true).
    { unfold specific_key_ok. cbn [set_nb_specific g_nb_specific].
      apply andb_true_iff. split; [apply Z.leb_le | apply Z.ltb_lt]; lia. }
    unfold int_stm_set_specific, int_stm_get_specific.
    rewrite Hbad, Hok, Nat2Z.id. cbn [andb].
    split; [reflexivity|]. split; [reflexivity|].
    replace (g_nb_specific r <? length d)%nat with true
      by (symmetry; apply Nat.ltb_lt; lia).
    eexists. split; [reflexivity|].
    split; [apply length_insert|].
    split; [apply list_lookup_insert_eq; lia|].
    intros k Hk.
    destruct (specific_key_ok (set_nb_specific (S (g_nb_specific r)) r) k) eqn:Hkok;
      [|reflexivity].
    apply list_lookup_insert_ne.
    unfold specific_key_ok in Hkok. apply andb_true_iff in Hkok.
    destruct Hkok as [Hk0 _]. apply Z.leb_le in Hk0.
    intros He. apply Hk. rewrite He. rewrite Z2Nat.id by exact Hk0. reflexivity.
Qed.

Lemma specific_slots_witness :
  fst (stm_create_specific
         {| g_nb_specific := 6; g_init_cb := []; g_exit_cb := []; g_start_cb := [] |}) = 6 /\
  fst (stm_create_specific
         {| g_nb_specific := 7; g_init_cb := []; g_exit_cb := []; g_start_cb := [] |}) = -1.
Proof.
  destruct (specific_slots
              {| g_nb_specific := 6; g_init_cb := []; g_exit_cb := []; g_start_cb := [] |}
              [0; 0; 0; 0; 0; 0; 0] 42) as (_ & _ & Hroom); [vm_compute; lia | reflexivity |].
  destruct (specific_slots
              {| g_nb_specific := 7; g_init_cb := []; g_exit_cb := []; g_start_cb := [] |}
              [0; 0; 0; 0; 0; 0; 0] 42) as (_ & Hfull & _); [vm_compute; lia | reflexivity |].
  split.
  - destruct Hroom as (Hk & _); [vm_compute; lia | exact Hk].
  - destruct Hfull as (Hk & _); [reflexivity | exact Hk].
Defined.

(** ** More of the lock-word encoding *)

Section Incarnation.

Import Word WordFacts.

Lemma testbit_15 j : 0 <= j -> Z.testbit 15 j = (j <? 4).
Proof.
  intros Hj. change 15 with (Z.ones 4).
  destruct (Z.ltb_spec j 4).
  - apply Z.ones_spec_low. lia.
  - apply Z.ones_spec_high. lia.
Qed.

Lemma testbit_14 j : 0 <= j -> Z.testbit 14 j = (0 <? j) && (j <? 4).
Proof.
  intros Hj.
  destruct (Z.eq_dec j 0) as [->|H0]; [reflexivity|].
  destruct (Z.eq_dec j 1) as [->|H1]; [reflexivity|].
  destruct (Z.eq_dec j 2) as [->|H2]; [reflexivity|].
  destruct (Z.eq_dec j 3) as [->|H3]; [reflexivity|].
  rewrite (testbit_beyond 14 4 j) by lia.
  symmetry. apply andb_false_iff. right. apply Z.ltb_ge. lia.
Qed.

(** The bits of a lock word after its incarnation was set to [i]. *)
Lemma upd_incarnation_bits l i j :
  in_range l -> 0 <= i <= INCARNATION_MAX -> 0 <= j ->
  Z.testbit (LOCK_UPD_INCARNATION l i) j =
  if j =? 0 then false
  else if j <? 4 then Z.testbit i (j - 1)
  else Z.testbit l j.
Proof.
  change INCARNATION_MAX with 7. intros Hl Hi Hj.
  unfold LOCK_UPD_INCARNATION, LOCK_SET_INCARNATION, shl.
  change (Z.lor INCARNATION_MASK OWNED_MASK) with 15. change OWNED_BITS with 1.
  rewrite wrap_small
    by (unfold in_range; rewrite modulus_eq; rewrite Z.shiftl_mul_pow2 by lia;
        change (2 ^ 1) with 2; lia).
  rewrite Z.lor_spec, Z.land_spec, not_spec, testbit_15, Z.shiftl_spec by exact Hj.
  destruct (Z.eqb_spec j 0) as [->|H0].
  - cbn. rewrite andb_false_r. reflexivity.
  - destruct (Z.ltb_spec j 4) as [Hlt|Hge].
    + replace (j <? WORD_BITS) with true
        by (symmetry; apply Z.ltb_lt; unfold WORD_BITS; lia).
      cbn. rewrite andb_false_r. reflexivity.
    + rewrite (testbit_beyond i 3 (j - 1)) by (try change (2 ^ 3) with 8; lia).
      rewrite orb_false_r. cbn [xorb].
      destruct (Z.ltb_spec j WORD_BITS) as [Hw|Hw].
      * apply andb_true_r.
      * rewrite (testbit_high l j Hl Hw). reflexivity.
Qed.

End Incarnation.

(** X20.  The incarnation field of a lock word round-trips: after
    [LOCK_UPD_INCARNATION(l, i)] with [i] at most [INCARNATION_MAX],
    [LOCK_GET_INCARNATION] gives back [i], the owned bit is clear, and
    the timestamp is the timestamp of [l]: the update touches nothing
    above the four low bits. *)
Theorem incarnation_roundtrip (l i : Z) :
  Word.in_range l ->
  0 <= i <= INCARNATION_MAX ->
  LOCK_GET_INCARNATION (LOCK_UPD_INCARNATION l i) = i /\
  LOCK_GET_OWNED (LOCK_UPD_INCARNATION l i) = 0 /\
  LOCK_GET_TIMESTAMP (LOCK_UPD_INCARNATION l i) = LOCK_GET_TIMESTAMP l.
Proof.
  intros Hl Hi.
  split; [|split].
  - unfold LOCK_GET_INCARNATION, Word.shr. change OWNED_BITS with 1.
    change INCARNATION_MASK with 14.
    apply Z.bits_inj'. intros j Hj.
    rewrite Z.shiftr_spec, Z.land_spec, testbit_14, upd_incarnation_bits by (assumption || lia).
    replace (j + 1 =? 0) with false by (symmetry; apply Z.eqb_neq; lia).
    replace (0 <? j + 1) with true by (symmetry; apply Z.ltb_lt; lia).
    replace (j + 1 - 1) with j by lia.
    destruct (Z.ltb_spec (j + 1) 4) as [Hlt|Hge].
    + apply andb_true_r.
    + cbn [andb]. rewrite andb_false_r. symmetry.
      change INCARNATION_MAX with 7 in Hi.
      apply (WordFacts.testbit_beyond i 3 j); try change (2 ^ 3) with 8; lia.
  - unfold LOCK_GET_OWNED. change OWNED_MASK with 1.
    apply Z.bits_inj'. intros j Hj.
    rewrite Z.land_spec, Z.bits_0, upd_incarnation_bits by assumption.
    destruct (Z.eqb_spec j 0) as [->|H0]; [reflexivity|].
    rewrite (WordFacts.testbit_beyond 1 1 j) by lia. apply andb_false_r.
  - unfold LOCK_GET_TIMESTAMP, Word.shr. change LOCK_BITS with 4.
    apply Z.bits_inj'. intros j Hj.
    rewrite !Z.shiftr_spec, upd_incarnation_bits by (assumption || lia).
    replace (j + 4 =? 0) with false by (symmetry; apply Z.eqb_neq; lia).
    replace (j + 4 <? 4) with false by (symmetry; apply Z.ltb_ge; lia).
    reflexivity.
Qed.

Lemma incarnation_roundtrip_witness :
  LOCK_GET_INCARNATION (LOCK_UPD_INCARNATION (LOCK_SET_TIMESTAMP 5) 7) = 7 /\
  LOCK_GET_TIMESTAMP (LOCK_UPD_INCARNATION (LOCK_SET_TIMESTAMP 5) 7) = 5.
Proof.
  destruct (incarnation_roundtrip (LOCK_SET_TIMESTAMP 5) 7) as (Hi & _ & Ht).
  - apply LockFacts.set_timestamp_range.
  - vm_compute. split; discriminate.
  - split; [exact Hi | rewrite Ht; reflexivity].
Defined.

Lemma GET_LOCK_div (x : Z) : GET_LOCK x = (x / 32) mod LOCK_ARRAY_SIZE.
Proof.
  unfold GET_LOCK, LOCK_IDX, Word.shr.
  change LOCK_MASK with (Z.ones 20). change LOCK_SHIFT with 5.
  rewrite Z.land_ones by lia. rewrite Z.shiftr_div_pow2 by lia. reflexivity.
Qed.

(** Wrapping an address to the word size does not change its lock. *)
Lemma GET_LOCK_wrap (x : Z) : GET_LOCK (Word.wrap x) = GET_LOCK x.
Proof.
  rewrite !GET_LOCK_div. unfold Word.wrap. rewrite WordFacts.modulus_eq.
  change LOCK_ARRAY_SIZE with 1048576.
  rewrite (Z.div_mod x 18446744073709551616) at 2 by lia.
  replace (18446744073709551616 * (x / 18446744073709551616) +
           x mod 18446744073709551616)
    with (x mod 18446744073709551616 +
          (x / 18446744073709551616 * 576460752303423488) * 32) by lia.
  rewrite Z.div_add by lia.
  replace (x / 18446744073709551616 * 576460752303423488)
    with ((x / 18446744073709551616 * 549755813888) * 1048576) by lia.
  symmetry. apply Z_mod_plus_full.
Qed.

(** X21.  The lock of an address.  [GET_LOCK] always yields an index
    within the lock array.  It takes bits 5 to 24 of the address, so the
    four words of a 32-byte stripe share a lock, the next stripe has
    another lock, and two addresses that differ by a multiple of
    [32 * LOCK_ARRAY_SIZE] bytes share a lock as well (sums taken as the
    machine takes them, modulo the word size). *)
Theorem lock_of_address (a b k : Z) :
  0 <= GET_LOCK a < LOCK_ARRAY_SIZE /\
  GET_LOCK a = (a / 32) mod LOCK_ARRAY_SIZE /\
  (a / 32 = b / 32 -> GET_LOCK a = GET_LOCK b) /\
  GET_LOCK (Word.wrap (a + 32)) <> GET_LOCK a /\
  GET_LOCK (Word.wrap (a + k * (32 * LOCK_ARRAY_SIZE))) = GET_LOCK a.
Proof.
  rewrite !GET_LOCK_wrap.
  pose proof GET_LOCK_div as Hidx.
  change LOCK_ARRAY_SIZE with 1048576 in *.
  split; [rewrite Hidx; apply Z.mod_pos_bound; lia|].
  split; [apply Hidx|].
  split; [intros He; rewrite !Hidx, He; reflexivity|].
  split.
  - rewrite !Hidx.
    replace (a + 32) with (a + 1 * 32) by lia. rewrite Z.div_add by lia.
    intros He.
    pose proof (Z.mod_pos_bound (a / 32) 1048576 ltac:(lia)) as Hb.
    rewrite <- (Zplus_mod_idemp_l (a / 32) 1 1048576) in He.
    remember ((a / 32) mod 1048576) as m eqn:Hm.
    destruct (Z.eq_dec m 1048575) as [Hlast|Hnot].
    + rewrite Hlast in He. vm_compute in He. discriminate He.
    + rewrite (Z.mod_small (m + 1)) in He by lia. lia.
  - rewrite !Hidx.
    replace (a + k * (32 * 1048576)) with (a + (k * 1048576) * 32) by lia.
    rewrite Z.div_add by lia. apply Z_mod_plus_full.
Qed.

(** ** Barriers of the compiler interface *)

Section WriteAfterWrite.

Variable P : platform.

(** The walk of [stm_wbetl_WaW] updates the entry for the address as
    [stm_wbetl_write] does. *)
Lemma WaW_walk_found s addr value mask i k :
  reaches P (tx_w_set (st_tx s)) addr i k ->
  forall fuel ek,
    (k - i < fuel)%nat ->
    ws_slots (tx_w_set (st_tx s)) !! k = Some ek ->
    w_addr ek = addr ->
    WaW_walk P fuel addr value mask (w_ptr P (tx_w_set (st_tx s)) i) s =
    Ret tt (merged k ek addr value mask s).
Proof.
  induction 1 as [i|i j k e He Ha Hn0 Hn Hij Hr IH]; intros fuel ek Hf Hek Hak.
  - destruct fuel as [|fuel]; [lia|]. cbn [WaW_walk].
    rewrite (bind_ret _ _ _ _ _ (w_deref_ptr P s i ek Hek)).
    rewrite Hak, Z.eqb_refl.
    pose proof (write_merge_eq P s i ek addr value mask Hek) as Hm.
    unfold write_merge in Hm.
    bind_inv Hm E1. rewrite (bind_ret _ _ _ _ _ E1).
    bind_inv Hm E2. rewrite (bind_ret _ _ _ _ _ E2).
    bind_inv Hm E3. unfold ret in Hm. injection Hm as <-.
    destruct v1. reflexivity.
  - pose proof (reaches_le _ _ _ _ _ Hr).
    destruct fuel as [|fuel]; [lia|]. cbn [WaW_walk].
    rewrite (bind_ret _ _ _ _ _ (w_deref_ptr P s i e He)).
    replace (addr =? w_addr e) with false by (symmetry; apply Z.eqb_neq; congruence).
    rewrite (bind_ret _ _ s tt s)
      by (unfold assert; replace (w_next e =? 0) with false
            by (symmetry; apply Z.eqb_neq; exact Hn0); reflexivity).
    rewrite Hn. apply (IH fuel ek); [lia | exact Hek | exact Hak].
Qed.

(** The walk fails the assertion [w->next != NULL] at the end of a
    bucket without an entry for the address. *)
Lemma WaW_walk_tail s addr value mask i k :
  reaches P (tx_w_set (st_tx s)) addr i k ->
  forall fuel ek,
    (k - i < fuel)%nat ->
    ws_slots (tx_w_set (st_tx s)) !! k = Some ek ->
    w_addr ek <> addr -> w_next ek = 0 ->
    WaW_walk P fuel addr value mask (w_ptr P (tx_w_set (st_tx s)) i) s = AssertFail s.
Proof.
  induction 1 as [i|i j k e He Ha Hn0 Hn Hij Hr IH]; intros fuel ek Hf Hek Hak Hnk.
  - destruct fuel as [|fuel]; [lia|]. cbn [WaW_walk].
    rewrite (bind_ret _ _ _ _ _ (w_deref_ptr P s i ek Hek)).
    replace (addr =? w_addr ek) with false by (symmetry; apply Z.eqb_neq; congruence).
    unfold bind, assert. rewrite Hnk. reflexivity.
  - pose proof (reaches_le _ _ _ _ _ Hr).
    destruct fuel as [|fuel]; [lia|]. cbn [WaW_walk].
    rewrite (bind_ret _ _ _ _ _ (w_deref_ptr P s i e He)).
    replace (addr =? w_addr e) with false by (symmetry; apply Z.eqb_neq; congruence).
    rewrite (bind_ret _ _ s tt s)
      by (unfold assert; replace (w_next e =? 0) with false
            by (symmetry; apply Z.eqb_neq; exact Hn0); reflexivity).
    rewrite Hn. apply (IH fuel ek); [lia | exact Hek | exact Hak | exact Hnk].
Qed.

End WriteAfterWrite.

(** X22.  Write after write.  When the transaction owns the lock of the
    address, the bucket of that lock has an entry for the address and the
    mask is not 0, [int_stm_WaW] returns and leaves exactly the state the
    general store barrier [stm_wbetl_write] leaves: the entry updated in
    place, nothing else changed. *)
Theorem write_after_write_merges
    (P : platform) (fuel : nat) (addr value mask : Z) (s : state)
    (j : nat) (ej : w_entry) :
  owned_by_tx P s (GET_LOCK addr) ->
  bucket_entry P s addr j ej ->
  mask <> 0 ->
  int_stm_WaW P addr value mask s = Ret tt (merged j ej addr value mask s) /\
  stm_wbetl_write P (S fuel) addr value mask s =
    Ret (w_ptr P (tx_w_set (st_tx s)) j) (merged j ej addr value mask s).
Proof.
  intros Ho Hb Hm.
  split; [|apply write_owned_found; assumption].
  destruct Ho as [Ho Hc]. destruct Hb as (h & Hh & Hr & Hj & Ha).
  unfold int_stm_WaW, stm_wbetl_WaW.
  rewrite (bind_ret _ _ s (g_locks (st_g s) (GET_LOCK addr)) s) by reflexivity.
  change (LOCK_GET_WRITE (g_locks (st_g s) (GET_LOCK addr)))
    with (LOCK_GET_OWNED (g_locks (st_g s) (GET_LOCK addr))).
  apply Z.eqb_neq in Ho, Hm.
  rewrite (bind_ret _ _ s tt s) by (unfold assert; rewrite Ho; reflexivity).
  cbv zeta.
  rewrite (bind_ret _ _ s tt s) by (unfold assert; rewrite Hc; reflexivity).
  rewrite (bind_ret _ _ s tt s) by (unfold assert; rewrite Hm; reflexivity).
  rewrite (bind_ret _ _ s (st_tx s) s) by reflexivity.
  rewrite Hh. apply (WaW_walk_found P s addr value mask h j Hr _ ej); [|exact Hj | exact Ha].
  pose proof (lookup_lt_Some _ _ _ Hj). lia.
Qed.

Lemma write_after_write_merges_witness :
  int_stm_WaW sample_platform 232 17 255 sample_two =
    (stm_wbetl_write sample_platform 1 232 17 255 ;;; ret tt) sample_two.
Proof.
  destruct (write_after_write_merges sample_platform 0 232 17 255 sample_two 1 _
              ltac:(split; vm_compute; congruence) sample_two_bucket_entry
              ltac:(discriminate)) as [Hw Hs].
  unfold bind. rewrite Hw, Hs. reflexivity.
Defined.

(** X23.  [int_stm_WaW] is only for an address the transaction wrote
    before: it fails an assertion, in the state it started in, when the
    lock of the address is free, when the lock word does not point among
    the entries in use of the write set, when the mask is 0, and when the
    bucket of the lock ends without an entry for the address (where
    [stm_wbetl_write] would add one). *)
Theorem write_after_write_asserts
    (P : platform) (addr value mask : Z) (s : state) :
  LOCK_GET_OWNED (g_locks (st_g s) (GET_LOCK addr)) = 0 \/
  ws_contains P (tx_w_set (st_tx s))
    (LOCK_GET_ADDR (g_locks (st_g s) (GET_LOCK addr))) = false \/
  mask = 0 \/
  (exists t et, bucket_tail P s addr t et) ->
  int_stm_WaW P addr value mask s = AssertFail s.
Proof.
  intros H. unfold int_stm_WaW, stm_wbetl_WaW.
  rewrite (bind_ret _ _ s (g_locks (st_g s) (GET_LOCK addr)) s) by reflexivity.
  change (LOCK_GET_WRITE (g_locks (st_g s) (GET_LOCK addr)))
    with (LOCK_GET_OWNED (g_locks (st_g s) (GET_LOCK addr))).
  destruct (LOCK_GET_OWNED (g_locks (st_g s) (GET_LOCK addr)) =? 0) eqn:Ho;
    [reflexivity|].
  rewrite (bind_ret _ _ s tt s) by reflexivity.
  cbv zeta.
  destruct (ws_contains P (tx_w_set (st_tx s))
              (LOCK_GET_ADDR (g_locks (st_g s) (GET_LOCK addr)))) eqn:Hc;
    [|unfold bind, assert; rewrite Hc; reflexivity].
  rewrite (bind_ret _ _ s tt s) by (unfold assert; rewrite Hc; reflexivity).
  destruct (mask =? 0) eqn:Hm; [reflexivity|].
  rewrite (bind_ret _ _ s tt s) by reflexivity.
  rewrite (bind_ret _ _ s (st_tx s) s) by reflexivity.
  destruct H as [H|[H|[H|(t & et & h & Hh & Hr & Ht & Ha & Hn)]]].
  - apply Z.eqb_neq in Ho. contradiction.
  - discriminate H.
  - apply Z.eqb_neq in Hm. contradiction.
  - rewrite Hh.
    apply (WaW_walk_tail P s addr value mask h t Hr _ et);
      [|exact Ht | exact Ha | exact Hn].
    pose proof (lookup_lt_Some _ _ _ Ht). lia.
Qed.

Lemma write_after_write_asserts_witness :
  int_stm_WaW sample_platform 232 5 Word.ones (sample_active true) =
    AssertFail (sample_active true).
Proof.
  apply write_after_write_asserts.
  right. right. right. exists 0%nat, sample_w0, 0%nat.
  split; [reflexivity|]. split; [constructor|].
  split; [reflexivity|]. split; [discriminate | reflexivity].
Defined.

(** X24.  Read after write.  [int_stm_RaW] returns the value field of
    the entry the lock word of the address points to, the first of the
    bucket, and changes nothing; it does not walk the bucket, compare
    addresses or look at the mask.  When that entry is the entry for the
    address and its mask is not 0, this is the value a transactional load
    returns. *)
Theorem read_after_write_barrier
    (P : platform) (fuel : nat) (addr : Z) (s : state) (h : nat) (eh : w_entry) :
  LOCK_GET_OWNED (g_locks (st_g s) (GET_LOCK addr)) <> 0 ->
  LOCK_GET_ADDR (g_locks (st_g s) (GET_LOCK addr)) = w_ptr P (tx_w_set (st_tx s)) h ->
  (h < ws_nb_entries (tx_w_set (st_tx s)))%nat ->
  ws_slots (tx_w_set (st_tx s)) !! h = Some eh ->
  int_stm_RaW P addr s = Ret (w_value eh) s /\
  (IS_ACTIVE (tx_status (st_tx s)) = true -> w_addr eh = addr -> w_mask eh <> 0 ->
   int_stm_load P (S fuel) addr s = Ret (w_value eh) s).
Proof.
  intros Ho Hh Hlt Heh.
  assert (Hc : ws_contains P (tx_w_set (st_tx s))
                 (LOCK_GET_ADDR (g_locks (st_g s) (GET_LOCK addr))) = true).
  { rewrite Hh, ws_contains_ptr. apply Nat.ltb_lt. exact Hlt. }
  split.
  - unfold int_stm_RaW, stm_wbetl_RaW.
    rewrite (bind_ret _ _ s (g_locks (st_g s) (GET_LOCK addr)) s) by reflexivity.
    change (LOCK_GET_WRITE (g_locks (st_g s) (GET_LOCK addr)))
      with (LOCK_GET_OWNED (g_locks (st_g s) (GET_LOCK addr))).
    apply Z.eqb_neq in Ho.
    rewrite (bind_ret _ _ s tt s) by (unfold assert; rewrite Ho; reflexivity).
    cbv zeta.
    rewrite (bind_ret _ _ s tt s) by (unfold assert; rewrite Hc; reflexivity).
    rewrite Hh. rewrite (bind_ret _ _ _ _ _ (w_deref_ptr P s h eh Heh)). reflexivity.
  - intros Hact Ha Hm. unfold int_stm_load, stm_wbetl_read.
    rewrite (read_own P fuel addr s h eh Hact (conj Ho Hc)).
    + apply Z.eqb_neq in Hm. rewrite Hm. reflexivity.
    + exists h. split; [exact Hh|]. split; [constructor|]. split; assumption.
Qed.

Lemma read_after_write_barrier_witness :
  int_stm_RaW sample_platform 232 sample_two = Ret 9 sample_two /\
  int_stm_load sample_platform 1 232 sample_two = Ret 43981 sample_two.
Proof.
  split; [|reflexivity].
  apply (read_after_write_barrier sample_platform 0 232 sample_two 0
           (set_w_next 4160 sample_w0)).
  - vm_compute. discriminate.
  - reflexivity.
  - cbn. lia.
  - reflexivity.
Defined.

Section ReadForWrite.

Variable P : platform.

(** After the free lock of the address was acquired, the transaction
    owns it, whatever the mask. *)
Lemma acquired_owned addr value mask s :
  ws_wf P s ->
  (ws_nb_entries (tx_w_set (st_tx s)) < ws_size (tx_w_set (st_tx s)))%nat ->
  owned_by_tx P (acquired P addr value mask s) (GET_LOCK addr).
Proof.
  intros W Hroom.
  set (ws := tx_w_set (st_tx s)). set (nb := ws_nb_entries ws).
  assert (Hga : LOCK_GET_ADDR (LOCK_SET_ADDR_WRITE (w_ptr P ws nb)) = w_ptr P ws nb).
  { apply get_addr_w_ptr.
    - apply (wf_base_pos P s W).
    - apply (wf_base_even P s W).
    - pose proof (wf_base_top P s W) as Htop.
      assert (w_ptr P ws nb < w_ptr P ws (ws_size ws)) by (apply w_ptr_lt; exact Hroom).
      fold ws in Htop. lia. }
  assert (Hl : g_locks (st_g (acquired P addr value mask s)) (GET_LOCK addr) =
               LOCK_SET_ADDR_WRITE (w_ptr P ws nb)).
  { cbn. unfold upd. rewrite Z.eqb_refl. reflexivity. }
  split.
  - rewrite Hl, LockFacts.set_addr_write_owned. discriminate.
  - rewrite Hl, Hga.
    change (w_ptr P ws nb)
      with (w_ptr P (tx_w_set (st_tx (acquired P addr value mask s))) nb).
    rewrite ws_contains_ptr. apply Nat.ltb_lt. unfold nb, ws. cbn. lia.
Qed.

Lemma RfW_own fuel addr s :
  owned_by_tx P s (GET_LOCK addr) ->
  stm_wbetl_RfW P (S fuel) addr s = Ret (st_mem s addr) s.
Proof.
  intros Ho. unfold stm_wbetl_RfW.
  rewrite (bind_ret _ _ _ _ _ (write_owned_mask0 P fuel addr 0 s Ho)). reflexivity.
Qed.

End ReadForWrite.

(** X25.  Read for write on a lock the transaction owns.
    [int_stm_RfW] returns the word in memory and changes nothing.  It
    does not consult the write set: when the transaction has written the
    address, the value a transactional load returns is the value of the
    write-set entry, which [int_stm_RfW] does not return. *)
Theorem read_for_write_on_own_lock
    (P : platform) (fuel : nat) (addr : Z) (s : state) :
  owned_by_tx P s (GET_LOCK addr) ->
  int_stm_RfW P (S fuel) addr s = Ret (st_mem s addr) s /\
  (forall j ej,
     IS_ACTIVE (tx_status (st_tx s)) = true ->
     bucket_entry P s addr j ej -> w_mask ej <> 0 ->
     int_stm_load P (S fuel) addr s = Ret (w_value ej) s).
Proof.
  intros Ho. split; [apply RfW_own; exact Ho|].
  intros j ej Hact Hb Hm. unfold int_stm_load, stm_wbetl_read.
  rewrite (read_own P fuel addr s j ej Hact Ho Hb).
  apply Z.eqb_neq in Hm. rewrite Hm. reflexivity.
Qed.

Lemma read_for_write_on_own_lock_witness :
  int_stm_RfW sample_platform 1 224 (sample_active true) = Ret 0 (sample_active true) /\
  int_stm_load sample_platform 1 224 (sample_active true) = Ret 9 (sample_active true).
Proof.
  destruct (read_for_write_on_own_lock sample_platform 0 224 (sample_active true))
    as [Hr Hl].
  - split; vm_compute; congruence.
  - split; [exact Hr|].
    apply (Hl 0%nat sample_w0).
    + reflexivity.
    + exists 0%nat. split; [reflexivity|]. split; [constructor|]. split; reflexivity.
    + discriminate.
Defined.

(** X26.  Read for write on a free lock.  When the lock of the address
    is free and the store barrier may take it (the transaction is not
    irrevocable, the lock was not read at an older version than it has
    now, the write set has room), [int_stm_RfW] acquires the lock for the
    transaction with a new write-set entry of mask 0 and value 0, which
    keeps the version of the lock, and returns the word in memory.
    Memory is unchanged, and a second [int_stm_RfW] of the address
    returns the same word and changes nothing. *)
Theorem read_for_write_acquires
    (P : platform) (fuel : nat) (addr : Z) (s : state) :
  ws_wf P s ->
  LOCK_GET_OWNED (g_locks (st_g s) (GET_LOCK addr)) = 0 ->
  tx_irrevocable (st_tx s) = 0 ->
  rs_bounded (st_tx s) ->
  (LOCK_GET_TIMESTAMP (g_locks (st_g s) (GET_LOCK addr)) > tx_end (st_tx s) ->
   find_lock (GET_LOCK addr) (read_set (st_tx s)) 0 = None) ->
  (ws_nb_entries (tx_w_set (st_tx s)) < ws_size (tx_w_set (st_tx s)))%nat ->
  exists s',
    int_stm_RfW P (S fuel) addr s = Ret (st_mem s addr) s' /\
    g_locks (st_g s') (GET_LOCK addr) =
      LOCK_SET_ADDR_WRITE
        (w_ptr P (tx_w_set (st_tx s)) (ws_nb_entries (tx_w_set (st_tx s)))) /\
    owned_by_tx P s' (GET_LOCK addr) /\
    ws_nb_entries (tx_w_set (st_tx s')) = S (ws_nb_entries (tx_w_set (st_tx s))) /\
    ws_slots (tx_w_set (st_tx s')) !! ws_nb_entries (tx_w_set (st_tx s)) =
      Some {| w_addr := addr; w_value := 0; w_mask := 0;
              w_version := LOCK_GET_TIMESTAMP (g_locks (st_g s) (GET_LOCK addr));
              w_lock := GET_LOCK addr; w_next := 0 |} /\
    st_mem s' = st_mem s /\
    int_stm_RfW P (S fuel) addr s' = Ret (st_mem s addr) s'.
Proof.
  intros W Hfree Hirr Hb Hv Hroom.
  pose proof (wf_length P s W) as Hlen.
  exists (acquired P addr 0 0 s).
  assert (Ho : owned_by_tx P (acquired P addr 0 0 s) (GET_LOCK addr))
    by (apply acquired_owned; assumption).
  split.
  { unfold int_stm_RfW, stm_wbetl_RfW.
    rewrite (bind_ret _ _ _ _ _
               (write_acquire P fuel addr 0 0 s Hfree Hirr Hb Hv
                  ltac:(rewrite Hlen; exact Hroom) ltac:(lia))).
    reflexivity. }
  split; [cbn; unfold upd; rewrite Z.eqb_refl; reflexivity|].
  split; [exact Ho|].
  split; [reflexivity|].
  split; [cbn; apply list_lookup_insert_eq; rewrite Hlen; exact Hroom|].
  split; [reflexivity|].
  apply (RfW_own P fuel addr _ Ho).
Qed.

Lemma read_for_write_acquires_witness :
  exists s',
    int_stm_RfW sample_platform 1 96 (sample_loaded true 6 sample_reads) = Ret 77 s' /\
    g_locks (st_g s') 3 = LOCK_SET_ADDR_WRITE 4160 /\
    int_stm_RfW sample_platform 1 96 s' = Ret 77 s'.
Proof.
  destruct (read_for_write_acquires sample_platform 0 96
              (sample_loaded true 6 sample_reads))
    as (s' & Hr & Hl & _ & _ & _ & _ & Hr2).
  - apply sample_loaded_wf.
  - reflexivity.
  - reflexivity.
  - unfold rs_bounded. cbn. lia.
  - intros Hgt. vm_compute in Hgt. discriminate Hgt.
  - cbn. lia.
  - exists s'. split; [exact Hr|]. split; [exact Hl | exact Hr2].
Defined.

(** ** Looking an address up in the write set *)

Section HasWritten.

Variable P : platform.

Lemma has_written_loop_spec addr s : forall n w,
  (w + n <= length (ws_slots (tx_w_set (st_tx s))))%nat ->
  exists p,
    has_written_loop P n w addr s = Ret p s /\
    ((p = 0 /\
      forall i e, (w <= i < w + n)%nat ->
        ws_slots (tx_w_set (st_tx s)) !! i = Some e -> w_addr e <> addr) \/
     (exists i e,
        p = w_ptr P (tx_w_set (st_tx s)) i /\ (w <= i < w + n)%nat /\
        ws_slots (tx_w_set (st_tx s)) !! i = Some e /\ w_addr e = addr /\
        forall i' e', (w <= i' < i)%nat ->
          ws_slots (tx_w_set (st_tx s)) !! i' = Some e' -> w_addr e' <> addr)).
Proof.
  induction n as [|n IH]; intros w Hlen; cbn [has_written_loop].
  - exists 0. split; [reflexivity|]. left. split; [reflexivity|]. intros; lia.
  - rewrite (bind_ret _ _ s (st_tx s) s) by reflexivity.
    destruct (lookup_lt_is_Some_2 (ws_slots (tx_w_set (st_tx s))) w ltac:(lia)) as [e He].
    rewrite He.
    destruct (Z.eqb_spec (w_addr e) addr) as [Ha|Ha].
    + eexists. split; [reflexivity|]. right. exists w, e.
      repeat split; try assumption; try lia.
    + destruct (IH (S w) ltac:(lia)) as (p & Hp & Hcase).
      exists p. split; [exact Hp|].
      destruct Hcase as [[-> Hnone]|(i & ei & -> & Hi & Hei & Hai & Hfirst)].
      * left. split; [reflexivity|]. intros i ei Hi Hei.
        destruct (Nat.eq_dec i w) as [->|Hne]; [congruence|].
        apply (Hnone i ei); [lia | exact Hei].
      * right. exists i, ei. repeat split; try assumption; try lia.
        intros i' e' Hi' He'.
        destruct (Nat.eq_dec i' w) as [->|Hne]; [congruence|].
        apply (Hfirst i' e'); [lia | exact He'].
Qed.

(** A walk along a bucket stays among the entries in use. *)
Lemma reaches_in_use s addr i k :
  ws_wf P s ->
  reaches P (tx_w_set (st_tx s)) addr i k ->
  (i < ws_nb_entries (tx_w_set (st_tx s)))%nat ->
  (k < ws_nb_entries (tx_w_set (st_tx s)))%nat.
Proof.
  intros W. induction 1 as [i|i j k e He Ha Hn0 Hn Hij Hr IH]; intros Hi; [exact Hi|].
  apply IH.
  destruct (wf_next P s W i e Hi He) as [H0|(j' & e' & Hj' & Hnx & _)]; [contradiction|].
  rewrite Hnx in Hn. apply w_ptr_inj in Hn. lia.
Qed.

End HasWritten.

(** X27.  [stm_has_written] looks the address up among the entries in
    use of the write set, in the order they were added, and changes
    nothing.  It returns [NULL] exactly when no entry in use is for the
    address; otherwise it returns the address of the first entry for the
    address. *)
Theorem has_written_lookup (P : platform) (addr : Z) (s : state) :
  (ws_nb_entries (tx_w_set (st_tx s)) <= length (ws_slots (tx_w_set (st_tx s))))%nat ->
  0 < ws_entries (tx_w_set (st_tx s)) ->
  exists p,
    stm_has_written P addr s = Ret p s /\
    (p = 0 <->
     forall i e, (i < ws_nb_entries (tx_w_set (st_tx s)))%nat ->
       ws_slots (tx_w_set (st_tx s)) !! i = Some e -> w_addr e <> addr) /\
    (p <> 0 ->
     exists i e,
       p = w_ptr P (tx_w_set (st_tx s)) i /\
       (i < ws_nb_entries (tx_w_set (st_tx s)))%nat /\
       ws_slots (tx_w_set (st_tx s)) !! i = Some e /\ w_addr e = addr /\
       forall i' e', (i' < i)%nat ->
         ws_slots (tx_w_set (st_tx s)) !! i' = Some e' -> w_addr e' <> addr).
Proof.
  intros Hlen Hpos.
  destruct (has_written_loop_spec P addr s (ws_nb_entries (tx_w_set (st_tx s))) 0
              ltac:(lia)) as (p & Hp & Hcase).
  exists p. split.
  { unfold stm_has_written. rewrite (bind_ret _ _ s (st_tx s) s) by reflexivity. exact Hp. }
  destruct Hcase as [[-> Hnone]|(i & e & -> & Hi & He & Ha & Hfirst)].
  - split.
    + split; [|reflexivity]. intros _ i e Hi He. apply (Hnone i e); [lia | exact He].
    + intros Hne. contradiction.
  - pose proof (w_ptr_base P (tx_w_set (st_tx s)) i) as Hb.
    split.
    + split; [lia|]. intros Hnone. exfalso. apply (Hnone i e); [lia | exact He | exact Ha].
    + intros _. exists i, e. repeat split; try assumption; try lia.
      intros i' e' Hi' He'. apply (Hfirst i' e'); [lia | exact He'].
Qed.

Lemma has_written_lookup_witness :
  exists p, stm_has_written sample_platform 232 sample_two = Ret p sample_two /\ p <> 0.
Proof.
  destruct (has_written_lookup sample_platform 232 sample_two) as (p & Hp & Hz & _).
  - cbn. lia.
  - reflexivity.
  - exists p. split; [exact Hp|]. intros H0.
    apply (proj1 Hz H0 1%nat
             {| w_addr := 232; w_value := 0; w_mask := 0; w_version := 2;
                w_lock := 7; w_next := 0 |}); [cbn; lia | reflexivity | reflexivity].
Defined.

(** X28.  Store, then look up.  After a store under a mask other than 0
    has returned its write-set entry, [stm_has_written] finds the
    address: it returns, without changing anything, a pointer other than
    [NULL] to an entry in use for the address. *)
Theorem store_then_has_written
    (P : platform) (fuel : nat) (addr value mask : Z) (s : state)
    (w : Z) (s' : state) :
  ws_wf P s ->
  versions_captured s ->
  tx_irrevocable (st_tx s) = 0 ->
  rs_bounded (st_tx s) ->
  (ws_nb_entries (tx_w_set (st_tx s)) < ws_size (tx_w_set (st_tx s)))%nat ->
  mask <> 0 ->
  Word.in_range mask ->
  Word.in_range value ->
  stm_wbetl_write P (S fuel) addr value mask s = Ret w s' ->
  w <> 0 ->
  exists p i e,
    stm_has_written P addr s' = Ret p s' /\
    p <> 0 /\
    p = w_ptr P (tx_w_set (st_tx s')) i /\
    (i < ws_nb_entries (tx_w_set (st_tx s')))%nat /\
    w_lookup P (tx_w_set (st_tx s')) p = Some e /\
    w_addr e = addr.
Proof.
  intros W Hcap Hirr Hb Hroom Hm Hmr Hvr Hw Hw0.
  destruct (write_keeps_invariant P fuel addr value mask s w s'
              W Hcap Hirr Hb Hroom Hw Hw0) as [W' _].
  destruct (write_gives_bucket_entry P fuel addr value mask s w s'
              W Hirr Hb Hroom Hm Hmr Hvr Hw Hw0)
    as (j & ej & _ & [_ Hc] & (h & Hh & Hr & Hj & Ha) & _).
  rewrite Hh, ws_contains_ptr in Hc. apply Nat.ltb_lt in Hc.
  pose proof (reaches_in_use P s' addr h j W' Hr Hc) as Hjn.
  pose proof (wf_length P s' W') as Hlen. pose proof (wf_nb P s' W') as Hnb.
  destruct (has_written_loop_spec P addr s' (ws_nb_entries (tx_w_set (st_tx s'))) 0
              ltac:(lia)) as (p & Hp & Hcase).
  destruct Hcase as [[_ Hnone]|(i & e & -> & Hi & He & Hai & _)].
  - exfalso. apply (Hnone j ej); [lia | exact Hj | exact Ha].
  - exists (w_ptr P (tx_w_set (st_tx s')) i), i, e.
    split.
    { unfold stm_has_written. rewrite (bind_ret _ _ s' (st_tx s') s') by reflexivity.
      exact Hp. }
    split.
    { pose proof (w_ptr_base P (tx_w_set (st_tx s')) i).
      pose proof (wf_base_pos P s' W'). lia. }
    split; [reflexivity|]. split; [lia|].
    split; [rewrite w_lookup_ptr; exact He | exact Hai].
Qed.

Lemma store_then_has_written_witness :
  exists s' p,
    stm_wbetl_write sample_platform 1 232 5 Word.ones (sample_active true) = Ret 4160 s' /\
    stm_has_written sample_platform 232 (sample_active true) = Ret 0 (sample_active true) /\
    stm_has_written sample_platform 232 s' = Ret p s' /\ p <> 0.
Proof.
  assert (Hw : stm_wbetl_write sample_platform 1 232 5 Word.ones (sample_active true) =
               Ret 4160 (final (stm_wbetl_write sample_platform 1 232 5 Word.ones
                                  (sample_active true)))) by reflexivity.
  assert (Hb : rs_bounded (st_tx (sample_active true))) by (unfold rs_bounded; cbn; lia).
  assert (Hroom : (ws_nb_entries (tx_w_set (st_tx (sample_active true)))
                   < ws_size (tx_w_set (st_tx (sample_active true))))%nat) by (cbn; lia).
  assert (Hm : Word.ones <> 0) by discriminate.
  assert (Hmr : Word.in_range Word.ones) by (vm_compute; split; [discriminate | reflexivity]).
  assert (Hvr : Word.in_range 5) by (vm_compute; split; [discriminate | reflexivity]).
  assert (Hw0 : 4160 <> 0) by discriminate.
  destruct (store_then_has_written sample_platform 0 232 5 Word.ones (sample_active true)
              4160 _ (sample_active_wf true) (sample_active_captured true)
              eq_refl Hb Hroom Hm Hmr Hvr Hw Hw0)
    as (p & i & e & Hp & Hp0 & _).
  exists (final (stm_wbetl_write sample_platform 1 232 5 Word.ones (sample_active true))), p.
  split; [exact Hw|]. split; [reflexivity|]. split; [exact Hp | exact Hp0].
Defined.

(** ** The read set stays valid *)

Section ReadSetValid.

Variable P : platform.

(** Validity of the read set depends on the lock words, the read set and
    the range of the entries in use of the write set only. *)
Lemma read_set_valid_ext s s' :
  g_locks (st_g s') = g_locks (st_g s) ->
  read_set (st_tx s') = read_set (st_tx s) ->
  ws_entries (tx_w_set (st_tx s')) = ws_entries (tx_w_set (st_tx s)) ->
  (ws_nb_entries (tx_w_set (st_tx s)) <= ws_nb_entries (tx_w_set (st_tx s')))%nat ->
  read_set_valid P s -> read_set_valid P s'.
Proof.
  intros Hl Hr Hb Hn Hv. unfold read_set_valid in *. rewrite Hr.
  eapply Forall_impl; [exact Hv|]. intros e He.
  unfold read_entry_valid in *. rewrite Hl.
  destruct He as [[Ho Hc]|Hfree]; [left | right; exact Hfree].
  split; [exact Ho|].
  apply (ws_contains_grow P (tx_w_set (st_tx s))); assumption.
Qed.

Lemma validate_valid s :
  rs_bounded (st_tx s) -> read_set_valid P s -> stm_wbetl_validate P s = Ret 1 s.
Proof.
  intros Hb Hv. rewrite (stm_wbetl_validate_eq P s Hb).
  apply read_set_valid_forallb in Hv. rewrite Hv. reflexivity.
Qed.

(** The states a store that returns an entry leads to. *)
Lemma write_result fuel addr value mask s w s' :
  ws_wf P s ->
  tx_irrevocable (st_tx s) = 0 ->
  rs_bounded (st_tx s) ->
  (ws_nb_entries (tx_w_set (st_tx s)) < ws_size (tx_w_set (st_tx s)))%nat ->
  stm_wbetl_write P (S fuel) addr value mask s = Ret w s' ->
  w <> 0 ->
  s' = s \/ s' = acquired P addr value mask s \/
  (exists j ej, s' = merged j ej addr value mask s) \/
  (exists t et, s' = appended P t et addr value mask s).
Proof.
  intros W Hirr Hb Hroom Hw Hw0.
  pose proof (wf_length P s W) as Hlen.
  pose proof (wf_base_pos P s W) as Hpos.
  destruct (Z.eq_dec (LOCK_GET_OWNED (g_locks (st_g s) (GET_LOCK addr))) 0) as [Hfree|Hown].
  - right. left.
    destruct (find_lock (GET_LOCK addr) (read_set (st_tx s)) 0) as [i|] eqn:Hf.
    + destruct (Z.gtb_spec (LOCK_GET_TIMESTAMP (g_locks (st_g s) (GET_LOCK addr)))
                  (tx_end (st_tx s))) as [Hgt|Hle].
      * rewrite (write_val_write P fuel addr value mask s i Hfree Hirr Hb) in Hw;
          [|lia | exact Hf].
        apply bind_ret_value in Hw. contradiction.
      * rewrite (write_acquire P fuel addr value mask s Hfree Hirr Hb) in Hw;
          [| intros; lia | lia | lia].
        injection Hw as _ <-. reflexivity.
    + rewrite (write_acquire P fuel addr value mask s Hfree Hirr Hb) in Hw;
        [| intros; exact Hf | lia | lia].
      injection Hw as _ <-. reflexivity.
  - destruct (ws_contains P (tx_w_set (st_tx s))
                (LOCK_GET_ADDR (g_locks (st_g s) (GET_LOCK addr)))) eqn:Hc.
    + assert (Ho : owned_by_tx P s (GET_LOCK addr)) by (split; assumption).
      destruct (Z.eq_dec mask 0) as [->|Hm].
      { rewrite (write_owned_mask0 P fuel addr value s Ho) in Hw.
        injection Hw as _ <-. left. reflexivity. }
      destruct (wf_bucket P s addr W Ho)
        as [(j & ej & Hj & Hbe)|(t & et & Ht & Hbt & Htl)].
      * rewrite (write_owned_found P fuel addr value mask s j ej Ho Hbe Hm) in Hw.
        injection Hw as _ <-. right. right. left. eauto.
      * rewrite (write_owned_append P fuel addr value mask s t et Ho Hbt Hm Hpos Ht) in Hw;
          [| lia | lia].
        injection Hw as _ <-. right. right. right. eauto.
    + rewrite (write_foreign P fuel addr value mask s Hown Hc Hirr) in Hw.
      apply bind_ret_value in Hw. contradiction.
Qed.

End ReadSetValid.

(** X29.  A load keeps the read set valid.  When the read set of an
    active transaction is valid and a load finds the lock of its address
    free at a version within the snapshot, then after the load the read
    set, with the entry the load may have added, is valid again:
    [stm_wbetl_validate] called right after the load returns 1, and a
    snapshot extension would succeed. *)
Theorem load_keeps_read_set_valid
    (P : platform) (fuel : nat) (addr : Z) (s : state) :
  IS_ACTIVE (tx_status (st_tx s)) = true ->
  LOCK_GET_WRITE (g_locks (st_g s) (GET_LOCK addr)) = 0 ->
  tx_irrevocable (st_tx s) = 0 ->
  LOCK_GET_TIMESTAMP (g_locks (st_g s) (GET_LOCK addr)) <= tx_end (st_tx s) ->
  rs_wf (st_tx s) ->
  read_set_valid P s ->
  exists s',
    int_stm_load P (S fuel) addr s = Ret (st_mem s addr) s' /\
    read_set_valid P s' /\
    stm_wbetl_validate P s' = Ret 1 s' /\
    stm_wbetl_extend P s' = Ret 1 (with_tx (set_end (g_clock (st_g s'))) s').
Proof.
  intros Hact Hfree Hirr Hver W Hv.
  assert (Hres : exists s',
    int_stm_load P (S fuel) addr s = Ret (st_mem s addr) s' /\
    read_set_valid P s' /\ rs_bounded (st_tx s')).
  { unfold int_stm_load, stm_wbetl_read.
    rewrite (read_free_eq P fuel addr s Hact Hfree Hirr). cbv zeta.
    replace (LOCK_GET_TIMESTAMP (g_locks (st_g s) (GET_LOCK addr)) >? tx_end (st_tx s))
      with false by (symmetry; rewrite Z.gtb_ltb; apply Z.ltb_ge; exact Hver).
    destruct (read_only (tx_attr (st_tx s))) eqn:Hro.
    - exists s. split; [|split; [exact Hv | apply rs_wf_bounded; exact W]].
      unfold read_add_to_read_set.
      rewrite (bind_ret _ _ s (st_tx s) s) by reflexivity.
      rewrite Hro. reflexivity.
    - set (l := g_locks (st_g s) (GET_LOCK addr)) in *.
      exists (read_added (GET_LOCK addr) (LOCK_GET_TIMESTAMP l) s).
      split; [apply read_add_to_read_set_eq; assumption|].
      split; [|apply rs_wf_bounded, read_added_wf; exact W].
      destruct (read_added_frame (GET_LOCK addr) (LOCK_GET_TIMESTAMP l) s)
        as (Hg & _ & _ & Hws & _).
      unfold read_set_valid. rewrite (read_added_read_set _ _ s W).
      apply Forall_app. split.
      + eapply Forall_impl; [exact Hv|]. intros e He.
        unfold read_entry_valid in *. rewrite Hg, Hws. exact He.
      + constructor; [|constructor].
        right. unfold read_entry_valid. cbn [r_lock r_version]. rewrite Hg.
        split; [exact Hfree | reflexivity]. }
  destruct Hres as (s' & Hld & Hv' & Hb').
  exists s'. split; [exact Hld|]. split; [exact Hv'|].
  split; [apply validate_valid; assumption|].
  rewrite (stm_wbetl_extend_eq P s' Hb').
  apply read_set_valid_forallb in Hv'. rewrite Hv'. reflexivity.
Qed.

Lemma load_keeps_read_set_valid_witness :
  exists s',
    int_stm_load sample_platform 1 96 (sample_loaded true 6 sample_reads) = Ret 77 s' /\
    stm_wbetl_validate sample_platform s' = Ret 1 s'.
Proof.
  destruct (load_keeps_read_set_valid sample_platform 0 96
              (sample_loaded true 6 sample_reads))
    as (s' & Hld & _ & Hval & _).
  - reflexivity.
  - reflexivity.
  - reflexivity.
  - vm_compute. discriminate.
  - repeat split; cbn; lia.
  - apply read_set_valid_forallb. reflexivity.
  - exists s'. split; [exact Hld | exact Hval].
Defined.

(** X30.  A store keeps the read set valid.  When the read set is valid
    and a store returns a write-set entry, the read set is valid after
    the store: a lock the transaction read and now owns counts as valid,
    its word pointing into the write set of the transaction, and
    [stm_wbetl_validate] called right after the store returns 1. *)
Theorem store_keeps_read_set_valid
    (P : platform) (fuel : nat) (addr value mask : Z) (s : state)
    (w : Z) (s' : state) :
  ws_wf P s ->
  tx_irrevocable (st_tx s) = 0 ->
  rs_bounded (st_tx s) ->
  (ws_nb_entries (tx_w_set (st_tx s)) < ws_size (tx_w_set (st_tx s)))%nat ->
  read_set_valid P s ->
  stm_wbetl_write P (S fuel) addr value mask s = Ret w s' ->
  w <> 0 ->
  read_set_valid P s' /\
  stm_wbetl_validate P s' = Ret 1 s' /\
  read_set (st_tx s') = read_set (st_tx s).
Proof.
  intros W Hirr Hb Hroom Hv Hw Hw0.
  assert (Hr : tx_r_set (st_tx s') = tx_r_set (st_tx s) /\ read_set_valid P s').
  { destruct (write_result P fuel addr value mask s w s' W Hirr Hb Hroom Hw Hw0)
      as [->|[->|[(j & ej & ->)|(t & et & ->)]]].
    - split; [reflexivity | exact Hv].
    - split; [reflexivity | apply acquired_valid; assumption].
    - split; [reflexivity|].
      apply (read_set_valid_ext P s);
        [reflexivity | reflexivity | reflexivity | cbn; lia | exact Hv].
    - split; [reflexivity|].
      apply (read_set_valid_ext P s);
        [reflexivity | reflexivity | reflexivity | cbn; lia | exact Hv]. }
  destruct Hr as [Hrs Hv'].
  split; [exact Hv'|].
  split; [|unfold read_set; rewrite Hrs; reflexivity].
  apply validate_valid; [|exact Hv'].
  unfold rs_bounded in *. rewrite Hrs. exact Hb.
Qed.

Lemma store_keeps_read_set_valid_witness :
  exists s',
    stm_wbetl_write sample_platform 1 96 5 Word.ones (sample_loaded true 6 sample_reads) =
      Ret 4160 s' /\
    stm_wbetl_validate sample_platform s' = Ret 1 s'.
Proof.
  set (s := sample_loaded true 6 sample_reads).
  assert (Hw : stm_wbetl_write sample_platform 1 96 5 Word.ones s =
               Ret 4160 (final (stm_wbetl_write sample_platform 1 96 5 Word.ones s)))
    by reflexivity.
  destruct (store_keeps_read_set_valid sample_platform 0 96 5 Word.ones s 4160 _
              (sample_loaded_wf true 6 sample_reads) eq_refl
              ltac:(unfold rs_bounded; cbn; lia) ltac:(cbn; lia)
              ltac:(apply read_set_valid_forallb; reflexivity) Hw ltac:(discriminate))
    as (_ & Hval & _).
  eexists. split; [exact Hw | exact Hval].
Defined.

(** * Rollbacks inside commit and store *)

(** ** What [stm_rollback] does after the rollback stores *)

Section FrameAfterStores.

Variable P : platform.
Variable R : state -> option Z -> state -> Prop.

Hypothesis R_refl : forall s, R s None s.
Hypothesis R_trans : forall s1 s2 j s3, R s1 None s2 -> R s2 j s3 -> R s1 j s3.
Hypothesis R_tx : forall s f, R s None (with_tx f s).
Hypothesis R_threads : forall s n, R s None (with_g (set_threads_nb n) s).
Hypothesis R_quiesce : forall s q, R s None (with_g (set_quiesce q) s).
Hypothesis R_rollover : forall s, R s None (st_rollover s).
Hypothesis R_callback : forall s f a, R s None (record (EvCallback f a) s).

(** The code of [stm_rollback] that follows [stm_wbetl_rollback]. *)
Lemma keeps_after_rollback_stores reason :
  (forall s, R s (Some (Z.lor reason (STM_PATH_INSTRUMENTED P))) s) ->
  keeps R
    (put_tx (set_status TX_ABORTED) ;;;
     (if reason =? STM_ABORT_EXTEND_WS P then stm_allocate_ws_entries P else ret tt) ;;;
     put_tx (set_nesting 1) ;;;
     g <- gets st_g ;;
     run_callbacks (g_abort_cb g) ;;;
     tx <- get_tx ;;
     if no_retry (tx_attr tx)
        || (Z.land reason (STM_ABORT_NO_RETRY P) =? STM_ABORT_NO_RETRY P)
     then put_tx (set_nesting 0)
     else
       int_stm_prepare ;;;
       longjmp (Z.lor reason (STM_PATH_INSTRUMENTED P))).
Proof.
  intros Hjump.
  apply keeps_bind; [exact R_trans | apply keeps_put_tx; exact R_tx |]. intros _.
  apply keeps_bind; [exact R_trans | |].
  { apply keeps_if; [apply keeps_stm_allocate_ws_entries; assumption
                    | apply keeps_ret; exact R_refl]. }
  intros _. apply keeps_bind; [exact R_trans | apply keeps_put_tx; exact R_tx |]. intros _.
  apply keeps_bind; [exact R_trans | apply keeps_gets; exact R_refl |]. intros g.
  apply keeps_bind; [exact R_trans | apply keeps_run_callbacks; assumption |]. intros _.
  apply keeps_bind; [exact R_trans | apply keeps_gets; exact R_refl |]. intros tx.
  apply keeps_if; [apply keeps_put_tx; exact R_tx|].
  apply keeps_bind; [exact R_trans | apply keeps_int_stm_prepare; assumption |].
  intros _. apply keeps_longjmp. exact Hjump.
Qed.

End FrameAfterStores.

(** ** The states a rollback ends in *)

Section RollbackOutcome.

Variable P : platform.

(** A lock that is free stays free through a rollback, however it
    ends. *)
Lemma rollback_keeps_free reason s l :
  LOCK_GET_OWNED (g_locks (st_g s) l) = 0 ->
  LOCK_GET_OWNED (g_locks (st_g (final (stm_rollback P reason s))) l) = 0.
Proof.
  intros Hfree.
  destruct (stm_rollback_frame P reason s) as (_ & (Hna & _) & _).
  destruct (Z.eq_dec
              (LOCK_GET_OWNED (g_locks (st_g (final (stm_rollback P reason s))) l)) 0)
    as [H0|Hn]; [exact H0|].
  rewrite (Hna l Hn). exact Hfree.
Qed.

(** However the rollback ends (it returns, it jumps to the retry point,
    it waits for the other threads), the locks the transaction owned are
    free afterwards. *)
Lemma rollback_releases reason s :
  IS_ACTIVE (tx_status (st_tx s)) = true ->
  ws_wf P s ->
  forall l, owned_by_tx P s l ->
    LOCK_GET_OWNED (g_locks (st_g (final (stm_rollback P reason s))) l) = 0.
Proof.
  intros Hact W l Ho.
  unfold stm_rollback.
  rewrite (bind_ret _ _ s tt s) by (unfold assert; rewrite Hact; reflexivity).
  rewrite (bind_ret _ _ _ _ _ (stm_wbetl_rollback_eq s Hact (wf_bounded P s W))).
  set (s1 := fold_left perform _ s).
  assert (H1 : LOCK_GET_OWNED (g_locks (st_g s1) l) = 0).
  { destruct (rollback_locks P s W) as [Hown _].
    destruct (Hown l Ho) as (et & _ & _ & Hl). fold s1 in Hl.
    rewrite Hl. apply LockFacts.set_timestamp_free. }
  revert H1. generalize l.
  apply (keeps_after_rollback_stores P
           (fun s0 _ s' => forall l0, LOCK_GET_OWNED (g_locks (st_g s0) l0) = 0 ->
                                      LOCK_GET_OWNED (g_locks (st_g s') l0) = 0)).
  - intros s0 l0 H. exact H.
  - intros s2 s3 j s4 H23 H34 l0 H. apply H34, H23, H.
  - intros s0 f l0 H. exact H.
  - intros s0 n l0 H. exact H.
  - intros s0 q l0 H. exact H.
  - intros s0 l0 _. reflexivity.
  - intros s0 f a l0 H. exact H.
  - intros s0 l0 H. exact H.
Qed.

(** The state a rollback returns in. *)
Lemma rolled_back_state reason s :
  ws_wf P s ->
  reason <> STM_ABORT_EXTEND_WS P ->
  st_tx (rolled_back P reason s) =
    set_nesting 0 (set_nesting 1 (set_status TX_ABORTED (st_tx s))) /\
  (forall l, owned_by_tx P s l ->
     exists et, et ∈ write_set (st_tx s) /\ tail_of l et = true /\
       g_locks (st_g (rolled_back P reason s)) l = LOCK_SET_TIMESTAMP (w_version et)) /\
  (forall l, ~ owned_by_tx P s l ->
     g_locks (st_g (rolled_back P reason s)) l = g_locks (st_g s) l) /\
  g_clock (st_g (rolled_back P reason s)) = g_clock (st_g s) /\
  st_mem (rolled_back P reason s) = st_mem s.
Proof.
  intros W Hr. apply Z.eqb_neq in Hr.
  destruct (rollback_locks P s W) as [Hown Hother].
  rewrite rolled_back_tx, rolled_back_g, Hr.
  split; [reflexivity|]. split; [exact Hown|]. split; [exact Hother|].
  split; [apply (fold_perform_global _ s)|].
  unfold rolled_back. rewrite Hr. cbn [with_tx st_mem].
  rewrite (proj2 (proj2 (callbacks_called_frame _ _))). cbn [with_tx st_mem].
  apply fold_perform_mem_kept, rollback_stores_no_mem.
Qed.

(** The state a rollback jumps to the retry point with. *)
Lemma retry_state_any reason s :
  ws_wf P s ->
  st_tx (retry_state P reason s) =
    prepared_tx (g_clock (st_g s))
      (set_nesting 1
         ((if reason =? STM_ABORT_EXTEND_WS P then ws_realloc P else fun tx => tx)
            (set_status TX_ABORTED (st_tx s)))) /\
  (forall l, owned_by_tx P s l ->
     exists et, et ∈ write_set (st_tx s) /\ tail_of l et = true /\
       g_locks (st_g (retry_state P reason s)) l = LOCK_SET_TIMESTAMP (w_version et)) /\
  (forall l, ~ owned_by_tx P s l ->
     g_locks (st_g (retry_state P reason s)) l = g_locks (st_g s) l) /\
  g_clock (st_g (retry_state P reason s)) = g_clock (st_g s) /\
  st_mem (retry_state P reason s) = st_mem s.
Proof.
  intros W.
  destruct (rollback_locks P s W) as [Hown Hother].
  assert (Htx : st_tx (retry_state P reason s) =
                prepared_tx (g_clock (st_g s))
                  (set_nesting 1
                     ((if reason =? STM_ABORT_EXTEND_WS P then ws_realloc P else fun tx => tx)
                        (set_status TX_ABORTED (st_tx s))))).
  { unfold retry_state.
    destruct (reason =? STM_ABORT_EXTEND_WS P); cbn [with_tx st_tx st_g];
      rewrite !(proj1 (callbacks_called_frame _ _));
      rewrite !(proj1 (proj2 (callbacks_called_frame _ _)));
      cbn [with_tx st_tx st_g];
      rewrite fold_perform_tx;
      rewrite (proj1 (fold_perform_global _ s)); reflexivity. }
  assert (Hg : st_g (retry_state P reason s) =
               st_g (fold_left perform (flat_map rollback_stores (write_set (st_tx s))) s)).
  { unfold retry_state.
    destruct (reason =? STM_ABORT_EXTEND_WS P); cbn [with_tx st_tx st_g];
      rewrite !(proj1 (proj2 (callbacks_called_frame _ _))); reflexivity. }
  rewrite Htx, Hg.
  split; [reflexivity|]. split; [exact Hown|]. split; [exact Hother|].
  split; [apply (fold_perform_global _ s)|].
  unfold retry_state.
  destruct (reason =? STM_ABORT_EXTEND_WS P); cbn [with_tx st_mem];
    rewrite (proj2 (proj2 (callbacks_called_frame _ _))); cbn [with_tx st_mem];
    apply fold_perform_mem_kept, rollback_stores_no_mem.
Qed.

Lemma retry_state_state reason s :
  ws_wf P s ->
  reason <> STM_ABORT_EXTEND_WS P ->
  st_tx (retry_state P reason s) =
    prepared_tx (g_clock (st_g s)) (set_nesting 1 (set_status TX_ABORTED (st_tx s))) /\
  (forall l, owned_by_tx P s l ->
     exists et, et ∈ write_set (st_tx s) /\ tail_of l et = true /\
       g_locks (st_g (retry_state P reason s)) l = LOCK_SET_TIMESTAMP (w_version et)) /\
  (forall l, ~ owned_by_tx P s l ->
     g_locks (st_g (retry_state P reason s)) l = g_locks (st_g s) l) /\
  g_clock (st_g (retry_state P reason s)) = g_clock (st_g s) /\
  st_mem (retry_state P reason s) = st_mem s.
Proof.
  intros W Hr. pose proof (retry_state_any reason s W) as H.
  apply Z.eqb_neq in Hr. rewrite Hr in H. exact H.
Qed.

(** A transaction that is retried does not return from a rollback: what
    follows the rollback is not run. *)
Lemma rollback_retry_no_return {A} reason (k : unit -> M A) s :
  no_retry (tx_attr (st_tx s)) = false ->
  Z.land reason (STM_ABORT_NO_RETRY P) <> STM_ABORT_NO_RETRY P ->
  (forall v s', bind (stm_rollback P reason) k s <> Ret v s') /\
  final (bind (stm_rollback P reason) k s) = final (stm_rollback P reason s) /\
  jump_of (bind (stm_rollback P reason) k s) = jump_of (stm_rollback P reason s).
Proof.
  intros Hretry Hbits. unfold bind.
  destruct (stm_rollback P reason s) as [[] s1| | | | |] eqn:Er;
    try (split; [intros v s' H; discriminate H | split; reflexivity]).
  exfalso. destruct (stm_rollback_ret P reason s tt s1 Er) as (_ & _ & _ & [Hc|Hc]).
  - rewrite Hretry in Hc. discriminate Hc.
  - contradiction.
Qed.

End RollbackOutcome.

(** C1.  A top-level commit of a transaction whose write set is not
    empty runs the back-end commit, which takes the timestamp
    [t = FETCH_INC_CLOCK + 1].  If [start = t - 1] the write set is
    published without looking at the read set; otherwise the read set is
    validated, and the write set is published exactly when it is valid.
    When validation fails the back-end commit is [stm_rollback] with
    reason [STM_ABORT_VALIDATE] followed by [return 0].  However that
    rollback ends, no store to application memory happens, no lock is
    acquired, the locks the transaction owned are free afterwards, and a
    jump carries that reason.  In a transaction that is not retried the
    rollback returns: the back-end commit returns 0 with the status
    [TX_ABORTED], [nesting] 0, every lock the transaction owned holding
    the version captured when it was acquired and the other locks
    untouched.  In a transaction that is retried, with the clock below
    [VERSION_MAX] and no quiescence requested, the commit jumps to the
    retry point with the reason [STM_ABORT_VALIDATE]: the locks are
    released in the same way, both sets are empty and the transaction is
    active again with [start = end = t].  The transaction is taken in
    the state commits start from: active, not irrevocable and no other
    transaction irrevocable, the write set well formed ([ws_wf]) and the
    read-set counter within its array. *)
Theorem commit_timestamp_and_validation (P : platform) (s0 : state) :
  tx_nesting (st_tx s0) = 1 ->
  IS_ACTIVE (tx_status (st_tx s0)) = true ->
  ws_nb_entries (tx_w_set (st_tx s0)) <> 0%nat ->
  tx_irrevocable (st_tx s0) = 0 ->
  g_irrevocable (st_g s0) = 0 ->
  rs_bounded (st_tx s0) ->
  ws_wf P s0 ->
  let s := commit_entry s0 in
  let c := g_clock (st_g s) in
  let t := Word.add c 1 in
  let s1 := record (EvClockInc c) (with_g (set_clock t) s) in
  let o := stm_wbetl_commit P s in
  let reason := STM_ABORT_VALIDATE P in
  let released (s' : state) :=
    (forall l, owned_by_tx P s0 l ->
       exists et, et ∈ write_set (st_tx s0) /\ tail_of l et = true /\
         g_locks (st_g s') l = LOCK_SET_TIMESTAMP (w_version et)) /\
    (forall l, ~ owned_by_tx P s0 l -> g_locks (st_g s') l = g_locks (st_g s0) l) in
  int_stm_commit P s0 =
    ((stm_wbetl_commit P ;;; ret tt) ;;;
     put_tx (set_status TX_COMMITTED) ;;;
     (g <- gets st_g ;; run_callbacks (g_commit_cb g) ;;; ret 1)) s /\
  c = g_clock (st_g s0) /\
  g_clock (st_g s1) = t /\
  (tx_start (st_tx s) = Word.sub t 1 -> o = release_locks t s1) /\
  (tx_start (st_tx s) <> Word.sub t 1 -> read_set_valid P s -> o = release_locks t s1) /\
  (tx_start (st_tx s) <> Word.sub t 1 -> ~ read_set_valid P s ->
   o = (stm_rollback P reason ;;; ret 0) s1 /\
   (forall v s', o = Ret v s' -> v = 0) /\
   rollback_frame P reason s (jump_of o) (final o) /\
   (forall l, owned_by_tx P s0 l -> LOCK_GET_OWNED (g_locks (st_g (final o)) l) = 0) /\
   (no_retry (tx_attr (st_tx s0)) = false ->
    Z.land reason (STM_ABORT_NO_RETRY P) <> STM_ABORT_NO_RETRY P ->
    forall v s', o <> Ret v s') /\
   (reason <> STM_ABORT_EXTEND_WS P ->
    no_retry (tx_attr (st_tx s0)) = true
      \/ Z.land reason (STM_ABORT_NO_RETRY P) = STM_ABORT_NO_RETRY P ->
    let s' := rolled_back P reason s1 in
    o = Ret 0 s' /\
    tx_status (st_tx s') = TX_ABORTED /\
    tx_nesting (st_tx s') = 0 /\
    released s' /\
    g_clock (st_g s') = t /\
    st_mem s' = st_mem s0) /\
   (reason <> STM_ABORT_EXTEND_WS P ->
    no_retry (tx_attr (st_tx s0)) = false ->
    Z.land reason (STM_ABORT_NO_RETRY P) <> STM_ABORT_NO_RETRY P ->
    t < VERSION_MAX ->
    g_quiesce (st_g s0) <> 2 ->
    let s' := retry_state P reason s1 in
    o = LongJmp (Z.lor reason (STM_PATH_INSTRUMENTED P)) s' /\
    int_stm_commit P s0 = LongJmp (Z.lor reason (STM_PATH_INSTRUMENTED P)) s' /\
    tx_status (st_tx s') = TX_ACTIVE /\
    ws_nb_entries (tx_w_set (st_tx s')) = 0%nat /\
    rs_nb_entries (tx_r_set (st_tx s')) = 0%nat /\
    tx_start (st_tx s') = t /\
    tx_end (st_tx s') = t /\
    released s' /\
    g_clock (st_g s') = t /\
    st_mem s' = st_mem s0)).
Proof.
  intros Hn Hact Hnb Hirr Hgirr Hb W s c t s1 o reason released.
  subst reason.
  destruct (commit_entry_frame s0) as (Hg & Hmem & Htx).
  pose proof (int_stm_commit_top_level P s0 Hn Hact Hnb) as Htop. fold s in Htop.
  split; [exact Htop|].
  split; [unfold c, s; rewrite Hg; reflexivity|].
  split; [reflexivity|].
  destruct (stm_wbetl_commit_cases P s) as (Heq1 & Heq2 & Hfail).
  { unfold s. rewrite Htx. exact Hirr. }
  { unfold s. rewrite Hg. exact Hgirr. }
  { unfold s, rs_bounded. rewrite Htx. exact Hb. }
  split; [exact Heq1|]. split; [exact Heq2|].
  intros Hstart Hinv.
  destruct (Hfail Hstart Hinv) as (Heq & Hzero & Hframe). fold c t s1 in Heq.
  assert (Hws1 : tx_w_set (st_tx s1) = tx_w_set (st_tx s0))
    by (cbn; fold s; unfold s; rewrite Htx; reflexivity).
  assert (Hl1 : g_locks (st_g s1) = g_locks (st_g s0))
    by (cbn; fold s; unfold s; rewrite Hg; reflexivity).
  assert (W1 : ws_wf P s1) by (apply (ws_wf_ext P s0); assumption).
  assert (Hact1 : IS_ACTIVE (tx_status (st_tx s1)) = true)
    by (cbn; fold s; unfold s; rewrite Htx; exact Hact).
  assert (Hattr1 : tx_attr (st_tx s1) = tx_attr (st_tx s0))
    by (cbn; fold s; unfold s; rewrite Htx; reflexivity).
  assert (Hown : forall l, owned_by_tx P s0 l <-> owned_by_tx P s1 l).
  { intros l. unfold owned_by_tx. rewrite Hws1, Hl1. reflexivity. }
  assert (Hwset : write_set (st_tx s1) = write_set (st_tx s0))
    by (unfold write_set; rewrite Hws1; reflexivity).
  assert (Hmem1 : st_mem s1 = st_mem s0) by (cbn; fold s; unfold s; exact Hmem).
  assert (Hrel : forall s',
    (forall l, owned_by_tx P s1 l ->
       exists et, et ∈ write_set (st_tx s1) /\ tail_of l et = true /\
         g_locks (st_g s') l = LOCK_SET_TIMESTAMP (w_version et)) ->
    (forall l, ~ owned_by_tx P s1 l -> g_locks (st_g s') l = g_locks (st_g s1) l) ->
    released s').
  { intros s' H1 H2. split.
    - intros l Hl. rewrite <- Hwset. apply H1, Hown, Hl.
    - intros l Hl. rewrite <- Hl1. apply H2. intros Hc. apply Hl, Hown, Hc. }
  split; [exact Heq|]. split; [exact Hzero|]. split; [exact Hframe|].
  split.
  { intros l Ho. unfold o. rewrite Heq.
    rewrite (proj1 (final_bind_ret (stm_rollback P (STM_ABORT_VALIDATE P)) 0 s1)).
    apply rollback_releases; [exact Hact1 | exact W1 | apply Hown, Ho]. }
  split.
  { intros Hretry Hbits v s'. unfold o. rewrite Heq.
    apply (rollback_retry_no_return P _ (fun _ => ret 0) s1); [|exact Hbits].
    rewrite Hattr1. exact Hretry. }
  split.
  - intros Hne Hno s'.
    destruct (rolled_back_state P (STM_ABORT_VALIDATE P) s1 W1 Hne) as (Hrtx & Hro & Hrn & Hrc & Hrm).
    fold s' in Hrtx, Hro, Hrn, Hrc, Hrm.
    split.
    { unfold o. rewrite Heq. unfold bind.
      rewrite (stm_rollback_no_retry_eq P (STM_ABORT_VALIDATE P) s1 Hact1 (wf_bounded P s1 W1)).
      - reflexivity.
      - rewrite Hattr1. exact Hno.
      - intros Hc. contradiction. }
    rewrite Hrtx. split; [reflexivity|]. split; [reflexivity|].
    split; [apply Hrel; assumption|].
    split; [rewrite Hrc; reflexivity|].
    rewrite Hrm. exact Hmem1.
  - intros Hne Hretry Hbits Hclock Hq s'.
    destruct (retry_state_state P (STM_ABORT_VALIDATE P) s1 W1 Hne) as (Hrtx & Hro & Hrn & Hrc & Hrm).
    fold s' in Hrtx, Hro, Hrn, Hrc, Hrm.
    assert (Hjmp : stm_rollback P (STM_ABORT_VALIDATE P) s1 =
                   LongJmp (Z.lor (STM_ABORT_VALIDATE P) (STM_PATH_INSTRUMENTED P)) s').
    { apply stm_rollback_retry_eq; try assumption.
      - apply (wf_bounded P s1 W1).
      - rewrite Hattr1. exact Hretry.
      - intros Hc. contradiction.
      - cbn. fold s. unfold s. rewrite Hg. exact Hq. }
    assert (Ho : o = LongJmp (Z.lor (STM_ABORT_VALIDATE P) (STM_PATH_INSTRUMENTED P)) s').
    { unfold o. rewrite Heq. unfold bind. rewrite Hjmp. reflexivity. }
    split; [exact Ho|].
    split.
    { rewrite Htop. unfold bind at 1. unfold bind at 1. fold o. rewrite Ho. reflexivity. }
    rewrite Hrtx.
    split; [reflexivity|]. split; [reflexivity|]. split; [reflexivity|].
    split; [reflexivity|]. split; [reflexivity|].
    split; [apply Hrel; assumption|].
    split; [rewrite Hrc; reflexivity|].
    rewrite Hrm. exact Hmem1.
Qed.

Lemma sample_stale_wf retry : ws_wf sample_platform (sample_stale retry).
Proof.
  apply (ws_wf_ext sample_platform (sample_active retry)); try reflexivity.
  apply sample_active_wf.
Qed.

Lemma sample_stale_owns retry : owned_by_tx sample_platform (sample_stale retry) 7.
Proof. split; vm_compute; congruence. Qed.

Lemma commit_timestamp_and_validation_witness :
  (exists s',
     stm_wbetl_commit sample_platform (commit_entry (sample_stale true)) = LongJmp 1857 s' /\
     LOCK_GET_OWNED (g_locks (st_g s') 7) = 0 /\
     tx_status (st_tx s') = TX_ACTIVE /\
     ws_nb_entries (tx_w_set (st_tx s')) = 0%nat /\
     st_mem s' = st_mem (sample_stale true)) /\
  (exists s',
     stm_wbetl_commit sample_platform (commit_entry (sample_stale false)) = Ret 0 s' /\
     LOCK_GET_OWNED (g_locks (st_g s') 7) = 0 /\
     tx_status (st_tx s') = TX_ABORTED /\
     st_mem s' = st_mem (sample_stale false)).
Proof.
  split.
  - destruct (commit_timestamp_and_validation sample_platform (sample_stale true)
                eq_refl eq_refl) as (_ & _ & _ & _ & _ & H).
    + discriminate.
    + reflexivity.
    + reflexivity.
    + unfold rs_bounded. cbn. lia.
    + apply sample_stale_wf.
    + destruct H as (_ & _ & _ & _ & _ & _ & Hretry).
      * vm_compute. discriminate.
      * apply sample_stale_invalid.
      * destruct Hretry as (Ho & _ & Hst & Hnb & _ & _ & _ & (Hrel & _) & _ & Hm).
        -- discriminate.
        -- reflexivity.
        -- discriminate.
        -- vm_compute. reflexivity.
        -- discriminate.
        -- eexists. split; [exact Ho|].
           split; [|split; [exact Hst | split; [exact Hnb | exact Hm]]].
           destruct (Hrel 7 (sample_stale_owns true)) as (et & _ & _ & Hl).
           rewrite Hl. apply LockFacts.set_timestamp_free.
  - destruct (commit_timestamp_and_validation sample_platform (sample_stale false)
                eq_refl eq_refl) as (_ & _ & _ & _ & _ & H).
    + discriminate.
    + reflexivity.
    + reflexivity.
    + unfold rs_bounded. cbn. lia.
    + apply sample_stale_wf.
    + destruct H as (_ & _ & _ & _ & _ & Hret & _).
      * vm_compute. discriminate.
      * apply sample_stale_invalid.
      * destruct Hret as (Ho & Hst & _ & (Hrel & _) & _ & Hm).
        -- discriminate.
        -- left. reflexivity.
        -- eexists. split; [exact Ho|].
           split; [|split; [exact Hst | exact Hm]].
           destruct (Hrel 7 (sample_stale_owns false)) as (et & _ & _ & Hl).
           rewrite Hl. apply LockFacts.set_timestamp_free.
Defined.

(** C7.  A store that finds the lock of its address free, with a
    timestamp beyond [end].

    If the read set has an entry for the lock, the store is
    [stm_rollback] with reason [STM_ABORT_VAL_WRITE] followed by
    [return NULL].  However that rollback ends, the lock of the address
    is still free, no lock is acquired, the locks the transaction owned
    are free and memory is untouched.  In a transaction that is not
    retried the store returns [NULL] with the status [TX_ABORTED] and
    [nesting] 0; in one that is retried (clock below [VERSION_MAX], no
    quiescence requested) it jumps to the retry point with that reason,
    both sets empty and the transaction active again.  In both the locks
    the transaction owned hold the versions captured at acquisition and
    the other locks, the lock of the address among them, are untouched.

    If the read set has no entry for the lock, the store goes on to take
    the lock.  With room in the write set it takes it by compare-and-swap
    and returns the new entry, which keeps the timestamp as its version.
    With a full write set it first rolls back with reason
    [STM_ABORT_EXTEND_WS]: a transaction that is retried never returns
    from the store; it jumps to the retry point with that reason, the
    write-set array doubled, the locks it owned released and the lock of
    the address not taken, as free as it was.

    The transaction is active and not irrevocable, its write set well
    formed ([ws_wf]: the array has [size] slots, of which [nb_entries]
    are in use, and the locks and links of the entries agree) and its
    read-set counter within its array. *)
Theorem write_after_read_check
    (P : platform) (fuel : nat) (addr value mask : Z) (s : state) :
  let lock := GET_LOCK addr in
  let l := g_locks (st_g s) lock in
  let ws := tx_w_set (st_tx s) in
  let w := w_ptr P ws (ws_nb_entries ws) in
  let o := stm_wbetl_write P (S fuel) addr value mask s in
  let released (s' : state) :=
    (forall l', owned_by_tx P s l' ->
       exists et, et ∈ write_set (st_tx s) /\ tail_of l' et = true /\
         g_locks (st_g s') l' = LOCK_SET_TIMESTAMP (w_version et)) /\
    (forall l', ~ owned_by_tx P s l' -> g_locks (st_g s') l' = g_locks (st_g s) l') in
  IS_ACTIVE (tx_status (st_tx s)) = true ->
  ws_wf P s ->
  rs_bounded (st_tx s) ->
  tx_irrevocable (st_tx s) = 0 ->
  LOCK_GET_OWNED l = 0 ->
  LOCK_GET_TIMESTAMP l > tx_end (st_tx s) ->
  ((exists e, e ∈ read_set (st_tx s) /\ r_lock e = lock) ->
   let reason := STM_ABORT_VAL_WRITE P in
   o = (stm_rollback P reason ;;; ret 0) s /\
   (forall v s', o = Ret v s' -> v = 0) /\
   rollback_frame P reason s (jump_of o) (final o) /\
   LOCK_GET_OWNED (g_locks (st_g (final o)) lock) = 0 /\
   (forall l', owned_by_tx P s l' -> LOCK_GET_OWNED (g_locks (st_g (final o)) l') = 0) /\
   (no_retry (tx_attr (st_tx s)) = false ->
    Z.land reason (STM_ABORT_NO_RETRY P) <> STM_ABORT_NO_RETRY P ->
    forall v s', o <> Ret v s') /\
   (reason <> STM_ABORT_EXTEND_WS P ->
    no_retry (tx_attr (st_tx s)) = true
      \/ Z.land reason (STM_ABORT_NO_RETRY P) = STM_ABORT_NO_RETRY P ->
    let s' := rolled_back P reason s in
    o = Ret 0 s' /\
    tx_status (st_tx s') = TX_ABORTED /\
    tx_nesting (st_tx s') = 0 /\
    released s' /\
    g_locks (st_g s') lock = l /\
    st_mem s' = st_mem s) /\
   (reason <> STM_ABORT_EXTEND_WS P ->
    no_retry (tx_attr (st_tx s)) = false ->
    Z.land reason (STM_ABORT_NO_RETRY P) <> STM_ABORT_NO_RETRY P ->
    g_clock (st_g s) < VERSION_MAX ->
    g_quiesce (st_g s) <> 2 ->
    let s' := retry_state P reason s in
    o = LongJmp (Z.lor reason (STM_PATH_INSTRUMENTED P)) s' /\
    tx_status (st_tx s') = TX_ACTIVE /\
    ws_nb_entries (tx_w_set (st_tx s')) = 0%nat /\
    rs_nb_entries (tx_r_set (st_tx s')) = 0%nat /\
    tx_start (st_tx s') = g_clock (st_g s) /\
    tx_end (st_tx s') = g_clock (st_g s) /\
    released s' /\
    g_locks (st_g s') lock = l /\
    st_mem s' = st_mem s)) /\
  ((forall e, e ∈ read_set (st_tx s) -> r_lock e <> lock) ->
   ((ws_nb_entries ws < ws_size ws)%nat ->
    exists s',
      o = Ret w s' /\
      g_locks (st_g s') lock = LOCK_SET_ADDR_WRITE w /\
      LOCK_GET_OWNED (g_locks (st_g s') lock) <> 0 /\
      st_hist s' = EvLockCAS lock l (LOCK_SET_ADDR_WRITE w) :: st_hist s /\
      ws_nb_entries (tx_w_set (st_tx s')) = S (ws_nb_entries ws) /\
      ws_slots (tx_w_set (st_tx s')) !! ws_nb_entries ws =
        Some {| w_addr := addr; w_value := new_value (st_mem s addr) value mask;
                w_mask := mask; w_version := LOCK_GET_TIMESTAMP l; w_lock := lock;
                w_next := 0 |}) /\
   (ws_nb_entries ws = ws_size ws ->
    let reason := STM_ABORT_EXTEND_WS P in
    let base := xrealloc P (ws_entries ws) (Z.of_nat (ws_size ws * 2) * sizeof_w_entry_t P) in
    no_retry (tx_attr (st_tx s)) = false ->
    Z.land reason (STM_ABORT_NO_RETRY P) <> STM_ABORT_NO_RETRY P ->
    (forall v s', o <> Ret v s') /\
    rollback_frame P reason s (jump_of o) (final o) /\
    LOCK_GET_OWNED (g_locks (st_g (final o)) lock) = 0 /\
    (forall l', owned_by_tx P s l' -> LOCK_GET_OWNED (g_locks (st_g (final o)) l') = 0) /\
    (Z.land base OWNED_MASK = 0 ->
     g_clock (st_g s) < VERSION_MAX ->
     g_quiesce (st_g s) <> 2 ->
     let s' := retry_state P reason s in
     o = LongJmp (Z.lor reason (STM_PATH_INSTRUMENTED P)) s' /\
     g_locks (st_g s') lock = l /\
     released s' /\
     tx_status (st_tx s') = TX_ACTIVE /\
     ws_nb_entries (tx_w_set (st_tx s')) = 0%nat /\
     ws_size (tx_w_set (st_tx s')) = (ws_size ws * 2)%nat /\
     ws_entries (tx_w_set (st_tx s')) = base /\
     st_mem s' = st_mem s))).
Proof.
  intros lock l ws w o released Hact W Hb Hirr Ho Hv.
  assert (Hnot : ~ owned_by_tx P s lock) by (intros [Hc _]; contradiction).
  split.
  - intros Hread reason. subst reason.
    destruct (find_lock_some lock _ 0%nat Hread) as [i Hi].
    assert (Heq : o = (stm_rollback P (STM_ABORT_VAL_WRITE P) ;;; ret 0) s)
      by (apply (write_val_write P fuel addr value mask s i Ho Hirr Hb Hv Hi)).
    assert (Hfin : final o = final (stm_rollback P (STM_ABORT_VAL_WRITE P) s)).
    { rewrite Heq. apply (final_bind_ret (stm_rollback P (STM_ABORT_VAL_WRITE P)) 0 s). }
    split; [exact Heq|].
    split; [intros v s'; rewrite Heq; apply bind_ret_value|].
    split.
    { rewrite Heq.
      destruct (final_bind_ret (stm_rollback P (STM_ABORT_VAL_WRITE P)) 0 s) as [-> ->].
      apply stm_rollback_frame. }
    split; [rewrite Hfin; apply rollback_keeps_free; exact Ho|].
    split; [intros l' Hl'; rewrite Hfin; apply rollback_releases; assumption|].
    split.
    { intros Hretry Hbits v s'. rewrite Heq.
      apply (rollback_retry_no_return P _ (fun _ => ret 0) s Hretry Hbits). }
    split.
    + intros Hne Hno s'.
      destruct (rolled_back_state P (STM_ABORT_VAL_WRITE P) s W Hne)
        as (Hrtx & Hro & Hrn & _ & Hrm).
      fold s' in Hrtx, Hro, Hrn, Hrm.
      split.
      { rewrite Heq. unfold bind.
        rewrite (stm_rollback_no_retry_eq P _ s Hact (wf_bounded P s W) Hno).
        - reflexivity.
        - intros Hc. contradiction. }
      rewrite Hrtx. split; [reflexivity|]. split; [reflexivity|].
      split; [split; assumption|].
      split; [apply Hrn; exact Hnot | exact Hrm].
    + intros Hne Hretry Hbits Hclock Hq s'.
      destruct (retry_state_state P (STM_ABORT_VAL_WRITE P) s W Hne)
        as (Hrtx & Hro & Hrn & _ & Hrm).
      fold s' in Hrtx, Hro, Hrn, Hrm.
      split.
      { rewrite Heq. unfold bind.
        rewrite (stm_rollback_retry_eq P _ s Hact (wf_bounded P s W) Hretry Hbits).
        - reflexivity.
        - intros Hc. contradiction.
        - exact Hclock.
        - exact Hq. }
      rewrite Hrtx.
      split; [reflexivity|]. split; [reflexivity|]. split; [reflexivity|].
      split; [reflexivity|]. split; [reflexivity|].
      split; [split; assumption|].
      split; [apply Hrn; exact Hnot | exact Hrm].
  - intros Hnone. split.
    + intros Hroom.
      pose proof (wf_length P s W) as Hlen. fold ws in Hlen.
      exists (acquired P addr value mask s).
      split.
      { apply write_acquire; auto.
        - intros _. apply find_lock_none, Forall_forall. exact Hnone.
        - fold ws. lia.
        - fold ws. lia. }
      split; [cbn; unfold upd; rewrite Z.eqb_refl; reflexivity|].
      split.
      { cbn. unfold upd. rewrite Z.eqb_refl.
        rewrite LockFacts.set_addr_write_owned. discriminate. }
      split; [reflexivity|]. split; [reflexivity|].
      cbn. apply list_lookup_insert_eq. fold ws. lia.
    + intros Hfull reason base Hretry Hbits. subst reason.
      destruct (write_needs_entry P fuel addr value mask s Hirr Hb) as (k & Hk).
      { left. split; [exact Ho|]. intros _. apply Forall_forall. exact Hnone. }
      assert (Heq : o = bind (stm_rollback P (STM_ABORT_EXTEND_WS P)) k s).
      { unfold o. rewrite Hk. unfold bind.
        rewrite (write_check_full_full P s Hfull). reflexivity. }
      destruct (rollback_retry_no_return P (STM_ABORT_EXTEND_WS P) k s Hretry Hbits)
        as (Hnr & Hfin & Hjmp).
      rewrite <- Heq in Hnr, Hfin, Hjmp.
      split; [exact Hnr|].
      split; [rewrite Hfin, Hjmp; apply stm_rollback_frame|].
      split; [rewrite Hfin; apply rollback_keeps_free; exact Ho|].
      split; [intros l' Hl'; rewrite Hfin; apply rollback_releases; assumption|].
      intros Halign Hclock Hq s'.
      destruct (retry_state_any P (STM_ABORT_EXTEND_WS P) s W)
        as (Hrtx & Hro & Hrn & _ & Hrm).
      fold s' in Hrtx, Hro, Hrn, Hrm. rewrite Z.eqb_refl in Hrtx.
      split.
      { rewrite Heq. unfold bind.
        rewrite (stm_rollback_retry_eq P _ s Hact (wf_bounded P s W) Hretry Hbits).
        - reflexivity.
        - intros _. exact Halign.
        - exact Hclock.
        - exact Hq. }
      split; [apply Hrn; exact Hnot|].
      split; [split; assumption|].
      rewrite Hrtx.
      split; [reflexivity|]. split; [reflexivity|]. split; [reflexivity|].
      split; [reflexivity | exact Hrm].
Qed.

Lemma sample_behind_wf retry reads : ws_wf sample_platform (sample_behind retry reads).
Proof.
  apply (ws_wf_ext sample_platform (sample_active retry)); try reflexivity.
  apply sample_active_wf.
Qed.

Lemma sample_crowded_wf retry : ws_wf sample_platform (sample_crowded retry).
Proof.
  apply (ws_wf_ext sample_platform (sample_full retry)); try reflexivity.
  apply sample_full_wf.
Qed.

(** Address 96 is covered by lock 3. *)
Lemma write_after_read_check_witness :
  (exists s',
     stm_wbetl_write sample_platform 1 96 5 Word.ones
       (sample_behind true [ {| r_version := 4; r_lock := 3 |} ]) = LongJmp 1601 s' /\
     g_locks (st_g s') 3 = LOCK_SET_TIMESTAMP 5 /\
     tx_status (st_tx s') = TX_ACTIVE) /\
  (exists s',
     stm_wbetl_write sample_platform 1 96 5 Word.ones (sample_behind true []) =
       Ret 4160 s' /\
     g_locks (st_g s') 3 = LOCK_SET_ADDR_WRITE 4160) /\
  (exists s',
     stm_wbetl_write sample_platform 1 96 5 Word.ones (sample_crowded true) =
       LongJmp 3137 s' /\
     g_locks (st_g s') 3 = LOCK_SET_TIMESTAMP 5).
Proof.
  split; [|split].
  - destruct (write_after_read_check sample_platform 0 96 5 Word.ones
                (sample_behind true [ {| r_version := 4; r_lock := 3 |} ]))
      as [H _].
    + reflexivity.
    + apply sample_behind_wf.
    + unfold rs_bounded. cbn. lia.
    + reflexivity.
    + reflexivity.
    + reflexivity.
    + destruct H as (_ & _ & _ & _ & _ & _ & _ & Hretry).
      * exists {| r_version := 4; r_lock := 3 |}. split; [left | reflexivity].
      * destruct Hretry as (Ho & Hst & _ & _ & _ & _ & _ & Hl & _).
        -- discriminate.
        -- reflexivity.
        -- discriminate.
        -- vm_compute. reflexivity.
        -- discriminate.
        -- eexists. split; [exact Ho|]. split; [exact Hl | exact Hst].
  - destruct (write_after_read_check sample_platform 0 96 5 Word.ones
                (sample_behind true []))
      as [_ H].
    + reflexivity.
    + apply sample_behind_wf.
    + unfold rs_bounded. cbn. lia.
    + reflexivity.
    + reflexivity.
    + reflexivity.
    + destruct H as [Hroom _].
      * intros e He. inversion He.
      * destruct Hroom as (s' & Ho & Hl & _); [cbn; lia|].
        exists s'. split; [exact Ho | exact Hl].
  - destruct (write_after_read_check sample_platform 0 96 5 Word.ones
                (sample_crowded true))
      as [_ H].
    + reflexivity.
    + apply sample_crowded_wf.
    + unfold rs_bounded. cbn. lia.
    + reflexivity.
    + reflexivity.
    + reflexivity.
    + destruct H as [_ Hfull].
      * apply Forall_forall. repeat constructor. discriminate.
      * destruct Hfull as (_ & _ & _ & _ & Hjump).
        -- reflexivity.
        -- reflexivity.
        -- discriminate.
        -- destruct Hjump as (Ho & Hl & _).
           ++ reflexivity.
           ++ vm_compute. reflexivity.
           ++ discriminate.
           ++ eexists. split; [exact Ho | exact Hl].
Defined.

Lemma write_after_read_check_counterexample :
  IS_ACTIVE (tx_status (st_tx (sample_crowded true))) = true /\
  LOCK_GET_OWNED (g_locks (st_g (sample_crowded true)) (GET_LOCK 96)) = 0 /\
  LOCK_GET_TIMESTAMP (g_locks (st_g (sample_crowded true)) (GET_LOCK 96))
    > tx_end (st_tx (sample_crowded true)) /\
  (forall e, e ∈ read_set (st_tx (sample_crowded true)) -> r_lock e <> GET_LOCK 96) /\
  (exists s',
     stm_wbetl_write sample_platform 1 96 5 Word.ones (sample_crowded true) =
       LongJmp 3137 s' /\
     g_locks (st_g s') (GET_LOCK 96) = g_locks (st_g (sample_crowded true)) (GET_LOCK 96) /\
     LOCK_GET_OWNED (g_locks (st_g s') (GET_LOCK 96)) = 0) /\
  ~ (exists w s',
       stm_wbetl_write sample_platform 1 96 5 Word.ones (sample_crowded true) = Ret w s').
Proof.
  split; [reflexivity|]. split; [reflexivity|]. split; [reflexivity|].
  split; [apply Forall_forall; repeat constructor; discriminate|].
  split.
  - exists (final (stm_wbetl_write sample_platform 1 96 5 Word.ones (sample_crowded true))).
    split; [reflexivity|]. split; reflexivity.
  - intros (w & s' & H). discriminate H.
Defined.

(** * Loads after a store *)

(** ** A store does not revive a transaction *)

Section Inactive.

Variable P : platform.

Lemma si_same {A} (m : M A) :
  (forall s v s', m s = Ret v s' -> tx_status (st_tx s') = tx_status (st_tx s)) ->
  stays_inactive m.
Proof. intros H s v s' Hin Hm. rewrite (H s v s' Hm). exact Hin. Qed.

Lemma si_bind {A B} (m : M A) (k : A -> M B) :
  stays_inactive m -> (forall a, stays_inactive (k a)) -> stays_inactive (bind m k).
Proof.
  intros Hm Hk s v s' Hin H. bind_inv H E.
  apply (Hk _ _ _ _ (Hm _ _ _ Hin E) H).
Qed.

Lemma si_ret {A} (v : A) : stays_inactive (ret v).
Proof. apply si_same. intros s v0 s' H. inversion H. reflexivity. Qed.

Lemma si_gets {A} (f : state -> A) : stays_inactive (gets f).
Proof. apply si_same. intros s v0 s' H. inversion H. reflexivity. Qed.

Lemma si_assert b : stays_inactive (assert b).
Proof.
  apply si_same. intros s v s' H. unfold assert in H.
  destruct (b s); inversion H. reflexivity.
Qed.

Lemma si_if {A} (b : bool) (m1 m2 : M A) :
  stays_inactive m1 -> stays_inactive m2 -> stays_inactive (if b then m1 else m2).
Proof. destruct b; auto. Qed.

Lemma si_put_tx f :
  (forall tx, tx_status (f tx) = tx_status tx) -> stays_inactive (put_tx f).
Proof. intros Hf. apply si_same. intros s v s' H. inversion H. apply Hf. Qed.

Lemma si_w_deref w : stays_inactive (w_deref P w).
Proof.
  apply si_same. intros s v s' H. unfold w_deref in H.
  destruct (w_lookup P (tx_w_set (st_tx s)) w); inversion H. reflexivity.
Qed.

Lemma si_w_assign w f : stays_inactive (w_assign P w f).
Proof.
  apply si_same. intros s v s' H. unfold w_assign in H.
  destruct (w_index P (tx_w_set (st_tx s)) w) as [i|]; [|discriminate H].
  destruct (ws_slots (tx_w_set (st_tx s)) !! i); inversion H. reflexivity.
Qed.

Lemma si_cas_lock l old new : stays_inactive (cas_lock l old new).
Proof.
  apply si_same. intros s v s' H. unfold cas_lock in H.
  destruct (g_locks (st_g s) l =? old); inversion H; reflexivity.
Qed.

(** [stm_rollback] asserts that the transaction is active. *)
Lemma si_stm_rollback reason : stays_inactive (stm_rollback P reason).
Proof.
  intros s v s' Hin H. unfold stm_rollback, bind, assert in H.
  rewrite Hin in H. discriminate H.
Qed.

Lemma si_write_check_full : stays_inactive (write_check_full P).
Proof.
  unfold write_check_full.
  apply si_bind; [apply si_gets|]. intros tx.
  apply si_if; [apply si_stm_rollback | apply si_ret].
Qed.

Lemma si_write_walk fuel addr : forall prev, stays_inactive (write_walk P fuel addr prev).
Proof.
  induction fuel as [|fuel IH]; intros prev; cbn [write_walk].
  - intros s v s' _ H. discriminate H.
  - apply si_bind; [apply si_w_deref|]. intros e.
    apply si_if; [apply si_ret|]. apply si_if; [apply si_ret | apply IH].
Qed.

Lemma si_write_merge prev addr value mask :
  stays_inactive (write_merge P prev addr value mask).
Proof.
  unfold write_merge.
  apply si_bind.
  { apply si_if; [|apply si_ret].
    apply si_bind; [apply si_w_deref|]. intros e.
    apply si_bind.
    - apply si_if; [|apply si_ret].
      apply si_bind; [apply si_gets | intros m; apply si_w_assign].
    - intros _. apply si_bind; [apply si_w_deref | intros e'; apply si_ret]. }
  intros v. apply si_bind; [apply si_w_assign|]. intros _.
  apply si_bind; [apply si_w_assign | intros _; apply si_ret].
Qed.

Lemma si_do_write prev addr value mask version lock :
  stays_inactive (do_write P prev addr value mask version lock).
Proof.
  unfold do_write.
  apply si_bind; [apply si_gets|]. intros tx.
  apply si_bind.
  { apply si_if; [apply si_ret|]. apply si_if; [|apply si_ret].
    apply si_bind; [apply si_gets | intros m; apply si_ret]. }
  intros v. apply si_bind.
  { apply si_same. intros s u s' H.
    destruct (_ <? _)%nat; inversion H. reflexivity. }
  intros _. apply si_bind.
  { apply si_if; [apply si_w_assign | apply si_ret]. }
  intros _. apply si_bind; [apply si_put_tx; reflexivity | intros _; apply si_ret].
Qed.

Lemma si_has_read_loop lock i : forall r, stays_inactive (has_read_loop i r lock).
Proof.
  induction i as [|i IH]; intros r; cbn [has_read_loop]; [apply si_ret|].
  apply si_bind; [apply si_gets|]. intros tx.
  destruct (rs_slots (tx_r_set tx) !! r); [|intros s v s' _ H; discriminate H].
  apply si_if; [apply si_ret | apply IH].
Qed.

Lemma si_stm_wbetl_write fuel : forall addr value mask,
  stays_inactive (stm_wbetl_write P fuel addr value mask).
Proof.
  induction fuel as [|fuel IH]; intros addr value mask; cbn [stm_wbetl_write].
  - intros s v s' _ H. discriminate H.
  - apply si_bind; [apply si_gets|]. intros l.
    apply si_bind; [apply si_gets|]. intros tx.
    assert (Hacq : stays_inactive
      (write_check_full P ;;;
       tx' <- get_tx ;;
       ok <- cas_lock (GET_LOCK addr) l
               (LOCK_SET_ADDR_WRITE (w_ptr P (tx_w_set tx') (ws_nb_entries (tx_w_set tx')))) ;;
       if ok =? 0 then stm_wbetl_write P fuel addr value mask
       else do_write P 0 addr value mask (LOCK_GET_TIMESTAMP l) (GET_LOCK addr))).
    { apply si_bind; [apply si_write_check_full|]. intros _.
      apply si_bind; [apply si_gets|]. intros tx'.
      apply si_bind; [apply si_cas_lock|]. intros ok.
      apply si_if; [apply IH | apply si_do_write]. }
    apply si_if.
    + apply si_if.
      * apply si_if; [apply si_ret|].
        apply si_bind; [apply si_write_walk|]. intros [prev|prev].
        -- apply si_write_merge.
        -- apply si_bind; [apply si_w_deref|]. intros e.
           apply si_bind; [apply si_write_check_full | intros _; apply si_do_write].
      * apply si_if; [apply IH|].
        apply si_bind; [apply si_stm_rollback | intros _; apply si_ret].
    + apply si_if; [exact Hacq|].
      apply si_if; [|exact Hacq].
      apply si_bind.
      * unfold stm_has_read. apply si_bind; [apply si_gets|].
        intros tx'. apply si_has_read_loop.
      * intros [i|]; [|exact Hacq].
        apply si_bind; [apply si_stm_rollback | intros _; apply si_ret].
Qed.

End Inactive.

(** ** The states a store of an active transaction returns in *)

Section StoreResult.

Variable P : platform.

Lemma rollback_zero_inactive reason s (w : Z) s' :
  (stm_rollback P reason ;;; ret 0) s = Ret w s' ->
  IS_ACTIVE (tx_status (st_tx s')) = false.
Proof.
  intros H. bind_inv H E. inversion H; subst.
  destruct (stm_rollback_ret P reason s _ _ E) as (Hst & _).
  rewrite Hst. reflexivity.
Qed.

(** The store on a lock the transaction owns whose bucket has no entry
    for the address, up to the test for a full write set. *)
Lemma write_tail_eq fuel addr value mask s t et :
  owned_by_tx P s (GET_LOCK addr) ->
  bucket_tail P s addr t et ->
  mask <> 0 ->
  stm_wbetl_write P (S fuel) addr value mask s =
  (write_check_full P ;;;
   do_write P (w_ptr P (tx_w_set (st_tx s)) t) addr value mask (w_version et)
     (GET_LOCK addr)) s.
Proof.
  intros [Ho Hc] (h & Hh & Hr & Ht & Ha & Hn) Hm. cbn [stm_wbetl_write].
  rewrite (bind_ret _ _ s (g_locks (st_g s) (GET_LOCK addr)) s) by reflexivity.
  rewrite (bind_ret _ _ s (st_tx s) s) by reflexivity.
  apply Z.eqb_neq in Ho, Hm. rewrite Ho, Hc, Hm. cbn [negb].
  rewrite Hh.
  erewrite bind_ret.
  2:{ apply (write_walk_tail P s addr h t Hr _ et); [|exact Ht | exact Ha | exact Hn].
      pose proof (lookup_lt_Some _ _ _ Ht). lia. }
  cbv beta iota.
  rewrite (bind_ret _ _ _ _ _ (w_deref_ptr P s t et Ht)).
  reflexivity.
Qed.

(** A store that finds the write set full when it needs an entry does
    not return with the transaction active. *)
Lemma full_then_inactive {A} (k : unit -> M A) s v s' :
  ws_nb_entries (tx_w_set (st_tx s)) = ws_size (tx_w_set (st_tx s)) ->
  (forall u, stays_inactive (k u)) ->
  bind (write_check_full P) k s = Ret v s' ->
  IS_ACTIVE (tx_status (st_tx s')) = false.
Proof.
  intros Hfull Hk H. bind_inv H E.
  rewrite (write_check_full_full P s Hfull) in E.
  destruct (stm_rollback_ret P _ s _ _ E) as (Hst & _).
  apply (Hk _ _ _ _ ltac:(rewrite Hst; reflexivity) H).
Qed.

(** The four ways a store returns with the transaction still active:
    nothing to do, the free lock taken, the entry for the address
    updated, an entry added to the bucket. *)
Lemma write_result_active fuel addr value mask s w s' :
  ws_wf P s ->
  tx_irrevocable (st_tx s) = 0 ->
  rs_bounded (st_tx s) ->
  stm_wbetl_write P (S fuel) addr value mask s = Ret w s' ->
  IS_ACTIVE (tx_status (st_tx s')) = true ->
  let ws := tx_w_set (st_tx s) in
  (owned_by_tx P s (GET_LOCK addr) /\ mask = 0 /\ s' = s) \/
  (LOCK_GET_OWNED (g_locks (st_g s) (GET_LOCK addr)) = 0 /\
   (ws_nb_entries ws < ws_size ws)%nat /\
   s' = acquired P addr value mask s /\ w = w_ptr P ws (ws_nb_entries ws)) \/
  (owned_by_tx P s (GET_LOCK addr) /\ mask <> 0 /\
   exists j ej, (j < ws_nb_entries ws)%nat /\ bucket_entry P s addr j ej /\
     s' = merged j ej addr value mask s /\ w = w_ptr P ws j) \/
  (owned_by_tx P s (GET_LOCK addr) /\ mask <> 0 /\
   (ws_nb_entries ws < ws_size ws)%nat /\
   exists t et, (t < ws_nb_entries ws)%nat /\ bucket_tail P s addr t et /\
     w_lock et = GET_LOCK addr /\
     s' = appended P t et addr value mask s /\ w = w_ptr P ws (ws_nb_entries ws)).
Proof.
  intros W Hirr Hb Hw Hact' ws.
  pose proof (wf_length P s W) as Hlen. pose proof (wf_nb P s W) as Hnb.
  pose proof (wf_base_pos P s W) as Hpos. fold ws in Hlen, Hnb, Hpos.
  assert (Hdead : forall reason,
            stm_wbetl_write P (S fuel) addr value mask s =
              (stm_rollback P reason ;;; ret 0) s -> False).
  { intros reason Heq. rewrite Heq in Hw.
    rewrite (rollback_zero_inactive reason s w s' Hw) in Hact'. discriminate Hact'. }
  destruct (Z.eq_dec (LOCK_GET_OWNED (g_locks (st_g s) (GET_LOCK addr))) 0) as [Hfree|Hown].
  - (* the lock is free *)
    right. left.
    assert (Hnr : LOCK_GET_TIMESTAMP (g_locks (st_g s) (GET_LOCK addr)) > tx_end (st_tx s) ->
                  find_lock (GET_LOCK addr) (read_set (st_tx s)) 0 = None).
    { intros Hgt.
      destruct (find_lock (GET_LOCK addr) (read_set (st_tx s)) 0) as [i|] eqn:Hf;
        [|reflexivity].
      exfalso. apply (Hdead (STM_ABORT_VAL_WRITE P)).
      apply (write_val_write P fuel addr value mask s i Hfree Hirr Hb Hgt Hf). }
    destruct (Nat.eq_dec (ws_nb_entries ws) (ws_size ws)) as [Hfull|Hroom].
    + exfalso.
      rewrite (write_free_eq P fuel addr value mask s Hfree Hirr Hb) in Hw
        by (intros Hgt; pose proof (Hnr Hgt) as Hn; apply find_lock_none in Hn; exact Hn).
      assert (Hin : IS_ACTIVE (tx_status (st_tx s')) = false);
        [|rewrite Hin in Hact'; discriminate Hact'].
      refine (full_then_inactive _ s w s' Hfull _ Hw).
      intros _. apply si_bind; [apply si_gets|]. intros tx'.
      apply si_bind; [apply si_cas_lock|]. intros ok.
      apply si_if; [apply si_stm_wbetl_write | apply si_do_write].
    + rewrite (write_acquire P fuel addr value mask s Hfree Hirr Hb Hnr) in Hw
        by (fold ws; lia).
      injection Hw as <- <-. repeat split; [exact Hfree | lia].
  - (* the lock is owned *)
    destruct (ws_contains P (tx_w_set (st_tx s))
                (LOCK_GET_ADDR (g_locks (st_g s) (GET_LOCK addr)))) eqn:Hc.
    + assert (Ho : owned_by_tx P s (GET_LOCK addr)) by (split; assumption).
      destruct (Z.eq_dec mask 0) as [->|Hm].
      { rewrite (write_owned_mask0 P fuel addr value s Ho) in Hw.
        injection Hw as _ <-. left. repeat split; assumption. }
      right. right.
      destruct (wf_bucket P s addr W Ho)
        as [(j & ej & Hj & Hbe)|(t & et & Ht & Hbt & Htl)].
      * rewrite (write_owned_found P fuel addr value mask s j ej Ho Hbe Hm) in Hw.
        injection Hw as <- <-. left.
        split; [exact Ho|]. split; [exact Hm|]. exists j, ej. repeat split; assumption.
      * right.
        destruct (Nat.eq_dec (ws_nb_entries ws) (ws_size ws)) as [Hfull|Hroom].
        -- exfalso.
           rewrite (write_tail_eq fuel addr value mask s t et Ho Hbt Hm) in Hw.
           assert (Hin : IS_ACTIVE (tx_status (st_tx s')) = false);
             [|rewrite Hin in Hact'; discriminate Hact'].
           refine (full_then_inactive _ s w s' Hfull _ Hw).
           intros _. apply si_do_write.
        -- rewrite (write_owned_append P fuel addr value mask s t et Ho Hbt Hm Hpos Ht) in Hw
             by (fold ws; lia).
           injection Hw as <- <-.
           split; [exact Ho|]. split; [exact Hm|]. split; [lia|].
           exists t, et. repeat split; assumption.
    + exfalso. apply (Hdead (STM_ABORT_WW_CONFLICT P)).
      apply (write_foreign P fuel addr value mask s Hown Hc Hirr).
Qed.

End StoreResult.

(** ** The states a load of an active transaction returns in *)

Section LoadResult.

Variable P : platform.

Lemma read_added_irrevocable lock version s :
  tx_irrevocable (st_tx (read_added lock version s)) = tx_irrevocable (st_tx s).
Proof.
  unfold read_added, rs_grown. cbn.
  destruct (_ =? _)%nat; reflexivity.
Qed.

(** A load that returns with the transaction still active has changed
    neither the write set nor the shared state: it has at most added an
    entry to the read set and moved the end of the snapshot. *)
Lemma load_result fuel b s v s' :
  ws_wf P s ->
  rs_wf (st_tx s) ->
  tx_irrevocable (st_tx s) = 0 ->
  int_stm_load P fuel b s = Ret v s' ->
  IS_ACTIVE (tx_status (st_tx s')) = true ->
  tx_w_set (st_tx s') = tx_w_set (st_tx s) /\
  st_g s' = st_g s /\
  st_mem s' = st_mem s /\
  rs_wf (st_tx s') /\
  tx_irrevocable (st_tx s') = 0.
Proof.
  intros W Wr Hirr H Hact'.
  unfold int_stm_load, stm_wbetl_read in H.
  assert (Hsame : s' = s -> tx_w_set (st_tx s') = tx_w_set (st_tx s) /\
            st_g s' = st_g s /\ st_mem s' = st_mem s /\ rs_wf (st_tx s') /\
            tx_irrevocable (st_tx s') = 0).
  { intros ->. repeat split; try assumption; apply Wr. }
  assert (Hadded : forall s1 lock version,
            st_g s1 = st_g s -> st_mem s1 = st_mem s ->
            tx_w_set (st_tx s1) = tx_w_set (st_tx s) ->
            rs_wf (st_tx s1) -> tx_irrevocable (st_tx s1) = 0 ->
            s' = read_added lock version s1 ->
            tx_w_set (st_tx s') = tx_w_set (st_tx s) /\
            st_g s' = st_g s /\ st_mem s' = st_mem s /\ rs_wf (st_tx s') /\
            tx_irrevocable (st_tx s') = 0).
  { intros s1 lock version Hg Hm Hws W1 Hi1 ->.
    destruct (read_added_frame lock version s1) as (Hg' & Hm' & _ & Hws' & _).
    rewrite Hws', Hg', Hm', read_added_irrevocable.
    split; [exact Hws|]. split; [exact Hg|]. split; [exact Hm|].
    split; [apply read_added_wf; exact W1 | exact Hi1]. }
  assert (Hdead : forall reason,
            (stm_rollback P reason ;;; ret 0) s = Ret v s' -> False).
  { intros reason Hr. rewrite (rollback_zero_inactive P reason s v s' Hr) in Hact'.
    discriminate Hact'. }
  destruct (IS_ACTIVE (tx_status (st_tx s))) eqn:Hact.
  2:{ unfold stm_wbetl_read_invisible, bind, assert in H. rewrite Hact in H. discriminate H. }
  destruct fuel as [|fuel].
  { unfold stm_wbetl_read_invisible in H.
    rewrite (bind_ret _ _ s tt s) in H by (unfold assert; rewrite Hact; reflexivity).
    rewrite (bind_ret _ _ s (g_locks (st_g s) (GET_LOCK b)) s) in H by reflexivity.
    discriminate H. }
  destruct (Z.eq_dec (LOCK_GET_WRITE (g_locks (st_g s) (GET_LOCK b))) 0) as [Hfree|Hown].
  - rewrite (read_free_eq P fuel b s Hact Hfree Hirr) in H. cbv zeta in H.
    destruct (LOCK_GET_TIMESTAMP (g_locks (st_g s) (GET_LOCK b)) >? tx_end (st_tx s)).
    + destruct (read_only (tx_attr (st_tx s))) eqn:Hro.
      { exfalso. apply (Hdead _ H). }
      unfold bind at 1 in H.
      rewrite (stm_wbetl_extend_eq P s (rs_wf_bounded _ Wr)) in H.
      destruct (forallb (read_entry_ok P s) (read_set (st_tx s))).
      * cbn [Z.eqb] in H.
        set (s1 := with_tx (set_end (g_clock (st_g s))) s) in *.
        rewrite (bind_ret _ _ s1 (g_locks (st_g s) (GET_LOCK b)) s1) in H by reflexivity.
        rewrite Z.eqb_refl in H. cbn [negb] in H.
        rewrite (read_add_to_read_set_eq _ _ _ s1 Hro Wr) in H.
        injection H as _ <-.
        apply (Hadded s1 (GET_LOCK b) (LOCK_GET_TIMESTAMP (g_locks (st_g s) (GET_LOCK b))));
          try reflexivity; assumption.
      * cbn [Z.eqb] in H. exfalso. apply (Hdead _ H).
    + destruct (read_only (tx_attr (st_tx s))) eqn:Hro.
      * apply Hsame. unfold read_add_to_read_set in H.
        rewrite (bind_ret _ _ s (st_tx s) s) in H by reflexivity.
        rewrite Hro in H. inversion H. reflexivity.
      * rewrite (read_add_to_read_set_eq _ _ _ s Hro Wr) in H.
        injection H as _ <-.
        apply (Hadded s (GET_LOCK b) (LOCK_GET_TIMESTAMP (g_locks (st_g s) (GET_LOCK b))));
          try reflexivity; assumption.
  - destruct (ws_contains P (tx_w_set (st_tx s))
                (LOCK_GET_ADDR (g_locks (st_g s) (GET_LOCK b)))) eqn:Hc.
    + assert (Ho : owned_by_tx P s (GET_LOCK b)) by (split; assumption).
      destruct (wf_bucket P s b W Ho) as [(j & ej & _ & Hbe)|(t & et & _ & Hbt & _)].
      * rewrite (read_own P fuel b s j ej Hact Ho Hbe) in H.
        apply Hsame. inversion H. reflexivity.
      * rewrite (read_own_tail P fuel b s t et Hact Ho Hbt) in H.
        apply Hsame. inversion H. reflexivity.
    + exfalso. apply (Hdead (STM_ABORT_RW_CONFLICT P)).
      rewrite <- H. symmetry.
      apply (read_foreign_eq P fuel b s Hact Hown Hc Hirr).
Qed.

End LoadResult.

(** ** The entry for an address outlives other loads and stores *)

Section EntryKept.

Variable P : platform.

(** A walk survives changes that keep the address and the links of the
    entries in use. *)
Lemma reaches_kept s s' a i k :
  ws_wf P s ->
  ws_entries (tx_w_set (st_tx s')) = ws_entries (tx_w_set (st_tx s)) ->
  (forall x e, (x < ws_nb_entries (tx_w_set (st_tx s)))%nat ->
     ws_slots (tx_w_set (st_tx s)) !! x = Some e ->
     exists e', ws_slots (tx_w_set (st_tx s')) !! x = Some e' /\
       w_addr e' = w_addr e /\
       (w_next e <> 0 -> w_next e' = w_next e) /\
       (w_addr e = a -> w_value e' = w_value e /\ w_mask e' = w_mask e)) ->
  reaches P (tx_w_set (st_tx s)) a i k ->
  (i < ws_nb_entries (tx_w_set (st_tx s)))%nat ->
  reaches P (tx_w_set (st_tx s')) a i k.
Proof.
  intros W Hb Hslots Hr.
  induction Hr as [i|i j k e He Ha Hn0 Hn Hij Hr IH]; intros Hi; [constructor|].
  destruct (Hslots i e Hi He) as (e' & He' & Hae & Hne & _).
  apply (reaches_step P _ a i j k e').
  - exact He'.
  - rewrite Hae. exact Ha.
  - rewrite (Hne Hn0). exact Hn0.
  - rewrite (Hne Hn0), Hn. unfold w_ptr. rewrite Hb. reflexivity.
  - exact Hij.
  - apply IH.
    destruct (wf_next P s W i e Hi He) as [H0|(j' & e0 & Hj' & Hnx & _)]; [contradiction|].
    rewrite Hnx in Hn. apply w_ptr_inj in Hn. lia.
Qed.

(** The entry for [a] in its bucket, with its value and mask, survives
    them too, and the transaction keeps the lock. *)
Lemma entry_kept s s' a j ej :
  ws_wf P s ->
  owned_by_tx P s (GET_LOCK a) ->
  bucket_entry P s a j ej ->
  ws_entries (tx_w_set (st_tx s')) = ws_entries (tx_w_set (st_tx s)) ->
  g_locks (st_g s') (GET_LOCK a) = g_locks (st_g s) (GET_LOCK a) ->
  (ws_nb_entries (tx_w_set (st_tx s)) <= ws_nb_entries (tx_w_set (st_tx s')))%nat ->
  (forall x e, (x < ws_nb_entries (tx_w_set (st_tx s)))%nat ->
     ws_slots (tx_w_set (st_tx s)) !! x = Some e ->
     exists e', ws_slots (tx_w_set (st_tx s')) !! x = Some e' /\
       w_addr e' = w_addr e /\
       (w_next e <> 0 -> w_next e' = w_next e) /\
       (w_addr e = a -> w_value e' = w_value e /\ w_mask e' = w_mask e)) ->
  owned_by_tx P s' (GET_LOCK a) /\
  exists ej', bucket_entry P s' a j ej' /\
    w_value ej' = w_value ej /\ w_mask ej' = w_mask ej.
Proof.
  intros W [Ho Hc] (h & Hh & Hr & Hj & Ha) Hb Hl Hn Hslots.
  assert (Hhn : (h < ws_nb_entries (tx_w_set (st_tx s)))%nat).
  { rewrite Hh, ws_contains_ptr in Hc. apply Nat.ltb_lt. exact Hc. }
  pose proof (reaches_in_use P s a h j W Hr Hhn) as Hjn.
  split.
  - split; [rewrite Hl; exact Ho|]. rewrite Hl.
    apply (ws_contains_grow P (tx_w_set (st_tx s))); [exact Hb | exact Hn|].
    rewrite Hh, ws_contains_ptr. apply Nat.ltb_lt. exact Hhn.
  - destruct (Hslots j ej Hjn Hj) as (ej' & Hj' & Haj & _ & Hvm).
    exists ej'. split; [|apply Hvm; exact Ha].
    exists h. split.
    { rewrite Hl, Hh. unfold w_ptr. rewrite Hb. reflexivity. }
    split; [apply (reaches_kept s s' a h j W Hb Hslots Hr Hhn)|].
    split; [exact Hj' | rewrite Haj; exact Ha].
Qed.

End EntryKept.

Section Continues.

Variable P : platform.

Lemma stm_write_inv fuel b value mask s w s' :
  stm_write P fuel b value mask s = Ret w s' ->
  IS_ACTIVE (tx_status (st_tx s)) = true /\
  exists fuel', fuel = S fuel' /\ stm_wbetl_write P (S fuel') b value mask s = Ret w s'.
Proof.
  unfold stm_write, bind, assert. intros H.
  destruct (IS_ACTIVE (tx_status (st_tx s))); [|discriminate H].
  split; [reflexivity|].
  destruct fuel as [|fuel']; [discriminate H|]. exists fuel'. split; [reflexivity | exact H].
Qed.

(** A store to another address keeps the entry for [a]. *)
Lemma store_keeps_entry a fuel b value mask s w s' j ej :
  ws_wf P s ->
  rs_wf (st_tx s) ->
  tx_irrevocable (st_tx s) = 0 ->
  owned_by_tx P s (GET_LOCK a) ->
  bucket_entry P s a j ej ->
  b <> a ->
  stm_write P fuel b value mask s = Ret w s' ->
  IS_ACTIVE (tx_status (st_tx s')) = true ->
  ws_wf P s' /\ rs_wf (st_tx s') /\ tx_irrevocable (st_tx s') = 0 /\
  owned_by_tx P s' (GET_LOCK a) /\
  exists ej', bucket_entry P s' a j ej' /\
    w_value ej' = w_value ej /\ w_mask ej' = w_mask ej.
Proof.
  intros W Wr Hirr Ho Hbe Hba Hw Hact'.
  destruct (stm_write_inv fuel b value mask s w s' Hw) as (_ & fuel' & _ & Hw').
  pose proof (wf_length P s W) as Hlen.
  destruct (write_result_active P fuel' b value mask s w s' W Hirr (rs_wf_bounded _ Wr)
              Hw' Hact')
    as [(_ & _ & ->)|[(Hfree & Hroom & -> & _)|[(Hob & Hm & j' & ej' & Hj' & Hbe' & -> & _)
       |(Hob & Hm & Hroom & t & et & Ht & Hbt & Htl & -> & _)]]].
  - split; [exact W|]. split; [exact Wr|]. split; [exact Hirr|]. split; [exact Ho|].
    exists ej. split; [exact Hbe|]. split; reflexivity.
  - split; [apply wf_acquired; assumption|].
    split; [exact Wr|]. split; [exact Hirr|].
    apply (entry_kept P s _ a j ej W Ho Hbe); [reflexivity | | cbn; lia |].
    + cbn. unfold upd.
      destruct (Z.eqb_spec (GET_LOCK a) (GET_LOCK b)) as [He|He]; [|reflexivity].
      exfalso. destruct Ho as [Hoa _]. rewrite He in Hoa. contradiction.
    + intros x e Hx He. exists e. cbn.
      rewrite list_lookup_insert_ne by lia.
      split; [exact He|]. split; [reflexivity|]. split; [reflexivity|]. split; reflexivity.
  - destruct Hbe' as (h' & Hh' & Hr' & Hslot' & Ha').
    split; [apply wf_merged; assumption|].
    split; [exact Wr|]. split; [exact Hirr|].
    apply (entry_kept P s _ a j ej W Ho Hbe); [reflexivity | reflexivity | cbn; lia |].
    intros x e Hx He. cbn.
    destruct (Nat.eq_dec x j') as [->|Hne].
    + rewrite Hslot' in He. injection He as <-.
      eexists. split; [apply list_lookup_insert_eq; apply (lookup_lt_Some _ _ _ Hslot')|].
      cbn. split; [reflexivity|]. split; [reflexivity|].
      intros Hc. exfalso. apply Hba. rewrite <- Ha', Hc. reflexivity.
    + exists e. rewrite list_lookup_insert_ne by congruence.
      split; [exact He|]. split; [reflexivity|]. split; [reflexivity|]. split; reflexivity.
  - destruct Hbt as (h' & Hh' & Hr' & Hslot' & Ha' & Hn').
    split.
    { apply wf_appended; assumption. }
    split; [exact Wr|]. split; [exact Hirr|].
    apply (entry_kept P s _ a j ej W Ho Hbe); [reflexivity | reflexivity | cbn; lia |].
    intros x e Hx He. cbn.
    destruct (Nat.eq_dec x t) as [->|Hne].
    + rewrite Hslot' in He. injection He as <-.
      eexists. split.
      { apply list_lookup_insert_eq. rewrite length_insert.
        apply (lookup_lt_Some _ _ _ Hslot'). }
      cbn. split; [reflexivity|]. split; [intros Hc; contradiction|]. split; reflexivity.
    + exists e. rewrite !list_lookup_insert_ne by lia.
      split; [exact He|]. split; [reflexivity|]. split; [reflexivity|]. split; reflexivity.
Qed.

(** A load keeps it as well. *)
Lemma load_keeps_entry a fuel b s v s' j ej :
  ws_wf P s ->
  rs_wf (st_tx s) ->
  tx_irrevocable (st_tx s) = 0 ->
  owned_by_tx P s (GET_LOCK a) ->
  bucket_entry P s a j ej ->
  int_stm_load P fuel b s = Ret v s' ->
  IS_ACTIVE (tx_status (st_tx s')) = true ->
  ws_wf P s' /\ rs_wf (st_tx s') /\ tx_irrevocable (st_tx s') = 0 /\
  owned_by_tx P s' (GET_LOCK a) /\ bucket_entry P s' a j ej.
Proof.
  intros W Wr Hirr Ho Hbe Hl Hact'.
  destruct (load_result P fuel b s v s' W Wr Hirr Hl Hact') as (Hws & Hg & _ & Wr' & Hirr').
  split; [apply (ws_wf_ext P s); [exact Hws | rewrite Hg; reflexivity | exact W]|].
  split; [exact Wr'|]. split; [exact Hirr'|].
  split; [apply (owned_by_tx_ext P s); [exact Hws | rewrite Hg; reflexivity | exact Ho]|].
  unfold bucket_entry in *. rewrite Hws, Hg. exact Hbe.
Qed.

(** So the entry for [a] is still there, with its value, when the
    transaction has gone on. *)
Lemma continues_keeps_entry a s1 s2 :
  tx_continues P a s1 s2 ->
  forall j ej,
    ws_wf P s1 ->
    rs_wf (st_tx s1) ->
    tx_irrevocable (st_tx s1) = 0 ->
    IS_ACTIVE (tx_status (st_tx s1)) = true ->
    owned_by_tx P s1 (GET_LOCK a) ->
    bucket_entry P s1 a j ej ->
    IS_ACTIVE (tx_status (st_tx s2)) = true /\
    owned_by_tx P s2 (GET_LOCK a) /\
    exists ej', bucket_entry P s2 a j ej' /\
      w_value ej' = w_value ej /\ w_mask ej' = w_mask ej.
Proof.
  induction 1 as [s|s fuel b v s1 s2 Hl Hact1 Hc IH|s fuel b value mask w s1 s2 Hba Hw Hact1 Hc IH];
    intros j ej W Wr Hirr Hact Ho Hbe.
  - split; [exact Hact|]. split; [exact Ho|]. exists ej. split; [exact Hbe|]. split; reflexivity.
  - destruct (load_keeps_entry a fuel b s v s1 j ej W Wr Hirr Ho Hbe Hl Hact1)
      as (W1 & Wr1 & Hirr1 & Ho1 & Hbe1).
    apply (IH j ej W1 Wr1 Hirr1 Hact1 Ho1 Hbe1).
  - destruct (store_keeps_entry a fuel b value mask s w s1 j ej W Wr Hirr Ho Hbe Hba Hw Hact1)
      as (W1 & Wr1 & Hirr1 & Ho1 & ej1 & Hbe1 & Hv1 & Hm1).
    destruct (IH j ej1 W1 Wr1 Hirr1 Hact1 Ho1 Hbe1) as (Hact2 & Ho2 & ej2 & Hbe2 & Hv2 & Hm2).
    split; [exact Hact2|]. split; [exact Ho2|].
    exists ej2. split; [exact Hbe2|]. split; congruence.
Qed.

End Continues.

Section StoreEntry.

Variable P : platform.

Lemma new_value_formula m value mask :
  mask <> 0 -> Word.in_range value ->
  new_value m value mask = merged_value m value mask.
Proof.
  intros Hm Hv. unfold new_value.
  apply Z.eqb_neq in Hm. rewrite Hm.
  destruct (Z.eqb_spec mask Word.ones) as [->|_]; cbn [negb]; [|reflexivity].
  symmetry. apply merged_value_full. exact Hv.
Qed.

(** The entry a store of [value] under a mask other than 0 leaves for
    the address: its value is [(old & ~mask) | (value & mask)], [old]
    being the word in memory when the lock was free or the entry had
    mask 0, and the value the write set had for the address otherwise,
    which is what a load of the address returned before the store. *)
Lemma store_gives_entry fuel fuel' a value mask s w s1 :
  ws_wf P s ->
  rs_wf (st_tx s) ->
  tx_irrevocable (st_tx s) = 0 ->
  IS_ACTIVE (tx_status (st_tx s)) = true ->
  mask <> 0 -> Word.in_range mask -> Word.in_range value ->
  stm_wbetl_write P (S fuel) a value mask s = Ret w s1 ->
  IS_ACTIVE (tx_status (st_tx s1)) = true ->
  exists old j ej,
    (LOCK_GET_OWNED (g_locks (st_g s) (GET_LOCK a)) = 0 -> old = st_mem s a) /\
    (LOCK_GET_OWNED (g_locks (st_g s) (GET_LOCK a)) <> 0 ->
       stm_wbetl_read_invisible P (S fuel') a s = Ret old s) /\
    w = w_ptr P (tx_w_set (st_tx s1)) j /\
    ws_wf P s1 /\ rs_wf (st_tx s1) /\ tx_irrevocable (st_tx s1) = 0 /\
    owned_by_tx P s1 (GET_LOCK a) /\ bucket_entry P s1 a j ej /\
    w_mask ej <> 0 /\ w_value ej = merged_value old value mask.
Proof.
  intros W Wr Hirr Hact Hm Hmr Hvr Hw Hact1.
  pose proof (wf_length P s W) as Hlen.
  destruct (write_result_active P fuel a value mask s w s1 W Hirr (rs_wf_bounded _ Wr)
              Hw Hact1)
    as [(_ & Hm0 & _)|[(Hfree & Hroom & -> & ->)|[(Hob & _ & j0 & ej0 & Hj0 & Hbe0 & -> & ->)
       |(Hob & _ & Hroom & t & et & Ht & Hbt & Htl & -> & ->)]]].
  - contradiction.
  - destruct (acquired_bucket_entry P a value mask s W Hroom Hm Hmr)
      as (j & ej & Hp & Ho & Hbe & Hmj & _).
    exists (st_mem s a), j, ej.
    split; [reflexivity|]. split; [intros Hc; contradiction|].
    split; [exact Hp|]. split; [apply wf_acquired; assumption|].
    split; [exact Wr|]. split; [exact Hirr|]. split; [exact Ho|]. split; [exact Hbe|].
    split; [exact Hmj|].
    assert (Hjn : j = ws_nb_entries (tx_w_set (st_tx s))).
    { symmetry. apply (w_ptr_inj P (tx_w_set (st_tx s))). exact Hp. }
    destruct Hbe as (h & _ & _ & Hslot & _). subst j. cbn in Hslot.
    rewrite list_lookup_insert_eq in Hslot by lia.
    injection Hslot as <-. cbn. apply new_value_formula; assumption.
  - destruct (merged_bucket_entry P a value mask s j0 ej0 Hob Hbe0 Hm Hmr Hvr)
      as (j & ej & Hp & Ho & Hbe & Hmj & _).
    pose proof Hbe0 as (h0 & _ & _ & Hslot0 & _).
    exists (if w_mask ej0 =? 0 then st_mem s a else w_value ej0), j, ej.
    split; [intros Hc; destruct Hob as [Hob _]; contradiction|].
    split; [intros _; apply (read_own P fuel' a s j0 ej0 Hact Hob Hbe0)|].
    split; [exact Hp|]. split; [apply wf_merged; assumption|].
    split; [exact Wr|]. split; [exact Hirr|]. split; [exact Ho|]. split; [exact Hbe|].
    split; [exact Hmj|].
    assert (Hjn : j = j0).
    { symmetry. apply (w_ptr_inj P (tx_w_set (st_tx s))). exact Hp. }
    destruct Hbe as (h & _ & _ & Hslot & _). subst j. cbn in Hslot.
    rewrite list_lookup_insert_eq in Hslot by (apply (lookup_lt_Some _ _ _ Hslot0)).
    injection Hslot as <-. cbn. apply updated_value_formula. exact Hvr.
  - destruct (appended_bucket_entry P a value mask s t et W Hob Hbt Ht Hroom Hm Hmr)
      as (j & ej & Hp & Ho & Hbe & Hmj & _).
    pose proof Hbt as (h0 & _ & _ & Hslot0 & _ & Hn0).
    exists (st_mem s a), j, ej.
    split; [reflexivity|].
    split; [intros _; apply (read_own_tail P fuel' a s t et Hact Hob Hbt)|].
    split; [exact Hp|]. split; [apply wf_appended; assumption|].
    split; [exact Wr|]. split; [exact Hirr|]. split; [exact Ho|]. split; [exact Hbe|].
    split; [exact Hmj|].
    assert (Hjn : j = ws_nb_entries (tx_w_set (st_tx s))).
    { symmetry. apply (w_ptr_inj P (tx_w_set (st_tx s))). exact Hp. }
    destruct Hbe as (h & _ & _ & Hslot & _). subst j. cbn in Hslot.
    rewrite list_lookup_insert_ne in Hslot by lia.
    rewrite list_lookup_insert_eq in Hslot by lia.
    injection Hslot as <-. cbn. apply new_value_formula; assumption.
Qed.

End StoreEntry.

(** C3.  In an active transaction, let a store of [value] under a mask
    other than 0 to the address [a] return with the transaction still
    active, and let the transaction go on with any sequence of loads, of
    any address, and of stores to other addresses, each of which returns
    with the transaction still active.  Then a load of [a] returns
    [v = (old & ~mask) | (value & mask)] and leaves the state, and so the
    read set, exactly as it is.  Here [old] is the word of [a] in memory
    when the lock of [a] was free before the store, and the value a load
    of [a] returned before the store when the transaction held the lock;
    [v] is the value of the write-set entry the store returned, it has the
    bits of [value] at the positions of the mask, and it is [value] when
    the mask is full.  The write set may be full at any of the stores.
    The transaction is not irrevocable, its write set is well formed
    ([ws_wf]) and its read set has its array ([rs_wf]) before the store;
    [value] and [mask] are machine words. *)
Theorem read_after_write
    (P : platform) (fuel fuel' : nat) (a value mask : Z)
    (s : state) (w : Z) (s1 s2 : state) :
  ws_wf P s ->
  rs_wf (st_tx s) ->
  tx_irrevocable (st_tx s) = 0 ->
  mask <> 0 ->
  Word.in_range mask ->
  Word.in_range value ->
  stm_write P fuel a value mask s = Ret w s1 ->
  IS_ACTIVE (tx_status (st_tx s1)) = true ->
  tx_continues P a s1 s2 ->
  exists old,
    (LOCK_GET_OWNED (g_locks (st_g s) (GET_LOCK a)) = 0 -> old = st_mem s a) /\
    (LOCK_GET_OWNED (g_locks (st_g s) (GET_LOCK a)) <> 0 ->
       int_stm_load P (S fuel') a s = Ret old s) /\
    let v := Z.lor (Z.land old (Word.not mask)) (Z.land value mask) in
    (exists e, w_lookup P (tx_w_set (st_tx s1)) w = Some e /\
               w_addr e = a /\ w_value e = v) /\
    IS_ACTIVE (tx_status (st_tx s2)) = true /\
    int_stm_load P (S fuel') a s2 = Ret v s2 /\
    tx_r_set (st_tx (final (int_stm_load P (S fuel') a s2))) = tx_r_set (st_tx s2) /\
    Z.land v mask = Z.land value mask /\
    (mask = Word.ones -> v = value).
Proof.
  intros W Wr Hirr Hm Hmr Hvr Hw Hact1 Hc.
  destruct (stm_write_inv P fuel a value mask s w s1 Hw) as (Hact & f0 & -> & Hw').
  destruct (store_gives_entry P f0 fuel' a value mask s w s1
              W Wr Hirr Hact Hm Hmr Hvr Hw' Hact1)
    as (old & j & ej & Hfree & Hown & -> & W1 & Wr1 & Hirr1 & Ho1 & Hbe1 & Hmj & Hv).
  destruct (continues_keeps_entry P a s1 s2 Hc j ej W1 Wr1 Hirr1 Hact1 Ho1 Hbe1)
    as (Hact2 & Ho2 & ej2 & Hbe2 & Hv2 & Hm2).
  assert (Hload : int_stm_load P (S fuel') a s2 = Ret (merged_value old value mask) s2).
  { unfold int_stm_load, stm_wbetl_read.
    rewrite (read_own P fuel' a s2 j ej2 Hact2 Ho2 Hbe2), Hm2.
    apply Z.eqb_neq in Hmj. rewrite Hmj, Hv2, Hv. reflexivity. }
  exists old. split; [exact Hfree|]. split; [exact Hown|].
  cbv zeta. fold (merged_value old value mask).
  split.
  { exists ej. destruct Hbe1 as (h & _ & _ & Hslot & Ha).
    split; [rewrite w_lookup_ptr; exact Hslot|]. split; [exact Ha | exact Hv]. }
  split; [exact Hact2|]. split; [exact Hload|].
  split; [rewrite Hload; reflexivity|].
  split; [apply merged_value_masked; exact Hmr|].
  intros ->. apply merged_value_full. exact Hvr.
Qed.

Lemma read_after_write_witness :
  exists s1 s2 s3 s4,
    stm_write sample_platform 1 224 85 240 (sample_active true) = Ret 4096 s1 /\
    int_stm_load sample_platform 1 96 s1 = Ret 0 s2 /\
    stm_write sample_platform 1 320 77 Word.ones s2 = Ret 4160 s3 /\
    stm_write sample_platform 2 232 3 15 s3 = Ret 4224 s4 /\
    int_stm_load sample_platform 2 224 (sample_active true) = Ret 9 (sample_active true) /\
    int_stm_load sample_platform 2 224 s4 = Ret 89 s4.
Proof.
  pose (s0 := sample_active true).
  pose (s1 := final (stm_write sample_platform 1 224 85 240 s0)).
  pose (s2 := final (int_stm_load sample_platform 1 96 s1)).
  pose (s3 := final (stm_write sample_platform 1 320 77 Word.ones s2)).
  pose (s4 := final (stm_write sample_platform 2 232 3 15 s3)).
  assert (H1 : stm_write sample_platform 1 224 85 240 s0 = Ret 4096 s1) by reflexivity.
  assert (H2 : int_stm_load sample_platform 1 96 s1 = Ret 0 s2) by reflexivity.
  assert (H3 : stm_write sample_platform 1 320 77 Word.ones s2 = Ret 4160 s3) by reflexivity.
  assert (H4 : stm_write sample_platform 2 232 3 15 s3 = Ret 4224 s4) by reflexivity.
  assert (H0 : int_stm_load sample_platform 2 224 s0 = Ret 9 s0) by reflexivity.
  exists s1, s2, s3, s4.
  split; [exact H1|]. split; [exact H2|]. split; [exact H3|]. split; [exact H4|].
  split; [exact H0|].
  assert (Hc : tx_continues sample_platform 224 s1 s4).
  { apply (continues_load sample_platform 224 s1 1 96 0 s2 s4 H2 eq_refl).
    apply (continues_store sample_platform 224 s2 1 320 77 Word.ones 4160 s3 s4);
      [discriminate | exact H3 | reflexivity |].
    apply (continues_store sample_platform 224 s3 2 232 3 15 4224 s4 s4);
      [discriminate | exact H4 | reflexivity |].
    apply continues_here. }
  assert (Hr : rs_wf (st_tx s0)) by (unfold rs_wf; cbn; lia).
  assert (Hm : 240 <> 0) by discriminate.
  assert (Hmr : Word.in_range 240) by (vm_compute; split; [discriminate | reflexivity]).
  assert (Hvr : Word.in_range 85) by (vm_compute; split; [discriminate | reflexivity]).
  destruct (read_after_write sample_platform 1 1 224 85 240 s0 4096 s1 s4
              (sample_active_wf true) Hr eq_refl Hm Hmr Hvr H1 eq_refl Hc)
    as (old & _ & Hown & _ & _ & Hload & _).
  assert (Ho : LOCK_GET_OWNED (g_locks (st_g s0) (GET_LOCK 224)) <> 0) by discriminate.
  specialize (Hown Ho). rewrite H0 in Hown. injection Hown as <-.
  exact Hload.
Defined.
